(** * Madrona: job creation, the simple task-graph example and the task graph

    A shallow embedding of
    - [include/madrona/utils.hpp]      (roundUpPow2, isPower2),
    - [include/madrona/math.inl]       (Vector3, Mat3x4, AABB),
    - [examples/simple_taskgraph/simple.cpp] (the constructors and the
      five Systems of the example),
    - [include/madrona/job.inl]        (Context::queueJob, JobManager::makeJob,
      JobManager::queueJob, JobManager::deallocJob),
    and a model of the task graph (registration, epochs) that follows the
    specification, followed by the properties of these programs.

    Conventions.  A [uint32_t] is a [Z] in [0, 2^32) with the wrap-around
    written out ([u32]).  A C array is a [list]; an access outside the
    array is undefined behaviour in C++ and makes the embedded function
    return [None].  [float] is kept abstract (class [FloatOps]): nothing
    below depends on rounding.  A System invocation is one step: the
    statements about the example run the invocations of a System one
    after the other, in any order. *)

From Stdlib Require Import ZArith List Bool Lia Floats String.
From stdpp Require Import base option list gmap.
Import ListNotations.

Local Open Scope Z_scope.

(** ** Machine integers *)

Module Word.

Definition u32 (z : Z) : Z := z mod 2 ^ 32.
Definition u64 (z : Z) : Z := z mod 2 ^ 64.

(** [(int)v] for a [uint32_t v] (two's complement). *)
Definition to_int (v : Z) : Z := if v <? 2 ^ 31 then v else v - 2 ^ 32.

Definition is_u32 (z : Z) : Prop := 0 <= z < 2 ^ 32.

(** [for (int i = 0; i < n; i++)]: the values [i] takes. *)
Definition int_range (n : Z) : list Z := map Z.of_nat (seq 0 (Z.to_nat n)).

(** [std::atomic_uint32_t]: the three operations the sources use.  Run
    sequentially, an atomic is a cell holding a [uint32_t]. *)
Definition atomic_load (cell : Z) : Z := cell.
Definition atomic_store (v : Z) : Z := u32 v.
Definition atomic_fetch_add (cell d : Z) : Z * Z := (cell, u32 (cell + d)).

End Word.
Import Word.

(** ** utils.hpp *)

Module utils.

(** [constexpr inline uint64_t roundUpPow2(uint64_t offset, uint64_t alignment)] *)
Definition roundUpPow2 (offset alignment : Z) : Z :=
  Z.land (u64 (offset + alignment - 1)) (u64 (- alignment)).

(** [constexpr inline bool isPower2(uint64_t v)] *)
Definition isPower2 (v : Z) : bool := Z.land v (u64 (v - 1)) =? 0.

(** [constexpr inline bool isPower2(uint32_t v)], the second overload. *)
Definition isPower2_u32 (v : Z) : bool := Z.land v (u32 (v - 1)) =? 0.

(** [template <typename T> constexpr inline T divideRoundUp(T a, T b)] at an
    unsigned [T] of [w] bits ([uint32_t], [uint64_t]): the sum wraps at
    [2^w]; dividing by zero is undefined. *)
Definition divideRoundUp (w : Z) (a b : Z) : option Z :=
  if b =? 0 then None else Some (((a + (b - 1)) mod 2 ^ w) / b).

(** [template <typename T> constexpr inline T roundUp(T offset, T alignment)] *)
Definition roundUp (w : Z) (offset alignment : Z) : option Z :=
  q ← divideRoundUp w offset alignment;
  Some ((q * alignment) mod 2 ^ w).

(** The number of 0-bits of [x] above its highest 1-bit, among the lowest
    [bits] bits. *)
Fixpoint leading_zeros (bits : nat) (x : Z) : Z :=
  match bits with
  | O => 0
  | S n => if Z.testbit x (Z.of_nat n) then 0 else 1 + leading_zeros n x
  end.

(** [__builtin_clz(unsigned int)] and [__builtin_clzll(unsigned long long)]:
    the number of leading 0-bits; the result is undefined for 0. *)
Definition builtin_clz (x : Z) : option Z :=
  if x =? 0 then None else Some (leading_zeros 32 x).
Definition builtin_clzll (x : Z) : option Z :=
  if x =? 0 then None else Some (leading_zeros 64 x).

(** [constexpr inline uint32_t int32NextPow2(uint32_t v)].  Shifting a
    32-bit [1u] by 32 or more is undefined. *)
Definition int32NextPow2 (v : Z) : option Z :=
  if v =? 1 then Some 1
  else
    lz ← builtin_clz (u32 (v - 1));
    let s := u32 (32 - lz) in
    if s <? 32 then Some (u32 (Z.shiftl 1 s)) else None.

(** [constexpr inline uint32_t int32Log2(uint32_t v)]; [sizeof(unsigned int)]
    is 4 and the subtraction is made in [size_t]. *)
Definition int32Log2 (v : Z) : option Z :=
  lz ← builtin_clz v;
  Some (u32 (u64 (u64 (4 * 8 - lz) - 1))).

(** [constexpr inline uint64_t int64Log2(uint64_t v)]; [sizeof(unsigned long
    long)] is 8. *)
Definition int64Log2 (v : Z) : option Z :=
  lz ← builtin_clzll v;
  Some (u64 (u64 (8 * 8 - lz) - 1)).

(** [constexpr inline uint32_t int32Hash(uint32_t x)] *)
Definition int32Hash (x : Z) : Z :=
  let x := Z.lxor x (Z.shiftr x 16) in
  let x := u32 (x * 0x7feb352d) in
  let x := Z.lxor x (Z.shiftr x 15) in
  let x := u32 (x * 0x846ca68b) in
  let x := Z.lxor x (Z.shiftr x 16) in
  x.

(** [class SpinLock], one call at a time: [lock_] is the [std::atomic_flag].
    [lockNoSpin] returns whether it took the lock. *)
Record SpinLock := mkSpinLock { lock_ : bool }.

(** [lock_.test_and_set(...)]: the previous value, and the flag set. *)
Definition test_and_set (l : SpinLock) : bool * SpinLock :=
  (lock_ l, mkSpinLock true).

(** [bool SpinLock::lockNoSpin()] *)
Definition lockNoSpin (l : SpinLock) : bool * SpinLock :=
  let '(prev_locked, l) := test_and_set l in
  if prev_locked then (false, l) else (true, l).

(** [void SpinLock::unlock()] *)
Definition unlock (l : SpinLock) : SpinLock := mkSpinLock false.

(** Where a thread stands with respect to a lock: outside, inside
    [lock()] before its [test_and_set], inside [lock()] in the inner loop
    on [test], or past a successful [lock()] or [lockNoSpin()]. *)
Inductive Caller := Outside | AtTestAndSet | AtTest | Holding.

(** What a thread does next: call [lock()], call [lockNoSpin()], make the
    next memory access of the [lock()] it is in, or call [unlock()]. *)
Inductive LockAction := CallLock | CallLockNoSpin | Advance | CallUnlock.

Record LockWorld := mkLockWorld {
  the_lock : SpinLock;
  callers : list Caller;
}.

(** One step of thread [t]; each step makes at most one access to the
    flag.  A thread calls [unlock()] only for a lock it holds. *)
Definition lock_step (w : LockWorld) (ta : nat * LockAction) : option LockWorld :=
  let '(t, a) := ta in
  c ← callers w !! t;
  match c, a with
  | Outside, CallLock =>
      Some (mkLockWorld (the_lock w) (<[t := AtTestAndSet]> (callers w)))
  | Outside, CallLockNoSpin =>
      let '(got, l) := lockNoSpin (the_lock w) in
      Some (mkLockWorld l (if got then <[t := Holding]> (callers w)
                           else callers w))
  | AtTestAndSet, Advance =>
      (* while (lock_.test_and_set(std::memory_order_acquire)) *)
      let '(prev, l) := test_and_set (the_lock w) in
      Some (mkLockWorld l (<[t := if prev then AtTest else Holding]> (callers w)))
  | AtTest, Advance =>
      (* while (lock_.test(std::memory_order_relaxed)) {} *)
      Some (mkLockWorld (the_lock w)
              (if lock_ (the_lock w) then callers w
               else <[t := AtTestAndSet]> (callers w)))
  | Holding, CallUnlock =>
      Some (mkLockWorld (unlock (the_lock w)) (<[t := Outside]> (callers w)))
  | _, _ => None
  end.

(** [n] threads and a lock nobody holds. *)
Definition lock_init (n : nat) : LockWorld :=
  mkLockWorld (mkSpinLock false) (replicate n Outside).

Definition is_holding (c : Caller) : bool :=
  match c with Holding => true | _ => false end.

(** How many threads hold the lock. *)
Definition holders (w : LockWorld) : nat :=
  length (List.filter is_holding (callers w)).

End utils.

(** ** Floating point, abstractly *)

Class FloatOps := {
  float : Type;
  f_zero : float;                         (* 0.f *)
  f_one : float;                          (* 1.f *)
  f_two : float;                          (* 2.f *)
  f_max : float;                          (* FLT_MAX *)
  fneg : float -> float;                  (* unary minus *)
  fadd : float -> float -> float;
  fsub : float -> float -> float;
  fmul : float -> float -> float;
  fdiv : float -> float -> float;
  fsqrtf : float -> float;                (* sqrtf *)
  frsqrtf : float -> float;               (* rsqrtf, GPU only *)
  flt : float -> float -> bool;           (* operator< *)
}.

(** IEEE binary64 as an instance, used to evaluate the definitions on
    concrete inputs.  ([float] of the sources is binary32; the examples
    use values both formats represent exactly.) *)
Definition prim_float_ops : FloatOps := {|
  float := PrimFloat.float;
  f_zero := 0%float;
  f_one := 1%float;
  f_two := 2%float;
  f_max := 0x1.fffffep+127%float;
  fneg := PrimFloat.opp;
  fadd := PrimFloat.add;
  fsub := PrimFloat.sub;
  fmul := PrimFloat.mul;
  fdiv := PrimFloat.div;
  fsqrtf := PrimFloat.sqrt;
  frsqrtf := fun v => PrimFloat.div 1%float (PrimFloat.sqrt v);
  flt := PrimFloat.ltb;
|}.

(** ** math.inl *)

Section Math.
Context {FO : FloatOps}.
(** [#ifdef MADRONA_GPU_MODE] *)
Variable MADRONA_GPU_MODE : bool.

Record Vector3 := mkVector3 { v_x : float; v_y : float; v_z : float }.
Record Quat := mkQuat { q_w : float; q_x : float; q_y : float; q_z : float }.
Record Diag3x3 := mkDiag3x3 { d0 : float; d1 : float; d2 : float }.
Record Mat3x4 := mkMat3x4 { cols0 : Vector3; cols1 : Vector3;
                            cols2 : Vector3; cols3 : Vector3 }.
Record AABB := mkAABB { pMin : Vector3; pMax : Vector3 }.

(** [Vector3::length2] *)
Definition Vector3_length2 (v : Vector3) : float :=
  fadd (fadd (fmul (v_x v) (v_x v)) (fmul (v_y v) (v_y v)))
       (fmul (v_z v) (v_z v)).

(** [Vector3::length] *)
Definition Vector3_length (v : Vector3) : float := fsqrtf (Vector3_length2 v).

(** [Vector3::invLength] *)
Definition Vector3_invLength (v : Vector3) : float :=
  if MADRONA_GPU_MODE then frsqrtf (Vector3_length2 v)
  else fdiv f_one (Vector3_length v).

(** [operator+=(const Vector3 &)], [operator+(Vector3, const Vector3 &)] *)
Definition Vector3_add (a b : Vector3) : Vector3 :=
  mkVector3 (fadd (v_x a) (v_x b)) (fadd (v_y a) (v_y b)) (fadd (v_z a) (v_z b)).

(** [operator-=(const Vector3 &)], [operator-(Vector3, const Vector3 &)] *)
Definition Vector3_sub (a b : Vector3) : Vector3 :=
  mkVector3 (fsub (v_x a) (v_x b)) (fsub (v_y a) (v_y b)) (fsub (v_z a) (v_z b)).

(** [operator*=(float)], [operator*(Vector3, float)] *)
Definition Vector3_scale (a : Vector3) (o : float) : Vector3 :=
  mkVector3 (fmul (v_x a) o) (fmul (v_y a) o) (fmul (v_z a) o).

(** [Vector3::normalize] *)
Definition Vector3_normalize (v : Vector3) : Vector3 :=
  Vector3_scale v (Vector3_invLength v).

(** [operator*(float, Diag3x3)] *)
Definition Diag3x3_scale (a : float) (b : Diag3x3) : Diag3x3 :=
  mkDiag3x3 (fmul (d0 b) a) (fmul (d1 b) a) (fmul (d2 b) a).

(** [Mat3x4::fromTRS] *)
Definition Mat3x4_fromTRS (t : Vector3) (r : Quat) (s : Diag3x3) : Mat3x4 :=
  let x2 := fmul (q_x r) (q_x r) in
  let y2 := fmul (q_y r) (q_y r) in
  let z2 := fmul (q_z r) (q_z r) in
  let xz := fmul (q_x r) (q_z r) in
  let xy := fmul (q_x r) (q_y r) in
  let yz := fmul (q_y r) (q_z r) in
  let wx := fmul (q_w r) (q_x r) in
  let wy := fmul (q_w r) (q_y r) in
  let wz := fmul (q_w r) (q_z r) in
  let ds := Diag3x3_scale f_two s in
  mkMat3x4
    (mkVector3 (fsub (d0 s) (fmul (d0 ds) (fadd y2 z2)))
               (fmul (d0 ds) (fadd xy wz))
               (fmul (d0 ds) (fsub xz wy)))
    (mkVector3 (fmul (d1 ds) (fsub xy wz))
               (fsub (d1 s) (fmul (d1 ds) (fadd x2 z2)))
               (fmul (d1 ds) (fadd yz wx)))
    (mkVector3 (fmul (d2 ds) (fadd xz wy))
               (fmul (d2 ds) (fsub yz wx))
               (fsub (d2 s) (fmul (d2 ds) (fadd x2 y2))))
    t.

(** The default third argument of [fromTRS], declared in math.hpp
    (outside the files embedded here): unit scale. *)
Definition Diag3x3_one : Diag3x3 := mkDiag3x3 f_one f_one f_one.

(** [Mat3x4::txfmPoint] *)
Definition Mat3x4_txfmPoint (m : Mat3x4) (p : Vector3) : Vector3 :=
  Vector3_add
    (Vector3_add
       (Vector3_add (Vector3_scale (cols0 m) (v_x p))
                    (Vector3_scale (cols1 m) (v_y p)))
       (Vector3_scale (cols2 m) (v_z p)))
    (cols3 m).

(** [AABB::overlaps] *)
Definition AABB_overlaps (a o : AABB) : bool :=
  let a_min := pMin a in let a_max := pMax a in
  let b_min := pMin o in let b_max := pMax o in
  flt (v_x a_min) (v_x b_max) && flt (v_x b_min) (v_x a_max) &&
  flt (v_y a_min) (v_y b_max) && flt (v_y b_min) (v_y a_max) &&
  flt (v_z a_min) (v_z b_max) && flt (v_z b_min) (v_z a_max).

(** One coordinate of [AABB::expand]: returns the new (min, max). *)
Definition expand_axis (p lo hi : float) : float * float :=
  if flt p lo then (p, hi)
  else if flt hi p then (lo, p)
  else (lo, hi).

(** [AABB::expand] *)
Definition AABB_expand (b : AABB) (p : Vector3) : AABB :=
  let '(lx, hx) := expand_axis (v_x p) (v_x (pMin b)) (v_x (pMax b)) in
  let '(ly, hy) := expand_axis (v_y p) (v_y (pMin b)) (v_y (pMax b)) in
  let '(lz, hz) := expand_axis (v_z p) (v_z (pMin b)) (v_z (pMax b)) in
  mkAABB (mkVector3 lx ly lz) (mkVector3 hx hy hz).

(** [AABB::invalid] *)
Definition AABB_invalid : AABB :=
  mkAABB (mkVector3 f_max f_max f_max)
         (mkVector3 (fneg f_max) (fneg f_max) (fneg f_max)).

(** [AABB::point] *)
Definition AABB_point (p : Vector3) : AABB := mkAABB p p.

(** [std::clamp(v, lo, hi)] *)
Definition clamp (v lo hi : float) : float :=
  if flt v lo then lo else if flt hi v then hi else v.

(** [Vector3::dot] *)
Definition Vector3_dot (a o : Vector3) : float :=
  fadd (fadd (fmul (v_x a) (v_x o)) (fmul (v_y a) (v_y o)))
       (fmul (v_z a) (v_z o)).

(** [Vector3::cross] *)
Definition Vector3_cross (a o : Vector3) : Vector3 :=
  mkVector3 (fsub (fmul (v_y a) (v_z o)) (fmul (v_z a) (v_y o)))
            (fsub (fmul (v_z a) (v_x o)) (fmul (v_x a) (v_z o)))
            (fsub (fmul (v_x a) (v_y o)) (fmul (v_y a) (v_x o))).

(** [operator*(float a, Vector3 b)]: [b * a]. *)
Definition Vector3_scale_l (a : float) (b : Vector3) : Vector3 :=
  Vector3_scale b a.

(** [operator*(Diag3x3 d, Vector3 v)] *)
Definition Diag3x3_mulVec (d : Diag3x3) (v : Vector3) : Vector3 :=
  mkVector3 (fmul (d0 d) (v_x v)) (fmul (d1 d) (v_y v)) (fmul (d2 d) (v_z v)).

(** [Quat::length2] *)
Definition Quat_length2 (q : Quat) : float :=
  fadd (fadd (fadd (fmul (q_w q) (q_w q)) (fmul (q_x q) (q_x q)))
             (fmul (q_y q) (q_y q)))
       (fmul (q_z q) (q_z q)).

(** [Quat::inv] *)
Definition Quat_inv (q : Quat) : Quat :=
  mkQuat (q_w q) (fneg (q_x q)) (fneg (q_y q)) (fneg (q_z q)).

(** [operator*(Quat a, Quat b)] *)
Definition Quat_mul (a b : Quat) : Quat :=
  mkQuat
    (fsub (fsub (fsub (fmul (q_w a) (q_w b)) (fmul (q_x a) (q_x b)))
                (fmul (q_y a) (q_y b)))
          (fmul (q_z a) (q_z b)))
    (fsub (fadd (fadd (fmul (q_w a) (q_x b)) (fmul (q_x a) (q_w b)))
                (fmul (q_y a) (q_z b)))
          (fmul (q_z a) (q_y b)))
    (fadd (fadd (fsub (fmul (q_w a) (q_y b)) (fmul (q_x a) (q_z b)))
                (fmul (q_y a) (q_w b)))
          (fmul (q_z a) (q_x b)))
    (fadd (fsub (fadd (fmul (q_w a) (q_z b)) (fmul (q_x a) (q_y b)))
                (fmul (q_y a) (q_x b)))
          (fmul (q_z a) (q_w b))).

(** [Quat::rotateVec] *)
Definition Quat_rotateVec (q : Quat) (v : Vector3) : Vector3 :=
  let pure := mkVector3 (q_x q) (q_y q) (q_z q) in
  let scalar := q_w q in
  let pure_x_v := Vector3_cross pure v in
  let pure_x_pure_x_v := Vector3_cross pure pure_x_v in
  Vector3_add v
    (Vector3_scale_l f_two
       (Vector3_add (Vector3_scale pure_x_v scalar) pure_x_pure_x_v)).

Record Mat3x3 := mkMat3x3 { m_cols0 : Vector3; m_cols1 : Vector3;
                            m_cols2 : Vector3 }.

(** [Mat3x3::fromQuat] *)
Definition Mat3x3_fromQuat (r : Quat) : Mat3x3 :=
  let x2 := fmul (q_x r) (q_x r) in
  let y2 := fmul (q_y r) (q_y r) in
  let z2 := fmul (q_z r) (q_z r) in
  let xz := fmul (q_x r) (q_z r) in
  let xy := fmul (q_x r) (q_y r) in
  let yz := fmul (q_y r) (q_z r) in
  let wx := fmul (q_w r) (q_x r) in
  let wy := fmul (q_w r) (q_y r) in
  let wz := fmul (q_w r) (q_z r) in
  mkMat3x3
    (mkVector3 (fsub f_one (fmul f_two (fadd y2 z2)))
               (fmul f_two (fadd xy wz))
               (fmul f_two (fsub xz wy)))
    (mkVector3 (fmul f_two (fsub xy wz))
               (fsub f_one (fmul f_two (fadd x2 z2)))
               (fmul f_two (fadd yz wx)))
    (mkVector3 (fmul f_two (fadd xz wy))
               (fmul f_two (fsub yz wx))
               (fsub f_one (fmul f_two (fadd x2 y2)))).

(** [Mat3x3::fromRS] *)
Definition Mat3x3_fromRS (r : Quat) (s : Diag3x3) : Mat3x3 :=
  let x2 := fmul (q_x r) (q_x r) in
  let y2 := fmul (q_y r) (q_y r) in
  let z2 := fmul (q_z r) (q_z r) in
  let xz := fmul (q_x r) (q_z r) in
  let xy := fmul (q_x r) (q_y r) in
  let yz := fmul (q_y r) (q_z r) in
  let wx := fmul (q_w r) (q_x r) in
  let wy := fmul (q_w r) (q_y r) in
  let wz := fmul (q_w r) (q_z r) in
  let ds := Diag3x3_scale f_two s in
  mkMat3x3
    (mkVector3 (fsub (d0 s) (fmul (d0 ds) (fadd y2 z2)))
               (fmul (d0 ds) (fadd xy wz))
               (fmul (d0 ds) (fsub xz wy)))
    (mkVector3 (fmul (d1 ds) (fsub xy wz))
               (fsub (d1 s) (fmul (d1 ds) (fadd x2 z2)))
               (fmul (d1 ds) (fadd yz wx)))
    (mkVector3 (fmul (d2 ds) (fadd xz wy))
               (fmul (d2 ds) (fsub yz wx))
               (fsub (d2 s) (fmul (d2 ds) (fadd x2 y2)))).

(** [Mat3x3::operator*(Vector3 v)] *)
Definition Mat3x3_mulVec (m : Mat3x3) (v : Vector3) : Vector3 :=
  Vector3_add
    (Vector3_add (Vector3_scale (m_cols0 m) (v_x v))
                 (Vector3_scale (m_cols1 m) (v_y v)))
    (Vector3_scale (m_cols2 m) (v_z v)).

(** [Mat3x3::operator*(const Mat3x3 &o)] *)
Definition Mat3x3_mul (m o : Mat3x3) : Mat3x3 :=
  mkMat3x3 (Mat3x3_mulVec m (m_cols0 o)) (Mat3x3_mulVec m (m_cols1 o))
           (Mat3x3_mulVec m (m_cols2 o)).

(** [Mat3x4::txfmDir] *)
Definition Mat3x4_txfmDir (m : Mat3x4) (p : Vector3) : Vector3 :=
  Vector3_add
    (Vector3_add (Vector3_scale (cols0 m) (v_x p))
                 (Vector3_scale (cols1 m) (v_y p)))
    (Vector3_scale (cols2 m) (v_z p)).

(** [Mat3x4::compose] *)
Definition Mat3x4_compose (m o : Mat3x4) : Mat3x4 :=
  mkMat3x4 (Mat3x4_txfmDir m (cols0 o)) (Mat3x4_txfmDir m (cols1 o))
           (Mat3x4_txfmDir m (cols2 o)) (Mat3x4_txfmPoint m (cols3 o)).

(** [Mat3x4::identity] *)
Definition Mat3x4_identity : Mat3x4 :=
  mkMat3x4 (mkVector3 f_one f_zero f_zero) (mkVector3 f_zero f_one f_zero)
           (mkVector3 f_zero f_zero f_one) (mkVector3 f_zero f_zero f_zero).

(** [Mat3x4::fromRows]; a [Vector4] is given by its four components. *)
Definition Mat3x4_fromRows (row0 row1 row2 : float * float * float * float)
  : Mat3x4 :=
  let '(x0, y0, z0, w0) := row0 in
  let '(x1, y1, z1, w1) := row1 in
  let '(x2, y2, z2, w2) := row2 in
  mkMat3x4 (mkVector3 x0 x1 x2) (mkVector3 y0 y1 y2)
           (mkVector3 z0 z1 z2) (mkVector3 w0 w1 w2).

End Math.

Arguments Vector3_normalize {FO} MADRONA_GPU_MODE v.
Arguments Vector3_invLength {FO} MADRONA_GPU_MODE v.

(** ** C arrays *)

Module Array.

(** [a[i]] as an rvalue. *)
Definition load {A} (a : list A) (i : Z) : option A :=
  if 0 <=? i then a !! Z.to_nat i else None.

(** [a[i] = v]. *)
Definition store {A} (a : list A) (i : Z) (v : A) : option (list A) :=
  if (0 <=? i) && (i <? Z.of_nat (length a))
  then Some (<[Z.to_nat i := v]> a) else None.

(** [malloc(sizeof(T) * n)] filled in order with [items]; the rest of the
    block is uninitialised ([dflt] stands for its unread contents).
    Writing past the block is undefined. *)
Definition filled {A} (n : Z) (items : list A) (dflt : A) : option (list A) :=
  if Z.of_nat (length items) <=? n
  then Some (items ++ replicate (Z.to_nat n - length items)%nat dflt)
  else None.

(** Sequencing a loop body over the values of the loop variable. *)
Fixpoint for_each {S I} (body : S -> I -> option S) (s : S) (idxs : list I)
  : option S :=
  match idxs with
  | [] => Some s
  | i :: rest => s' ← body s i; for_each body s' rest
  end.

End Array.

(** ** examples/simple_taskgraph/simple.cpp *)

Section SimpleTaskgraph.
Context {FO : FloatOps}.
Variable MADRONA_GPU_MODE : bool.

(** The structs of simple.hpp, as simple.cpp uses them. *)
Record SphereObject := mkSphereObject {
  translation : Vector3;
  rotation : Quat;
  aabb : AABB;
}.

Record ContactData := mkContactData {
  normal : Vector3;
  contact_a : Z;
  contact_b : Z;
}.

Record ObjInit := mkObjInit { initPosition : Vector3; initRotation : Quat }.

Record EnvInit := mkEnvInit {
  env_worldBounds : AABB;
  numObjs : Z;
  objsInit : list ObjInit;
}.

Record SimpleSim := mkSimpleSim {
  worldBounds : AABB;
  sphereObjects : list SphereObject;
  contacts : list ContactData;
  numSphereObjects : Z;
  numContacts : Z;                       (* std::atomic_uint32_t *)
}.

Record SphereIndex := mkSphereIndex { sphere_world : Z; sphere_offset : Z }.
Record TestIndex := mkTestIndex { test_world : Z; test_a : Z; test_b : Z }.
Record CandidatePair := mkCandidatePair { pair_world : Z; pair_a : Z; pair_b : Z }.

(** Ghost state: every access to [candidatePairs], oldest first.  The
    sources keep no such record; it lets the statements below count the
    writes and reads of a slot. *)
Inductive PairAccess :=
  | PairWrite (slot : Z)
  | PairRead (slot : Z).

Record SimManager := mkSimManager {
  preprocess_numInvocations : Z;
  broad_numInvocations : Z;
  narrow_numInvocations : Z;
  solver_numInvocations : Z;
  unified_numInvocations : Z;
  sims : list SimpleSim;
  sphereIndices : list SphereIndex;
  testIndices : list TestIndex;
  candidatePairs : list CandidatePair;
  pairLog : list PairAccess;
}.

Definition set_sphereObjects (sim : SimpleSim) (objs : list SphereObject) :=
  mkSimpleSim (worldBounds sim) objs (contacts sim)
              (numSphereObjects sim) (numContacts sim).
Definition set_contacts (sim : SimpleSim) (cs : list ContactData) :=
  mkSimpleSim (worldBounds sim) (sphereObjects sim) cs
              (numSphereObjects sim) (numContacts sim).
Definition set_numContacts (sim : SimpleSim) (n : Z) :=
  mkSimpleSim (worldBounds sim) (sphereObjects sim) (contacts sim)
              (numSphereObjects sim) n.

Definition set_sims (mgr : SimManager) (ss : list SimpleSim) :=
  mkSimManager (preprocess_numInvocations mgr) (broad_numInvocations mgr)
    (narrow_numInvocations mgr) (solver_numInvocations mgr)
    (unified_numInvocations mgr) ss (sphereIndices mgr) (testIndices mgr)
    (candidatePairs mgr) (pairLog mgr).
Definition set_narrow_numInvocations (mgr : SimManager) (n : Z) :=
  mkSimManager (preprocess_numInvocations mgr) (broad_numInvocations mgr)
    n (solver_numInvocations mgr)
    (unified_numInvocations mgr) (sims mgr) (sphereIndices mgr)
    (testIndices mgr) (candidatePairs mgr) (pairLog mgr).
Definition set_candidatePairs (mgr : SimManager) (cp : list CandidatePair) :=
  mkSimManager (preprocess_numInvocations mgr) (broad_numInvocations mgr)
    (narrow_numInvocations mgr) (solver_numInvocations mgr)
    (unified_numInvocations mgr) (sims mgr) (sphereIndices mgr)
    (testIndices mgr) cp (pairLog mgr).
Definition log_access (mgr : SimManager) (a : PairAccess) :=
  mkSimManager (preprocess_numInvocations mgr) (broad_numInvocations mgr)
    (narrow_numInvocations mgr) (solver_numInvocations mgr)
    (unified_numInvocations mgr) (sims mgr) (sphereIndices mgr)
    (testIndices mgr) (candidatePairs mgr) (pairLog mgr ++ [a]).

(** Contents of memory that [malloc] returned and nothing wrote yet. *)
Definition Vector3_zero := mkVector3 f_zero f_zero f_zero.
Definition uninit_contact := mkContactData Vector3_zero 0 0.
Definition uninit_pair := mkCandidatePair 0 0 0.
Definition uninit_sphereIndex := mkSphereIndex 0 0.
Definition uninit_testIndex := mkTestIndex 0 0 0.
Definition uninit_object :=
  mkSphereObject Vector3_zero (mkQuat f_zero f_zero f_zero f_zero)
                 (mkAABB Vector3_zero Vector3_zero).
Definition uninit_sim :=
  mkSimpleSim (mkAABB Vector3_zero Vector3_zero) [] [] 0 0.

(** [SimpleSim::SimpleSim].  [numObjs] is taken to be a [uint32_t] (the
    loop casts it to [int64_t]); the product is narrowed to the [int]
    [max_collisions]. *)
Definition SimpleSim_ctor (env_init : EnvInit) : option SimpleSim :=
  let max_collisions := to_int (u32 (numObjs env_init * numObjs env_init)) in
  objs ← mapM (fun i =>
                 o ← Array.load (objsInit env_init) i;
                 Some (mkSphereObject (initPosition o) (initRotation o)
                                      AABB_invalid))
              (int_range (numObjs env_init));
  sphere_arr ← Array.filled (numObjs env_init) objs uninit_object;
  Some (mkSimpleSim (env_worldBounds env_init)
          sphere_arr
          (replicate (Z.to_nat max_collisions) uninit_contact)
          (numObjs env_init)
          0).

(** [SimManager::SimManager].  [narrow] is default-constructed and its
    count is not stored here; [narrow_init] is the value the constructor
    of the System base class (taskgraph.hpp, outside the files embedded
    here) leaves in it. *)
Definition SimManager_ctor (env_inits : list EnvInit) (num_worlds : Z)
    (narrow_init : Z) : option SimManager :=
  let worlds := int_range (to_int num_worlds) in
  built ← mapM (fun i => e ← Array.load env_inits i; SimpleSim_ctor e) worlds;
  sims_arr ← Array.filled num_worlds built uninit_sim;
  let total_spheres :=
    fold_left (fun acc s => u32 (acc + numSphereObjects s)) built 0 in
  let max_collisions :=
    fold_left (fun acc s =>
                 u32 (acc + u32 (numSphereObjects s * numSphereObjects s)))
              built 0 in
  let per_world := combine worlds built in
  let sphere_items :=
    flat_map (fun '(w, s) =>
                map (fun offset => mkSphereIndex (u32 w) (u32 offset))
                    (int_range (to_int (numSphereObjects s))))
             per_world in
  let test_items :=
    flat_map (fun '(w, s) =>
                flat_map (fun offset =>
                            map (fun other =>
                                   mkTestIndex (u32 w) (u32 offset) (u32 other))
                                (int_range (to_int (numSphereObjects s))))
                         (int_range (to_int (numSphereObjects s))))
             per_world in
  sphere_arr ← Array.filled total_spheres sphere_items uninit_sphereIndex;
  test_arr ← Array.filled max_collisions test_items uninit_testIndex;
  Some (mkSimManager
          (atomic_store total_spheres)
          (atomic_store max_collisions)
          narrow_init
          (atomic_store num_worlds)
          (atomic_store num_worlds)
          sims_arr sphere_arr test_arr
          (replicate (Z.to_nat max_collisions) uninit_pair)
          []).

(** [preprocessObject] *)
Definition preprocessObject (sim : SimpleSim) (obj_id : Z) : option SimpleSim :=
  object ← Array.load (sphereObjects sim) obj_id;
  let wb := worldBounds sim in
  let t := translation object in
  let t' := mkVector3
              (clamp (v_x t) (v_x (pMin wb)) (v_x (pMax wb)))
              (clamp (v_y t) (v_y (pMin wb)) (v_y (pMax wb)))
              (clamp (v_z t) (v_z (pMin wb)) (v_z (pMax wb))) in
  let model_mat := Mat3x4_fromTRS t' (rotation object) Diag3x3_one in
  let m1 := fneg f_one in
  let p1 := f_one in
  let cube0 := Mat3x4_txfmPoint model_mat (mkVector3 m1 m1 m1) in
  let cube_rest :=
    map (Mat3x4_txfmPoint model_mat)
        [ mkVector3 p1 m1 m1; mkVector3 p1 p1 m1; mkVector3 m1 p1 m1;
          mkVector3 m1 m1 p1; mkVector3 p1 m1 p1; mkVector3 p1 p1 p1;
          mkVector3 m1 p1 p1 ] in
  let box := fold_left AABB_expand cube_rest (AABB_point cube0) in
  objs ← Array.store (sphereObjects sim) obj_id
           (mkSphereObject t' (rotation object) box);
  Some (set_sphereObjects sim objs).

(** [PreprocessSystem::run] *)
Definition PreprocessSystem_run (mgr : SimManager) (invocation_offset : Z)
  : option SimManager :=
  let mgr :=
    if invocation_offset =? 0
    then set_narrow_numInvocations mgr (atomic_store 0)
    else mgr in
  sphere_idx ← Array.load (sphereIndices mgr) invocation_offset;
  sim ← Array.load (sims mgr) (sphere_world sphere_idx);
  sim' ← preprocessObject sim (sphere_offset sphere_idx);
  ss ← Array.store (sims mgr) (sphere_world sphere_idx) sim';
  Some (set_sims mgr ss).

(** [compareObjAABBs] *)
Definition compareObjAABBs (sim : SimpleSim) (a_idx b_idx : Z) : option bool :=
  if a_idx =? b_idx then Some false
  else
    a_obj ← Array.load (sphereObjects sim) a_idx;
    b_obj ← Array.load (sphereObjects sim) b_idx;
    Some (AABB_overlaps (aabb a_obj) (aabb b_obj)).

(** [BroadphaseSystem::run] *)
Definition BroadphaseSystem_run (mgr : SimManager) (invocation_offset : Z)
  : option SimManager :=
  test ← Array.load (testIndices mgr) invocation_offset;
  sim ← Array.load (sims mgr) (test_world test);
  let a_idx := test_a test in
  let b_idx := test_b test in
  overlap ← compareObjAABBs sim a_idx b_idx;
  if overlap : bool then
    let '(candidate_idx, n) :=
      atomic_fetch_add (narrow_numInvocations mgr) 1 in
    let mgr := set_narrow_numInvocations mgr n in
    cp ← Array.store (candidatePairs mgr) candidate_idx
           (mkCandidatePair (test_world test) a_idx b_idx);
    Some (log_access (set_candidatePairs mgr cp) (PairWrite candidate_idx))
  else Some mgr.

(** [narrowPhase<use_atomic>] *)
Definition narrowPhase (use_atomic : bool) (sim : SimpleSim) (a_idx b_idx : Z)
  : option SimpleSim :=
  a ← Array.load (sphereObjects sim) a_idx;
  b ← Array.load (sphereObjects sim) b_idx;
  let a_pos := translation a in
  let b_pos := translation b in
  let to_b := Vector3_normalize MADRONA_GPU_MODE (Vector3_sub b_pos a_pos) in
  let '(contact_idx, sim) :=
    if use_atomic then
      let '(old, n) := atomic_fetch_add (numContacts sim) 1 in
      (old, set_numContacts sim n)
    else
      let contact_idx := atomic_load (numContacts sim) in
      (contact_idx, set_numContacts sim (atomic_store (u32 (contact_idx + 1))))
  in
  cs ← Array.store (contacts sim) contact_idx (mkContactData to_b a_idx b_idx);
  Some (set_contacts sim cs).

(** [NarrowphaseSystem::run] *)
Definition NarrowphaseSystem_run (mgr : SimManager) (invocation_offset : Z)
  : option SimManager :=
  c ← Array.load (candidatePairs mgr) invocation_offset;
  let mgr := log_access mgr (PairRead invocation_offset) in
  sim ← Array.load (sims mgr) (pair_world c);
  sim' ← narrowPhase true sim (pair_a c) (pair_b c);
  ss ← Array.store (sims mgr) (pair_world c) sim';
  Some (set_sims mgr ss).

(** One iteration of the loop of [processContacts].  [a] and [b] are
    references into [sphereObjects] and may alias: the second update
    reads what the first one wrote. *)
Definition processContact (sim : SimpleSim) (i : Z) : option SimpleSim :=
  contact ← Array.load (contacts sim) i;
  a ← Array.load (sphereObjects sim) (contact_a contact);
  _ ← Array.load (sphereObjects sim) (contact_b contact);
  objs ← Array.store (sphereObjects sim) (contact_a contact)
           (mkSphereObject (Vector3_sub (translation a) (normal contact))
                           (rotation a) (aabb a));
  b ← Array.load objs (contact_b contact);
  objs ← Array.store objs (contact_b contact)
           (mkSphereObject (Vector3_add (translation b) (normal contact))
                           (rotation b) (aabb b));
  Some (set_sphereObjects sim objs).

(** [processContacts] *)
Definition processContacts (sim : SimpleSim) : option SimpleSim :=
  let num_contacts := to_int (atomic_load (numContacts sim)) in
  Array.for_each processContact sim (int_range num_contacts).

(** [SolverSystem::run] *)
Definition SolverSystem_run (mgr : SimManager) (invocation_offset : Z)
  : option SimManager :=
  let world_idx := invocation_offset in
  sim ← Array.load (sims mgr) world_idx;
  sim ← processContacts sim;
  let sim := set_numContacts sim (atomic_store 0) in
  ss ← Array.store (sims mgr) world_idx sim;
  Some (set_sims mgr ss).

(** The body of the doubly nested loop of [UnifiedSystem::run]. *)
Definition unified_pair (sim : SimpleSim) (ij : Z * Z) : option SimpleSim :=
  let '(i, j) := ij in
  overlap ← compareObjAABBs sim (u32 i) (u32 j);
  if overlap : bool then narrowPhase false sim (u32 i) (u32 j) else Some sim.

(** [UnifiedSystem::run] *)
Definition UnifiedSystem_run (mgr : SimManager) (invocation_offset : Z)
  : option SimManager :=
  let world_idx := invocation_offset in
  sim ← Array.load (sims mgr) world_idx;
  let n := to_int (numSphereObjects sim) in
  sim ← Array.for_each (fun s i => preprocessObject s (u32 i)) sim (int_range n);
  sim ← Array.for_each unified_pair sim
          (flat_map (fun i => map (fun j => (i, j)) (int_range n)) (int_range n));
  sim ← processContacts sim;
  let sim := set_numContacts sim (atomic_store 0) in
  ss ← Array.store (sims mgr) world_idx sim;
  Some (set_sims mgr ss).

(** [struct PhysicsBVH] of simple.hpp, as simple.cpp uses it; the two
    counts are [uint32_t]. *)
Record PhysicsBVH := mkPhysicsBVH {
  aabbs : list AABB;
  ids : list Z;
  numObjects : Z;
  maxNumObjects : Z;
}.

(** [PhysicsBVH::PhysicsBVH] *)
Definition PhysicsBVH_ctor (num_max_objects : Z) : PhysicsBVH :=
  mkPhysicsBVH
    (replicate (Z.to_nat num_max_objects) (mkAABB Vector3_zero Vector3_zero))
    (replicate (Z.to_nat num_max_objects) 0)
    0
    num_max_objects.

(** [PhysicsBVH::addObject] *)
Definition PhysicsBVH_addObject (bvh : PhysicsBVH) (obj : AABB * Z)
  : option PhysicsBVH :=
  let '(box, id) := obj in
  let offset := numObjects bvh in
  let n := u32 (offset + 1) in
  boxes ← Array.store (aabbs bvh) offset box;
  idents ← Array.store (ids bvh) offset id;
  Some (mkPhysicsBVH boxes idents n (maxNumObjects bvh)).

End SimpleTaskgraph.

(** *** A world whose arrays and counters fit together *)

Section SimInvariant.
Context {FO : FloatOps}.

Definition contact_ok (n : Z) (c : ContactData) : Prop :=
  (0 <= contact_a c < n) /\ (0 <= contact_b c < n).

(** [sphereObjects] has [numSphereObjects] entries, [numContacts] fits an
    [int] and the [contacts] block, and the contacts recorded so far name
    objects of the world. *)
Record sim_ok (sim : SimpleSim) : Prop := {
  ok_objects : Z.of_nat (length (sphereObjects sim)) = numSphereObjects sim;
  ok_count : 0 <= numContacts sim < 2 ^ 31;
  ok_room : numContacts sim <= Z.of_nat (length (contacts sim));
  ok_contacts :
    forall i c, 0 <= i < numContacts sim ->
                contacts sim !! Z.to_nat i = Some c ->
                contact_ok (numSphereObjects sim) c;
}.

(** Two states of a world with as many objects and as large a
    [contacts] block. *)
Definition same_shape (sim sim' : SimpleSim) : Prop :=
  numSphereObjects sim' = numSphereObjects sim /\
  length (contacts sim') = length (contacts sim).

(** A world at the start of an epoch of the unified System: well formed,
    no contacts, and room in [contacts] for one per ordered pair. *)
Definition unified_ready (sim : SimpleSim) : Prop :=
  sim_ok sim /\ numContacts sim = 0 /\
  0 <= numSphereObjects sim < 2 ^ 31 /\
  numSphereObjects sim * numSphereObjects sim
    <= Z.min (Z.of_nat (length (contacts sim))) (2 ^ 31 - 1).

End SimInvariant.

(** *** Reading the broadphase and the log of [candidatePairs] *)

Section FanOutVocabulary.
Context {FO : FloatOps}.

(** The test the broadphase makes at an invocation, and its result. *)
Definition broad_test (mgr : SimManager) (off : Z) : option (TestIndex * bool) :=
  test ← Array.load (testIndices mgr) off;
  sim ← Array.load (sims mgr) (test_world test);
  overlap ← compareObjAABBs sim (test_a test) (test_b test);
  Some (test, overlap).

(** Does the invocation find an overlap. *)
Definition is_hit (mgr : SimManager) (off : Z) : bool :=
  match broad_test mgr off with
  | Some (_, overlap) => overlap
  | None => false
  end.

Definition overlapping (mgr : SimManager) (off : Z) : Prop :=
  is_hit mgr off = true.

Global Instance overlapping_dec (mgr : SimManager) (off : Z)
  : Decision (overlapping mgr off) := decide (is_hit mgr off = true).

Definition pair_of (test : TestIndex) : CandidatePair :=
  mkCandidatePair (test_world test) (test_a test) (test_b test).

End FanOutVocabulary.

Global Instance PairAccess_eq_dec : EqDecision PairAccess.
Proof. solve_decision. Defined.

(** How often a log has an access. *)
Definition times (a : PairAccess) (log : list PairAccess) : nat :=
  count_occ PairAccess_eq_dec log a.

(** *** The broadphase, invocations interleaved *)

Section BroadphaseSteps.
Context {FO : FloatOps}.

(** [BroadphaseSystem::run] up to and including the [fetch_add]: the
    manager after it, and the slot claimed with the pair to write there,
    if the test found an overlap. *)
Definition broad_claim (mgr : SimManager) (invocation_offset : Z)
  : option (SimManager * option (Z * CandidatePair)) :=
  test ← Array.load (testIndices mgr) invocation_offset;
  sim ← Array.load (sims mgr) (test_world test);
  let a_idx := test_a test in
  let b_idx := test_b test in
  overlap ← compareObjAABBs sim a_idx b_idx;
  if overlap : bool then
    let '(candidate_idx, n) :=
      atomic_fetch_add (narrow_numInvocations mgr) 1 in
    Some (set_narrow_numInvocations mgr n,
          Some (candidate_idx, mkCandidatePair (test_world test) a_idx b_idx))
  else Some (mgr, None).

(** The rest of [BroadphaseSystem::run]: the write to the claimed slot. *)
Definition broad_write (mgr : SimManager) (w : Z * CandidatePair)
  : option SimManager :=
  cp ← Array.store (candidatePairs mgr) (fst w) (snd w);
  Some (log_access (set_candidatePairs mgr cp) (PairWrite (fst w))).

(** Invocations in flight: each has claimed its slot and not written yet. *)
Record BroadState := mkBroadState {
  broad_mgr : SimManager;
  broad_pending : list (Z * CandidatePair);
}.

(** A step of some worker: an invocation runs up to its [fetch_add], or
    the [k]-th invocation in flight writes its pair. *)
Inductive BroadStep :=
  | StepClaim (invocation_offset : Z)
  | StepWrite (k : nat).

Definition broad_step (st : BroadState) (s : BroadStep) : option BroadState :=
  match s with
  | StepClaim off =>
      '(mgr, w) ← broad_claim (broad_mgr st) off;
      Some (mkBroadState mgr
              (match w with
               | Some w => broad_pending st ++ [w]
               | None => broad_pending st
               end))
  | StepWrite k =>
      w ← broad_pending st !! k;
      mgr ← broad_write (broad_mgr st) w;
      Some (mkBroadState mgr (delete k (broad_pending st)))
  end.

(** The invocations a list of steps begins, in order. *)
Definition claim_offsets (steps : list BroadStep) : list Z :=
  omap (fun s => match s with
                 | StepClaim off => Some off
                 | StepWrite _ => None
                 end) steps.

(** What holds between the steps: [claimed] are the slots handed out so
    far with their pairs, in order; [written] those already in memory. *)
Record broad_inv (mgr0 : SimManager) (offs : list Z) (st : BroadState)
    (claimed written : list (Z * CandidatePair)) : Prop := {
  bi_sims : sims (broad_mgr st) = sims mgr0;
  bi_tests : testIndices (broad_mgr st) = testIndices mgr0;
  bi_count :
    narrow_numInvocations (broad_mgr st)
    = narrow_numInvocations mgr0 + Z.of_nat (length claimed);
  bi_slots :
    map fst claimed
    = seqZ (narrow_numInvocations mgr0) (Z.of_nat (length claimed));
  bi_hits :
    Forall2 (fun w off => exists test,
               broad_test mgr0 off = Some (test, true) /\
               snd w = pair_of test)
            claimed (filter (overlapping mgr0) offs);
  bi_perm : broad_pending st ++ written ≡ₚ claimed;
  bi_log :
    pairLog (broad_mgr st)
    = pairLog mgr0 ++ map (fun w => PairWrite (fst w)) written;
  bi_mem :
    Forall (fun w => Array.load (candidatePairs (broad_mgr st)) (fst w)
                     = Some (snd w)) written;
}.

End BroadphaseSteps.

(** ** include/madrona/job.inl *)

(** What a call can come to besides a value: a [static_assert] that
    fails (the program is rejected by the compiler), a fatal error of the
    allocator, or undefined behaviour (an index outside an array, a
    dangling pointer). *)
Inductive Outcome (A : Type) :=
  | Ok (a : A)
  | StaticAssertFailed (msg : string)
  | Fatal
  | Undefined.
Arguments Ok {A} a.
Arguments StaticAssertFailed {A} msg.
Arguments Fatal {A}.
Arguments Undefined {A}.

Definition Outcome_bind {A B} (f : A -> Outcome B) (m : Outcome A) : Outcome B :=
  match m with
  | Ok a => f a
  | StaticAssertFailed msg => StaticAssertFailed msg
  | Fatal => Fatal
  | Undefined => Undefined
  end.
Global Instance Outcome_mbind : MBind Outcome := @Outcome_bind.
Global Instance Outcome_mret : MRet Outcome := @Ok.

Definition static_assert {A} (cond : bool) (msg : string) (k : Outcome A)
  : Outcome A :=
  if cond then k else StaticAssertFailed msg.

(** A callable type [Fn], by what job.inl asks of it: [std::is_empty_v],
    [sizeof] and [std::alignment_of_v].  An alignment in C++ is a power of
    two, so the type carries the exponent.  [fn_tag] tells types apart. *)
Record FnType := mkFnType {
  fn_tag : nat;
  fn_is_empty : bool;
  fn_sizeof : Z;
  fn_align_log2 : nat;
}.
Definition fn_alignment (F : FnType) : Z := 2 ^ Z.of_nat (fn_align_log2 F).

(** The state a callable object captured. *)
Definition Capture := list Z.

Definition JobID := nat.

(** [enum class JobPriority] of job.hpp; job.inl names only [Normal]. *)
Inductive JobPriority := High | Normal | IO.

(** [Job::func_] is a pointer to one of the two captureless lambdas of
    [makeJob], instantiated at [Fn]. *)
Inductive JobEntry :=
  | EntryInline (F : FnType)       (* the lambda whose body is Fn()(ctx) *)
  | EntryStored (F : FnType).      (* the lambda that calls, destroys and frees *)

Record Job := mkJob { func_ : JobEntry; data_ : option Z }.

Record Context := mkContext { worker_idx_ : Z }.

(** A call of [ctx.queueJob(fn, is_child, dependencies...)] made by user code. *)
Record Submission := mkSubmission {
  sub_type : FnType;
  sub_capture : Capture;
  sub_is_child : bool;
  sub_dependencies : list JobID;
}.

(** Ghost state: what happened to job storage and to callables, oldest first. *)
Inductive JobEvent :=
  | EvAlloc (thread_idx size alignment ptr : Z)
  | EvConstruct (ptr : Z) (F : FnType)
  | EvCall (F : FnType) (data : option Z) (worker : Z)
  | EvReturn (F : FnType) (data : option Z) (worker : Z)
  | EvDestroy (ptr : Z)
  | EvDealloc (worker_idx ptr num_bytes : Z).

(** Modelled from the spec: the readiness of a submitted job
    (JobManager's queues and dependency tracker live in job.cpp, outside
    the files embedded here).  A job is held with its count of outstanding
    dependencies, or ready on a worker's queue, or complete. *)
Inductive JobState :=
  | Held (remaining : nat)
  | Ready (queue : Z)
  | Complete.

Record JobSlot := mkJobSlot {
  slot_func : JobEntry;
  slot_data : option Z;
  slot_deps : list JobID;
  slot_prio : JobPriority;
  slot_state : JobState;
}.

(** [JobManager::Alloc] and its [SharedState] are declared in job.hpp and
    defined in job.cpp, both outside the files embedded here: the
    allocator is taken as an interface.  [Alloc_alloc] is [Alloc::alloc(shared, num_bytes,
    alignment)], [None] being its fatal failure; [Alloc_dealloc] is
    [Alloc::dealloc(shared, ptr, num_bytes)]. *)
Class Allocator := {
  AllocState : Type;
  SharedAllocState : Type;
  maxJobSize : Z;
  maxJobAlignment : Z;
  Alloc_alloc :
    AllocState -> SharedAllocState -> Z -> Z ->
    option (Z * AllocState * SharedAllocState);
  Alloc_dealloc :
    AllocState -> SharedAllocState -> Z -> Z -> AllocState * SharedAllocState;
}.

(** User code: the data it works on, and what [operator()] of a callable
    of type [F] holding [cap] does when called with a context: it updates
    that data and submits jobs. *)
Class UserCode := {
  UserState : Type;
  body :
    FnType -> Capture -> Context -> UserState -> UserState * list Submission;
}.

Section Jobs.
Context {AL : Allocator} {UC : UserCode}.

Record JobManager := mkJobManager {
  job_allocs_ : list AllocState;
  alloc_state_ : SharedAllocState;
  objects : gmap Z (FnType * Capture);   (* callables living in job storage *)
  jobs : list JobSlot;                   (* indexed by JobID *)
  user : UserState;
  events : list JobEvent;
}.

Definition set_allocs (m : JobManager) (a : list AllocState)
    (s : SharedAllocState) :=
  mkJobManager a s (objects m) (jobs m) (user m) (events m).
Definition set_objects (m : JobManager) (o : gmap Z (FnType * Capture)) :=
  mkJobManager (job_allocs_ m) (alloc_state_ m) o (jobs m) (user m) (events m).
Definition set_jobs (m : JobManager) (j : list JobSlot) :=
  mkJobManager (job_allocs_ m) (alloc_state_ m) (objects m) j (user m) (events m).
Definition set_user (m : JobManager) (u : UserState) :=
  mkJobManager (job_allocs_ m) (alloc_state_ m) (objects m) (jobs m) u (events m).
Definition emit (m : JobManager) (e : JobEvent) :=
  mkJobManager (job_allocs_ m) (alloc_state_ m) (objects m) (jobs m) (user m)
               (events m ++ [e]).

(** [job_allocs_[idx]] *)
Definition arena (m : JobManager) (idx : Z) : Outcome AllocState :=
  match Array.load (job_allocs_ m) idx with
  | Some a => Ok a
  | None => Undefined
  end.

(** [JobManager::makeJob] *)
Definition makeJob (F : FnType) (fn : Capture) (thread_idx : Z)
    (m : JobManager) : Outcome (Job * JobManager) :=
  if fn_is_empty F then
    Ok (mkJob (EntryInline F) None, m)
  else
    let job_size := fn_sizeof F in
    let job_alignment := fn_alignment F in
    static_assert (job_size <=? maxJobSize)
      "Job lambda capture is too large" (
    static_assert (job_alignment <=? maxJobAlignment)
      "Job lambda capture has too large an alignment requirement" (
    static_assert (utils.isPower2 job_alignment) EmptyString (
      a ← arena m thread_idx;
      match Alloc_alloc a (alloc_state_ m) job_size job_alignment with
      | None => Fatal
      | Some (store, a', shared') =>
          let m := set_allocs m (<[Z.to_nat thread_idx := a']> (job_allocs_ m))
                              shared' in
          let m := emit m (EvAlloc thread_idx job_size job_alignment store) in
          (* new (store) Fn(std::forward<Fn>(fn)) *)
          let m := set_objects m (<[store := (F, fn)]> (objects m)) in
          let m := emit m (EvConstruct store F) in
          Ok (mkJob (EntryStored F) (Some store), m)
      end))).

(** [JobManager::deallocJob]; [num_bytes] is a [uint32_t]. *)
Definition deallocJob (worker_idx : Z) (ptr : Z) (num_bytes : Z)
    (m : JobManager) : Outcome JobManager :=
  let num_bytes := u32 num_bytes in
  a ← arena m worker_idx;
  let '(a', shared') := Alloc_dealloc a (alloc_state_ m) ptr num_bytes in
  let m := set_allocs m (<[Z.to_nat worker_idx := a']> (job_allocs_ m))
                      shared' in
  Ok (emit m (EvDealloc worker_idx ptr num_bytes)).

(** Modelled from the spec: is the job named by [id] complete. *)
Definition is_complete (m : JobManager) (id : JobID) : bool :=
  match jobs m !! id with
  | Some s => match slot_state s with Complete => true | _ => false end
  | None => false
  end.

(** Modelled from the spec: [JobManager::queueJob(thread_idx, func, data,
    deps, num_dependencies, prio)] of job.cpp.  "If dependencies are
    already satisfied the Job is enqueued immediately; otherwise it is held
    until the last outstanding dependency completes."  [deps = None] is a
    null pointer. *)
Definition JobManager_queueJob_raw (thread_idx : Z) (func : JobEntry)
    (data : option Z) (deps : option (list JobID)) (num_dependencies : Z)
    (prio : JobPriority) (m : JobManager) : JobID * JobManager :=
  let ds := take (Z.to_nat num_dependencies) (default [] deps) in
  let outstanding := filter (fun d => is_complete m d = false) ds in
  let st := match outstanding with
            | [] => Ready thread_idx
            | _ => Held (length outstanding)
            end in
  (length (jobs m),
   set_jobs m (jobs m ++ [mkJobSlot func data ds prio st])).

(** Modelled from the spec: a job is eligible when it sits on a ready queue. *)
Definition eligible (m : JobManager) (id : JobID) : bool :=
  match jobs m !! id with
  | Some s => match slot_state s with Ready _ => true | _ => false end
  | None => false
  end.

(** [JobManager::queueJob(thread_idx, job, deps, num_dependencies, prio)] *)
Definition JobManager_queueJob (thread_idx : Z) (job : Job)
    (deps : option (list JobID)) (num_dependencies : Z) (prio : JobPriority)
    (m : JobManager) : JobID * JobManager :=
  JobManager_queueJob_raw thread_idx (func_ job) (data_ job) deps
                          num_dependencies prio m.

(** [Context::queueJob] *)
Definition Context_queueJob (ctx : Context) (F : FnType) (fn : Capture)
    (is_child : bool) (dependencies : list JobID) (m : JobManager)
  : Outcome (JobID * JobManager) :=
  '(job, m) ← makeJob F fn (worker_idx_ ctx) m;
  (* (void)is_child; ( (void)dependencies, ... ); *)
  Ok (JobManager_queueJob (worker_idx_ ctx) job None 0 Normal m).

(** Running the submissions a callable makes, in order. *)
Fixpoint submit_all (ctx : Context) (subs : list Submission) (m : JobManager)
  : Outcome JobManager :=
  match subs with
  | [] => Ok m
  | s :: rest =>
      '(_, m) ← Context_queueJob ctx (sub_type s) (sub_capture s)
                  (sub_is_child s) (sub_dependencies s) m;
      submit_all ctx rest m
  end.

(** [fn(ctx)] for a callable of type [F] holding [cap], stored at [data]
    (or a temporary when [data] is null). *)
Definition invoke (F : FnType) (cap : Capture) (data : option Z)
    (ctx : Context) (m : JobManager) : Outcome JobManager :=
  let m := emit m (EvCall F data (worker_idx_ ctx)) in
  let '(u, subs) := body F cap ctx (user m) in
  m ← submit_all ctx subs (set_user m u);
  Ok (emit m (EvReturn F data (worker_idx_ ctx))).

(** [job.func_(ctx, job.data_)]: the bodies of the two lambdas of [makeJob]. *)
Definition Job_call (func : JobEntry) (ctx : Context) (data : option Z)
    (m : JobManager) : Outcome JobManager :=
  match func with
  | EntryInline F =>
      (* Fn()(ctx); *)
      invoke F [] None ctx m
  | EntryStored F =>
      match data with
      | None => Undefined
      | Some fn_ptr =>
          match objects m !! fn_ptr with
          | None => Undefined
          | Some (_, cap) =>
              (* call the callable fn_ptr points to *)
              m ← invoke F cap (Some fn_ptr) ctx m;
              (* fn_ptr->~Fn(); *)
              let m := emit (set_objects m (delete fn_ptr (objects m)))
                            (EvDestroy fn_ptr) in
              (* Important note: jobs may be freed by different threads *)
              deallocJob (worker_idx_ ctx) fn_ptr (fn_sizeof F) m
          end
      end
  end.

End Jobs.

(** *** Reading the record of events *)

(** Events that record a request for storage and the construction of a
    callable in it: all that submitting jobs adds to the record. *)
Definition is_creation (e : JobEvent) : Prop :=
  match e with
  | EvAlloc _ _ _ _ | EvConstruct _ _ => True
  | _ => False
  end.

(** How many events of a list satisfy a test. *)
Definition count_events (p : JobEvent -> bool) (l : list JobEvent) : nat :=
  length (List.filter p l).

Definition is_dealloc_of (ptr : Z) (e : JobEvent) : bool :=
  match e with EvDealloc _ p _ => p =? ptr | _ => false end.
Definition is_call_of (data : option Z) (e : JobEvent) : bool :=
  match e with
  | EvCall _ d _ =>
      match d, data with
      | Some p, Some q => p =? q
      | None, None => true
      | _, _ => false
      end
  | _ => false
  end.

(** ** The task graph *)

(** Modelled from the spec: [TaskGraph], [TaskGraph::Builder] and [run()].
    taskgraph.hpp and its implementation are outside the files embedded
    here (simple.cpp only calls [registerSystem]), so the model follows
    sections 3 and 4.4 of the spec: Systems are registered in order, each
    naming already registered Systems as dependencies; an epoch resets
    every invocation counter, to the declared count or to zero for a
    System whose count a designated upstream producer raises by
    fetch-add; an invocation of a System is dispatched only once every
    System it depends on has completed all its invocations; invocations
    of one System run in any order and overlap freely. *)
Module TaskGraph.

Inductive CountPolicy :=
  | Fixed (k : nat)
  | Dynamic (producer : nat).

Record SystemDecl := mkSystemDecl {
  policy : CountPolicy;
  dependencies : list nat;
}.

(** The Systems in registration order; a System's id is its position. *)
Abbreviation Graph := (list SystemDecl).

Definition decl_ok (registered : nat) (d : SystemDecl) : bool :=
  forallb (fun dep => dep <? registered)%nat (dependencies d) &&
  match policy d with
  | Fixed _ => true
  | Dynamic p => existsb (Nat.eqb p) (dependencies d)
  end.

(** Modelled from the spec: [Builder::registerSystem] returns the id of
    the System, or fails ([None], the fatal configuration error) when a
    dependency is not registered yet or the producer of a dynamic count
    is not among the dependencies. *)
Definition registerSystem (b : Graph) (p : CountPolicy) (deps : list nat)
  : option (nat * Graph) :=
  let d := mkSystemDecl p deps in
  if decl_ok (length b) d then Some (length b, b ++ [d]) else None.

(** Modelled from the spec: [Builder::build] freezes the registered
    Systems. *)
Definition build (b : Graph) : Graph := b.

(** What the builder guarantees of a graph. *)
Definition well_formed (g : Graph) : Prop :=
  forall s d, g !! s = Some d -> decl_ok s d = true.

(** One System during an epoch: its invocation counter, how many
    invocations were dispatched (indices [0 .. dispatched-1]), which are
    running, and whether the System has completed. *)
Record SysRun := mkSysRun {
  numInvocations : nat;
  dispatched : nat;
  running : list nat;
  finished : bool;
}.

Inductive Event :=
  | Start (s i : nat)                 (* invocation i of System s begins *)
  | Finish (s i : nat)                (* invocation i of System s ends *)
  | Claim (s i consumer slot : nat)   (* it claims a slot of consumer *)
  | Done (s : nat).                   (* System s has completed *)

Record RunState := mkRunState {
  systems : list SysRun;
  trace : list Event;                 (* oldest first *)
}.

(** Modelled from the spec: [run()] starts an epoch by resetting every
    counter, to the declared count or to zero. *)
Definition reset (d : SystemDecl) : SysRun :=
  mkSysRun (match policy d with Fixed k => k | Dynamic _ => 0%nat end)
           0 [] false.
Definition init (g : Graph) : RunState := mkRunState (map reset g) [].

Definition is_finished (rs : list SysRun) (s : nat) : bool :=
  match rs !! s with Some r => finished r | None => false end.

(** Modelled from the spec: a System is eligible once every System it
    depends on has completed all its invocations. *)
Definition eligible (g : Graph) (rs : list SysRun) (s : nat) : bool :=
  match g !! s with
  | Some d => forallb (is_finished rs) (dependencies d)
  | None => false
  end.

Definition is_running (r : SysRun) (i : nat) : bool :=
  existsb (Nat.eqb i) (running r).

Definition produces_for (g : Graph) (p t : nat) : bool :=
  match g !! t with
  | Some d => match policy d with Dynamic q => (q =? p)%nat | Fixed _ => false end
  | None => false
  end.

(** Modelled from the spec: what the workers can do next, and [apply],
    the effect of each step when it is allowed.  An invocation of an
    eligible System starts with the next index; a running invocation
    ends; a running invocation of the producer of a dynamic count claims
    the next slot of its consumer (fetch-add); a System whose dispatched
    invocations have all ended, and whose count they exhaust, completes. *)
Inductive Action :=
  | DoStart (s : nat)
  | DoFinish (s i : nat)
  | DoClaim (s i consumer : nat)
  | DoDone (s : nat).

Definition apply (g : Graph) (a : Action) (st : RunState) : option RunState :=
  let rs := systems st in
  match a with
  | DoStart s =>
      r ← rs !! s;
      if eligible g rs s && negb (finished r)
         && (dispatched r <? numInvocations r)%nat
      then Some (mkRunState
                   (<[s := mkSysRun (numInvocations r) (S (dispatched r))
                                    (dispatched r :: running r) false]> rs)
                   (trace st ++ [Start s (dispatched r)]))
      else None
  | DoFinish s i =>
      r ← rs !! s;
      if is_running r i
      then Some (mkRunState
                   (<[s := mkSysRun (numInvocations r) (dispatched r)
                                    (List.remove Nat.eq_dec i (running r))
                                    (finished r)]> rs)
                   (trace st ++ [Finish s i]))
      else None
  | DoClaim s i t =>
      r ← rs !! s;
      rt ← rs !! t;
      if is_running r i && produces_for g s t
      then Some (mkRunState
                   (<[t := mkSysRun (S (numInvocations rt)) (dispatched rt)
                                    (running rt) (finished rt)]> rs)
                   (trace st ++ [Claim s i t (numInvocations rt)]))
      else None
  | DoDone s =>
      r ← rs !! s;
      if eligible g rs s && negb (finished r)
         && (dispatched r =? numInvocations r)%nat
         && match running r with [] => true | _ => false end
      then Some (mkRunState
                   (<[s := mkSysRun (numInvocations r) (dispatched r) [] true]> rs)
                   (trace st ++ [Done s]))
      else None
  end.

(** An epoch under a schedule: the actions, in the order they happen. *)
Fixpoint run_schedule (g : Graph) (sched : list Action) (st : RunState)
  : option RunState :=
  match sched with
  | [] => Some st
  | a :: rest => st' ← apply g a st; run_schedule g rest st'
  end.

Inductive reachable (g : Graph) : RunState -> Prop :=
  | reach_init : reachable g (init g)
  | reach_step st a st' :
      reachable g st -> apply g a st = Some st' -> reachable g st'.

(** [run()] returns when every System has completed. *)
Definition all_done (st : RunState) : bool :=
  forallb finished (systems st).

(** The indices of the invocations of [s] a trace starts, ends, and the
    slots of [s] it claims, in order. *)
Definition starts_of (s : nat) (tr : list Event) : list nat :=
  omap (fun e => match e with
                 | Start s' i => if (s' =? s)%nat then Some i else None
                 | _ => None
                 end) tr.
Definition finishes_of (s : nat) (tr : list Event) : list nat :=
  omap (fun e => match e with
                 | Finish s' i => if (s' =? s)%nat then Some i else None
                 | _ => None
                 end) tr.
Definition claims_of (t : nat) (tr : list Event) : list nat :=
  omap (fun e => match e with
                 | Claim _ _ t' slot => if (t' =? t)%nat then Some slot else None
                 | _ => None
                 end) tr.

(** Does the event belong to an invocation of [s]. *)
Definition invocation_of (s : nat) (e : Event) : bool :=
  match e with
  | Start s' _ | Finish s' _ | Claim s' _ _ _ => (s' =? s)%nat
  | Done _ => false
  end.

(** A schedule that runs the Systems one after the other, each
    invocation to its end before the next, claiming nothing. *)
Definition serial_system (s k : nat) : list Action :=
  flat_map (fun i => [DoStart s; DoFinish s i]) (seq 0 k) ++ [DoDone s].
Definition fixed_count (d : SystemDecl) : nat :=
  match policy d with Fixed k => k | Dynamic _ => 0%nat end.
Definition declared_count (g : Graph) (s : nat) : nat :=
  match g !! s with Some d => fixed_count d | None => 0%nat end.
Definition serial_schedule (g : Graph) : list Action :=
  flat_map (fun s => serial_system s (declared_count g s)) (seq 0 (length g)).

End TaskGraph.

(** *** The invariant of an epoch *)

Section TaskGraphInvariant.
Import TaskGraph.

(** Does the event enter the projections of the trace on [s]. *)
Definition touches (s : nat) (e : Event) : bool :=
  match e with
  | Start s' _ | Finish s' _ => (s' =? s)%nat
  | Claim _ _ t _ => (t =? s)%nat
  | Done _ => false
  end.

Record sys_inv (g : Graph) (st : RunState) (s : nat) (r : SysRun) : Prop := {
  inv_starts : starts_of s (trace st) = seq 0 (dispatched r);
  inv_finishes : finishes_of s (trace st) ++ running r ≡ₚ seq 0 (dispatched r);
  inv_bound : (dispatched r <= numInvocations r)%nat;
  inv_finished :
    finished r = true ->
    running r = [] /\ dispatched r = numInvocations r /\
    eligible g (systems st) s = true;
  inv_started :
    (0 < dispatched r)%nat -> eligible g (systems st) s = true;
  inv_count :
    forall d, g !! s = Some d ->
      match policy d with
      | Fixed k => numInvocations r = k
      | Dynamic _ => claims_of s (trace st) = seq 0 (numInvocations r)
      end;
}.

Definition epoch_inv (g : Graph) (st : RunState) : Prop :=
  length (systems st) = length g /\
  forall s r, systems st !! s = Some r -> sys_inv g st s r.

(** A System that ran all its declared invocations and completed. *)
Definition done_run (d : SystemDecl) : SysRun :=
  mkSysRun (fixed_count d) (fixed_count d) [] true.

(** How far a System, and an epoch, is from its end: two for each
    invocation still to dispatch, one for each that runs, one for the
    completion itself. *)
Definition sys_weight (r : SysRun) : nat :=
  2 * (numInvocations r - dispatched r) + length (running r)
  + (if finished r then 0 else 1).
Definition epoch_weight (rs : list SysRun) : nat :=
  list_sum (map sys_weight rs).

End TaskGraphInvariant.

(** The graph [SimManager::taskgraphSetup] registers when [useUnified] is
    off, for counts [n_pre], [n_broad] and [n_solver] of the fixed Systems. *)
Definition simple_taskgraph (n_pre n_broad n_solver : nat)
  : option TaskGraph.Graph :=
  '(preprocess_id, b) ←
     TaskGraph.registerSystem [] (TaskGraph.Fixed n_pre) [];
  '(broad_id, b) ←
     TaskGraph.registerSystem b (TaskGraph.Fixed n_broad) [preprocess_id];
  '(narrow_id, b) ←
     TaskGraph.registerSystem b (TaskGraph.Dynamic broad_id) [broad_id];
  '(_, b) ←
     TaskGraph.registerSystem b (TaskGraph.Fixed n_solver) [narrow_id];
  Some (TaskGraph.build b).

(** ** Instances for evaluation *)

(** An arena to run the definitions on: a bump pointer per worker, and the
    freed blocks, as (pointer, size), in the shared state.  It refuses
    requests above the maxima, as the spec has it. *)
Definition bump_allocator : Allocator := {|
  AllocState := Z;
  SharedAllocState := list (Z * Z);
  maxJobSize := 1024;
  maxJobAlignment := 128;
  Alloc_alloc := fun next shared num_bytes alignment =>
    if (num_bytes <=? 1024) && (alignment <=? 128) then
      let p := utils.roundUpPow2 next alignment in
      Some (p, p + num_bytes, shared)
    else None;
  Alloc_dealloc := fun next shared ptr num_bytes =>
    (next, shared ++ [(ptr, num_bytes)]);
|}.

(** Three callable types: a captureless lambda that counts, a lambda
    holding two words that adds them to the count, and a captureless
    lambda that submits one of each of the others. *)
Definition counter_fn : FnType := mkFnType 0 true 1 0.
Definition adder_fn : FnType := mkFnType 1 false 16 3.
Definition spawner_fn : FnType := mkFnType 2 true 1 0.
(** A lambda whose capture is larger than any job may be. *)
Definition huge_fn : FnType := mkFnType 3 false 4096 3.

Definition sample_code : UserCode := {|
  UserState := Z;
  body := fun F cap ctx u =>
    match fn_tag F with
    | O => (u + 1, [])
    | S O => (u + fold_right Z.add 0 cap, [])
    | S (S O) => (u, [mkSubmission counter_fn [] false [];
                     mkSubmission adder_fn [3; 4] false []])
    | _ => (u, [])
    end;
|}.

(** Two workers, nothing submitted yet. *)
Definition sample_arenas : list Z := [4096; 65536].
Definition sample_manager : @JobManager bump_allocator sample_code :=
  @mkJobManager bump_allocator sample_code sample_arenas
                (@nil (Z * Z)) ∅ [] 0 [].

(** Two unit cubes half a unit apart on the x axis, in a world of
    [-10, 10]^3, in binary64. *)
Definition sample_env : @EnvInit prim_float_ops :=
  let v (x y z : PrimFloat.float) := @mkVector3 prim_float_ops x y z in
  let q := @mkQuat prim_float_ops 1%float 0%float 0%float 0%float in
  @mkEnvInit prim_float_ops
    (@mkAABB prim_float_ops (v (-10)%float (-10)%float (-10)%float)
                            (v 10%float 10%float 10%float))
    2
    [ @mkObjInit prim_float_ops (v 0%float 0%float 0%float) q;
      @mkObjInit prim_float_ops (v 0.5%float 0%float 0%float) q ].

Definition sample_sim : @SimpleSim prim_float_ops :=
  default uninit_sim (SimpleSim_ctor sample_env).

Definition sample_mgr : @SimManager prim_float_ops :=
  default (mkSimManager 0 0 0 0 0 [] [] [] [] [])
          (SimManager_ctor [sample_env] 1 0).

Definition sample_mgr_after_unified : @SimManager prim_float_ops :=
  default sample_mgr (UnifiedSystem_run false sample_mgr 0).

(** The example's graph with two objects in one world: two preprocess
    invocations, four broadphase tests, one solver invocation; and an
    epoch of it in which the broadphase claims two narrowphase slots. *)
Definition sample_graph : TaskGraph.Graph :=
  default [] (simple_taskgraph 2 4 1).

Definition sample_schedule : list TaskGraph.Action :=
  let s := TaskGraph.DoStart in
  let f := TaskGraph.DoFinish in
  let c := TaskGraph.DoClaim in
  let d := TaskGraph.DoDone in
  [ s 0; s 0; f 0 1; f 0 0; d 0;
    s 1; s 1; c 1 0 2; f 1 1; s 1; f 1 0; s 1; c 1 3 2; f 1 2; f 1 3; d 1;
    s 2; s 2; f 2 1; f 2 0; d 2;
    s 3; f 3 0; d 3 ]%nat.

Definition sample_run : TaskGraph.RunState :=
  default (TaskGraph.init sample_graph)
          (TaskGraph.run_schedule sample_graph sample_schedule
                                  (TaskGraph.init sample_graph)).

(** The example manager after its preprocess invocations, then after its
    broadphase invocations (four invocations, the writes of the two that
    find an overlap in the order opposite to their claims), then after its
    narrowphase invocations. *)
Definition sample_mgr_preprocessed : @SimManager prim_float_ops :=
  default sample_mgr (Array.for_each PreprocessSystem_run sample_mgr [1; 0]).
Definition sample_broad_steps : list BroadStep :=
  [StepClaim 3; StepClaim 2; StepClaim 1; StepWrite 1; StepClaim 0;
   StepWrite 0].
Definition sample_mgr_broad : @SimManager prim_float_ops :=
  default sample_mgr
    (broad_mgr <$>
       Array.for_each broad_step (mkBroadState sample_mgr_preprocessed [])
                      sample_broad_steps).
Definition sample_mgr_narrow : @SimManager prim_float_ops :=
  default sample_mgr
    (Array.for_each (NarrowphaseSystem_run false) sample_mgr_broad [1; 0]).

(** A job made by worker 1 from the lambda holding two words, and the
    manager after worker 0 has called the callable. *)
Definition sample_made
  : Job * @JobManager bump_allocator sample_code :=
  match makeJob adder_fn [3; 4] 1 sample_manager with
  | Ok jm => jm
  | _ => (mkJob (EntryInline adder_fn) None, sample_manager)
  end.
Definition sample_called : @JobManager bump_allocator sample_code :=
  match invoke adder_fn [3; 4] (data_ (fst sample_made)) (mkContext 0)
               (snd sample_made) with
  | Ok m => m
  | _ => sample_manager
  end.

(** A job submitted by worker 0 and not run yet, and a job submitted by
    worker 1 that names it as a dependency. *)
Definition sample_submitted
  : JobID * @JobManager bump_allocator sample_code :=
  match Context_queueJob (mkContext 0) counter_fn [] false [] sample_manager with
  | Ok r => r
  | _ => (0%nat, sample_manager)
  end.
Definition sample_dependent
  : JobID * @JobManager bump_allocator sample_code :=
  match Context_queueJob (mkContext 1) adder_fn [3; 4] false
                         [fst sample_submitted] (snd sample_submitted) with
  | Ok r => r
  | _ => (0%nat, sample_manager)
  end.

(** ** Laws of the arithmetic, for the statements that need them *)

(** [operator<] on [float] relates no value to itself and is transitive.
    IEEE comparison has both properties, NaN included. *)
Class FloatOrder (FO : FloatOps) : Prop := {
  flt_irrefl : forall x : float, flt x x = false;
  flt_trans : forall x y z : float,
      flt x y = true -> flt y z = true -> flt x z = true;
}.

(** Arithmetic without rounding: the operations form a commutative ring
    and [2.f] is [1.f + 1.f].  The statements made under this class are
    about the formulas of math.inl, not about their rounding errors. *)
Class FloatExact (FO : FloatOps) : Prop := {
  float_ring : ring_theory f_zero f_one fadd fmul fsub fneg (@eq float);
  f_two_eq : f_two = fadd f_one f_one;
}.

(** The integers as an instance of exact arithmetic. *)
Definition exact_int_ops : FloatOps := {|
  float := Z;
  f_zero := 0;
  f_one := 1;
  f_two := 2;
  f_max := 2 ^ 127;
  fneg := Z.opp;
  fadd := Z.add;
  fsub := Z.sub;
  fmul := Z.mul;
  fdiv := Z.div;
  fsqrtf := Z.sqrt;
  frsqrtf := fun v => 1 / Z.sqrt v;
  flt := Z.ltb;
|}.

(** [operator<=] on [float], which [AABB::contains] uses; [a >= b] is
    [b <= a]. *)
Class FloatLe (FO : FloatOps) := { fle : @float FO -> @float FO -> bool }.

Global Instance prim_float_le : FloatLe prim_float_ops :=
  Build_FloatLe prim_float_ops PrimFloat.leb.

(** How [operator<=] and [operator<] chain; IEEE comparison does, NaN
    included. *)
Class FloatLeOrder (FO : FloatOps) (FL : FloatLe FO) : Prop := {
  fle_trans : forall x y z : @float FO,
      fle x y = true -> fle y z = true -> fle x z = true;
  fle_flt_trans : forall x y z : @float FO,
      fle x y = true -> flt y z = true -> flt x z = true;
  flt_fle_trans : forall x y z : @float FO,
      flt x y = true -> fle y z = true -> flt x z = true;
}.

(** Exact arithmetic with its order: [operator<] is a total order that
    addition and multiplication by a positive number respect. *)
Class FloatOrderedExact (FO : FloatOps) : Prop := {
  foe_exact :: FloatExact FO;
  foe_order :: FloatOrder FO;
  flt_total : forall x y : float, flt x y = false -> flt y x = false -> x = y;
  flt_add : forall x y z : float,
      flt x y = true -> flt (fadd x z) (fadd y z) = true;
  flt_mul_pos : forall x y z : float,
      flt f_zero z = true -> flt x y = true ->
      flt (fmul z x) (fmul z y) = true;
}.

Section MathVocabulary.
Context {FO : FloatOps}.

(** No coordinate of [p] is below [pMin] or above [pMax]. *)
Definition AABB_holds (b : AABB) (p : Vector3) : Prop :=
  flt (v_x p) (v_x (pMin b)) = false /\ flt (v_x (pMax b)) (v_x p) = false /\
  flt (v_y p) (v_y (pMin b)) = false /\ flt (v_y (pMax b)) (v_y p) = false /\
  flt (v_z p) (v_z (pMin b)) = false /\ flt (v_z (pMax b)) (v_z p) = false.

(** On no axis is [pMax] below [pMin]. *)
Definition AABB_ordered (b : AABB) : Prop :=
  flt (v_x (pMax b)) (v_x (pMin b)) = false /\
  flt (v_y (pMax b)) (v_y (pMin b)) = false /\
  flt (v_z (pMax b)) (v_z (pMin b)) = false.

(** The corners of the cube [preprocessObject] transforms, in its order. *)
Definition cube_corners : list Vector3 :=
  let m1 := fneg f_one in
  let p1 := f_one in
  [ mkVector3 m1 m1 m1; mkVector3 p1 m1 m1; mkVector3 p1 p1 m1;
    mkVector3 m1 p1 m1; mkVector3 m1 m1 p1; mkVector3 p1 m1 p1;
    mkVector3 p1 p1 p1; mkVector3 m1 p1 p1 ].

(** [AABB::contains] *)
Definition AABB_contains {FL : FloatLe FO} (a o : AABB) : bool :=
  let a_min := pMin a in let a_max := pMax a in
  let b_min := pMin o in let b_max := pMax o in
  fle (v_x a_min) (v_x b_min) &&
  fle (v_y a_min) (v_y b_min) &&
  fle (v_z a_min) (v_z b_min) &&
  fle (v_x b_max) (v_x a_max) &&
  fle (v_y b_max) (v_y a_max) &&
  fle (v_z b_max) (v_z a_max).

End MathVocabulary.

Section BoxTransform.
Context {FO : FloatOps}.

(** [Vector3::operator[]]: every index but 1 and 2 selects [x]. *)
Definition Vector3_index (v : Vector3) (i : Z) : float :=
  if i =? 1 then v_y v else if i =? 2 then v_z v else v_x v.

(** An assignment through the reference that [operator[]] returns. *)
Definition Vector3_assign (v : Vector3) (i : Z) (a : float) : Vector3 :=
  if i =? 1 then mkVector3 (v_x v) a (v_z v)
  else if i =? 2 then mkVector3 (v_x v) (v_y v) a
  else mkVector3 a (v_y v) (v_z v).

(** [Mat3x3::operator[]]: [cols[i]]. *)
Definition Mat3x3_index (m : Mat3x3) (i : Z) : option Vector3 :=
  Array.load [m_cols0 m; m_cols1 m; m_cols2 m] i.

(** The body of the inner loop of [AABB::applyTRS], for row [i] and
    column [j]. *)
Definition applyTRS_term (rot_mat : Mat3x3) (box : AABB) (i : Z)
    (txfmed : AABB) (j : Z) : option AABB :=
  col ← Mat3x3_index rot_mat j;
  let e := fmul (Vector3_index col i) (Vector3_index (pMin box) j) in
  let f := fmul (Vector3_index col i) (Vector3_index (pMax box) j) in
  if flt e f then
    Some (mkAABB
            (Vector3_assign (pMin txfmed) i
               (fadd (Vector3_index (pMin txfmed) i) e))
            (Vector3_assign (pMax txfmed) i
               (fadd (Vector3_index (pMax txfmed) i) f)))
  else
    Some (mkAABB
            (Vector3_assign (pMin txfmed) i
               (fadd (Vector3_index (pMin txfmed) i) f))
            (Vector3_assign (pMax txfmed) i
               (fadd (Vector3_index (pMax txfmed) i) e))).

(** [AABB::applyTRS].  [txfmed] is declared without a value; it is an
    argument here. *)
Definition AABB_applyTRS (txfmed : AABB) (box : AABB) (translation : Vector3)
    (rotation : Quat) (scale : Diag3x3) : option AABB :=
  let rot_mat := Mat3x3_fromRS rotation scale in
  Array.for_each
    (fun txfmed i =>
       let t := Vector3_index translation i in
       let txfmed := mkAABB (Vector3_assign (pMin txfmed) i t)
                            (Vector3_assign (pMax txfmed) i t) in
       Array.for_each (applyTRS_term rot_mat box i) txfmed (int_range 3))
    txfmed (int_range 3).

(** The smaller and the larger of two products, as the inner loop picks
    them. *)
Definition slab (e f : float) : float * float :=
  if flt e f then (e, f) else (f, e).

(** The bounds [AABB::applyTRS] computes for row [i], from the
    coordinate [t] of the translation. *)
Definition row_bounds (rot_mat : Mat3x3) (box : AABB) (t : float) (i : Z)
  : float * float :=
  let term j col :=
    slab (fmul (Vector3_index col i) (Vector3_index (pMin box) j))
         (fmul (Vector3_index col i) (Vector3_index (pMax box) j)) in
  let s0 := term 0 (m_cols0 rot_mat) in
  let s1 := term 1 (m_cols1 rot_mat) in
  let s2 := term 2 (m_cols2 rot_mat) in
  (fadd (fadd (fadd t (fst s0)) (fst s1)) (fst s2),
   fadd (fadd (fadd t (snd s0)) (snd s1)) (snd s2)).

(** [x] is not above [y]. *)
Definition not_above (x y : float) : Prop := flt y x = false.

End BoxTransform.

(** ** Epochs of the example *)

Section EpochVocabulary.
Context {FO : FloatOps}.
Variable MADRONA_GPU_MODE : bool.

(** The entries [SimManager::SimManager] writes for world [w] of [n]
    objects: one [SphereIndex] per object, one [TestIndex] per ordered
    pair of objects. *)
Definition world_spheres (w n : Z) : list SphereIndex :=
  map (fun offset => mkSphereIndex w offset) (int_range n).
Definition world_tests (w n : Z) : list TestIndex :=
  flat_map (fun offset => map (fun other => mkTestIndex w offset other)
                              (int_range n))
           (int_range n).

(** The tables for the worlds [ss], the first of which is world [w]. *)
Fixpoint sphere_table (w : Z) (ss : list SimpleSim) : list SphereIndex :=
  match ss with
  | [] => []
  | s :: rest => world_spheres w (numSphereObjects s) ++ sphere_table (w + 1) rest
  end.
Fixpoint test_table (w : Z) (ss : list SimpleSim) : list TestIndex :=
  match ss with
  | [] => []
  | s :: rest => world_tests w (numSphereObjects s) ++ test_table (w + 1) rest
  end.

(** A manager between two epochs: every world is ready, the two index
    tables list the objects and the ordered pairs of objects of every
    world, [candidatePairs] has a slot per test, and the counts of the
    Systems are the sizes of their tables.  The count of the narrowphase is
    whatever the last epoch left, except that nothing resets it when there
    is no object at all. *)
Record mgr_ready (mgr : SimManager) : Prop := {
  mr_worlds : Forall unified_ready (sims mgr);
  mr_spheres : sphereIndices mgr = sphere_table 0 (sims mgr);
  mr_tests : testIndices mgr = test_table 0 (sims mgr);
  mr_pairs : length (candidatePairs mgr) = length (testIndices mgr);
  mr_preprocess :
    preprocess_numInvocations mgr = Z.of_nat (length (sphereIndices mgr));
  mr_broad : broad_numInvocations mgr = Z.of_nat (length (testIndices mgr));
  mr_solver : solver_numInvocations mgr = Z.of_nat (length (sims mgr));
  mr_unified : unified_numInvocations mgr = Z.of_nat (length (sims mgr));
  mr_small : Z.of_nat (length (testIndices mgr)) < 2 ^ 32;
  mr_narrow : sphereIndices mgr = [] -> narrow_numInvocations mgr = 0;
}.

(** The invocations [0 .. count-1] of a System, in the order [order]
    gives them; [count] is read when the System starts. *)
Definition run_system (run : SimManager -> Z -> option SimManager)
    (count : SimManager -> Z) (order : Z -> list Z) (mgr : SimManager)
  : option SimManager :=
  Array.for_each run mgr (order (count mgr)).

(** An epoch of the graph [taskgraphSetup] registers without [useUnified]:
    the four Systems one after the other, as their dependencies chain
    them. *)
Definition split_epoch (pre broad narrow solve : Z -> list Z)
    (mgr : SimManager) : option SimManager :=
  mgr ← run_system PreprocessSystem_run preprocess_numInvocations pre mgr;
  mgr ← run_system BroadphaseSystem_run broad_numInvocations broad mgr;
  mgr ← run_system (NarrowphaseSystem_run MADRONA_GPU_MODE)
                   narrow_numInvocations narrow mgr;
  run_system SolverSystem_run solver_numInvocations solve mgr.

(** An epoch of the graph registered with [useUnified]. *)
Definition unified_epoch (order : Z -> list Z) (mgr : SimManager)
  : option SimManager :=
  run_system (UnifiedSystem_run MADRONA_GPU_MODE) unified_numInvocations
             order mgr.

(** An index entry that names an object, or two objects, of a world of [ss]. *)
Definition valid_sphere (ss : list SimpleSim) (si : SphereIndex) : Prop :=
  exists sim,
    Array.load ss (sphere_world si) = Some sim /\
    0 <= sphere_offset si < numSphereObjects sim.
Definition valid_test (ss : list SimpleSim) (t : TestIndex) : Prop :=
  exists sim,
    Array.load ss (test_world t) = Some sim /\
    0 <= test_a t < numSphereObjects sim /\
    0 <= test_b t < numSphereObjects sim.

(** A world during an epoch, against the world [sim0] the epoch started
    from: as large, and well formed. *)
Definition world_kept (sim0 sim : SimpleSim) : Prop :=
  same_shape sim0 sim /\ sim_ok sim.

(** What no System changes: the counts set by the constructor, the two
    index tables and the size of [candidatePairs]. *)
Definition same_tables (mgr mgr' : SimManager) : Prop :=
  preprocess_numInvocations mgr' = preprocess_numInvocations mgr /\
  broad_numInvocations mgr' = broad_numInvocations mgr /\
  solver_numInvocations mgr' = solver_numInvocations mgr /\
  unified_numInvocations mgr' = unified_numInvocations mgr /\
  sphereIndices mgr' = sphereIndices mgr /\
  testIndices mgr' = testIndices mgr /\
  length (candidatePairs mgr') = length (candidatePairs mgr).

(** How many entries of a list of worlds are world [w]. *)
Definition world_count (w : Z) (l : list (option Z)) : Z :=
  Z.of_nat (length (filter (fun x => x = Some w) l)).

(** The world of the pair in a slot of [candidatePairs], and of the test
    at an offset of [testIndices]. *)
Definition slot_world (pairs : list CandidatePair) (i : Z) : option Z :=
  pair_world <$> Array.load pairs i.
Definition offset_world (tests : list TestIndex) (off : Z) : option Z :=
  test_world <$> Array.load tests off.

(** The number of broadphase tests of the worlds to build: one per
    ordered pair of objects of a world. *)
Definition total_tests (env_inits : list EnvInit) : Z :=
  fold_right (fun e acc => numObjs e * numObjs e + acc) 0 env_inits.

Global Instance SphereIndex_eq_dec : EqDecision SphereIndex.
Proof. solve_decision. Defined.

(** What [preprocessObject] stores for an object in a world of bounds
    [wb]: the translation clamped, the rotation as it was, and the box of
    the eight transformed corners. *)
Definition preprocessed (wb : AABB) (object : SphereObject) : SphereObject :=
  let t := translation object in
  let t' := mkVector3
              (clamp (v_x t) (v_x (pMin wb)) (v_x (pMax wb)))
              (clamp (v_y t) (v_y (pMin wb)) (v_y (pMax wb)))
              (clamp (v_z t) (v_z (pMin wb)) (v_z (pMax wb))) in
  let model_mat := Mat3x4_fromTRS t' (rotation object) Diag3x3_one in
  let m1 := fneg f_one in
  let p1 := f_one in
  let cube0 := Mat3x4_txfmPoint model_mat (mkVector3 m1 m1 m1) in
  let cube_rest :=
    map (Mat3x4_txfmPoint model_mat)
        [ mkVector3 p1 m1 m1; mkVector3 p1 p1 m1; mkVector3 m1 p1 m1;
          mkVector3 m1 m1 p1; mkVector3 p1 m1 p1; mkVector3 p1 p1 p1;
          mkVector3 m1 p1 p1 ] in
  mkSphereObject t' (rotation object)
                 (fold_left AABB_expand cube_rest (AABB_point cube0)).

(** A world with every object preprocessed. *)
Definition preprocess_world (sim : SimpleSim) : SimpleSim :=
  set_sphereObjects sim
    (map (preprocessed (worldBounds sim)) (sphereObjects sim)).

(** The contacts the narrow phase records for the tests [ts], in order:
    the rest of an epoch for one world, after its objects are
    preprocessed. *)
Definition record_contacts (sim : SimpleSim) (ts : list TestIndex)
  : option SimpleSim :=
  Array.for_each (fun s t => narrowPhase MADRONA_GPU_MODE true s (test_a t) (test_b t))
                 sim ts.

(** Whether the boxes of the two objects of a test overlap in [sim]. *)
Definition test_hits (sim : SimpleSim) (t : TestIndex) : bool :=
  match compareObjAABBs sim (test_a t) (test_b t) with
  | Some true => true
  | _ => false
  end.

(** An epoch for one world, its steps in index order: preprocess every
    object, record a contact for every ordered pair whose boxes overlap,
    resolve the contacts, reset their count. *)
Definition world_epoch (w : Z) (sim : SimpleSim) : option SimpleSim :=
  let sim1 := preprocess_world sim in
  sim2 ← record_contacts sim1
            (List.filter (test_hits sim1)
                         (world_tests w (numSphereObjects sim)));
  sim3 ← processContacts sim2;
  Some (set_numContacts sim3 (atomic_store 0)).

(** The sum of the translations of some objects. *)
Definition sum_translations (objs : list SphereObject) : Vector3 :=
  fold_right (fun o acc => Vector3_add (translation o) acc) Vector3_zero objs.

(** An order of dispatch: for every count, the indices below it, each once. *)
Definition dispatch_order (order : Z -> list Z) : Prop :=
  forall n, order n ≡ₚ int_range n.

End EpochVocabulary.

(** *** More instances for evaluation *)

(** The example world after [preprocessObject] on its object 0. *)
Definition sample_sim_preprocessed : @SimpleSim prim_float_ops :=
  default sample_sim (preprocessObject sample_sim 0).

(** A transform, a quaternion and a vector of integers. *)
Definition sample_quat : @Quat exact_int_ops := @mkQuat exact_int_ops 1 2 3 4.
Definition sample_vec : @Vector3 exact_int_ops := @mkVector3 exact_int_ops 5 6 7.
Definition sample_unit_quat : @Quat exact_int_ops := @mkQuat exact_int_ops 0 0 1 0.
Definition sample_box : @AABB exact_int_ops :=
  @mkAABB exact_int_ops (@mkVector3 exact_int_ops 0 0 0) sample_vec.

(** A world of two objects over the integers with two contacts recorded. *)
Definition sample_exact_sim : @SimpleSim exact_int_ops :=
  @mkSimpleSim exact_int_ops
    (@mkAABB exact_int_ops sample_vec sample_vec)
    [ @mkSphereObject exact_int_ops sample_vec sample_quat
        (@mkAABB exact_int_ops sample_vec sample_vec);
      @mkSphereObject exact_int_ops (@mkVector3 exact_int_ops 1 1 1)
        sample_unit_quat (@mkAABB exact_int_ops sample_vec sample_vec) ]
    [ @mkContactData exact_int_ops (@mkVector3 exact_int_ops 1 2 3) 0 1;
      @mkContactData exact_int_ops (@mkVector3 exact_int_ops 4 0 1) 1 1;
      @mkContactData exact_int_ops sample_vec 0 0;
      @mkContactData exact_int_ops sample_vec 0 0 ]
    2 2.
Definition sample_diag : @Diag3x3 exact_int_ops := @mkDiag3x3 exact_int_ops 2 3 4.
Definition sample_mat : @Mat3x4 exact_int_ops :=
  @mkMat3x4 exact_int_ops sample_vec sample_vec sample_vec sample_vec.

(** ** physics_assets.cpp *)

Module PhysicsLoader.

Inductive StorageType := CPU | CUDA.

(** A pointer to the first of some elements: in memory of the caller,
    given by the elements from the pointer on, or at an offset of the pool
    of the loader for that kind of element. *)
Inductive ArrayPtr (A : Type) :=
  | CallerMem (elems : list A)
  | PoolAt (offset : Z).
Arguments CallerMem {A} elems.
Arguments PoolAt {A} offset.

(** An array of the loader: a cell is [None] until it is written. *)
Abbreviation Cells A := (list (option A)) (only parsing).

(** [malloc(num_bytes)] as an array of elements of [sizeof_A] bytes;
    the allocation is taken to succeed. *)
Definition malloc {A} (sizeof_A num_bytes : Z) : Cells A :=
  replicate (Z.to_nat (num_bytes / sizeof_A)) None.

(** The cells [off .. off + n - 1]; outside the array there are none. *)
Definition cells {A} (mem : Cells A) (off n : Z) : option (Cells A) :=
  if (0 <=? off) && (0 <=? n) && (off + n <=? Z.of_nat (length mem))
  then Some (take (Z.to_nat n) (drop (Z.to_nat off) mem))
  else None.

Definition write_cells {A} (mem : Cells A) (off : Z) (src : Cells A)
  : option (Cells A) :=
  if (0 <=? off) && (off + Z.of_nat (length src) <=? Z.of_nat (length mem))
  then Some (take (Z.to_nat off) mem ++ src
             ++ drop (Z.to_nat off + length src) mem)
  else None.

(** The [n] elements behind a pointer. *)
Definition deref {A} (pool : Cells A) (p : ArrayPtr A) (n : Z)
  : option (Cells A) :=
  match p with
  | CallerMem elems =>
      if (0 <=? n) && (n <=? Z.of_nat (length elems))
      then Some (map Some (take (Z.to_nat n) elems))
      else None
  | PoolAt off => cells pool off n
  end.

(** [memcpy(pool + dst_off, p, sizeof(A) * n)]: undefined when it reads or
    writes outside an array, or when source and destination overlap. *)
Definition memcpy_pool {A} (pool : Cells A) (dst_off : Z) (p : ArrayPtr A)
    (n : Z) : option (Cells A) :=
  src ← deref pool p n;
  match p with
  | PoolAt off =>
      if (off + n <=? dst_off) || (dst_off + n <=? off)
      then write_cells pool dst_off src
      else None
  | CallerMem _ => write_cells pool dst_off src
  end.

(** [memcpy(dst + dst_off, src, sizeof(A) * n)] from an array of the
    caller. *)
Definition memcpy_from {A} (dst : Cells A) (dst_off : Z) (src : list A) (n : Z)
  : option (Cells A) :=
  memcpy_pool dst dst_off (CallerMem src) n.

Definition defined {A} (o : option A) : Outcome A :=
  match o with
  | Some a => Ok a
  | None => Undefined
  end.

Section Loader.
Context {FO : FloatOps}.
Context {RigidBodyMetadata PolygonData EdgeData HalfEdge OtherPrimitive : Type}.

(** Whether [assert] is compiled out. *)
Variable NDEBUG : bool.

(** [CountT] is a signed integer type of this many bits. *)
Variable CountT_bits : Z.

(** [sizeof] of the types the file does not define; [math::Vector3] is
    three [float] and [math::AABB] two [math::Vector3]. *)
Variables sizeof_RigidBodyMetadata sizeof_CollisionPrimitive
          sizeof_PolygonData sizeof_EdgeData sizeof_HalfEdge : Z.
Definition sizeof_Vector3 : Z := 12.
Definition sizeof_AABB : Z := 24.

Definition is_CountT (v : Z) : bool :=
  (- 2 ^ (CountT_bits - 1) <=? v) && (v <? 2 ^ (CountT_bits - 1)).

(** [geometry::HalfEdgeMesh], the members [loadObjects] uses. *)
Record HalfEdgeMesh := mkHalfEdgeMesh {
  mPolygons : ArrayPtr PolygonData;
  mPolygonCount : Z;
  mEdges : ArrayPtr EdgeData;
  mEdgeCount : Z;
  mHalfEdges : ArrayPtr HalfEdge;
  mHalfEdgeCount : Z;
  mVertices : ArrayPtr Vector3;
  mVertexCount : Z;
}.

(** [CollisionPrimitive]: its [type] is [Type::Hull], with the mesh of
    [hull.halfEdgeMesh], or another one, with the rest of the union. *)
Inductive CollisionPrimitive :=
  | Hull (halfEdgeMesh : HalfEdgeMesh)
  | NotHull (other : OtherPrimitive).

(** [struct PhysicsLoader::Impl].  [mgr] holds the same seven pointers
    and is left out. *)
Record Impl := mkImpl {
  metadatas : Cells RigidBodyMetadata;
  aabbs : Cells AABB;
  primitives : Cells CollisionPrimitive;
  polygonDatas : Cells PolygonData;
  edgeDatas : Cells EdgeData;
  halfEdges : Cells HalfEdge;
  vertices : Cells Vector3;
  polygonCount : Z;
  edgeCount : Z;
  halfEdgeCount : Z;
  vertexCount : Z;
  curLoadedObjs : Z;
  maxObjs : Z;
  storageType : StorageType;
}.

(** [PhysicsLoader::Impl::init]; byte counts are [size_t].  Both kinds of
    storage get arrays of the same sizes. *)
Definition init (storage_type : StorageType) (max_objects : Z) : Impl :=
  let max_vertices_per_object := 100 in
  let max_polygons_per_object := 100 in
  let max_edges_per_object := 100 in
  let max_half_edges_per_object := 100 in
  let num_metadata_bytes := u64 (sizeof_RigidBodyMetadata * max_objects) in
  let num_aabb_bytes := u64 (sizeof_AABB * max_objects) in
  let num_primitive_bytes := u64 (sizeof_CollisionPrimitive * max_objects) in
  let num_vertices_bytes :=
    u64 (u64 (sizeof_Vector3 * max_objects) * max_vertices_per_object) in
  let num_polygon_bytes :=
    u64 (u64 (sizeof_PolygonData * max_objects) * max_polygons_per_object) in
  let num_edges_bytes :=
    u64 (u64 (sizeof_EdgeData * max_objects) * max_edges_per_object) in
  let num_half_edges_bytes :=
    u64 (u64 (sizeof_HalfEdge * max_objects) * max_half_edges_per_object) in
  mkImpl (malloc sizeof_RigidBodyMetadata num_metadata_bytes)
         (malloc sizeof_AABB num_aabb_bytes)
         (malloc sizeof_CollisionPrimitive num_primitive_bytes)
         (malloc sizeof_PolygonData num_polygon_bytes)
         (malloc sizeof_EdgeData num_edges_bytes)
         (malloc sizeof_HalfEdge num_half_edges_bytes)
         (malloc sizeof_Vector3 num_vertices_bytes)
         0 0 0 0 0 max_objects storage_type.

(** The three statements [loadObjects] repeats for each array of a hull:
    [memcpy] of the [n] elements behind [p] to [pool + count], the pointer
    of the mesh set to the copy, [count += n].  A count that leaves
    [CountT] is undefined. *)
Definition pool_append {A} (pool : Cells A) (count : Z) (p : ArrayPtr A)
    (n : Z) : option (Cells A * ArrayPtr A * Z) :=
  pool' ← memcpy_pool pool count p n;
  if is_CountT (count + n) then Some (pool', PoolAt count, count + n)
  else None.

(** The body of the loop of [loadObjects] for [primitives[i]], case
    [StorageType::CPU]. *)
Definition load_hull (impl : Impl) (prim : CollisionPrimitive)
  : option (Impl * CollisionPrimitive) :=
  match prim with
  | Hull hEdgeMesh =>
      '(pd, polygons, polygon_count) ←
        pool_append (polygonDatas impl) (polygonCount impl)
                    (mPolygons hEdgeMesh) (mPolygonCount hEdgeMesh);
      '(ed, edges, edge_count) ←
        pool_append (edgeDatas impl) (edgeCount impl)
                    (mEdges hEdgeMesh) (mEdgeCount hEdgeMesh);
      '(he, half_edges, half_edge_count) ←
        pool_append (halfEdges impl) (halfEdgeCount impl)
                    (mHalfEdges hEdgeMesh) (mHalfEdgeCount hEdgeMesh);
      '(vs, verts, vertex_count) ←
        pool_append (vertices impl) (vertexCount impl)
                    (mVertices hEdgeMesh) (mVertexCount hEdgeMesh);
      Some (mkImpl (metadatas impl) (aabbs impl) (primitives impl)
                   pd ed he vs
                   polygon_count edge_count half_edge_count vertex_count
                   (curLoadedObjs impl) (maxObjs impl) (storageType impl),
            Hull (mkHalfEdgeMesh polygons (mPolygonCount hEdgeMesh)
                                 edges (mEdgeCount hEdgeMesh)
                                 half_edges (mHalfEdgeCount hEdgeMesh)
                                 verts (mVertexCount hEdgeMesh)))
  | NotHull _ => Some (impl, prim)
  end.

(** The loop, over the local copy of the primitives. *)
Fixpoint load_hulls (impl : Impl) (prims : list CollisionPrimitive)
  : option (Impl * list CollisionPrimitive) :=
  match prims with
  | [] => Some (impl, [])
  | prim :: rest =>
      '(impl, prim') ← load_hull impl prim;
      '(impl, rest') ← load_hulls impl rest;
      Some (impl, prim' :: rest')
  end.

(** [PhysicsLoader::loadObjects] on a loader whose [storageType] is
    [StorageType::CPU]: the first case of its [switch].  The result is the
    loader after the call and the offset returned.  The loop counts with
    an [int]. *)
Definition loadObjects_CPU (impl : Impl)
    (metadatas_in : list RigidBodyMetadata) (aabbs_in : list AABB)
    (primitives_original : list CollisionPrimitive) (num_objs : Z)
  : Outcome (Impl * Z) :=
  let cur_offset := curLoadedObjs impl in
  if negb (is_CountT (curLoadedObjs impl + num_objs)) then Undefined else
  let cur_loaded := curLoadedObjs impl + num_objs in
  if negb NDEBUG && negb (cur_loaded <=? maxObjs impl) then Fatal else
  prims ← defined (if (0 <=? num_objs)
                      && (num_objs <=? Z.of_nat (length primitives_original))
                   then Some (take (Z.to_nat num_objs) primitives_original)
                   else None);
  if 2 ^ 31 <=? num_objs then Undefined else
  '(impl, prims) ← defined (load_hulls impl prims);
  md ← defined (memcpy_from (metadatas impl) cur_offset metadatas_in num_objs);
  bb ← defined (memcpy_from (aabbs impl) cur_offset aabbs_in num_objs);
  pr ← defined (write_cells (primitives impl) cur_offset (map Some prims));
  Ok (mkImpl md bb pr
             (polygonDatas impl) (edgeDatas impl) (halfEdges impl)
             (vertices impl)
             (polygonCount impl) (edgeCount impl) (halfEdgeCount impl)
             (vertexCount impl)
             cur_loaded (maxObjs impl) (storageType impl),
      cur_offset).

(** What a loaded mesh gives access to. *)
Record MeshData := mkMeshData {
  polygons_of : Cells PolygonData;
  edges_of : Cells EdgeData;
  half_edges_of : Cells HalfEdge;
  vertices_of : Cells Vector3;
}.

(** The arrays of a mesh, read through its pointers. *)
Definition read_mesh (impl : Impl) (m : HalfEdgeMesh) : option MeshData :=
  p ← deref (polygonDatas impl) (mPolygons m) (mPolygonCount m);
  e ← deref (edgeDatas impl) (mEdges m) (mEdgeCount m);
  h ← deref (halfEdges impl) (mHalfEdges m) (mHalfEdgeCount m);
  v ← deref (vertices impl) (mVertices m) (mVertexCount m);
  Some (mkMeshData p e h v).

(** *** Reading a loader *)

(** The [n] elements behind [p] are in memory of the caller. *)
Definition caller_array {A} (p : ArrayPtr A) (n : Z) : Prop :=
  match p with
  | CallerMem elems => 0 <= n <= Z.of_nat (length elems)
  | PoolAt _ => False
  end.

Definition caller_mesh (m : HalfEdgeMesh) : Prop :=
  caller_array (mPolygons m) (mPolygonCount m) /\
  caller_array (mEdges m) (mEdgeCount m) /\
  caller_array (mHalfEdges m) (mHalfEdgeCount m) /\
  caller_array (mVertices m) (mVertexCount m).

Definition caller_prim (prim : CollisionPrimitive) : Prop :=
  match prim with
  | Hull m => caller_mesh m
  | NotHull _ => True
  end.

(** The [n] elements behind [p] are among the first [count] of a pool. *)
Definition pooled_array {A} (count : Z) (p : ArrayPtr A) (n : Z) : Prop :=
  match p with
  | CallerMem _ => False
  | PoolAt off => 0 <= off /\ 0 <= n /\ off + n <= count
  end.

Definition pooled_mesh (impl : Impl) (m : HalfEdgeMesh) : Prop :=
  pooled_array (polygonCount impl) (mPolygons m) (mPolygonCount m) /\
  pooled_array (edgeCount impl) (mEdges m) (mEdgeCount m) /\
  pooled_array (halfEdgeCount impl) (mHalfEdges m) (mHalfEdgeCount m) /\
  pooled_array (vertexCount impl) (mVertices m) (mVertexCount m).

(** The sum of a count over the hulls of a list of primitives. *)
Definition total (count : HalfEdgeMesh -> Z) (prims : list CollisionPrimitive)
  : Z :=
  fold_right (fun prim acc => match prim with
                              | Hull m => count m + acc
                              | NotHull _ => acc
                              end) 0 prims.

(** [prim'] in the loader stands for the primitive [prim] of the caller:
    the same primitive, or a hull whose mesh lies in the pools and reads
    as the mesh of the caller does. *)
Definition loaded_as (impl : Impl) (prim prim' : CollisionPrimitive) : Prop :=
  match prim, prim' with
  | NotHull o, NotHull o' => o = o'
  | Hull m, Hull m' =>
      pooled_mesh impl m' /\ is_Some (read_mesh impl m') /\
      read_mesh impl m' = read_mesh impl m
  | _, _ => False
  end.

(** A loader between two calls: the number of objects is within
    [maxObjs], the three arrays of objects hold [maxObjs] elements, the
    counts of the pools are within the pools, and all of these are values
    of [CountT]. *)
Record loader_ok (impl : Impl) : Prop := {
  lo_cur : 0 <= curLoadedObjs impl <= maxObjs impl;
  lo_max : is_CountT (maxObjs impl) = true;
  lo_metadatas : maxObjs impl <= Z.of_nat (length (metadatas impl));
  lo_aabbs : maxObjs impl <= Z.of_nat (length (aabbs impl));
  lo_primitives : maxObjs impl <= Z.of_nat (length (primitives impl));
  lo_polygons :
    0 <= polygonCount impl <= Z.of_nat (length (polygonDatas impl));
  lo_edges : 0 <= edgeCount impl <= Z.of_nat (length (edgeDatas impl));
  lo_halfEdges :
    0 <= halfEdgeCount impl <= Z.of_nat (length (halfEdges impl));
  lo_vertices : 0 <= vertexCount impl <= Z.of_nat (length (vertices impl));
  lo_polygons_fit :
    is_CountT (Z.of_nat (length (polygonDatas impl))) = true;
  lo_edges_fit : is_CountT (Z.of_nat (length (edgeDatas impl))) = true;
  lo_halfEdges_fit : is_CountT (Z.of_nat (length (halfEdges impl))) = true;
  lo_vertices_fit : is_CountT (Z.of_nat (length (vertices impl))) = true;
}.

(** What the loop of [loadObjects] keeps of a loader: the arrays of
    objects, the sizes of the pools, and the cells of the pools below the
    counts. *)
Record extends (impl impl' : Impl) : Prop := {
  ex_metadatas : metadatas impl' = metadatas impl;
  ex_aabbs : aabbs impl' = aabbs impl;
  ex_primitives : primitives impl' = primitives impl;
  ex_cur : curLoadedObjs impl' = curLoadedObjs impl;
  ex_max : maxObjs impl' = maxObjs impl;
  ex_storage : storageType impl' = storageType impl;
  ex_polygons :
    length (polygonDatas impl') = length (polygonDatas impl) /\
    polygonCount impl <= polygonCount impl' /\
    forall o k, 0 <= o -> 0 <= k -> o + k <= polygonCount impl ->
      cells (polygonDatas impl') o k = cells (polygonDatas impl) o k;
  ex_edges :
    length (edgeDatas impl') = length (edgeDatas impl) /\
    edgeCount impl <= edgeCount impl' /\
    forall o k, 0 <= o -> 0 <= k -> o + k <= edgeCount impl ->
      cells (edgeDatas impl') o k = cells (edgeDatas impl) o k;
  ex_halfEdges :
    length (halfEdges impl') = length (halfEdges impl) /\
    halfEdgeCount impl <= halfEdgeCount impl' /\
    forall o k, 0 <= o -> 0 <= k -> o + k <= halfEdgeCount impl ->
      cells (halfEdges impl') o k = cells (halfEdges impl) o k;
  ex_vertices :
    length (vertices impl') = length (vertices impl) /\
    vertexCount impl <= vertexCount impl' /\
    forall o k, 0 <= o -> 0 <= k -> o + k <= vertexCount impl ->
      cells (vertices impl') o k = cells (vertices impl) o k;
}.

End Loader.

End PhysicsLoader.

(** A loader for two objects, with metadata, polygons, edges and half
    edges stood for by integers; a hull and another primitive to load; and
    a hull with more polygons than the loader has room for. *)
Definition sample_loader
  : @PhysicsLoader.Impl prim_float_ops Z Z Z Z Z :=
  PhysicsLoader.init 8 64 4 4 4 PhysicsLoader.CPU 2.

Definition sample_prims
  : list (@PhysicsLoader.CollisionPrimitive prim_float_ops Z Z Z Z) :=
  [ PhysicsLoader.Hull
      (PhysicsLoader.mkHalfEdgeMesh
         (PhysicsLoader.CallerMem [1; 2; 3]) 3
         (PhysicsLoader.CallerMem [4; 5]) 2
         (PhysicsLoader.CallerMem [6]) 1
         (PhysicsLoader.CallerMem [Vector3_zero; Vector3_zero]) 2);
    PhysicsLoader.NotHull 7 ].

Definition sample_large_hull
  : @PhysicsLoader.CollisionPrimitive prim_float_ops Z Z Z Z :=
  PhysicsLoader.Hull
    (PhysicsLoader.mkHalfEdgeMesh
       (PhysicsLoader.CallerMem (replicate 201 0)) 201
       (PhysicsLoader.CallerMem []) 0
       (PhysicsLoader.CallerMem []) 0
       (PhysicsLoader.CallerMem []) 0).

(** Three boxes of floats: a large one, one inside it, and one that
    overlaps the inner one. *)
Definition sample_outer_box : @AABB prim_float_ops :=
  @mkAABB prim_float_ops
    (@mkVector3 prim_float_ops 0%float 0%float 0%float)
    (@mkVector3 prim_float_ops 8%float 8%float 8%float).
Definition sample_inner_box : @AABB prim_float_ops :=
  @mkAABB prim_float_ops
    (@mkVector3 prim_float_ops 1%float 1%float 1%float)
    (@mkVector3 prim_float_ops 2%float 2%float 2%float).
Definition sample_other_box : @AABB prim_float_ops :=
  @mkAABB prim_float_ops
    (@mkVector3 prim_float_ops 1.5%float 1.5%float 1.5%float)
    (@mkVector3 prim_float_ops 9%float 9%float 9%float).

(** * Properties *)

(** ** Arrays and machine integers *)

Lemma Array_load_Some {A} (a : list A) (i : Z) (v : A) :
  Array.load a i = Some v <-> 0 <= i /\ a !! Z.to_nat i = Some v.
Proof.
  unfold Array.load. destruct (Z.leb_spec 0 i); split; intros; try tauto;
    try discriminate; lia.
Qed.

Lemma Array_store_Some {A} (a a' : list A) (i : Z) (v : A) :
  Array.store a i v = Some a' <->
  0 <= i < Z.of_nat (length a) /\ a' = <[Z.to_nat i := v]> a.
Proof.
  unfold Array.store.
  destruct (Z.leb_spec 0 i), (Z.ltb_spec i (Z.of_nat (length a))); simpl;
    split; intros Hs; try discriminate; try lia.
  - inversion Hs. split; [lia | reflexivity].
  - destruct Hs as [_ ->]. reflexivity.
Qed.

Lemma Array_load_store_eq {A} (a a' : list A) (i : Z) (v : A) :
  Array.store a i v = Some a' -> Array.load a' i = Some v.
Proof.
  intros [Hi ->]%Array_store_Some. apply Array_load_Some. split; [lia |].
  apply list_lookup_insert_eq. lia.
Qed.

Lemma Array_store_length {A} (a a' : list A) (i : Z) (v : A) :
  Array.store a i v = Some a' -> length a' = length a.
Proof. intros [_ ->]%Array_store_Some. apply length_insert. Qed.

Lemma u32_range (z : Z) : 0 <= u32 z < 2 ^ 32.
Proof. unfold u32. apply Z.mod_pos_bound. lia. Qed.

Lemma u32_small (z : Z) : 0 <= z < 2 ^ 32 -> u32 z = z.
Proof. intros. unfold u32. apply Z.mod_small. assumption. Qed.

Section SimpleTaskgraphFacts.
Context {FO : FloatOps}.
Variable MADRONA_GPU_MODE : bool.

Lemma AABB_overlaps_sym (a b : AABB) : AABB_overlaps a b = AABB_overlaps b a.
Proof.
  unfold AABB_overlaps. cbv zeta.
  destruct (flt (v_x (pMin a)) (v_x (pMax b))),
           (flt (v_x (pMin b)) (v_x (pMax a))),
           (flt (v_y (pMin a)) (v_y (pMax b))),
           (flt (v_y (pMin b)) (v_y (pMax a))),
           (flt (v_z (pMin a)) (v_z (pMax b))),
           (flt (v_z (pMin b)) (v_z (pMax a))); reflexivity.
Qed.

Lemma compareObjAABBs_sym (sim : SimpleSim) (i j : Z) :
  compareObjAABBs sim i j = compareObjAABBs sim j i.
Proof.
  unfold compareObjAABBs. rewrite (Z.eqb_sym j i).
  destruct (i =? j); [reflexivity |].
  destruct (Array.load (sphereObjects sim) i) as [a |],
           (Array.load (sphereObjects sim) j) as [b |]; simpl; try reflexivity.
  f_equal. apply AABB_overlaps_sym.
Qed.

End SimpleTaskgraphFacts.

Section SimpleTaskgraphClaims.
Context {FO : FloatOps}.
Variable MADRONA_GPU_MODE : bool.

Lemma u32_idem (z : Z) : u32 (u32 z) = u32 z.
Proof. unfold u32. apply Z.mod_mod. lia. Qed.

(** The two instantiations of the template are the same function of the
    state, whatever the state. *)
Lemma narrowPhase_use_atomic_irrelevant (sim : SimpleSim) (a_idx b_idx : Z) :
  narrowPhase MADRONA_GPU_MODE true sim a_idx b_idx =
  narrowPhase MADRONA_GPU_MODE false sim a_idx b_idx.
Proof.
  unfold narrowPhase, atomic_fetch_add, atomic_load, atomic_store.
  rewrite u32_idem. reflexivity.
Qed.

Lemma narrowPhase_effect (use_atomic : bool) (sim sim' : SimpleSim) (a_idx b_idx : Z) :
  narrowPhase MADRONA_GPU_MODE use_atomic sim a_idx b_idx = Some sim' ->
  exists a b,
    Array.load (sphereObjects sim) a_idx = Some a /\
    Array.load (sphereObjects sim) b_idx = Some b /\
    0 <= numContacts sim < Z.of_nat (length (contacts sim)) /\
    sim' = mkSimpleSim (worldBounds sim) (sphereObjects sim)
             (<[Z.to_nat (numContacts sim) :=
                  mkContactData
                    (Vector3_normalize MADRONA_GPU_MODE
                       (Vector3_sub (translation b) (translation a)))
                    a_idx b_idx]> (contacts sim))
             (numSphereObjects sim)
             (u32 (numContacts sim + 1)).
Proof.
  intros H.
  assert (Ht : narrowPhase MADRONA_GPU_MODE true sim a_idx b_idx = Some sim').
  { destruct use_atomic; [assumption |].
    rewrite narrowPhase_use_atomic_irrelevant. assumption. }
  clear H. unfold narrowPhase, atomic_fetch_add in Ht.
  apply bind_Some in Ht as (a & Ha & Ht).
  apply bind_Some in Ht as (b & Hb & Ht).
  cbn [set_numContacts contacts] in Ht.
  apply bind_Some in Ht as (cs & Hcs & Ht).
  apply Array_store_Some in Hcs as [Hr ->].
  inversion Ht; subst sim'; clear Ht.
  exists a, b. repeat split; try assumption; lia.
Qed.

(** C8. Run sequentially from the same [SimpleSim] state (one whose
    [contacts] block holds fewer than 2^32 entries, as a block sized by an
    [int] does, and whose [numContacts] is a [uint32_t]), [narrowPhase<true>]
    and [narrowPhase<false>] are the same state transformer: they fail
    together, and when they return, each has added exactly one to
    [numContacts] and written the same [ContactData] (the normalised
    direction from [a] to [b], [a_idx], [b_idx]) to the slot the old
    [numContacts] names, leaving the rest of the state as it was. *)
Theorem narrowPhase_atomic_nonatomic_equivalent
    (sim : SimpleSim) (a_idx b_idx : Z)
    (Hcount : is_u32 (numContacts sim))
    (Hblock : Z.of_nat (length (contacts sim)) < 2 ^ 32) :
  narrowPhase MADRONA_GPU_MODE true sim a_idx b_idx =
  narrowPhase MADRONA_GPU_MODE false sim a_idx b_idx /\
  forall use_atomic sim',
    narrowPhase MADRONA_GPU_MODE use_atomic sim a_idx b_idx = Some sim' ->
    numContacts sim' = numContacts sim + 1 /\
    (exists a b,
       Array.load (sphereObjects sim) a_idx = Some a /\
       Array.load (sphereObjects sim) b_idx = Some b /\
       Array.load (contacts sim') (numContacts sim) =
         Some (mkContactData
                 (Vector3_normalize MADRONA_GPU_MODE
                    (Vector3_sub (translation b) (translation a)))
                 a_idx b_idx)) /\
    (forall i, i <> numContacts sim ->
       Array.load (contacts sim') i = Array.load (contacts sim) i) /\
    sphereObjects sim' = sphereObjects sim /\
    numSphereObjects sim' = numSphereObjects sim /\
    worldBounds sim' = worldBounds sim.
Proof.
  split; [apply narrowPhase_use_atomic_irrelevant |].
  intros use_atomic sim' H.
  apply narrowPhase_effect in H as (a & b & Ha & Hb & Hr & ->).
  cbn [numContacts contacts sphereObjects numSphereObjects worldBounds].
  repeat split.
  - apply u32_small. lia.
  - exists a, b. repeat split; try assumption.
    apply Array_load_Some. split; [lia |].
    apply list_lookup_insert_eq. lia.
  - intros i Hi. unfold Array.load.
    destruct (Z.leb_spec 0 i); [| reflexivity].
    apply list_lookup_insert_ne. lia.
Qed.

(** C9. [AABB::overlaps] is symmetric in its two boxes, and so is
    [compareObjAABBs] in its two object indices (including when an index
    is outside [sphereObjects]): the broadphase decides the tests
    [(i, j)] and [(j, i)] of a world alike. *)
Theorem overlaps_symmetric (a b : AABB) (sim : SimpleSim) (i j : Z) :
  AABB_overlaps a b = AABB_overlaps b a /\
  compareObjAABBs sim i j = compareObjAABBs sim j i.
Proof.
  split.
  - unfold AABB_overlaps. cbv zeta.
    destruct (flt (v_x (pMin a)) (v_x (pMax b))),
             (flt (v_x (pMin b)) (v_x (pMax a))),
             (flt (v_y (pMin a)) (v_y (pMax b))),
             (flt (v_y (pMin b)) (v_y (pMax a))),
             (flt (v_z (pMin a)) (v_z (pMax b))),
             (flt (v_z (pMin b)) (v_z (pMax a))); reflexivity.
  - apply compareObjAABBs_sym.
Qed.

(** C10. When [SolverSystem::run] or [UnifiedSystem::run] returns for a
    world, that world's [numContacts] is zero. *)
Theorem epoch_ends_with_numContacts_zero
    (mgr mgr' : SimManager) (world_idx : Z)
    (Hrun : SolverSystem_run mgr world_idx = Some mgr' \/
            UnifiedSystem_run MADRONA_GPU_MODE mgr world_idx = Some mgr') :
  exists sim',
    Array.load (sims mgr') world_idx = Some sim' /\ numContacts sim' = 0.
Proof.
  destruct Hrun as [H | H].
  - unfold SolverSystem_run in H.
    apply bind_Some in H as (sim & _ & H).
    apply bind_Some in H as (sim1 & _ & H).
    apply bind_Some in H as (ss & Hss & H).
    inversion H; subst mgr'; clear H. cbn [sims set_sims].
    eexists. split; [eapply Array_load_store_eq; eassumption | reflexivity].
  - unfold UnifiedSystem_run in H.
    apply bind_Some in H as (sim & _ & H).
    apply bind_Some in H as (sim1 & _ & H).
    apply bind_Some in H as (sim2 & _ & H).
    apply bind_Some in H as (sim3 & _ & H).
    apply bind_Some in H as (ss & Hss & H).
    inversion H; subst mgr'; clear H. cbn [sims set_sims].
    eexists. split; [eapply Array_load_store_eq; eassumption | reflexivity].
Qed.

End SimpleTaskgraphClaims.

(** ** The Systems of the example return on well-formed worlds *)

Lemma to_int_small (v : Z) : 0 <= v < 2 ^ 31 -> to_int v = v.
Proof.
  intros H. unfold to_int. destruct (Z.ltb_spec v (2 ^ 31)); [reflexivity | lia].
Qed.

Lemma int_range_bounds (n : Z) : Forall (fun i => 0 <= i < n) (int_range n).
Proof.
  unfold int_range. apply Forall_forall. intros i Hi.
  apply list_elem_of_In, in_map_iff in Hi as (k & <- & Hk).
  apply in_seq in Hk. lia.
Qed.

Lemma Array_load_in_range {A} (a : list A) (i : Z) :
  0 <= i < Z.of_nat (length a) -> exists v, Array.load a i = Some v.
Proof.
  intros Hi. destruct (lookup_lt_is_Some_2 a (Z.to_nat i)) as [v Hv]; [lia |].
  exists v. apply Array_load_Some. split; [lia | exact Hv].
Qed.

Lemma Array_store_in_range {A} (a : list A) (i : Z) (v : A) :
  0 <= i < Z.of_nat (length a) ->
  Array.store a i v = Some (<[Z.to_nat i := v]> a).
Proof. intros Hi. apply Array_store_Some. auto. Qed.

Section Totality.
Context {FO : FloatOps}.
Variable MADRONA_GPU_MODE : bool.

Lemma processContact_returns (sim : SimpleSim) (i : Z) :
  sim_ok sim -> 0 <= i < numContacts sim ->
  exists sim',
    processContact sim i = Some sim' /\ sim_ok sim' /\
    numContacts sim' = numContacts sim /\ same_shape sim sim'.
Proof.
  intros [Ho Hc Hr Hcs] Hi. unfold processContact.
  destruct (Array_load_in_range (contacts sim) i) as [c Hload]; [lia |].
  rewrite Hload. cbn [mbind option_bind].
  apply Array_load_Some in Hload as [_ Hc'].
  destruct (Hcs i c Hi Hc') as [Ha Hb].
  destruct (Array_load_in_range (sphereObjects sim) (contact_a c)) as [a Hla];
    [lia |].
  destruct (Array_load_in_range (sphereObjects sim) (contact_b c)) as [b Hlb];
    [lia |].
  rewrite Hla, Hlb. cbn [mbind option_bind].
  rewrite Array_store_in_range by lia. cbn [mbind option_bind].
  set (objs1 := <[Z.to_nat (contact_a c) := _]> (sphereObjects sim)).
  assert (Hlen1 : length objs1 = length (sphereObjects sim))
    by apply length_insert.
  destruct (Array_load_in_range objs1 (contact_b c)) as [b' Hlb'];
    [rewrite Hlen1; lia |].
  rewrite Hlb'. cbn [mbind option_bind].
  rewrite Array_store_in_range by (rewrite Hlen1; lia).
  cbn [mbind option_bind].
  eexists. split; [reflexivity |].
  split; [| split; [reflexivity | split; reflexivity]].
  constructor; cbn [set_sphereObjects sphereObjects numSphereObjects
                    numContacts contacts]; try assumption.
  rewrite length_insert, Hlen1. exact Ho.
Qed.

Lemma same_shape_refl (sim : SimpleSim) : same_shape sim sim.
Proof. split; reflexivity. Qed.

Lemma same_shape_trans (s1 s2 s3 : SimpleSim) :
  same_shape s1 s2 -> same_shape s2 s3 -> same_shape s1 s3.
Proof. intros [H1 H2] [H3 H4]. split; congruence. Qed.

Lemma processContact_loop (l : list Z) :
  forall sim,
    sim_ok sim -> Forall (fun i => 0 <= i < numContacts sim) l ->
    exists sim',
      Array.for_each processContact sim l = Some sim' /\ sim_ok sim' /\
      numContacts sim' = numContacts sim /\ same_shape sim sim'.
Proof.
  induction l as [| i l IH]; intros sim Hok Hall.
  - exists sim. split; [reflexivity |]. split; [exact Hok |].
    split; [reflexivity | apply same_shape_refl].
  - apply Forall_cons in Hall as [Hi Hall].
    destruct (processContact_returns sim i Hok Hi)
      as (sim1 & H1 & Hok1 & Hn1 & Hsh1).
    destruct (IH sim1 Hok1) as (sim' & H' & Hok' & Hn' & Hsh');
      [rewrite Hn1; exact Hall |].
    exists sim'. cbn [Array.for_each]. rewrite H1.
    split; [exact H' |]. split; [exact Hok' |].
    split; [congruence | eapply same_shape_trans; eassumption].
Qed.

Lemma processContacts_returns (sim : SimpleSim) :
  sim_ok sim ->
  exists sim',
    processContacts sim = Some sim' /\ sim_ok sim' /\ same_shape sim sim'.
Proof.
  intros Hok. unfold processContacts, atomic_load.
  rewrite to_int_small by apply (ok_count _ Hok).
  destruct (processContact_loop (int_range (numContacts sim)) sim Hok)
    as (sim' & H & Hok' & _ & Hsh); [apply int_range_bounds |].
  exists sim'. auto.
Qed.

(** Clearing the counter keeps a world well formed. *)
Lemma sim_ok_cleared (sim : SimpleSim) :
  sim_ok sim -> sim_ok (set_numContacts sim (atomic_store 0)).
Proof.
  intros [Ho Hc Hr Hcs].
  constructor; cbn [set_numContacts sphereObjects numSphereObjects
                    numContacts contacts atomic_store]; try assumption.
  - change (atomic_store 0) with 0. lia.
  - change (atomic_store 0) with 0. lia.
  - change (atomic_store 0) with 0. intros i c Hi. lia.
Qed.

(** [SolverSystem::run] returns for a world that is well formed, and
    leaves it well formed, with no contacts. *)
Lemma SolverSystem_run_returns (mgr : SimManager) (world_idx : Z)
    (sim : SimpleSim) :
  Array.load (sims mgr) world_idx = Some sim -> sim_ok sim ->
  exists mgr' sim',
    SolverSystem_run mgr world_idx = Some mgr' /\
    Array.load (sims mgr') world_idx = Some sim' /\
    sim_ok sim' /\ numContacts sim' = 0 /\ same_shape sim sim'.
Proof.
  intros Hload Hok. unfold SolverSystem_run. rewrite Hload.
  cbn [mbind option_bind].
  destruct (processContacts_returns sim Hok) as (sim1 & -> & Hok1 & Hsh1).
  cbn [mbind option_bind].
  apply Array_load_Some in Hload as [H0 Hl].
  assert (Hin : 0 <= world_idx < Z.of_nat (length (sims mgr)))
    by (split; [exact H0 | apply lookup_lt_Some in Hl; lia]).
  rewrite Array_store_in_range by exact Hin.
  eexists _, _. split; [reflexivity |]. cbn [sims set_sims]. split.
  - apply Array_load_Some. split; [lia |].
    apply list_lookup_insert_eq. lia.
  - split; [apply sim_ok_cleared; exact Hok1 |].
    split; [reflexivity | exact Hsh1].
Qed.

Lemma preprocessObject_returns (sim : SimpleSim) (i : Z) :
  sim_ok sim -> 0 <= i < numSphereObjects sim ->
  exists sim',
    preprocessObject sim i = Some sim' /\ sim_ok sim' /\
    numContacts sim' = numContacts sim /\ same_shape sim sim'.
Proof.
  intros [Ho Hc Hr Hcs] Hi. unfold preprocessObject.
  destruct (Array_load_in_range (sphereObjects sim) i) as [o Hl]; [lia |].
  rewrite Hl. cbn [mbind option_bind].
  rewrite Array_store_in_range by lia. cbn [mbind option_bind].
  eexists. split; [reflexivity |].
  split; [| split; [reflexivity | split; reflexivity]].
  constructor; cbn [set_sphereObjects sphereObjects numSphereObjects
                    numContacts contacts]; try assumption.
  rewrite length_insert. exact Ho.
Qed.

Lemma preprocess_loop (l : list Z) :
  forall sim,
    sim_ok sim -> Forall (fun i => 0 <= i < numSphereObjects sim) l ->
    numSphereObjects sim < 2 ^ 32 ->
    exists sim',
      Array.for_each (fun s i => preprocessObject s (u32 i)) sim l
        = Some sim' /\
      sim_ok sim' /\ numContacts sim' = numContacts sim /\ same_shape sim sim'.
Proof.
  induction l as [| i l IH]; intros sim Hok Hall Hn.
  - exists sim. split; [reflexivity |]. split; [exact Hok |].
    split; [reflexivity | apply same_shape_refl].
  - apply Forall_cons in Hall as [Hi Hall].
    destruct (preprocessObject_returns sim (u32 i) Hok)
      as (sim1 & H1 & Hok1 & Hc1 & Hsh1);
      [rewrite u32_small by lia; exact Hi |].
    pose proof Hsh1 as [Hn1 _].
    destruct (IH sim1 Hok1) as (sim' & H' & Hok' & Hc' & Hsh');
      [rewrite Hn1; exact Hall | lia |].
    exists sim'. cbn [Array.for_each]. rewrite H1. cbn [mbind option_bind].
    split; [exact H' |]. split; [exact Hok' |].
    split; [congruence | eapply same_shape_trans; eassumption].
Qed.

Lemma compareObjAABBs_returns (sim : SimpleSim) (i j : Z) :
  sim_ok sim -> 0 <= i < numSphereObjects sim ->
  0 <= j < numSphereObjects sim ->
  exists ov, compareObjAABBs sim i j = Some ov.
Proof.
  intros Hok Hi Hj. unfold compareObjAABBs.
  destruct (i =? j); [eauto |].
  pose proof (ok_objects _ Hok) as Ho.
  destruct (Array_load_in_range (sphereObjects sim) i) as [a ->]; [lia |].
  destruct (Array_load_in_range (sphereObjects sim) j) as [b ->]; [lia |].
  simpl. eauto.
Qed.

Lemma narrowPhase_returns (use_atomic : bool) (sim : SimpleSim) (i j : Z) :
  sim_ok sim -> 0 <= i < numSphereObjects sim ->
  0 <= j < numSphereObjects sim ->
  numContacts sim < Z.of_nat (length (contacts sim)) ->
  numContacts sim + 1 < 2 ^ 31 ->
  exists sim',
    narrowPhase MADRONA_GPU_MODE use_atomic sim i j = Some sim' /\
    sim_ok sim' /\ numContacts sim' = numContacts sim + 1 /\
    same_shape sim sim'.
Proof.
  intros Hok Hi Hj Hroom Hfit.
  pose proof Hok as [Ho Hc Hr Hcs].
  assert (Hsome : exists sim',
            narrowPhase MADRONA_GPU_MODE true sim i j = Some sim').
  { unfold narrowPhase, atomic_fetch_add.
    destruct (Array_load_in_range (sphereObjects sim) i) as [a ->]; [lia |].
    destruct (Array_load_in_range (sphereObjects sim) j) as [b ->]; [lia |].
    cbn [mbind option_bind set_numContacts contacts].
    rewrite Array_store_in_range by lia. eexists. reflexivity. }
  destruct Hsome as [sim' Hs].
  assert (Hs' : narrowPhase MADRONA_GPU_MODE use_atomic sim i j = Some sim').
  { destruct use_atomic; [exact Hs |].
    rewrite <- narrowPhase_use_atomic_irrelevant. exact Hs. }
  exists sim'. split; [exact Hs' |].
  apply narrowPhase_effect in Hs' as (a & b & _ & _ & _ & ->).
  unfold same_shape.
  cbn [sphereObjects numSphereObjects numContacts contacts].
  rewrite u32_small by lia. rewrite length_insert.
  split; [| split; [reflexivity | split; reflexivity]].
  constructor; cbn [sphereObjects numSphereObjects numContacts contacts];
    try assumption; try lia.
  - rewrite length_insert. lia.
  - intros k c Hk Hkc.
    destruct (Z.eq_dec k (numContacts sim)) as [-> | Hne].
    + rewrite list_lookup_insert_eq in Hkc by lia.
      inversion Hkc; subst c. split; simpl; lia.
    + rewrite list_lookup_insert_ne in Hkc by lia.
      apply (Hcs k c); [lia | exact Hkc].
Qed.

Lemma unified_pair_loop (l : list (Z * Z)) :
  forall sim,
    sim_ok sim ->
    Forall (fun ij => (0 <= fst ij < numSphereObjects sim) /\
                      (0 <= snd ij < numSphereObjects sim)) l ->
    numSphereObjects sim < 2 ^ 32 ->
    numContacts sim + Z.of_nat (length l) <= Z.of_nat (length (contacts sim)) ->
    numContacts sim + Z.of_nat (length l) < 2 ^ 31 ->
    exists sim',
      Array.for_each (unified_pair MADRONA_GPU_MODE) sim l = Some sim' /\
      sim_ok sim' /\ same_shape sim sim'.
Proof.
  induction l as [| [i j] l IH]; intros sim Hok Hall Hn Hroom Hfit.
  - exists sim. split; [reflexivity |]. split; [exact Hok |].
    apply same_shape_refl.
  - apply Forall_cons in Hall as [[Hi Hj] Hall]. cbn [fst snd] in Hi, Hj.
    cbn [length] in Hroom, Hfit.
    assert (Hstep : exists sim1,
              unified_pair MADRONA_GPU_MODE sim (i, j) = Some sim1 /\
              sim_ok sim1 /\ numContacts sim1 <= numContacts sim + 1 /\
              same_shape sim sim1).
    { unfold unified_pair. rewrite !u32_small by lia.
      destruct (compareObjAABBs_returns sim i j Hok Hi Hj) as [ov ->].
      cbn [mbind option_bind]. destruct ov.
      - destruct (narrowPhase_returns false sim i j Hok Hi Hj)
          as (sim1 & H1 & Hok1 & Hc1 & Hsh1); [lia | lia |].
        exists sim1. split; [exact H1 |]. split; [exact Hok1 |].
        split; [lia | exact Hsh1].
      - exists sim. split; [reflexivity |]. split; [exact Hok |].
        split; [lia | apply same_shape_refl]. }
    destruct Hstep as (sim1 & H1 & Hok1 & Hc1 & Hsh1).
    pose proof Hsh1 as [Hn1 Hl1].
    destruct (IH sim1 Hok1) as (sim' & H' & Hok' & Hsh');
      [rewrite Hn1; exact Hall | lia | lia | lia |].
    exists sim'. cbn [Array.for_each]. rewrite H1.
    split; [exact H' |]. split; [exact Hok' |].
    eapply same_shape_trans; eassumption.
Qed.

Lemma all_pairs_length (l0 l : list Z) :
  length (flat_map (fun i => map (fun j => (i, j)) l) l0)
  = (length l0 * length l)%nat.
Proof.
  induction l0 as [| x l0 IH]; [reflexivity |].
  simpl. rewrite length_app, length_map, IH. reflexivity.
Qed.

(** [UnifiedSystem::run] returns for a world that is ready for an epoch,
    and leaves it ready for the next. *)
Lemma UnifiedSystem_run_returns (mgr : SimManager) (world_idx : Z)
    (sim : SimpleSim) :
  Array.load (sims mgr) world_idx = Some sim -> unified_ready sim ->
  exists mgr' sim',
    UnifiedSystem_run MADRONA_GPU_MODE mgr world_idx = Some mgr' /\
    Array.load (sims mgr') world_idx = Some sim' /\
    unified_ready sim'.
Proof.
  intros Hload (Hok & Hzero & Hn & Hroom). unfold UnifiedSystem_run.
  rewrite Hload. cbn [mbind option_bind]. rewrite to_int_small by exact Hn.
  destruct (preprocess_loop (int_range (numSphereObjects sim)) sim Hok)
    as (sim1 & -> & Hok1 & Hc1 & Hsh1);
    [apply int_range_bounds | lia |].
  cbn [mbind option_bind]. pose proof Hsh1 as [Hn1 Hl1].
  set (n := numSphereObjects sim) in *.
  destruct (unified_pair_loop
              (flat_map (fun i => map (fun j => (i, j)) (int_range n))
                        (int_range n)) sim1 Hok1)
    as (sim2 & -> & Hok2 & Hsh2).
  - apply Forall_forall. intros [i j] Hin.
    apply list_elem_of_In, in_flat_map in Hin as (i' & Hi' & Hin).
    apply in_map_iff in Hin as (j' & Heq & Hj'). inversion Heq; subst i' j'.
    pose proof (int_range_bounds n) as Hb. rewrite Forall_forall in Hb.
    rewrite Hn1. cbn [fst snd].
    split; apply Hb, list_elem_of_In; assumption.
  - lia.
  - rewrite all_pairs_length. unfold int_range.
    rewrite length_map, length_seq. lia.
  - rewrite all_pairs_length. unfold int_range.
    rewrite length_map, length_seq. lia.
  - cbn [mbind option_bind].
    destruct (processContacts_returns sim2 Hok2) as (sim3 & -> & Hok3 & Hsh3).
    cbn [mbind option_bind].
    apply Array_load_Some in Hload as [H0 Hl].
    assert (Hin : 0 <= world_idx < Z.of_nat (length (sims mgr)))
      by (split; [exact H0 | apply lookup_lt_Some in Hl; lia]).
    rewrite Array_store_in_range by exact Hin.
    eexists _, _. split; [reflexivity |]. cbn [sims set_sims]. split.
    + apply Array_load_Some. split; [lia |].
      apply list_lookup_insert_eq. lia.
    + pose proof (same_shape_trans _ _ _ Hsh1
                    (same_shape_trans _ _ _ Hsh2 Hsh3)) as [Hn3 Hl3].
      split; [apply sim_ok_cleared; exact Hok3 |].
      cbn [set_numContacts numContacts numSphereObjects contacts].
      split; [reflexivity |]. rewrite Hn3, Hl3. fold n. split; [lia | lia].
Qed.

(** A world as [SimpleSim::SimpleSim] builds it is ready for an epoch,
    provided the square of the number of objects fits an [int]. *)
Lemma SimpleSim_ctor_ready (env_init : EnvInit) (sim : SimpleSim) :
  SimpleSim_ctor env_init = Some sim ->
  0 <= numObjs env_init ->
  numObjs env_init * numObjs env_init < 2 ^ 31 ->
  unified_ready sim /\ numSphereObjects sim = numObjs env_init.
Proof.
  intros H Hn Hsq. unfold SimpleSim_ctor in H.
  apply bind_Some in H as (objs & Hobjs & H).
  apply bind_Some in H as (arr & Harr & H).
  inversion H; subst sim; clear H.
  apply length_mapM in Hobjs. unfold int_range in Hobjs.
  rewrite length_map, length_seq in Hobjs.
  unfold Array.filled in Harr.
  destruct (Z.of_nat (length objs) <=? numObjs env_init); [| discriminate].
  inversion Harr; subst arr; clear Harr.
  assert (Hsmall : numObjs env_init < 2 ^ 31) by nia.
  assert (Hcap : to_int (u32 (numObjs env_init * numObjs env_init))
                 = numObjs env_init * numObjs env_init).
  { rewrite u32_small by nia. apply to_int_small. nia. }
  rewrite Hcap.
  split; [| reflexivity].
  unfold unified_ready.
  cbn [sphereObjects numSphereObjects numContacts contacts].
  rewrite length_replicate.
  split; [| split; [reflexivity | split; [lia | lia]]].
  constructor; cbn [sphereObjects numSphereObjects numContacts contacts].
  - rewrite length_app, length_replicate. lia.
  - lia.
  - lia.
  - intros i c Hi. lia.
Qed.

End Totality.

(** ** Dynamic fan-out in the example: broadphase fills, narrowphase consumes *)

Section FanOut.
Context {FO : FloatOps}.
Variable MADRONA_GPU_MODE : bool.

Lemma PreprocessSystem_run_narrow (mgr mgr' : SimManager) (off : Z) :
  PreprocessSystem_run mgr off = Some mgr' ->
  pairLog mgr' = pairLog mgr /\
  narrow_numInvocations mgr' =
    (if off =? 0 then 0 else narrow_numInvocations mgr).
Proof.
  unfold PreprocessSystem_run. intros H.
  apply bind_Some in H as (si & _ & H).
  apply bind_Some in H as (sim & _ & H).
  apply bind_Some in H as (sim' & _ & H).
  apply bind_Some in H as (ss & _ & H).
  inversion H; subst mgr'; clear H.
  destruct (off =? 0); split; reflexivity.
Qed.

Lemma preprocess_resets_narrow (offs : list Z) :
  forall mgr mgr',
    Array.for_each PreprocessSystem_run mgr offs = Some mgr' ->
    pairLog mgr' = pairLog mgr /\
    (In 0 offs -> narrow_numInvocations mgr' = 0) /\
    (~ In 0 offs -> narrow_numInvocations mgr' = narrow_numInvocations mgr).
Proof.
  induction offs as [| off rest IH]; intros mgr mgr' H; simpl in H.
  - inversion H; subst. repeat split; simpl; tauto.
  - apply bind_Some in H as (m1 & H1 & H).
    apply PreprocessSystem_run_narrow in H1 as [Hl Hn].
    apply IH in H as (Hl' & Hin & Hnin).
    split; [congruence |].
    destruct (in_dec Z.eq_dec 0 rest) as [Hr | Hr].
    + split; [intros _; auto |]. intros Hno. exfalso. apply Hno. right. exact Hr.
    + rewrite (Hnin Hr), Hn. split.
      * intros [-> | Hin']; [reflexivity | contradiction].
      * intros Hno. destruct (Z.eqb_spec off 0) as [-> | _]; [| reflexivity].
        exfalso. apply Hno. left. reflexivity.
Qed.

(** What one invocation of the broadphase does. *)
Lemma BroadphaseSystem_run_spec (mgr mgr' : SimManager) (off : Z) :
  BroadphaseSystem_run mgr off = Some mgr' ->
  exists test overlap,
    broad_test mgr off = Some (test, overlap) /\
    sims mgr' = sims mgr /\ testIndices mgr' = testIndices mgr /\
    if overlap then
      let c := narrow_numInvocations mgr in
      0 <= c < Z.of_nat (length (candidatePairs mgr)) /\
      narrow_numInvocations mgr' = u32 (c + 1) /\
      candidatePairs mgr' = <[Z.to_nat c := pair_of test]> (candidatePairs mgr) /\
      pairLog mgr' = pairLog mgr ++ [PairWrite c]
    else mgr' = mgr.
Proof.
  unfold BroadphaseSystem_run, broad_test. intros H.
  apply bind_Some in H as (test & Ht & H). rewrite Ht. simpl.
  apply bind_Some in H as (sim & Hs & H). rewrite Hs. simpl.
  apply bind_Some in H as (ov & Ho & H). rewrite Ho. simpl.
  exists test, ov. split; [reflexivity |].
  destruct ov.
  - unfold atomic_fetch_add in H.
    cbn [set_narrow_numInvocations candidatePairs] in H.
    apply bind_Some in H as (cp & Hcp & H).
    apply Array_store_Some in Hcp as [Hr ->].
    inversion H; subst mgr'; clear H.
    repeat split; try reflexivity; lia.
  - inversion H; subst mgr'. auto.
Qed.

Lemma broad_test_stable (mgr mgr' : SimManager) (off : Z) :
  sims mgr' = sims mgr -> testIndices mgr' = testIndices mgr ->
  broad_test mgr' off = broad_test mgr off.
Proof. intros Hs Ht. unfold broad_test. rewrite Hs, Ht. reflexivity. Qed.

Lemma filter_overlapping_stable (mgr mgr' : SimManager) (offs : list Z) :
  sims mgr' = sims mgr -> testIndices mgr' = testIndices mgr ->
  filter (overlapping mgr') offs = filter (overlapping mgr) offs.
Proof.
  intros Hs Ht. apply list_filter_iff. intros off. unfold overlapping, is_hit.
  rewrite (broad_test_stable mgr mgr' off Hs Ht). reflexivity.
Qed.

(** The broadphase over a list of invocations, from a count [c]: the hits
    claim the slots [c, c+1, ...] in order, one each. *)
Lemma broadphase_claims (offs : list Z) :
  forall mgr mgr',
    0 <= narrow_numInvocations mgr ->
    narrow_numInvocations mgr + Z.of_nat (length offs) < 2 ^ 32 ->
    Array.for_each BroadphaseSystem_run mgr offs = Some mgr' ->
    let c := narrow_numInvocations mgr in
    let hits := filter (overlapping mgr) offs in
    sims mgr' = sims mgr /\ testIndices mgr' = testIndices mgr /\
    narrow_numInvocations mgr' = c + Z.of_nat (length hits) /\
    pairLog mgr' =
      pairLog mgr ++ map PairWrite (seqZ c (Z.of_nat (length hits))) /\
    length (candidatePairs mgr') = length (candidatePairs mgr) /\
    (forall k, 0 <= k < c ->
       Array.load (candidatePairs mgr') k = Array.load (candidatePairs mgr) k) /\
    (forall i off, hits !! i = Some off ->
       exists test,
         broad_test mgr off = Some (test, true) /\
         Array.load (candidatePairs mgr') (c + Z.of_nat i) = Some (pair_of test)).
Proof.
  induction offs as [| off rest IH]; intros mgr mgr' Hc Hfit H; simpl in H.
  - inversion H; subst mgr'. cbv zeta. rewrite filter_nil. simpl.
    rewrite app_nil_r, Z.add_0_r. repeat split; try reflexivity.
    intros i o Hi. rewrite lookup_nil in Hi. discriminate.
  - apply bind_Some in H as (m1 & H1 & H).
    apply BroadphaseSystem_run_spec in H1
      as (test & ov & Htest & Hs1 & Ht1 & Heff).
    cbn [length] in Hfit.
    destruct ov.
    + (* a hit: slot [c] is claimed and written *)
      cbv zeta in Heff. destruct Heff as (Hr & Hn1 & Hcp1 & Hlog1).
      assert (Hn1' : narrow_numInvocations m1 = narrow_numInvocations mgr + 1)
        by (rewrite Hn1; apply u32_small; lia).
      specialize (IH m1 mgr' ltac:(lia) ltac:(lia) H). cbv zeta in IH.
      rewrite (filter_overlapping_stable mgr m1 rest Hs1 Ht1) in IH.
      destruct IH as (Hs & Ht & Hn & Hlog & Hlen & Hlow & Hslots).
      cbv zeta. rewrite filter_cons_True
        by (unfold overlapping, is_hit; rewrite Htest; reflexivity).
      cbn [length].
      split; [congruence |]. split; [congruence |].
      split; [lia |].
      split.
      { rewrite Hlog, Hlog1, Hn1', <- app_assoc. f_equal.
        rewrite Nat2Z.inj_succ.
        rewrite (seqZ_cons (narrow_numInvocations mgr)) by lia.
        rewrite Z.pred_succ.
        simpl. do 2 f_equal. }
      split; [rewrite Hlen, Hcp1; apply length_insert |].
      split.
      { intros k Hk. rewrite Hlow by lia. rewrite Hcp1. unfold Array.load.
        destruct (Z.leb_spec 0 k); [| reflexivity].
        apply list_lookup_insert_ne. lia. }
      intros [| i] o Hi; simpl in Hi.
      * inversion Hi; subst o. exists test. split; [exact Htest |].
        rewrite Z.add_0_r, Hlow by lia. rewrite Hcp1.
        apply Array_load_Some. split; [lia |].
        apply list_lookup_insert_eq. lia.
      * destruct (Hslots i o Hi) as (t' & Ht' & Hload).
        exists t'. split.
        -- rewrite <- (broad_test_stable mgr m1 o Hs1 Ht1). exact Ht'.
        -- rewrite <- Hload. f_equal. lia.
    + (* no overlap: nothing changes *)
      subst m1. specialize (IH mgr mgr' Hc ltac:(lia) H). cbv zeta in IH.
      cbv zeta. rewrite filter_cons_False; [exact IH |].
      unfold overlapping, is_hit. rewrite Htest. discriminate.
Qed.

(** The broadphase returns when its tests name objects of well-formed
    worlds and [candidatePairs] has room for a pair per invocation. *)
Lemma broadphase_returns (offs : list Z) :
  forall mgr,
    Forall (fun off => exists test sim,
              Array.load (testIndices mgr) off = Some test /\
              Array.load (sims mgr) (test_world test) = Some sim /\
              sim_ok sim /\
              0 <= test_a test < numSphereObjects sim /\
              0 <= test_b test < numSphereObjects sim) offs ->
    0 <= narrow_numInvocations mgr ->
    narrow_numInvocations mgr + Z.of_nat (length offs)
      <= Z.of_nat (length (candidatePairs mgr)) ->
    narrow_numInvocations mgr + Z.of_nat (length offs) < 2 ^ 32 ->
    exists mgr', Array.for_each BroadphaseSystem_run mgr offs = Some mgr'.
Proof.
  induction offs as [| off rest IH]; intros mgr Hall Hc Hroom Hfit.
  - exists mgr. reflexivity.
  - apply Forall_cons in Hall as [(test & sim & Ht & Hs & Hok & Ha & Hb) Hall].
    cbn [length] in Hroom, Hfit.
    destruct (compareObjAABBs_returns sim _ _ Hok Ha Hb) as [ov Hov].
    assert (Hrun : exists m1, BroadphaseSystem_run mgr off = Some m1).
    { unfold BroadphaseSystem_run. rewrite Ht. cbn [mbind option_bind].
      rewrite Hs. cbn [mbind option_bind]. rewrite Hov.
      cbn [mbind option_bind]. destruct ov; [| eauto].
      unfold atomic_fetch_add. cbn [set_narrow_numInvocations candidatePairs].
      rewrite Array_store_in_range by lia. eexists. reflexivity. }
    destruct Hrun as [m1 Hm1].
    pose proof (BroadphaseSystem_run_spec _ _ _ Hm1)
      as (test' & ov' & _ & Hs1 & Ht1 & Heff).
    assert (Hn1 : narrow_numInvocations mgr <= narrow_numInvocations m1
                  <= narrow_numInvocations mgr + 1 /\
                  length (candidatePairs m1) = length (candidatePairs mgr)).
    { destruct ov'.
      - cbv zeta in Heff. destruct Heff as (_ & Hn & Hcp & _).
        rewrite Hn, Hcp, length_insert, u32_small by lia. lia.
      - subst m1. lia. }
    destruct (IH m1) as [mgr' Hrun']; try lia.
    + rewrite Hs1, Ht1. exact Hall.
    + exists mgr'. cbn [Array.for_each]. rewrite Hm1. exact Hrun'.
Qed.

Lemma NarrowphaseSystem_run_log (mgr mgr' : SimManager) (off : Z) :
  NarrowphaseSystem_run MADRONA_GPU_MODE mgr off = Some mgr' ->
  pairLog mgr' = pairLog mgr ++ [PairRead off] /\
  candidatePairs mgr' = candidatePairs mgr /\
  narrow_numInvocations mgr' = narrow_numInvocations mgr.
Proof.
  unfold NarrowphaseSystem_run. intros H.
  apply bind_Some in H as (c & _ & H).
  apply bind_Some in H as (sim & _ & H).
  apply bind_Some in H as (sim' & _ & H).
  apply bind_Some in H as (ss & _ & H).
  inversion H; subst mgr'. auto.
Qed.

Lemma narrowphase_reads (inv : list Z) :
  forall mgr mgr',
    Array.for_each (NarrowphaseSystem_run MADRONA_GPU_MODE) mgr inv = Some mgr' ->
    pairLog mgr' = pairLog mgr ++ map PairRead inv /\
    candidatePairs mgr' = candidatePairs mgr /\
    narrow_numInvocations mgr' = narrow_numInvocations mgr.
Proof.
  induction inv as [| off rest IH]; intros mgr mgr' H; simpl in H.
  - inversion H; subst. rewrite app_nil_r. auto.
  - apply bind_Some in H as (m1 & H1 & H).
    apply NarrowphaseSystem_run_log in H1 as (Hl1 & Hc1 & Hn1).
    apply IH in H as (Hl & Hc & Hn).
    rewrite Hl, Hl1, <- app_assoc. repeat split; congruence.
Qed.

Lemma times_once (f : Z -> PairAccess) (l : list Z) (k : Z) :
  (forall x y, f x = f y -> x = y) -> NoDup l -> k ∈ l ->
  times (f k) (map f l) = 1%nat.
Proof.
  intros Hinj Hnd Hin. unfold times.
  assert (Hnd' : List.NoDup (map f l)).
  { apply NoDup_ListNoDup.
    assert (Hi : Inj eq eq f) by exact Hinj.
    apply (NoDup_fmap_2 f). exact Hnd. }
  apply (proj1 (List.NoDup_count_occ' PairAccess_eq_dec (map f l)) Hnd').
  apply in_map. apply list_elem_of_In. exact Hin.
Qed.

(** *** The broadphase, invocations interleaved *)

(** The two steps, one after the other, are [BroadphaseSystem::run]. *)
Lemma BroadphaseSystem_run_steps (mgr : SimManager) (off : Z) :
  BroadphaseSystem_run mgr off =
  '(m, w) ← broad_claim mgr off;
  match w with Some w => broad_write m w | None => Some m end.
Proof.
  unfold BroadphaseSystem_run, broad_claim, broad_write.
  destruct (Array.load (testIndices mgr) off) as [test |]; [| reflexivity].
  cbn [mbind option_bind].
  destruct (Array.load (sims mgr) (test_world test)) as [sim |];
    [| reflexivity].
  cbn [mbind option_bind].
  destruct (compareObjAABBs sim (test_a test) (test_b test)) as [[] |];
    reflexivity.
Qed.

Lemma broad_claim_spec (mgr mgr' : SimManager) (off : Z)
    (w : option (Z * CandidatePair)) :
  broad_claim mgr off = Some (mgr', w) ->
  exists test overlap,
    broad_test mgr off = Some (test, overlap) /\
    if overlap then
      mgr' = set_narrow_numInvocations mgr
               (u32 (narrow_numInvocations mgr + 1)) /\
      w = Some (narrow_numInvocations mgr, pair_of test)
    else mgr' = mgr /\ w = None.
Proof.
  unfold broad_claim, broad_test. intros H.
  apply bind_Some in H as (test & Ht & H). rewrite Ht. simpl.
  apply bind_Some in H as (sim & Hs & H). rewrite Hs. simpl.
  apply bind_Some in H as (ov & Ho & H). rewrite Ho. simpl.
  exists test, ov. split; [reflexivity |].
  destruct ov; inversion H; subst; auto.
Qed.

Lemma broad_inv_step (mgr0 : SimManager) (offs : list Z)
    (st st' : BroadState) (claimed written : list (Z * CandidatePair))
    (s : BroadStep) :
  0 <= narrow_numInvocations mgr0 ->
  narrow_numInvocations mgr0 + Z.of_nat (length claimed)
    + Z.of_nat (length (claim_offsets [s])) < 2 ^ 32 ->
  broad_inv mgr0 offs st claimed written ->
  broad_step st s = Some st' ->
  exists claimed' written',
    broad_inv mgr0 (offs ++ claim_offsets [s]) st' claimed' written' /\
    (length claimed' <= length claimed + length (claim_offsets [s]))%nat.
Proof.
  intros Hc0 Hfit [Hs Ht Hn Hsl Hh Hp Hl Hm] Hstep.
  destruct s as [off | k]; cbn [broad_step] in Hstep.
  - (* an invocation claims *)
    change (claim_offsets [StepClaim off]) with [off] in Hfit |- *.
    cbn [length] in Hfit |- *.
    apply bind_Some in Hstep as ([mgr1 w] & Hcl & Hstep).
    inversion Hstep; subst st'; clear Hstep.
    apply broad_claim_spec in Hcl as (test & ov & Htest & Heff).
    rewrite (broad_test_stable mgr0 (broad_mgr st) off Hs Ht) in Htest.
    destruct ov.
    + destruct Heff as [-> ->].
      exists (claimed ++ [(narrow_numInvocations (broad_mgr st), pair_of test)]),
             written.
      split; [| rewrite length_app; simpl; lia].
      constructor; cbn [broad_mgr broad_pending set_narrow_numInvocations
                        sims testIndices narrow_numInvocations pairLog
                        candidatePairs]; try assumption.
      * rewrite length_app, Hn, u32_small by (simpl; lia). simpl. lia.
      * rewrite map_app, length_app, Hsl. simpl length.
        rewrite Nat.add_1_r, seqZ_S, Hn. reflexivity.
      * rewrite filter_app.
        apply Forall2_app; [exact Hh |].
        rewrite filter_cons_True
          by (unfold overlapping, is_hit; rewrite Htest; reflexivity).
        rewrite filter_nil. constructor; [| constructor].
        exists test. auto.
      * rewrite <- Hp, <- !app_assoc. apply Permutation_app_head.
        apply Permutation_app_comm.
    + destruct Heff as [-> ->].
      exists claimed, written. split; [| lia].
      constructor; try assumption.
      rewrite filter_app.
      rewrite filter_cons_False
        by (unfold overlapping, is_hit; rewrite Htest; discriminate).
      rewrite filter_nil, app_nil_r. exact Hh.
  - (* an invocation in flight writes its pair *)
    apply bind_Some in Hstep as (w & Hw & Hstep).
    apply bind_Some in Hstep as (mgr1 & Hwr & Hstep).
    inversion Hstep; subst st'; clear Hstep.
    unfold broad_write in Hwr.
    apply bind_Some in Hwr as (cp & Hcp & Hwr).
    inversion Hwr; subst mgr1; clear Hwr.
    apply Array_store_Some in Hcp as [Hr ->].
    change (claim_offsets [StepWrite k]) with (@nil Z). rewrite app_nil_r.
    exists claimed, (written ++ [w]). split; [| lia].
    assert (Hnd : NoDup (map fst (broad_pending st ++ written))).
    { rewrite Hp, Hsl. apply NoDup_seqZ. }
    constructor; cbn [broad_mgr broad_pending log_access set_candidatePairs
                      sims testIndices narrow_numInvocations pairLog
                      candidatePairs]; try assumption.
    + rewrite <- Hp. rewrite (delete_Permutation _ _ _ Hw) at 2.
      rewrite app_assoc, <- Permutation_cons_append. reflexivity.
    + rewrite Hl, map_app, <- app_assoc. reflexivity.
    + apply Forall_app. split.
      * apply Forall_forall. intros w' Hin.
        rewrite Forall_forall in Hm. specialize (Hm w' Hin).
        apply Array_load_Some in Hm as [H0 Hm].
        apply Array_load_Some. split; [exact H0 |].
        rewrite list_lookup_insert_ne; [exact Hm |].
        intros Heq. assert (Hfst : fst w = fst w') by lia.
        rewrite map_app in Hnd. apply NoDup_app in Hnd as (_ & Hdis & _).
        apply (Hdis (fst w)).
        -- apply list_elem_of_fmap. exists w. split; [reflexivity |].
           eapply list_elem_of_lookup_2; eauto.
        -- rewrite Hfst. apply list_elem_of_fmap. exists w'. auto.
      * constructor; [| constructor].
        apply Array_load_Some. split; [lia |].
        apply list_lookup_insert_eq. lia.
Qed.

Lemma broad_inv_run (mgr0 : SimManager) (steps : list BroadStep) :
  forall offs st st' claimed written,
    0 <= narrow_numInvocations mgr0 ->
    narrow_numInvocations mgr0 + Z.of_nat (length claimed)
      + Z.of_nat (length (claim_offsets steps)) < 2 ^ 32 ->
    broad_inv mgr0 offs st claimed written ->
    Array.for_each broad_step st steps = Some st' ->
    exists claimed' written',
      broad_inv mgr0 (offs ++ claim_offsets steps) st' claimed' written'.
Proof.
  induction steps as [| s steps IH];
    intros offs st st' claimed written Hc0 Hfit Hinv Hrun.
  - inversion Hrun; subst st'. exists claimed, written.
    cbn [claim_offsets omap]. rewrite app_nil_r. exact Hinv.
  - cbn [Array.for_each] in Hrun.
    apply bind_Some in Hrun as (st1 & Hs & Hrun).
    assert (Hsplit : claim_offsets (s :: steps)
                     = claim_offsets [s] ++ claim_offsets steps).
    { unfold claim_offsets. change (s :: steps) with ([s] ++ steps).
      apply omap_app. }
    rewrite Hsplit, length_app in Hfit.
    destruct (broad_inv_step mgr0 offs st st1 claimed written s Hc0)
      as (c1 & w1 & Hinv1 & Hlen); [lia | exact Hinv | exact Hs |].
    destruct (IH (offs ++ claim_offsets [s]) st1 st' c1 w1 Hc0)
      as (c2 & w2 & Hinv2); [lia | exact Hinv1 | exact Hrun |].
    exists c2, w2. rewrite Hsplit, app_assoc. exact Hinv2.
Qed.

(** However the invocations of the broadphase interleave (each first
    claims with its [fetch_add], then writes, with the steps of the others
    in between), once all writes are done the count has grown by the
    number of overlaps, the slots written are the slots claimed, each
    once, and slot [i] holds the pair of the invocation that made the
    [i]-th claim. *)
Lemma broadphase_interleaved (mgr0 mgr' : SimManager) (steps : list BroadStep) :
  0 <= narrow_numInvocations mgr0 ->
  narrow_numInvocations mgr0 + Z.of_nat (length (claim_offsets steps))
    < 2 ^ 32 ->
  Array.for_each broad_step (mkBroadState mgr0 []) steps
    = Some (mkBroadState mgr' []) ->
  let c := narrow_numInvocations mgr0 in
  let hits := filter (overlapping mgr0) (claim_offsets steps) in
  narrow_numInvocations mgr' = c + Z.of_nat (length hits) /\
  (exists slots,
     pairLog mgr' = pairLog mgr0 ++ map PairWrite slots /\
     slots ≡ₚ seqZ c (Z.of_nat (length hits))) /\
  forall i off, hits !! i = Some off ->
    exists test,
      broad_test mgr0 off = Some (test, true) /\
      Array.load (candidatePairs mgr') (c + Z.of_nat i) = Some (pair_of test).
Proof.
  intros Hc0 Hfit Hrun.
  assert (Hinit : broad_inv mgr0 [] (mkBroadState mgr0 []) [] []).
  { constructor; cbn [broad_mgr broad_pending length map]; try reflexivity.
    - lia.
    - rewrite filter_nil. constructor.
    - rewrite app_nil_r. reflexivity.
    - constructor. }
  destruct (broad_inv_run mgr0 steps [] _ _ [] [] Hc0 ltac:(simpl; lia)
              Hinit Hrun) as (claimed & written & [Hs Ht Hn Hsl Hh Hp Hl Hm]).
  cbn [broad_mgr broad_pending app] in *.
  pose proof (Forall2_length _ _ _ Hh) as Hlen.
  cbv zeta. rewrite <- Hlen.
  split; [exact Hn |]. split.
  - exists (map fst written). split.
    + rewrite Hl, map_map. reflexivity.
    + rewrite <- Hsl, Hp. reflexivity.
  - intros i off Hi.
    destruct (Forall2_lookup_r _ _ _ _ _ Hh Hi) as (w & Hw & test & Htest & Hsnd).
    exists test. split; [exact Htest |].
    assert (Hfst : fst w = narrow_numInvocations mgr0 + Z.of_nat i).
    { assert (Hm1 : map fst claimed !! i = Some (fst w))
        by (change (map fst claimed) with (fst <$> claimed);
            rewrite list_lookup_fmap, Hw; reflexivity).
      rewrite Hsl in Hm1. apply lookup_seqZ in Hm1 as [-> _]. reflexivity. }
    assert (Hin : w ∈ written).
    { rewrite Hp. eapply list_elem_of_lookup_2; eauto. }
    rewrite Forall_forall in Hm. specialize (Hm w Hin).
    rewrite <- Hfst, <- Hsnd. exact Hm.
Qed.

(** C3. One epoch of the example.  [pre_offs] are the preprocess
    invocations, among them invocation 0, which resets the count of the
    narrowphase.  [steps] are the steps of the broadphase invocations,
    interleaved in any way: each invocation makes its test and its
    [fetch_add], and later writes its pair (there are fewer than 2^32
    invocations, as a [uint32_t] count has it), and at the end none is
    left in flight.  After them the count of the narrowphase is the number
    of tests that found an overlap, which is the number of slots claimed;
    the broadphase wrote precisely the slots [0 .. count-1] of
    [candidatePairs], each once, slot [i] holding the pair of the [i]-th
    claim; and when the narrowphase then runs the invocations
    [0 .. count-1] in any order, it reads each of these slots once. *)
Theorem narrowphase_count_matches_claimed_slots
    (mgr0 mgr mgr1 : SimManager) (pre_offs : list Z) (steps : list BroadStep)
    (Hzero : In 0 pre_offs)
    (Hpre : Array.for_each PreprocessSystem_run mgr0 pre_offs = Some mgr)
    (Hfit : Z.of_nat (length (claim_offsets steps)) < 2 ^ 32)
    (Hbroad : Array.for_each broad_step (mkBroadState mgr []) steps
              = Some (mkBroadState mgr1 [])) :
  let count := narrow_numInvocations mgr1 in
  let hits := filter (overlapping mgr) (claim_offsets steps) in
  count = Z.of_nat (length hits) /\
  (exists slots,
     pairLog mgr1 = pairLog mgr0 ++ map PairWrite slots /\
     slots ≡ₚ seqZ 0 count /\
     forall k, 0 <= k < count ->
       times (PairWrite k) (map PairWrite slots) = 1%nat) /\
  (forall i off, hits !! i = Some off ->
     exists test,
       broad_test mgr off = Some (test, true) /\
       Array.load (candidatePairs mgr1) (Z.of_nat i) = Some (pair_of test)) /\
  forall inv mgr2,
    inv ≡ₚ seqZ 0 count ->
    Array.for_each (NarrowphaseSystem_run MADRONA_GPU_MODE) mgr1 inv
      = Some mgr2 ->
    pairLog mgr2 = pairLog mgr1 ++ map PairRead inv /\
    narrow_numInvocations mgr2 = count /\
    forall k, 0 <= k < count -> times (PairRead k) (map PairRead inv) = 1%nat.
Proof.
  apply preprocess_resets_narrow in Hpre as (Hlog0 & Hreset & _).
  specialize (Hreset Hzero).
  pose proof (broadphase_interleaved mgr mgr1 steps) as Hb.
  rewrite Hreset in Hb. specialize (Hb ltac:(lia) ltac:(lia) Hbroad).
  cbv zeta in Hb. destruct Hb as (Hn & (slots & Hlog & Hperm) & Hslots).
  cbv zeta. rewrite Z.add_0_l in Hn. rewrite <- Hn in Hperm.
  split; [exact Hn |]. split.
  { exists slots. split; [congruence |]. split; [exact Hperm |].
    intros k Hk. apply times_once.
    - intros x y Hxy. injection Hxy. auto.
    - rewrite Hperm. apply NoDup_seqZ.
    - rewrite Hperm. apply elem_of_seqZ. lia. }
  split.
  { intros i off Hi. destruct (Hslots i off Hi) as (test & Ht & Hl).
    exists test. split; [exact Ht |]. rewrite Z.add_0_l in Hl. exact Hl. }
  intros inv mgr2 Hinv Hnarrow.
  apply narrowphase_reads in Hnarrow as (Hl2 & _ & Hn2).
  split; [exact Hl2 |]. split; [exact Hn2 |].
  intros k Hk. apply times_once.
  - intros x y Hxy. injection Hxy. auto.
  - rewrite Hinv. apply NoDup_seqZ.
  - rewrite Hinv. apply elem_of_seqZ. lia.
Qed.

End FanOut.

(** ** job.inl *)

Lemma isPower2_pow2 (k : nat) : utils.isPower2 (2 ^ Z.of_nat k) = true.
Proof.
  unfold utils.isPower2, u64. apply Z.eqb_eq. apply Z.bits_inj'.
  intros n Hn. rewrite Z.land_spec, Z.bits_0.
  destruct (Z.eq_dec n (Z.of_nat k)) as [-> | Hne].
  - apply andb_false_iff. right.
    destruct (Z_lt_le_dec (Z.of_nat k) 64).
    + rewrite Z.mod_pow2_bits_low by lia.
      replace (2 ^ Z.of_nat k - 1) with (Z.ones (Z.of_nat k))
        by (rewrite Z.ones_equiv; lia).
      apply Z.ones_spec_high. lia.
    + apply Z.mod_pow2_bits_high. lia.
  - rewrite Z.pow2_bits_eqb by lia.
    destruct (Z.eqb_spec (Z.of_nat k) n); [lia | reflexivity].
Qed.

Section JobFacts.
Context {AL : Allocator} {UC : UserCode}.

Lemma static_assert_Ok {A} (c : bool) (msg : string) (k : Outcome A) (a : A) :
  static_assert c msg k = Ok a -> c = true /\ k = Ok a.
Proof. destruct c; simpl; [tauto | discriminate]. Qed.

Lemma Outcome_bind_Ok {A B} (f : A -> Outcome B) (mx : Outcome A) (b : B) :
  mx ≫= f = Ok b -> exists a, mx = Ok a /\ f a = Ok b.
Proof. destruct mx; simpl; try discriminate. eauto. Qed.

Lemma arena_Ok (m : JobManager) (idx : Z) (a : AllocState) :
  arena m idx = Ok a <-> Array.load (job_allocs_ m) idx = Some a.
Proof.
  unfold arena. destruct (Array.load (job_allocs_ m) idx); split;
    intros H; inversion H; reflexivity.
Qed.

(** What a successful [makeJob] did. *)
Lemma makeJob_Ok (F : FnType) (fn : Capture) (thread_idx : Z)
    (m m' : JobManager) (job : Job) :
  makeJob F fn thread_idx m = Ok (job, m') ->
  (fn_is_empty F = true /\ job = mkJob (EntryInline F) None /\ m' = m) \/
  (fn_is_empty F = false /\
   fn_sizeof F <= maxJobSize /\ fn_alignment F <= maxJobAlignment /\
   exists a store a' shared',
     Array.load (job_allocs_ m) thread_idx = Some a /\
     Alloc_alloc a (alloc_state_ m) (fn_sizeof F) (fn_alignment F)
       = Some (store, a', shared') /\
     job = mkJob (EntryStored F) (Some store) /\
     m' = mkJobManager
            (<[Z.to_nat thread_idx := a']> (job_allocs_ m)) shared'
            (<[store := (F, fn)]> (objects m)) (jobs m) (user m)
            (events m ++ [EvAlloc thread_idx (fn_sizeof F) (fn_alignment F) store;
                          EvConstruct store F])).
Proof.
  unfold makeJob. destruct (fn_is_empty F).
  - intros H. inversion H. left. auto.
  - intros H. right.
    apply static_assert_Ok in H as [Hs H].
    apply static_assert_Ok in H as [Ha H].
    apply static_assert_Ok in H as [_ H].
    apply Outcome_bind_Ok in H as (a & Harena & H).
    apply arena_Ok in Harena.
    destruct (Alloc_alloc a (alloc_state_ m) (fn_sizeof F) (fn_alignment F))
      as [[[store a'] shared'] |] eqn:Halloc; [| discriminate].
    inversion H; subst job m'; clear H.
    split; [reflexivity |]. split; [lia |]. split; [lia |].
    exists a, store, a', shared'.
    repeat split; try assumption.
    unfold emit, set_objects, set_allocs; simpl.
    rewrite <- app_assoc. reflexivity.
Qed.

(** Submitting jobs only ever asks for storage: it adds creation events,
    keeps the number of arenas, and leaves the user data alone. *)
Lemma Context_queueJob_Ok (ctx : Context) (F : FnType) (fn : Capture)
    (is_child : bool) (deps : list JobID) (m m' : JobManager) (id : JobID) :
  Context_queueJob ctx F fn is_child deps m = Ok (id, m') ->
  exists evs,
    events m' = events m ++ evs /\ Forall is_creation evs /\
    length (job_allocs_ m') = length (job_allocs_ m) /\
    user m' = user m /\
    (fn_is_empty F = true ->
       job_allocs_ m' = job_allocs_ m /\ alloc_state_ m' = alloc_state_ m /\
       objects m' = objects m /\ evs = []).
Proof.
  unfold Context_queueJob. intros H.
  apply Outcome_bind_Ok in H as ([job m1] & Hmk & H).
  inversion H; subst id m'; clear H.
  apply makeJob_Ok in Hmk
    as [(He & -> & ->) | (He & _ & _ & a & store & a' & sh & _ & _ & -> & ->)].
  - exists []. rewrite app_nil_r. simpl. repeat split; auto.
  - eexists. simpl. split; [reflexivity |].
    split; [repeat constructor |].
    split; [apply length_insert |]. split; [reflexivity |].
    intros Ht. congruence.
Qed.

Lemma submit_all_Ok (ctx : Context) (subs : list Submission) (m m' : JobManager) :
  submit_all ctx subs m = Ok m' ->
  exists evs,
    events m' = events m ++ evs /\ Forall is_creation evs /\
    length (job_allocs_ m') = length (job_allocs_ m) /\
    user m' = user m /\
    (Forall (fun s => fn_is_empty (sub_type s) = true) subs ->
       job_allocs_ m' = job_allocs_ m /\ alloc_state_ m' = alloc_state_ m /\
       objects m' = objects m /\ evs = []).
Proof.
  revert m. induction subs as [| s rest IH]; intros m H; simpl in H.
  - inversion H; subst m'. exists []. rewrite app_nil_r. repeat split; auto.
  - apply Outcome_bind_Ok in H as ([id m1] & Hq & H).
    apply Context_queueJob_Ok in Hq as (e1 & He1 & Hc1 & Hl1 & Hu1 & Hk1).
    apply IH in H as (e2 & He2 & Hc2 & Hl2 & Hu2 & Hk2).
    exists (e1 ++ e2). rewrite He2, He1, app_assoc.
    split; [reflexivity |]. split; [apply Forall_app; auto |].
    split; [lia |]. split; [congruence |].
    intros Hall. inversion Hall as [| ? ? Hs Hrest]; subst.
    destruct (Hk1 Hs) as (Ha1 & Hs1 & Ho1 & ->).
    destruct (Hk2 Hrest) as (Ha2 & Hs2 & Ho2 & ->).
    repeat split; congruence.
Qed.

(** What a call of a callable that returns did. *)
Lemma invoke_Ok (F : FnType) (cap : Capture) (data : option Z) (ctx : Context)
    (m m' : JobManager) :
  invoke F cap data ctx m = Ok m' ->
  exists evs,
    events m' = events m ++ EvCall F data (worker_idx_ ctx) :: evs
                  ++ [EvReturn F data (worker_idx_ ctx)] /\
    Forall is_creation evs /\
    length (job_allocs_ m') = length (job_allocs_ m) /\
    user m' = fst (body F cap ctx (user m)) /\
    (Forall (fun s => fn_is_empty (sub_type s) = true)
            (snd (body F cap ctx (user m))) ->
       job_allocs_ m' = job_allocs_ m /\ alloc_state_ m' = alloc_state_ m /\
       objects m' = objects m /\ evs = []).
Proof.
  unfold invoke. cbn [user emit].
  destruct (body F cap ctx (user m)) as [u subs]. intros H.
  apply Outcome_bind_Ok in H as (m1 & Hs & H).
  inversion H; subst m'; clear H.
  apply submit_all_Ok in Hs as (evs & He & Hc & Hl & Hu & Hk).
  cbn [events set_user emit job_allocs_ user alloc_state_ objects] in *.
  exists evs. rewrite He, <- !app_assoc. simpl.
  split; [reflexivity |]. repeat (split; [assumption |]). exact Hk.
Qed.

End JobFacts.

Section JobClaims.
Context {AL : Allocator} {UC : UserCode}.

Lemma count_events_creation (p : JobEvent -> bool) (evs : list JobEvent) :
  (forall e, is_creation e -> p e = false) ->
  Forall is_creation evs -> count_events p evs = 0%nat.
Proof.
  intros Hp. induction 1 as [| e evs He _ IH]; [reflexivity |].
  unfold count_events in *. simpl. rewrite (Hp e He). exact IH.
Qed.

Lemma count_events_app (p : JobEvent -> bool) (l1 l2 : list JobEvent) :
  count_events p (l1 ++ l2) = (count_events p l1 + count_events p l2)%nat.
Proof. unfold count_events. rewrite List.filter_app. apply length_app. Qed.

(** Whatever the dependencies passed to [Context::queueJob], the job it
    submits is on a ready queue when the call returns. *)
Lemma Context_queueJob_eligible (ctx : Context) (F : FnType) (fn : Capture)
    (is_child : bool) (dependencies : list JobID) (m m' : JobManager)
    (id : JobID) :
  Context_queueJob ctx F fn is_child dependencies m = Ok (id, m') ->
  eligible m' id = true /\
  exists s, jobs m' !! id = Some s /\ slot_deps s = [] /\
            slot_state s = Ready (worker_idx_ ctx).
Proof.
  unfold Context_queueJob. intros H.
  apply Outcome_bind_Ok in H as ([job m1] & _ & H).
  unfold JobManager_queueJob, JobManager_queueJob_raw in H.
  simpl in H. inversion H; subst id m'; clear H.
  unfold eligible. cbn [jobs set_jobs].
  rewrite lookup_app_r by lia. rewrite Nat.sub_diag. simpl.
  split; [reflexivity |]. eexists. split; [reflexivity |]. split; reflexivity.
Qed.

(** Had the dependencies been handed on, a job with an outstanding
    dependency would be held. *)
Lemma JobManager_queueJob_holds (thread_idx : Z) (job : Job) (d : JobID)
    (prio : JobPriority) (m : JobManager) :
  is_complete m d = false ->
  let '(id, m') := JobManager_queueJob thread_idx job (Some [d]) 1 prio m in
  eligible m' id = false.
Proof.
  intros Hd. unfold JobManager_queueJob, JobManager_queueJob_raw.
  cbn [default take Z.to_nat Pos.to_nat Pos.iter_op Init.Nat.add].
  unfold eligible. cbn [jobs set_jobs].
  rewrite lookup_app_r by lia. rewrite Nat.sub_diag. simpl.
  rewrite filter_cons. destruct (decide (is_complete m d = false)); [| contradiction].
  reflexivity.
Qed.

(** C6. For a callable type that carries a payload (a non-empty [Fn]):
    when its size is above [maxJobSize] or its alignment above
    [maxJobAlignment], [makeJob] comes to a failed [static_assert] and
    nothing else (no allocator call, no state); when both are within the
    limits no [static_assert] fails, and a job that is created asked the
    arena for exactly [sizeof(Fn)] bytes at [alignof(Fn)] and holds the
    whole callable. *)
Theorem makeJob_size_alignment_limits
    (F : FnType) (fn : Capture) (thread_idx : Z) (m : JobManager)
    (Hpayload : fn_is_empty F = false) :
  (maxJobSize < fn_sizeof F \/ maxJobAlignment < fn_alignment F ->
   exists msg, makeJob F fn thread_idx m = StaticAssertFailed msg) /\
  (fn_sizeof F <= maxJobSize -> fn_alignment F <= maxJobAlignment ->
   (forall msg, makeJob F fn thread_idx m <> StaticAssertFailed msg) /\
   (forall job m',
      makeJob F fn thread_idx m = Ok (job, m') ->
      exists store,
        data_ job = Some store /\
        objects m' !! store = Some (F, fn) /\
        events m' =
          events m ++ [EvAlloc thread_idx (fn_sizeof F) (fn_alignment F) store;
                       EvConstruct store F])).
Proof.
  split.
  - intros Hbig. unfold makeJob. rewrite Hpayload. unfold static_assert.
    destruct (Z.leb_spec (fn_sizeof F) maxJobSize); [| eauto].
    destruct (Z.leb_spec (fn_alignment F) maxJobAlignment); [| eauto].
    lia.
  - intros Hs Ha. split.
    + intros msg. unfold makeJob. rewrite Hpayload. unfold static_assert.
      destruct (Z.leb_spec (fn_sizeof F) maxJobSize); [| lia].
      destruct (Z.leb_spec (fn_alignment F) maxJobAlignment); [| lia].
      unfold fn_alignment at 1. rewrite isPower2_pow2.
      unfold arena. destruct (Array.load (job_allocs_ m) thread_idx);
        simpl; try discriminate.
      destruct (Alloc_alloc _ _ _ _) as [[[? ?] ?] |]; discriminate.
    + intros job m' H.
      apply makeJob_Ok in H
        as [(He & _) | (_ & _ & _ & a & store & a' & sh & _ & _ & -> & ->)];
        [congruence |].
      exists store. cbn [data_ objects events].
      split; [reflexivity |]. split; [apply lookup_insert_eq | reflexivity].
Qed.

(** C7. For an empty callable type, [makeJob] returns the job with a null
    data pointer and the inline entry, and leaves the manager as it was
    (no allocator call).  Calling the job's function is calling a fresh
    [Fn()]: when it returns, the record shows that call, its return, and
    in between only what the callable's own submissions created; if those
    submissions are of empty callables too (or there are none), every
    arena and the shared allocator state are as before. *)
Theorem empty_callable_bypasses_allocator
    (F : FnType) (fn : Capture) (thread_idx : Z) (m : JobManager)
    (Hempty : fn_is_empty F = true) :
  makeJob F fn thread_idx m = Ok (mkJob (EntryInline F) None, m) /\
  forall (ctx : Context) (m' : JobManager),
    Job_call (EntryInline F) ctx None m = Ok m' ->
    (exists evs,
       events m' = events m ++ EvCall F None (worker_idx_ ctx) :: evs
                     ++ [EvReturn F None (worker_idx_ ctx)] /\
       Forall is_creation evs) /\
    (Forall (fun s => fn_is_empty (sub_type s) = true)
            (snd (body F [] ctx (user m))) ->
     job_allocs_ m' = job_allocs_ m /\
     alloc_state_ m' = alloc_state_ m /\
     objects m' = objects m /\
     events m' = events m ++ [EvCall F None (worker_idx_ ctx);
                              EvReturn F None (worker_idx_ ctx)]).
Proof.
  split.
  - unfold makeJob. rewrite Hempty. reflexivity.
  - intros ctx m' H. cbn [Job_call] in H.
    apply invoke_Ok in H as (evs & He & Hc & _ & _ & Hk).
    split; [exists evs; auto |].
    intros Hall. destruct (Hk Hall) as (Ha & Hs & Ho & ->).
    rewrite He. auto.
Qed.

(** C5. Let [job] be made by [makeJob] from a non-empty callable, and let
    its function be called by worker [worker_idx_ ctx] in a state where
    the callable still lives in the job's storage.  If the callable
    returns, the call of the job's function returns too, and what it
    added to the record is: the call of the callable, what the callable's
    own submissions created, its return, its destruction, and then one
    [dealloc] of the storage, with the arena of the calling worker
    (whichever arena the storage came from).  The callable was called
    once and the storage freed once, after the return. *)
Theorem stored_job_runs_then_frees_once
    (F : FnType) (fn : Capture) (thread_idx : Z) (m0 m1 : JobManager)
    (job : Job) (ctx : Context) (m mb : JobManager)
    (Hpayload : fn_is_empty F = false)
    (Hmake : makeJob F fn thread_idx m0 = Ok (job, m1))
    (Hlive : forall store,
        data_ job = Some store -> objects m !! store = Some (F, fn))
    (Hworker : 0 <= worker_idx_ ctx < Z.of_nat (length (job_allocs_ m)))
    (Hreturns : invoke F fn (data_ job) ctx m = Ok mb) :
  exists store a a' shared' evs,
    job = mkJob (EntryStored F) (Some store) /\
    Array.load (job_allocs_ mb) (worker_idx_ ctx) = Some a /\
    Alloc_dealloc a (alloc_state_ mb) store (u32 (fn_sizeof F)) = (a', shared') /\
    let added :=
      EvCall F (Some store) (worker_idx_ ctx) :: evs
        ++ [EvReturn F (Some store) (worker_idx_ ctx);
            EvDestroy store;
            EvDealloc (worker_idx_ ctx) store (u32 (fn_sizeof F))] in
    Job_call (func_ job) ctx (data_ job) m =
      Ok (mkJobManager
            (<[Z.to_nat (worker_idx_ ctx) := a']> (job_allocs_ mb)) shared'
            (delete store (objects mb)) (jobs mb) (user mb)
            (events m ++ added)) /\
    Forall is_creation evs /\
    count_events (is_call_of (Some store)) added = 1%nat /\
    count_events (is_dealloc_of store) added = 1%nat.
Proof.
  apply makeJob_Ok in Hmake
    as [(He & _) | (_ & _ & _ & a0 & store & a0' & sh0 & _ & _ & -> & _)];
    [congruence |].
  cbn [data_ func_] in *.
  specialize (Hlive store eq_refl).
  pose proof (invoke_Ok _ _ _ _ _ _ Hreturns) as (evs & He & Hc & Hl & _ & _).
  destruct (lookup_lt_is_Some_2 (job_allocs_ mb) (Z.to_nat (worker_idx_ ctx)))
    as [a Ha]; [lia |].
  destruct (Alloc_dealloc a (alloc_state_ mb) store (u32 (fn_sizeof F)))
    as [a' shared'] eqn:Hd.
  exists store, a, a', shared', evs.
  split; [reflexivity |].
  assert (Hload : Array.load (job_allocs_ mb) (worker_idx_ ctx) = Some a)
    by (apply Array_load_Some; split; [lia | exact Ha]).
  split; [exact Hload |]. split; [exact Hd |]. cbv zeta.
  split.
  - cbn [Job_call]. rewrite Hlive, Hreturns. simpl.
    unfold deallocJob, arena.
    cbn [job_allocs_ alloc_state_ emit set_objects].
    rewrite Hload. simpl. rewrite Hd.
    unfold emit, set_allocs. simpl. rewrite He.
    f_equal. f_equal. rewrite <- !app_assoc. simpl.
    rewrite <- !app_assoc. reflexivity.
  - split; [exact Hc |]. split.
    + change (EvCall F (Some store) (worker_idx_ ctx) :: evs ++ _)
        with ([EvCall F (Some store) (worker_idx_ ctx)] ++ evs ++
              [EvReturn F (Some store) (worker_idx_ ctx); EvDestroy store;
               EvDealloc (worker_idx_ ctx) store (u32 (fn_sizeof F))]).
      rewrite !count_events_app.
      rewrite (count_events_creation _ evs) by (auto; intros []; simpl; tauto).
      unfold count_events; simpl. rewrite Z.eqb_refl. reflexivity.
    + change (EvCall F (Some store) (worker_idx_ ctx) :: evs ++ _)
        with ([EvCall F (Some store) (worker_idx_ ctx)] ++ evs ++
              [EvReturn F (Some store) (worker_idx_ ctx); EvDestroy store;
               EvDealloc (worker_idx_ ctx) store (u32 (fn_sizeof F))]).
      rewrite !count_events_app.
      rewrite (count_events_creation _ evs) by (auto; intros []; simpl; tauto).
      unfold count_events; simpl. rewrite Z.eqb_refl. reflexivity.
Qed.

End JobClaims.

(** ** The task graph *)

Section TaskGraphFacts.
Import TaskGraph.

Lemma registerSystem_well_formed (b b' : Graph) (p : CountPolicy)
    (deps : list nat) (id : nat) :
  well_formed b -> registerSystem b p deps = Some (id, b') -> well_formed b'.
Proof.
  unfold registerSystem. intros Hwf H.
  destruct (decl_ok (length b) (mkSystemDecl p deps)) eqn:Hok; [| discriminate].
  inversion H; subst id b'; clear H.
  intros s d Hs. apply lookup_app_Some in Hs as [Hs | [Hlen Hs]].
  - apply Hwf. exact Hs.
  - apply list_lookup_singleton_Some in Hs as [Hz <-].
    replace s with (length b) by lia. exact Hok.
Qed.

Lemma well_formed_nil : well_formed [].
Proof. intros s d Hs. rewrite lookup_nil in Hs. discriminate. Qed.

Lemma well_formed_dep_lt (g : Graph) (s : nat) (d : SystemDecl) (dep : nat) :
  well_formed g -> g !! s = Some d -> In dep (dependencies d) -> (dep < s)%nat.
Proof.
  intros Hwf Hs Hin. specialize (Hwf s d Hs). unfold decl_ok in Hwf.
  apply andb_true_iff in Hwf as [Hf _].
  rewrite forallb_forall in Hf. specialize (Hf dep Hin).
  apply Nat.ltb_lt in Hf. exact Hf.
Qed.

Lemma well_formed_producer (g : Graph) (t p : nat) (d : SystemDecl) :
  well_formed g -> g !! t = Some d -> policy d = Dynamic p ->
  In p (dependencies d).
Proof.
  intros Hwf Ht Hp. specialize (Hwf t d Ht). unfold decl_ok in Hwf.
  apply andb_true_iff in Hwf as [_ He]. rewrite Hp in He.
  apply existsb_exists in He as (x & Hin & Hx).
  apply Nat.eqb_eq in Hx. subst x. exact Hin.
Qed.

(** *** Projections of a trace *)

Lemma starts_of_snoc (s : nat) (tr : list Event) (e : Event) :
  starts_of s (tr ++ [e]) =
  starts_of s tr ++
    match e with
    | Start s' i => if (s' =? s)%nat then [i] else []
    | _ => []
    end.
Proof.
  unfold starts_of. rewrite omap_app. f_equal.
  destruct e; simpl; try reflexivity. destruct (s0 =? s)%nat; reflexivity.
Qed.

Lemma finishes_of_snoc (s : nat) (tr : list Event) (e : Event) :
  finishes_of s (tr ++ [e]) =
  finishes_of s tr ++
    match e with
    | Finish s' i => if (s' =? s)%nat then [i] else []
    | _ => []
    end.
Proof.
  unfold finishes_of. rewrite omap_app. f_equal.
  destruct e; simpl; try reflexivity. destruct (s0 =? s)%nat; reflexivity.
Qed.

Lemma claims_of_snoc (t : nat) (tr : list Event) (e : Event) :
  claims_of t (tr ++ [e]) =
  claims_of t tr ++
    match e with
    | Claim _ _ t' slot => if (t' =? t)%nat then [slot] else []
    | _ => []
    end.
Proof.
  unfold claims_of. rewrite omap_app. f_equal.
  destruct e; simpl; try reflexivity. destruct (consumer =? t)%nat; reflexivity.
Qed.

Lemma snoc_eq_app_cons {A} (l pre post : list A) (e x : A) :
  l ++ [e] = pre ++ x :: post ->
  (post = [] /\ x = e /\ l = pre) \/
  (exists post', post = post' ++ [e] /\ l = pre ++ x :: post').
Proof.
  revert pre. induction post as [| y post' _] using rev_ind; intros pre H.
  - left. apply app_inj_tail in H as [-> ->]. auto.
  - right. exists post'.
    change (pre ++ x :: post' ++ [y]) with (pre ++ (x :: post') ++ [y]) in H.
    rewrite app_assoc in H. apply app_inj_tail in H as [-> ->]. auto.
Qed.

Lemma remove_running_perm (i : nat) (l : list nat) :
  NoDup l -> In i l -> i :: List.remove Nat.eq_dec i l ≡ₚ l.
Proof.
  induction l as [| x l IH]; intros Hnd Hin; [contradiction |].
  apply NoDup_cons in Hnd as [Hx Hnd]. simpl.
  destruct (Nat.eq_dec i x) as [-> | Hne].
  - rewrite notin_remove; [reflexivity |].
    intros Hin'. apply Hx. apply list_elem_of_In. exact Hin'.
  - destruct Hin as [-> | Hin]; [contradiction |].
    rewrite Permutation_swap. constructor. apply IH; assumption.
Qed.

(** *** Completed Systems stay completed *)

Lemma is_finished_insert (rs : list SysRun) (s x : nat) (r r' : SysRun) :
  rs !! s = Some r -> (finished r = true -> finished r' = true) ->
  is_finished rs x = true -> is_finished (<[s := r']> rs) x = true.
Proof.
  intros Hs Hmono. unfold is_finished.
  destruct (Nat.eq_dec s x) as [-> | Hne].
  - rewrite Hs. rewrite list_lookup_insert_eq by (eapply lookup_lt_Some; eauto).
    exact Hmono.
  - rewrite list_lookup_insert_ne by assumption. tauto.
Qed.

Lemma eligible_mono (g : Graph) (rs rs' : list SysRun) (s : nat) :
  (forall x, is_finished rs x = true -> is_finished rs' x = true) ->
  eligible g rs s = true -> eligible g rs' s = true.
Proof.
  intros Hm. unfold eligible. destruct (g !! s) as [d |]; [| discriminate].
  rewrite !forallb_forall. intros H x Hx. apply Hm, H, Hx.
Qed.

Lemma eligible_dep (g : Graph) (rs : list SysRun) (s dep : nat) (d : SystemDecl) :
  g !! s = Some d -> In dep (dependencies d) ->
  eligible g rs s = true -> is_finished rs dep = true.
Proof.
  intros Hs Hin. unfold eligible. rewrite Hs, forallb_forall.
  intros H. apply H, Hin.
Qed.

Lemma is_running_In (r : SysRun) (i : nat) :
  is_running r i = true <-> In i (running r).
Proof.
  unfold is_running. rewrite existsb_exists. split.
  - intros (x & Hin & Hx). apply Nat.eqb_eq in Hx. subst x. exact Hin.
  - intros Hin. exists i. split; [exact Hin | apply Nat.eqb_refl].
Qed.

Lemma epoch_inv_init (g : Graph) : epoch_inv g (init g).
Proof.
  split; [apply length_map |].
  intros s r Hs. unfold init in Hs. cbn [systems] in Hs.
  rewrite list_lookup_fmap in Hs.
  destruct (g !! s) as [d |] eqn:Hd; [| discriminate].
  inversion Hs; subst r; clear Hs.
  constructor; unfold reset; cbn [dispatched running finished numInvocations
                                  init trace].
  - reflexivity.
  - reflexivity.
  - lia.
  - discriminate.
  - lia.
  - intros d' Hd'. rewrite Hd in Hd'. injection Hd' as <-.
    destruct (policy d); reflexivity.
Qed.

(** A running invocation belongs to a System that has not completed. *)
Lemma running_not_finished (g : Graph) (st : RunState) (s i : nat) (r : SysRun) :
  epoch_inv g st -> systems st !! s = Some r -> is_running r i = true ->
  finished r = false.
Proof.
  intros [_ Hinv] Hs Hrun. destruct (finished r) eqn:Hf; [| reflexivity].
  destruct (inv_finished _ _ _ _ (Hinv s r Hs) Hf) as (Hnil & _).
  apply is_running_In in Hrun. rewrite Hnil in Hrun. contradiction.
Qed.

(** While its producer runs, a dynamically populated System has neither
    completed nor dispatched anything. *)
Lemma consumer_waits (g : Graph) (st : RunState) (p i t : nat) (rp rt : SysRun) :
  well_formed g -> epoch_inv g st ->
  systems st !! p = Some rp -> systems st !! t = Some rt ->
  is_running rp i = true -> produces_for g p t = true ->
  finished rt = false /\ dispatched rt = 0%nat.
Proof.
  intros Hwf Hinv Hp Ht Hrun Hprod.
  pose proof (running_not_finished _ _ _ _ _ Hinv Hp Hrun) as Hpf.
  unfold produces_for in Hprod.
  destruct (g !! t) as [d |] eqn:Hd; [| discriminate].
  destruct (policy d) as [| q] eqn:Hpol; [discriminate |].
  apply Nat.eqb_eq in Hprod. subst q.
  pose proof (well_formed_producer _ _ _ _ Hwf Hd Hpol) as Hin.
  assert (Hne : eligible g (systems st) t = false).
  { destruct (eligible g (systems st) t) eqn:He; [| reflexivity].
    pose proof (eligible_dep _ _ _ _ _ Hd Hin He) as Hfin.
    unfold is_finished in Hfin. rewrite Hp in Hfin. congruence. }
  destruct Hinv as [_ Hinv]. specialize (Hinv t rt Ht). split.
  - destruct (finished rt) eqn:Hf; [| reflexivity].
    destruct (inv_finished _ _ _ _ Hinv Hf) as (_ & _ & He). congruence.
  - destruct (dispatched rt) eqn:Hdz; [reflexivity |].
    assert (He : eligible g (systems st) t = true)
      by (apply (inv_started _ _ _ _ Hinv); lia).
    congruence.
Qed.


Lemma sys_inv_frame (g : Graph) (st st' : RunState) (s : nat) (r : SysRun)
    (e : Event) :
  trace st' = trace st ++ [e] -> touches s e = false ->
  (forall x, is_finished (systems st) x = true ->
             is_finished (systems st') x = true) ->
  sys_inv g st s r -> sys_inv g st' s r.
Proof.
  intros Htr Hto Hmono [H1 H2 H3 H4 H5 H6].
  assert (Hs : starts_of s (trace st') = starts_of s (trace st)).
  { rewrite Htr, starts_of_snoc. destruct e; simpl in Hto;
      try rewrite Hto; apply app_nil_r. }
  assert (Hf : finishes_of s (trace st') = finishes_of s (trace st)).
  { rewrite Htr, finishes_of_snoc. destruct e; simpl in Hto;
      try rewrite Hto; apply app_nil_r. }
  assert (Hc : claims_of s (trace st') = claims_of s (trace st)).
  { rewrite Htr, claims_of_snoc. destruct e; simpl in Hto;
      try rewrite Hto; apply app_nil_r. }
  constructor.
  - rewrite Hs. exact H1.
  - rewrite Hf. exact H2.
  - exact H3.
  - intros Hfin. destruct (H4 Hfin) as (Ha & Hb & Hc').
    repeat split; try assumption. eapply eligible_mono; eassumption.
  - intros Hpos. eapply eligible_mono; [eassumption | auto].
  - intros d Hd. specialize (H6 d Hd). destruct (policy d); [exact H6 |].
    rewrite Hc. exact H6.
Qed.

Lemma epoch_inv_step (g : Graph) (a : Action) (st st' : RunState) :
  well_formed g -> epoch_inv g st -> apply g a st = Some st' ->
  epoch_inv g st'.
Proof.
  intros Hwf Hinv Happ. pose proof Hinv as [Hlen Hall].
  destruct a as [s | s i | s i t | s]; cbn [apply] in Happ;
    apply bind_Some in Happ as (r & Hr & Happ).
  - (* DoStart *)
    destruct (eligible g (systems st) s && negb (finished r)
              && (dispatched r <? numInvocations r)%nat) eqn:Hc;
      [| discriminate].
    apply andb_true_iff in Hc as [Hc Hlt].
    apply andb_true_iff in Hc as [Hel Hnf].
    apply Nat.ltb_lt in Hlt. apply negb_true_iff in Hnf.
    inversion Happ; subst st'; clear Happ.
    assert (Hmono : forall x, is_finished (systems st) x = true ->
              is_finished (<[s := mkSysRun (numInvocations r) (S (dispatched r))
                     (dispatched r :: running r) false]> (systems st)) x = true).
    { intros x. apply is_finished_insert with (r := r); [exact Hr |].
      congruence. }
    split; [cbn [systems]; rewrite length_insert; exact Hlen |].
    intros s0 r0 Hs0. cbn [systems] in Hs0.
    destruct (Nat.eq_dec s s0) as [<- | Hne].
    + rewrite list_lookup_insert_eq in Hs0 by (eapply lookup_lt_Some; eauto).
      inversion Hs0; subst r0; clear Hs0.
      destruct (Hall s r Hr) as [H1 H2 H3 H4 H5 H6].
      constructor; cbn [trace systems dispatched running finished numInvocations].
      * rewrite starts_of_snoc, Nat.eqb_refl, H1, seq_S. reflexivity.
      * rewrite finishes_of_snoc, app_nil_r, seq_S. simpl.
        rewrite <- Permutation_middle, <- H2.
        apply Permutation_cons_append.
      * lia.
      * discriminate.
      * intros _. eapply eligible_mono; [exact Hmono | exact Hel].
      * intros d Hd. specialize (H6 d Hd). destruct (policy d); [exact H6 |].
        rewrite claims_of_snoc, app_nil_r. exact H6.
    + rewrite list_lookup_insert_ne in Hs0 by assumption.
      eapply sys_inv_frame; [reflexivity | | exact Hmono | apply Hall, Hs0].
      simpl. apply Nat.eqb_neq. exact Hne.
  - (* DoFinish *)
    destruct (is_running r i) eqn:Hrun; [| discriminate].
    inversion Happ; subst st'; clear Happ.
    pose proof (running_not_finished _ _ _ _ _ Hinv Hr Hrun) as Hnf.
    assert (Hmono : forall x, is_finished (systems st) x = true ->
              is_finished (<[s := mkSysRun (numInvocations r) (dispatched r)
                     (List.remove Nat.eq_dec i (running r)) (finished r)]>
                     (systems st)) x = true).
    { intros x. apply is_finished_insert with (r := r); [exact Hr | auto]. }
    split; [cbn [systems]; rewrite length_insert; exact Hlen |].
    intros s0 r0 Hs0. cbn [systems] in Hs0.
    destruct (Nat.eq_dec s s0) as [<- | Hne].
    + rewrite list_lookup_insert_eq in Hs0 by (eapply lookup_lt_Some; eauto).
      inversion Hs0; subst r0; clear Hs0.
      destruct (Hall s r Hr) as [H1 H2 H3 H4 H5 H6].
      constructor; cbn [trace systems dispatched running finished numInvocations].
      * rewrite starts_of_snoc, app_nil_r. exact H1.
      * rewrite finishes_of_snoc, Nat.eqb_refl, <- H2, <- app_assoc.
        apply Permutation_app_head. simpl.
        apply remove_running_perm; [| apply is_running_In; exact Hrun].
        assert (Hnd : NoDup (finishes_of s (trace st) ++ running r))
          by (rewrite H2; apply NoDup_ListNoDup, List.seq_NoDup).
        apply NoDup_app in Hnd as (_ & _ & Hnd). exact Hnd.
      * exact H3.
      * congruence.
      * intros Hpos. eapply eligible_mono; [exact Hmono | auto].
      * intros d Hd. specialize (H6 d Hd). destruct (policy d); [exact H6 |].
        rewrite claims_of_snoc, app_nil_r. exact H6.
    + rewrite list_lookup_insert_ne in Hs0 by assumption.
      eapply sys_inv_frame; [reflexivity | | exact Hmono | apply Hall, Hs0].
      simpl. apply Nat.eqb_neq. exact Hne.
  - (* DoClaim *)
    apply bind_Some in Happ as (rt & Hrt & Happ).
    destruct (is_running r i && produces_for g s t) eqn:Hc; [| discriminate].
    apply andb_true_iff in Hc as [Hrun Hprod].
    inversion Happ; subst st'; clear Happ.
    destruct (consumer_waits _ _ _ _ _ _ _ Hwf Hinv Hr Hrt Hrun Hprod)
      as [Htf Htd].
    assert (Hmono : forall x, is_finished (systems st) x = true ->
              is_finished (<[t := mkSysRun (S (numInvocations rt)) (dispatched rt)
                     (running rt) (finished rt)]> (systems st)) x = true).
    { intros x. apply is_finished_insert with (r := rt); [exact Hrt | auto]. }
    split; [cbn [systems]; rewrite length_insert; exact Hlen |].
    intros s0 r0 Hs0. cbn [systems] in Hs0.
    destruct (Nat.eq_dec t s0) as [<- | Hne].
    + rewrite list_lookup_insert_eq in Hs0 by (eapply lookup_lt_Some; eauto).
      inversion Hs0; subst r0; clear Hs0.
      destruct (Hall t rt Hrt) as [H1 H2 H3 H4 H5 H6].
      constructor; cbn [trace systems dispatched running finished numInvocations].
      * rewrite starts_of_snoc, app_nil_r. exact H1.
      * rewrite finishes_of_snoc, app_nil_r. exact H2.
      * lia.
      * congruence.
      * lia.
      * intros d Hd. specialize (H6 d Hd).
        unfold produces_for in Hprod. rewrite Hd in Hprod.
        destruct (policy d); [discriminate |].
        rewrite claims_of_snoc, Nat.eqb_refl, H6, seq_S. reflexivity.
    + rewrite list_lookup_insert_ne in Hs0 by assumption.
      eapply sys_inv_frame; [reflexivity | | exact Hmono | apply Hall, Hs0].
      simpl. apply Nat.eqb_neq. exact Hne.
  - (* DoDone *)
    destruct (eligible g (systems st) s && negb (finished r)
              && (dispatched r =? numInvocations r)%nat
              && match running r with [] => true | _ => false end) eqn:Hc;
      [| discriminate].
    apply andb_true_iff in Hc as [Hc Hnil].
    apply andb_true_iff in Hc as [Hc Heq].
    apply andb_true_iff in Hc as [Hel Hnf].
    apply Nat.eqb_eq in Heq.
    destruct (running r) as [| ? ?] eqn:Hrn; [| discriminate].
    inversion Happ; subst st'; clear Happ.
    assert (Hmono : forall x, is_finished (systems st) x = true ->
              is_finished (<[s := mkSysRun (numInvocations r) (dispatched r)
                     [] true]> (systems st)) x = true).
    { intros x. apply is_finished_insert with (r := r); [exact Hr | auto]. }
    split; [cbn [systems]; rewrite length_insert; exact Hlen |].
    intros s0 r0 Hs0. cbn [systems] in Hs0.
    destruct (Nat.eq_dec s s0) as [<- | Hne].
    + rewrite list_lookup_insert_eq in Hs0 by (eapply lookup_lt_Some; eauto).
      inversion Hs0; subst r0; clear Hs0.
      destruct (Hall s r Hr) as [H1 H2 H3 H4 H5 H6].
      constructor; cbn [trace systems dispatched running finished numInvocations].
      * rewrite starts_of_snoc, app_nil_r. exact H1.
      * rewrite finishes_of_snoc, app_nil_r. rewrite Hrn in H2. exact H2.
      * exact H3.
      * intros _. repeat split; [exact Heq |].
        eapply eligible_mono; [exact Hmono | exact Hel].
      * intros _. eapply eligible_mono; [exact Hmono | exact Hel].
      * intros d Hd. specialize (H6 d Hd). destruct (policy d); [exact H6 |].
        rewrite claims_of_snoc, app_nil_r. exact H6.
    + rewrite list_lookup_insert_ne in Hs0 by assumption.
      eapply sys_inv_frame; [reflexivity | | exact Hmono | apply Hall, Hs0].
      reflexivity.
Qed.

Lemma reachable_inv (g : Graph) (st : RunState) :
  well_formed g -> reachable g st -> epoch_inv g st.
Proof.
  intros Hwf. induction 1 as [| st a st' _ IH Happ].
  - apply epoch_inv_init.
  - eapply epoch_inv_step; eassumption.
Qed.


(** *** Order along a dependency edge *)

Lemma apply_snoc (g : Graph) (a : Action) (st st' : RunState) :
  apply g a st = Some st' -> exists e, trace st' = trace st ++ [e].
Proof.
  intros Happ. destruct a; cbn [apply] in Happ;
    apply bind_Some in Happ as (r & Hr & Happ);
    try apply bind_Some in Happ as (rt & Hrt & Happ);
    match type of Happ with
    | @eq _ (if ?c then _ else _) _ => destruct c; [| discriminate]
    end;
    inversion Happ; subst st'; eexists; reflexivity.
Qed.

(** The step that starts an invocation of [s] finds [s] eligible and not
    completed, and changes no other System. *)
Lemma apply_start (g : Graph) (a : Action) (st st' : RunState) (s j : nat) :
  apply g a st = Some st' -> trace st' = trace st ++ [Start s j] ->
  exists r,
    systems st !! s = Some r /\ eligible g (systems st) s = true /\
    finished r = false /\
    forall x, x <> s -> systems st' !! x = systems st !! x.
Proof.
  intros Happ Htr. destruct a as [s0 | s0 i | s0 i t | s0];
    cbn [apply] in Happ;
    apply bind_Some in Happ as (r & Hr & Happ);
    try apply bind_Some in Happ as (rt & Hrt & Happ);
    match type of Happ with
    | @eq _ (if ?c then _ else _) _ => destruct c eqn:Hc; [| discriminate]
    end;
    inversion Happ; subst st'; clear Happ; cbn [trace systems] in *;
    apply app_inj_tail in Htr as [_ He]; try discriminate.
  inversion He; subst s0 j; clear He.
  apply andb_true_iff in Hc as [Hc _].
  apply andb_true_iff in Hc as [Hel Hnf]. apply negb_true_iff in Hnf.
  exists r. repeat split; try assumption.
  intros x Hx. apply list_lookup_insert_ne. congruence.
Qed.

(** Once a System has completed, no step changes its record, and no
    later event belongs to one of its invocations. *)
Lemma finished_frozen (g : Graph) (a : Action) (st st' : RunState)
    (s : nat) (r : SysRun) :
  well_formed g -> epoch_inv g st ->
  systems st !! s = Some r -> finished r = true ->
  apply g a st = Some st' ->
  systems st' !! s = Some r /\
  forall e, trace st' = trace st ++ [e] -> invocation_of s e = false.
Proof.
  intros Hwf Hinv Hs Hfin Happ.
  destruct a as [s0 | s0 i | s0 i t | s0]; cbn [apply] in Happ;
    apply bind_Some in Happ as (r0 & Hr0 & Happ);
    try apply bind_Some in Happ as (rt & Hrt & Happ);
    match type of Happ with
    | @eq _ (if ?c then _ else _) _ => destruct c eqn:Hc; [| discriminate]
    end;
    inversion Happ; subst st'; clear Happ; cbn [trace systems].
  - (* DoStart *)
    apply andb_true_iff in Hc as [Hc _].
    apply andb_true_iff in Hc as [_ Hnf]. apply negb_true_iff in Hnf.
    assert (Hne : s0 <> s) by (intros ->; congruence).
    split; [rewrite list_lookup_insert_ne by assumption; exact Hs |].
    intros e He. apply app_inj_tail in He as [_ <-]. simpl.
    apply Nat.eqb_neq. exact Hne.
  - (* DoFinish *)
    pose proof (running_not_finished _ _ _ _ _ Hinv Hr0 Hc) as Hnf.
    assert (Hne : s0 <> s) by (intros ->; congruence).
    split; [rewrite list_lookup_insert_ne by assumption; exact Hs |].
    intros e He. apply app_inj_tail in He as [_ <-]. simpl.
    apply Nat.eqb_neq. exact Hne.
  - (* DoClaim *)
    apply andb_true_iff in Hc as [Hrun Hprod].
    pose proof (running_not_finished _ _ _ _ _ Hinv Hr0 Hrun) as Hnf.
    destruct (consumer_waits _ _ _ _ _ _ _ Hwf Hinv Hr0 Hrt Hrun Hprod)
      as [Htf _].
    assert (Hne : s0 <> s) by (intros ->; congruence).
    assert (Hnt : t <> s) by (intros ->; congruence).
    split; [rewrite list_lookup_insert_ne by assumption; exact Hs |].
    intros e He. apply app_inj_tail in He as [_ <-]. simpl.
    apply Nat.eqb_neq. exact Hne.
  - (* DoDone *)
    apply andb_true_iff in Hc as [Hc _].
    apply andb_true_iff in Hc as [Hc _].
    apply andb_true_iff in Hc as [_ Hnf]. apply negb_true_iff in Hnf.
    assert (Hne : s0 <> s) by (intros ->; congruence).
    split; [rewrite list_lookup_insert_ne by assumption; exact Hs |].
    intros e He. apply app_inj_tail in He as [_ <-]. reflexivity.
Qed.

(** C2. In an epoch of a built graph, let [s2] depend on [s1], and take
    any moment at which an invocation of [s2] starts (the trace split
    there).  By then [s1] has completed: the events before the start hold
    the start and the end of every one of its invocations, the indices
    [0 .. n-1] for its invocation count [n], and neither the start nor
    anything after it belongs to an invocation of [s1]. *)
Theorem dependency_finishes_before_dependent_starts
    (g : Graph) (st : RunState) (s1 s2 : nat) (d2 : SystemDecl)
    (pre post : list Event) (j : nat)
    (Hwf : well_formed g) (Hreach : reachable g st)
    (Hd2 : g !! s2 = Some d2) (Hedge : In s1 (dependencies d2))
    (Htr : trace st = pre ++ Start s2 j :: post) :
  exists r1,
    systems st !! s1 = Some r1 /\ finished r1 = true /\
    starts_of s1 pre = seq 0 (numInvocations r1) /\
    finishes_of s1 pre ≡ₚ seq 0 (numInvocations r1) /\
    Forall (fun e => invocation_of s1 e = false) (Start s2 j :: post).
Proof.
  revert s1 s2 d2 pre j post Hd2 Hedge Htr.
  induction Hreach as [| st a st' Hreach IH Happ];
    intros s1 s2 d2 pre j post Hd2 Hin Htr.
  - cbn [init trace] in Htr. destruct pre; discriminate.
  - pose proof (reachable_inv _ _ Hwf Hreach) as Hinv.
    destruct (apply_snoc _ _ _ _ Happ) as [e He].
    rewrite He in Htr.
    apply snoc_eq_app_cons in Htr as [(-> & <- & <-) | (post' & -> & Htr)].
    + (* the step is the start of [s2]: its dependencies have completed *)
      destruct (apply_start _ _ _ _ _ _ Happ He) as (r2 & Hr2 & Hel & Hnf & Hoth).
      pose proof (eligible_dep _ _ _ _ _ Hd2 Hin Hel) as Hf1.
      unfold is_finished in Hf1.
      destruct (systems st !! s1) as [r1 |] eqn:Hr1; [| discriminate].
      assert (Hne : s1 <> s2) by (intros ->; congruence).
      destruct Hinv as [_ Hall].
      destruct (Hall s1 r1 Hr1) as [H1 H2 _ H4 _ _].
      destruct (H4 Hf1) as (Hnil & Heq & _).
      exists r1. rewrite Hoth by assumption.
      repeat split; try assumption.
      * rewrite H1, Heq. reflexivity.
      * rewrite Hnil, app_nil_r, Heq in H2. exact H2.
      * constructor; [| constructor]. simpl. apply Nat.eqb_neq. congruence.
    + (* an earlier start of [s2]: [s1] had completed, and stays so *)
      destruct (IH s1 s2 d2 pre j post' Hd2 Hin Htr)
        as (r1 & Hr1 & Hf1 & Hs & Hf & Hno).
      destruct (finished_frozen _ _ _ _ _ _ Hwf Hinv Hr1 Hf1 Happ)
        as [Hr1' Hev].
      exists r1. repeat split; try assumption.
      change (Start s2 j :: post' ++ [e]) with ((Start s2 j :: post') ++ [e]).
      apply Forall_app. split; [exact Hno |].
      constructor; [| constructor]. apply Hev, He.
Qed.

(** *** An epoch can run to its end *)

Lemma run_schedule_app (g : Graph) (s1 s2 : list Action) (st : RunState) :
  run_schedule g (s1 ++ s2) st =
  st' ← run_schedule g s1 st; run_schedule g s2 st'.
Proof.
  revert st. induction s1 as [| a s1 IH]; intros st; [reflexivity |].
  simpl. destruct (apply g a st) as [st1 |]; simpl; [apply IH | reflexivity].
Qed.

Lemma run_schedule_reachable (g : Graph) (sched : list Action)
    (st st' : RunState) :
  reachable g st -> run_schedule g sched st = Some st' -> reachable g st'.
Proof.
  revert st. induction sched as [| a sched IH]; intros st Hr H; simpl in H.
  - inversion H; subst; exact Hr.
  - apply bind_Some in H as (st1 & Ha & H).
    eapply IH; [| exact H]. eapply reach_step; eassumption.
Qed.

(** Running the invocations [i .. K-1] of an eligible System one by one. *)
Lemma serial_invocations (g : Graph) (s K n : nat) :
  forall i rs tr,
    rs !! s = Some (mkSysRun K i [] false) ->
    eligible g rs s = true -> (i + n = K)%nat ->
    exists tr',
      run_schedule g (flat_map (fun i => [DoStart s; DoFinish s i]) (seq i n))
                   (mkRunState rs tr)
      = Some (mkRunState (<[s := mkSysRun K K [] false]> rs) tr').
Proof.
  induction n as [| n IH]; intros i rs tr Hs Hel Hsum.
  - exists tr. simpl. assert (i = K) as -> by lia.
    rewrite list_insert_id by exact Hs. reflexivity.
  - cbn [seq flat_map app run_schedule apply systems trace].
    rewrite Hs. cbn [mbind option_bind numInvocations dispatched running finished].
    rewrite Hel. replace (i <? K)%nat with true
      by (symmetry; apply Nat.ltb_lt; lia).
    cbn [negb andb mbind option_bind systems trace].
    rewrite list_lookup_insert_eq by (eapply lookup_lt_Some; eauto).
    cbn [mbind option_bind is_running running existsb orb].
    rewrite Nat.eqb_refl.
    cbn [orb List.remove numInvocations dispatched finished].
    destruct (Nat.eq_dec i i) as [_ | Hne]; [| contradiction].
    rewrite list_insert_insert_eq.
    destruct (IH (S i) (<[s := mkSysRun K (S i) [] false]> rs)
                 ((tr ++ [Start s i]) ++ [Finish s i])) as [tr' Htr'].
    + apply list_lookup_insert_eq. eapply lookup_lt_Some; eauto.
    + eapply eligible_mono; [| exact Hel].
      intros x. apply is_finished_insert with (r := mkSysRun K i [] false);
        [exact Hs | auto].
    + lia.
    + exists tr'. cbn [mbind option_bind].
      rewrite Htr', list_insert_insert_eq. reflexivity.
Qed.

Lemma serial_system_runs (g : Graph) (s K : nat) (rs : list SysRun)
    (tr : list Event) :
  rs !! s = Some (mkSysRun K 0 [] false) -> eligible g rs s = true ->
  exists tr',
    run_schedule g (serial_system s K) (mkRunState rs tr)
    = Some (mkRunState (<[s := mkSysRun K K [] true]> rs) tr').
Proof.
  intros Hs Hel. unfold serial_system. rewrite run_schedule_app.
  destruct (serial_invocations g s K K 0 rs tr Hs Hel eq_refl) as [tr1 ->].
  cbn [mbind option_bind run_schedule apply systems trace].
  rewrite list_lookup_insert_eq by (eapply lookup_lt_Some; eauto).
  cbn [mbind option_bind numInvocations dispatched running finished negb].
  replace (eligible g (<[s := mkSysRun K K [] false]> rs) s) with true.
  - rewrite Nat.eqb_refl. cbn [andb]. rewrite list_insert_insert_eq.
    eexists. reflexivity.
  - symmetry. eapply eligible_mono; [| exact Hel].
    intros x. apply is_finished_insert with (r := mkSysRun K 0 [] false);
      [exact Hs | auto].
Qed.

(** After the first [k] Systems of the serial schedule, these have
    completed and the others are as [run()] reset them. *)
Lemma serial_prefix (g : Graph) (k : nat) :
  well_formed g -> (k <= length g)%nat ->
  exists tr,
    run_schedule g
      (flat_map (fun s => serial_system s (declared_count g s)) (seq 0 k))
      (init g)
    = Some (mkRunState (map done_run (take k g) ++ map reset (drop k g)) tr).
Proof.
  intros Hwf. induction k as [| k IH]; intros Hk.
  - exists []. simpl. rewrite drop_0. reflexivity.
  - destruct IH as [tr IH]; [lia |].
    destruct (lookup_lt_is_Some_2 g k) as [d Hd]; [lia |].
    rewrite seq_S, flat_map_app, run_schedule_app, IH. simpl.
    rewrite app_nil_r. unfold declared_count. rewrite Hd.
    set (rs := map done_run (take k g) ++ map reset (drop k g)).
    assert (Hlen : length (map done_run (take k g)) = k)
      by (rewrite length_map, length_take_le; lia).
    assert (Hrs : rs !! k = Some (mkSysRun (fixed_count d) 0 [] false)).
    { unfold rs. rewrite lookup_app_r by lia. rewrite Hlen, Nat.sub_diag.
      rewrite (drop_S _ _ _ Hd). reflexivity. }
    assert (Hel : eligible g rs k = true).
    { unfold eligible. rewrite Hd. apply forallb_forall. intros dep Hin.
      pose proof (well_formed_dep_lt _ _ _ _ Hwf Hd Hin) as Hlt.
      unfold is_finished, rs. rewrite lookup_app_l by lia.
      change (map done_run (take k g)) with (done_run <$> take k g).
      rewrite list_lookup_fmap, lookup_take_lt by lia.
      destruct (lookup_lt_is_Some_2 g dep) as [dd ->]; [lia |]. reflexivity. }
    destruct (serial_system_runs g k (fixed_count d) rs tr Hrs Hel) as [tr' ->].
    exists tr'. f_equal. f_equal. unfold rs.
    rewrite insert_app_r_alt by lia. rewrite Hlen, Nat.sub_diag.
    rewrite (take_S_r _ _ _ Hd), (drop_S _ _ _ Hd), map_app, <- app_assoc.
    reflexivity.
Qed.

Lemma serial_schedule_completes (g : Graph) :
  well_formed g ->
  exists st,
    run_schedule g (serial_schedule g) (init g) = Some st /\
    reachable g st /\ all_done st = true.
Proof.
  intros Hwf. destruct (serial_prefix g (length g) Hwf (le_n _)) as [tr H].
  eexists. split; [exact H |]. split.
  - eapply run_schedule_reachable; [apply reach_init | exact H].
  - unfold all_done. cbn [systems]. rewrite drop_all, app_nil_r.
    apply forallb_forall. intros r Hin. apply in_map_iff in Hin as (d & <- & _).
    reflexivity.
Qed.

(** *** No deadlock: an epoch can always be run to its end *)

Lemma epoch_weight_insert (rs : list SysRun) (s : nat) (r r' : SysRun) :
  rs !! s = Some r ->
  (epoch_weight (<[s := r']> rs) + sys_weight r
   = epoch_weight rs + sys_weight r')%nat.
Proof.
  revert s. induction rs as [| x rs IH]; intros s Hs; [discriminate |].
  destruct s as [| s]; simpl in Hs.
  - inversion Hs; subst x. unfold epoch_weight. simpl. lia.
  - specialize (IH s Hs). unfold epoch_weight in *. simpl. lia.
Qed.

Lemma least_unfinished (rs : list SysRun) :
  forallb finished rs = false ->
  exists s r,
    rs !! s = Some r /\ finished r = false /\
    forall x, (x < s)%nat -> is_finished rs x = true.
Proof.
  induction rs as [| r rs IH]; intros H; [discriminate |].
  simpl in H. destruct (finished r) eqn:Hf.
  - simpl in H. destruct (IH H) as (s & r' & Hs & Hnf & Hlow).
    exists (S s), r'. repeat split; try assumption.
    intros [| x] Hx; [exact Hf |]. apply Hlow. lia.
  - exists 0%nat, r. repeat split; try assumption. intros x Hx. lia.
Qed.

(** Unless every System has completed, some invocation can start or end,
    or some System can complete; and that step brings the end nearer. *)
Lemma epoch_progress (g : Graph) (st : RunState) :
  well_formed g -> epoch_inv g st -> all_done st = false ->
  exists a st',
    apply g a st = Some st' /\
    (epoch_weight (systems st') < epoch_weight (systems st))%nat.
Proof.
  intros Hwf [Hlen Hall] Hnd.
  destruct (least_unfinished _ Hnd) as (s & r & Hs & Hnf & Hlow).
  destruct (lookup_lt_is_Some_2 g s) as [d Hd].
  { rewrite <- Hlen. eapply lookup_lt_Some; eauto. }
  assert (Hel : eligible g (systems st) s = true).
  { unfold eligible. rewrite Hd. apply forallb_forall. intros dep Hin.
    apply Hlow. eapply well_formed_dep_lt; eauto. }
  pose proof (inv_bound _ _ _ _ (Hall s r Hs)) as Hb.
  destruct (running r) as [| i rest] eqn:Hrun.
  - destruct (Nat.ltb_spec (dispatched r) (numInvocations r)) as [Hlt | Hge].
    + exists (DoStart s). eexists. split.
      * cbn [apply]. rewrite Hs. cbn [mbind option_bind].
        rewrite Hel, Hnf. replace (dispatched r <? numInvocations r)%nat
          with true by (symmetry; apply Nat.ltb_lt; exact Hlt).
        reflexivity.
      * cbn [systems].
        pose proof (epoch_weight_insert (systems st) s r
          (mkSysRun (numInvocations r) (S (dispatched r))
                    (dispatched r :: running r) false) Hs) as Hw.
        unfold sys_weight in Hw.
        cbn [numInvocations dispatched running finished length] in Hw.
        assert (Hl0 : length (running r) = 0%nat) by (rewrite Hrun; reflexivity).
        rewrite Hnf in Hw. lia.
    + exists (DoDone s). eexists. split.
      * cbn [apply]. rewrite Hs. cbn [mbind option_bind].
        rewrite Hel, Hnf, Hrun.
        replace (dispatched r =? numInvocations r)%nat
          with true by (symmetry; apply Nat.eqb_eq; lia).
        reflexivity.
      * cbn [systems].
        pose proof (epoch_weight_insert (systems st) s r
          (mkSysRun (numInvocations r) (dispatched r) [] true) Hs) as Hw.
        unfold sys_weight in Hw.
        cbn [numInvocations dispatched running finished length] in Hw.
        assert (Hl0 : length (running r) = 0%nat) by (rewrite Hrun; reflexivity).
        rewrite Hnf in Hw. lia.
  - assert (Hir : is_running r i = true)
      by (apply is_running_In; rewrite Hrun; left; reflexivity).
    exists (DoFinish s i). eexists. split.
    + cbn [apply]. rewrite Hs. cbn [mbind option_bind]. rewrite Hir.
      reflexivity.
    + cbn [systems].
      pose proof (epoch_weight_insert (systems st) s r
        (mkSysRun (numInvocations r) (dispatched r)
                  (List.remove Nat.eq_dec i (running r)) (finished r)) Hs) as Hw.
      unfold sys_weight in Hw.
      cbn [numInvocations dispatched running finished] in Hw.
      assert (Hrm : (length (List.remove Nat.eq_dec i (running r))
                     < length (running r))%nat).
      { apply List.remove_length_lt. rewrite Hrun. left. reflexivity. }
      rewrite Hnf in Hw |- *. lia.
Qed.

Lemma epoch_can_complete (g : Graph) (st : RunState) :
  well_formed g -> reachable g st ->
  exists sched st',
    run_schedule g sched st = Some st' /\
    reachable g st' /\ all_done st' = true.
Proof.
  intros Hwf.
  remember (epoch_weight (systems st)) as n eqn:Hn.
  revert st Hn. induction n as [n IH] using lt_wf_ind. intros st Hn Hreach.
  destruct (all_done st) eqn:Hd.
  - exists [], st. auto.
  - pose proof (reachable_inv _ _ Hwf Hreach) as Hinv.
    destruct (epoch_progress g st Hwf Hinv Hd) as (a & st1 & Ha & Hlt).
    assert (Hr1 : reachable g st1) by (eapply reach_step; eauto).
    destruct (IH (epoch_weight (systems st1)) ltac:(lia) st1 eq_refl Hr1)
      as (sched & st' & Hrun & Hr' & Hd').
    exists (a :: sched), st'. split; [| auto].
    simpl. rewrite Ha. exact Hrun.
Qed.

(** A System that has completed started and ended the invocations
    [0 .. n-1], for its final count [n], each once. *)
Lemma completed_invocations (g : Graph) (st : RunState) (s : nat) (r : SysRun) :
  well_formed g -> reachable g st ->
  systems st !! s = Some r -> finished r = true ->
  starts_of s (trace st) = seq 0 (numInvocations r) /\
  finishes_of s (trace st) ≡ₚ seq 0 (numInvocations r).
Proof.
  intros Hwf Hreach Hs Hfin.
  destruct (reachable_inv _ _ Hwf Hreach) as [_ Hall].
  destruct (Hall s r Hs) as [H1 H2 _ H4 _ _].
  destruct (H4 Hfin) as (Hnil & Heq & _).
  rewrite Hnil, app_nil_r in H2. rewrite <- Heq. auto.
Qed.

(** For a System whose count a producer raises, the slots claimed in an
    epoch are [0 .. n-1] for the final count [n], each once. *)
Lemma dynamic_count_is_claims (g : Graph) (st : RunState) (s p : nat)
    (d : SystemDecl) (r : SysRun) :
  well_formed g -> reachable g st ->
  g !! s = Some d -> policy d = Dynamic p -> systems st !! s = Some r ->
  claims_of s (trace st) = seq 0 (numInvocations r).
Proof.
  intros Hwf Hreach Hd Hp Hs.
  destruct (reachable_inv _ _ Hwf Hreach) as [_ Hall].
  pose proof (inv_count _ _ _ _ (Hall s r Hs) d Hd) as Hc.
  rewrite Hp in Hc. exact Hc.
Qed.

(** C4. For a System of a built graph registered with the fixed count
    [K]: from wherever an epoch stands it can be run to its end (the
    workers never deadlock), and in every epoch that has ended (every
    System completed) the trace starts the invocations of the System with
    the indices [0, 1, ..., K-1], each once, and ends each of them once. *)
Theorem fixed_count_runs_each_index_once
    (g : Graph) (s K : nat) (d : SystemDecl)
    (Hwf : well_formed g) (Hs : g !! s = Some d) (HK : policy d = Fixed K) :
  (forall st,
     reachable g st ->
     exists sched st',
       run_schedule g sched st = Some st' /\
       reachable g st' /\ all_done st' = true) /\
  forall st,
    reachable g st -> all_done st = true ->
    starts_of s (trace st) = seq 0 K /\
    finishes_of s (trace st) ≡ₚ seq 0 K /\
    length (starts_of s (trace st)) = K /\
    NoDup (starts_of s (trace st)).
Proof.
  split.
  - intros st Hreach. apply epoch_can_complete; assumption.
  - intros st Hreach Hdone.
    pose proof (reachable_inv _ _ Hwf Hreach) as [Hlen Hall].
    destruct (lookup_lt_is_Some_2 (systems st) s) as [r Hr].
    { rewrite Hlen. eapply lookup_lt_Some; eauto. }
    assert (Hfin : finished r = true).
    { unfold all_done in Hdone. rewrite forallb_forall in Hdone.
      apply Hdone. apply list_elem_of_In. eapply list_elem_of_lookup_2; eauto. }
    destruct (completed_invocations g st s r Hwf Hreach Hr Hfin) as [H1 H2].
    pose proof (inv_count _ _ _ _ (Hall s r Hr) d Hs) as Hc.
    rewrite HK in Hc. rewrite Hc in H1, H2.
    repeat split; try assumption.
    + rewrite H1. apply length_seq.
    + rewrite H1. apply NoDup_ListNoDup, List.seq_NoDup.
Qed.

End TaskGraphFacts.

(** ** The properties on the examples *)

(** C1. A job submitted through [Context::queueJob] with a dependency
    that has not completed is on a ready queue as soon as the call
    returns: [Context::queueJob] discards its dependencies (and says so:
    "FIXME: implement is_child and dependencies") and hands
    [JobManager::queueJob] a null list of length zero. *)
Theorem queueJob_does_not_await_dependency :
  Context_queueJob (mkContext 0) counter_fn [] false [] sample_manager
    = Ok sample_submitted /\
  Context_queueJob (mkContext 1) adder_fn [3; 4] false
                   [fst sample_submitted] (snd sample_submitted)
    = Ok sample_dependent /\
  is_complete (snd sample_dependent) (fst sample_submitted) = false /\
  eligible (snd sample_dependent) (fst sample_dependent) = true /\
  jobs (snd sample_dependent) !! fst sample_dependent
    = Some (mkJobSlot (EntryStored adder_fn) (Some 65536) [] Normal (Ready 1)).
Proof.
  split; [reflexivity |].
  split; [reflexivity |].
  split; [reflexivity |].
  split; reflexivity.
Qed.

Lemma sample_graph_well_formed : TaskGraph.well_formed sample_graph.
Proof.
  intros s d Hs.
  destruct s as [| [| [| [| s]]]]; vm_compute in Hs;
    try discriminate; inversion Hs; reflexivity.
Qed.

Lemma sample_run_reachable : TaskGraph.reachable sample_graph sample_run.
Proof.
  apply (run_schedule_reachable sample_graph sample_schedule
           (TaskGraph.init sample_graph)).
  - apply TaskGraph.reach_init.
  - vm_compute. reflexivity.
Qed.

Lemma dependency_finishes_before_dependent_starts_witness :
  exists r1,
    TaskGraph.systems sample_run !! 1%nat = Some r1 /\
    TaskGraph.finished r1 = true /\
    TaskGraph.starts_of 1 (take 16 (TaskGraph.trace sample_run))
      = seq 0 (TaskGraph.numInvocations r1) /\
    TaskGraph.finishes_of 1 (take 16 (TaskGraph.trace sample_run))
      ≡ₚ seq 0 (TaskGraph.numInvocations r1) /\
    Forall (fun e => TaskGraph.invocation_of 1 e = false)
           (TaskGraph.Start 2 0 :: drop 17 (TaskGraph.trace sample_run)).
Proof.
  apply (dependency_finishes_before_dependent_starts
           sample_graph sample_run 1 2
           (TaskGraph.mkSystemDecl (TaskGraph.Dynamic 1) [1%nat])).
  - exact sample_graph_well_formed.
  - exact sample_run_reachable.
  - vm_compute. reflexivity.
  - left. reflexivity.
  - vm_compute. reflexivity.
Defined.

Lemma fixed_count_runs_each_index_once_witness :
  TaskGraph.starts_of 1 (TaskGraph.trace sample_run) = seq 0 4 /\
  TaskGraph.finishes_of 1 (TaskGraph.trace sample_run) ≡ₚ seq 0 4 /\
  length (TaskGraph.starts_of 1 (TaskGraph.trace sample_run)) = 4%nat /\
  NoDup (TaskGraph.starts_of 1 (TaskGraph.trace sample_run)).
Proof.
  apply (proj2 (fixed_count_runs_each_index_once
                  sample_graph 1 4
                  (TaskGraph.mkSystemDecl (TaskGraph.Fixed 4) [0%nat])
                  sample_graph_well_formed eq_refl eq_refl)).
  - exact sample_run_reachable.
  - vm_compute. reflexivity.
Defined.

Lemma narrowphase_count_matches_claimed_slots_witness :
  narrow_numInvocations sample_mgr_broad
    = Z.of_nat (length (filter (overlapping sample_mgr_preprocessed)
                               (claim_offsets sample_broad_steps))) /\
  exists slots,
    pairLog sample_mgr_broad = pairLog sample_mgr ++ map PairWrite slots /\
    slots ≡ₚ seqZ 0 (narrow_numInvocations sample_mgr_broad) /\
    forall k, 0 <= k < narrow_numInvocations sample_mgr_broad ->
      times (PairWrite k) (map PairWrite slots) = 1%nat.
Proof.
  pose proof (narrowphase_count_matches_claimed_slots (FO := prim_float_ops)
                false sample_mgr sample_mgr_preprocessed sample_mgr_broad
                [1; 0] sample_broad_steps) as H.
  cbv zeta in H.
  refine (let H' := H _ _ _ _ in conj (proj1 H') (proj1 (proj2 H'))).
  - right. left. reflexivity.
  - vm_compute. reflexivity.
  - vm_compute. reflexivity.
  - vm_compute. reflexivity.
Defined.

Lemma stored_job_runs_then_frees_once_witness :
  exists store a a' shared' evs,
    fst sample_made = mkJob (EntryStored adder_fn) (Some store) /\
    Array.load (job_allocs_ sample_called) 0 = Some a /\
    Alloc_dealloc a (alloc_state_ sample_called) store
                  (u32 (fn_sizeof adder_fn)) = (a', shared') /\
    let added :=
      EvCall adder_fn (Some store) 0 :: evs
        ++ [EvReturn adder_fn (Some store) 0; EvDestroy store;
            EvDealloc 0 store (u32 (fn_sizeof adder_fn))] in
    Job_call (func_ (fst sample_made)) (mkContext 0)
             (data_ (fst sample_made)) (snd sample_made) =
      Ok (mkJobManager
            (<[Z.to_nat 0 := a']> (job_allocs_ sample_called)) shared'
            (delete store (objects sample_called)) (jobs sample_called)
            (user sample_called)
            (events (snd sample_made) ++ added)) /\
    Forall is_creation evs /\
    count_events (is_call_of (Some store)) added = 1%nat /\
    count_events (is_dealloc_of store) added = 1%nat.
Proof.
  apply (stored_job_runs_then_frees_once (AL := bump_allocator)
           (UC := sample_code) adder_fn [3; 4] 1 sample_manager
           (snd sample_made) (fst sample_made) (mkContext 0)
           (snd sample_made) sample_called).
  - reflexivity.
  - reflexivity.
  - intros store Hstore. injection Hstore as <-. reflexivity.
  - split; [discriminate | reflexivity].
  - reflexivity.
Defined.

Lemma makeJob_size_alignment_limits_witness :
  (exists msg,
     makeJob (AL := bump_allocator) (UC := sample_code)
             huge_fn [3; 4] 1 sample_manager = StaticAssertFailed msg) /\
  (forall msg,
     makeJob (AL := bump_allocator) (UC := sample_code)
             adder_fn [3; 4] 1 sample_manager <> StaticAssertFailed msg).
Proof.
  split.
  - apply (proj1 (makeJob_size_alignment_limits (AL := bump_allocator)
                    (UC := sample_code) huge_fn [3; 4] 1 sample_manager
                    eq_refl)).
    left. reflexivity.
  - apply (proj2 (makeJob_size_alignment_limits (AL := bump_allocator)
                    (UC := sample_code) adder_fn [3; 4] 1 sample_manager
                    eq_refl)).
    + discriminate.
    + discriminate.
Defined.

Lemma empty_callable_bypasses_allocator_witness :
  makeJob (AL := bump_allocator) (UC := sample_code)
          counter_fn [] 0 sample_manager
    = Ok (mkJob (EntryInline counter_fn) None, sample_manager).
Proof.
  apply (proj1 (empty_callable_bypasses_allocator (AL := bump_allocator)
                  (UC := sample_code) counter_fn [] 0 sample_manager
                  eq_refl)).
Defined.

Lemma narrowPhase_atomic_nonatomic_equivalent_witness :
  narrowPhase (FO := prim_float_ops) false true sample_sim 0 1
    = narrowPhase (FO := prim_float_ops) false false sample_sim 0 1.
Proof.
  apply (proj1 (narrowPhase_atomic_nonatomic_equivalent
                  (FO := prim_float_ops) false sample_sim 0 1
                  ltac:(vm_compute; split; [discriminate | reflexivity])
                  ltac:(vm_compute; reflexivity))).
Defined.

Lemma epoch_ends_with_numContacts_zero_witness :
  exists sim',
    Array.load (sims sample_mgr_after_unified) 0 = Some sim' /\
    numContacts sim' = 0.
Proof.
  apply (epoch_ends_with_numContacts_zero (FO := prim_float_ops) false
           sample_mgr sample_mgr_after_unified 0).
  right. vm_compute. reflexivity.
Defined.

(** * Further properties of the sources *)

(** ** utils.hpp *)

Lemma testbit_above (x n w : Z) :
  0 <= x < 2 ^ w -> w <= n -> Z.testbit x n = false.
Proof.
  intros [Hx0 Hxw] Hn.
  destruct (Z.eq_dec x 0) as [-> | Hne]; [apply Z.bits_0 |].
  apply Z.bits_above_log2; [assumption |].
  assert (Hw : 0 <= w).
  { destruct (Z.le_gt_cases 0 w) as [|Hneg]; [assumption |].
    rewrite Z.pow_neg_r in Hxw by assumption. lia. }
  assert (Z.log2 x < w) by (apply Z.log2_lt_pow2; lia). lia.
Qed.

Lemma lxor_range (a b w : Z) :
  0 <= w -> 0 <= a < 2 ^ w -> 0 <= b < 2 ^ w -> 0 <= Z.lxor a b < 2 ^ w.
Proof.
  intros Hw Ha Hb.
  assert (H0 : 0 <= Z.lxor a b) by (apply Z.lxor_nonneg; lia).
  split; [assumption |].
  destruct (Z.eq_dec (Z.lxor a b) 0) as [-> | Hne]; [lia |].
  assert (Hw0 : 0 < w).
  { destruct (Z.eq_dec w 0) as [-> | ?]; [| lia].
    exfalso. apply Hne. replace a with 0 by lia. replace b with 0 by lia.
    reflexivity. }
  apply Z.log2_lt_pow2; [lia |].
  pose proof (Z.log2_lxor a b ltac:(lia) ltac:(lia)) as Hl.
  assert (Hla : Z.log2 a < w).
  { destruct (Z.eq_dec a 0) as [-> | ?]; [simpl; lia |].
    apply Z.log2_lt_pow2; lia. }
  assert (Hlb : Z.log2 b < w).
  { destruct (Z.eq_dec b 0) as [-> | ?]; [simpl; lia |].
    apply Z.log2_lt_pow2; lia. }
  lia.
Qed.

Lemma shiftr_range (a s w : Z) :
  0 <= s -> 0 <= a < 2 ^ w -> 0 <= Z.shiftr a s < 2 ^ w.
Proof.
  intros Hs [Ha Hw]. rewrite Z.shiftr_div_pow2 by assumption.
  assert (0 < 2 ^ s) by (apply Z.pow_pos_nonneg; lia).
  split; [apply Z.div_pos; lia |].
  apply Z.le_lt_trans with a; [| assumption].
  apply Z.div_le_upper_bound; [lia |]. nia.
Qed.

(** [v & (v - 1)] is zero exactly when the positive [v] has one bit set. *)
Lemma land_pred_zero (v : Z) :
  0 < v -> (Z.land v (v - 1) = 0 <-> v = 2 ^ Z.log2 v).
Proof.
  intros Hv. split.
  - intros Hl.
    destruct (Z.eq_dec v (2 ^ Z.log2 v)) as [| Hne]; [assumption | exfalso].
    destruct (Z.log2_spec v Hv) as [Hlo Hhi].
    assert (Hlog : Z.log2 (v - 1) = Z.log2 v).
    { apply Z.log2_unique; [apply Z.log2_nonneg | lia]. }
    assert (Hb1 : Z.testbit v (Z.log2 v) = true) by (apply Z.bit_log2; lia).
    assert (Hb2 : Z.testbit (v - 1) (Z.log2 v) = true).
    { rewrite <- Hlog. apply Z.bit_log2.
      pose proof (Z.pow_pos_nonneg 2 (Z.log2 v) ltac:(lia) (Z.log2_nonneg v)).
      lia. }
    assert (Hb : Z.testbit (Z.land v (v - 1)) (Z.log2 v) = true)
      by (rewrite Z.land_spec, Hb1, Hb2; reflexivity).
    rewrite Hl, Z.bits_0 in Hb. discriminate.
  - intros Heq. rewrite Heq at 1 2.
    replace (2 ^ Z.log2 v - 1) with (Z.ones (Z.log2 v))
      by (rewrite Z.ones_equiv; lia).
    rewrite Z.land_ones by apply Z.log2_nonneg.
    apply Z.mod_same.
    pose proof (Z.pow_pos_nonneg 2 (Z.log2 v) ltac:(lia) (Z.log2_nonneg v)).
    lia.
Qed.

Lemma log2_lt_width (v w : Z) : 0 < v < 2 ^ w -> 0 <= Z.log2 v < w.
Proof.
  intros [Hv Hw]. split; [apply Z.log2_nonneg |].
  apply Z.log2_lt_pow2; assumption.
Qed.

(** X1. [isPower2] accepts zero and the powers of two, and nothing else;
    on values of 32 bits its two overloads agree. *)
Theorem isPower2_zero_or_power (v : Z) (Hv : 0 <= v < 2 ^ 64) :
  (utils.isPower2 v = true <->
   v = 0 \/ exists k : nat, (k < 64)%nat /\ v = 2 ^ Z.of_nat k) /\
  (v < 2 ^ 32 -> utils.isPower2_u32 v = utils.isPower2 v).
Proof.
  split.
  - unfold utils.isPower2. rewrite Z.eqb_eq.
    destruct (Z.eq_dec v 0) as [-> | Hne].
    { split; [intros _; left; reflexivity | intros _; reflexivity]. }
    unfold u64. rewrite (Z.mod_small (v - 1)) by lia.
    rewrite land_pred_zero by lia. split.
    + intros Heq. right. exists (Z.to_nat (Z.log2 v)).
      pose proof (log2_lt_width v 64 ltac:(lia)).
      rewrite Z2Nat.id by lia. split; [lia | assumption].
    + intros [? | (k & Hk & ->)]; [contradiction |].
      rewrite Z.log2_pow2 by lia. reflexivity.
  - intros Hv32. unfold utils.isPower2_u32, utils.isPower2.
    destruct (Z.eq_dec v 0) as [-> | Hne]; [reflexivity |].
    unfold u32, u64. rewrite !(Z.mod_small (v - 1)) by lia. reflexivity.
Qed.

Lemma isPower2_zero_or_power_witness :
  utils.isPower2 4096 = true /\ utils.isPower2_u32 4096 = utils.isPower2 4096.
Proof.
  pose proof (isPower2_zero_or_power 4096 ltac:(lia)) as H.
  split.
  - apply (proj1 H). right. exists 12%nat. split; [lia | reflexivity].
  - apply (proj2 H). lia.
Defined.

(** Masking with [-2^k] clears the [k] low bits of a 64-bit value. *)
Lemma land_mask_high (x : Z) (k : nat) :
  (k <= 64)%nat -> 0 <= x < 2 ^ 64 ->
  Z.land x (u64 (- 2 ^ Z.of_nat k)) = x - x mod 2 ^ Z.of_nat k.
Proof.
  intros Hk Hx.
  assert (Hpk : 0 < 2 ^ Z.of_nat k) by (apply Z.pow_pos_nonneg; lia).
  assert (Hle : 2 ^ Z.of_nat k <= 2 ^ 64)
    by (apply Z.pow_le_mono_r; lia).
  assert (Hmask : u64 (- 2 ^ Z.of_nat k)
                  = Z.shiftl (Z.ones (64 - Z.of_nat k)) (Z.of_nat k)).
  { rewrite Z.shiftl_mul_pow2, Z.ones_equiv by lia.
    unfold Z.pred. rewrite Z.mul_add_distr_r, <- Z.pow_add_r by lia.
    replace (64 - Z.of_nat k + Z.of_nat k) with 64 by lia.
    unfold u64.
    destruct (Z.eq_dec (2 ^ Z.of_nat k) (2 ^ 64)) as [He | Hn].
    - rewrite He. rewrite Z.mod_opp_l_z by (try lia; apply Z.mod_same; lia).
      lia.
    - rewrite Z.mod_opp_l_nz; rewrite ?Z.mod_small; lia. }
  assert (Hrhs : x - x mod 2 ^ Z.of_nat k
                 = Z.shiftl (Z.shiftr x (Z.of_nat k)) (Z.of_nat k)).
  { rewrite Z.shiftl_mul_pow2, Z.shiftr_div_pow2 by lia.
    pose proof (Z.div_mod x (2 ^ Z.of_nat k) ltac:(lia)). lia. }
  rewrite Hmask, Hrhs. apply Z.bits_inj'. intros n Hn.
  rewrite Z.land_spec.
  destruct (Z.lt_ge_cases n (Z.of_nat k)) as [Hlt | Hge].
  - rewrite !Z.shiftl_spec_low by assumption. apply andb_false_r.
  - rewrite !Z.shiftl_spec by assumption.
    rewrite Z.shiftr_spec by lia.
    replace (n - Z.of_nat k + Z.of_nat k) with n by lia.
    destruct (Z.lt_ge_cases n 64) as [Hn64 | Hn64].
    + rewrite Z.ones_spec_low by lia. apply andb_true_r.
    + rewrite Z.ones_spec_high by lia.
      rewrite (testbit_above x n 64) by lia. reflexivity.
Qed.

Lemma roundUpPow2_eq (offset : Z) (k : nat) :
  (k <= 64)%nat ->
  utils.roundUpPow2 offset (2 ^ Z.of_nat k)
  = u64 (offset + 2 ^ Z.of_nat k - 1)
    - u64 (offset + 2 ^ Z.of_nat k - 1) mod 2 ^ Z.of_nat k.
Proof.
  intros Hk. unfold utils.roundUpPow2. apply land_mask_high; [assumption |].
  apply Z.mod_pos_bound. lia.
Qed.

(** X2. With a power of two as alignment and no overflow, [roundUpPow2]
    returns the least multiple of the alignment that is not below the
    offset; an aligned offset is returned as it is. *)
Theorem roundUpPow2_least_multiple (offset : Z) (k : nat)
    (Hk : (k < 64)%nat) (Hoff : 0 <= offset)
    (Hfit : offset + 2 ^ Z.of_nat k <= 2 ^ 64) :
  let alignment := 2 ^ Z.of_nat k in
  let r := utils.roundUpPow2 offset alignment in
  r mod alignment = 0 /\ offset <= r < offset + alignment /\
  (forall m, m mod alignment = 0 -> offset <= m -> r <= m) /\
  (offset mod alignment = 0 -> r = offset).
Proof.
  cbv zeta. rewrite roundUpPow2_eq by lia.
  set (a := 2 ^ Z.of_nat k) in *.
  assert (Ha : 0 < a) by (apply Z.pow_pos_nonneg; lia).
  unfold u64. rewrite (Z.mod_small (offset + a - 1)) by lia.
  set (x := offset + a - 1).
  pose proof (Z.mod_pos_bound x a Ha) as Hm.
  pose proof (Z.div_mod x a ltac:(lia)) as Hdm.
  assert (Hr : x - x mod a = a * (x / a)) by lia.
  assert (Hr0 : (x - x mod a) mod a = 0).
  { rewrite Hr, Z.mul_comm. apply Z.mod_mul. lia. }
  assert (Hleast : forall m, m mod a = 0 -> offset <= m -> x - x mod a <= m).
  { intros m Hm0 Hle.
    pose proof (Z.div_mod m a ltac:(lia)) as Hdm'. rewrite Hm0 in Hdm'.
    rewrite Hr.
    assert (x / a <= m / a); [| nia].
    destruct (Z.le_gt_cases (x / a) (m / a)) as [|Hgt]; [assumption |].
    assert (m / a + 1 <= x / a) by lia. unfold x in *. nia. }
  split; [exact Hr0 |]. split; [unfold x in *; lia |].
  split; [exact Hleast |].
  intros Hal. apply Z.le_antisymm; [apply Hleast; [assumption | lia] |].
  unfold x in *; lia.
Qed.

Lemma roundUpPow2_least_multiple_witness :
  utils.roundUpPow2 13 8 mod 8 = 0 /\
  13 <= utils.roundUpPow2 13 8 < 13 + 8.
Proof.
  pose proof (roundUpPow2_least_multiple 13 3 ltac:(lia) ltac:(lia)
                ltac:(simpl; lia)) as H.
  cbv zeta in H. exact (conj (proj1 H) (proj1 (proj2 H))).
Defined.

(** X3. When the next multiple of the alignment is [2^64] itself,
    [roundUpPow2] wraps around and returns 0. *)
Theorem roundUpPow2_wraps_to_zero (offset : Z) (k : nat)
    (Hk : (k < 64)%nat)
    (Hlo : 2 ^ 64 - 2 ^ Z.of_nat k < offset) (Hhi : offset < 2 ^ 64) :
  utils.roundUpPow2 offset (2 ^ Z.of_nat k) = 0.
Proof.
  rewrite roundUpPow2_eq by lia.
  set (a := 2 ^ Z.of_nat k) in *.
  assert (Ha : 0 < a) by (apply Z.pow_pos_nonneg; lia).
  assert (Hle : a <= 2 ^ 64).
  { unfold a. apply Z.pow_le_mono_r; lia. }
  assert (Hx : u64 (offset + a - 1) = offset + a - 1 - 2 ^ 64).
  { unfold u64. symmetry. apply (Z.mod_unique _ _ 1); lia. }
  rewrite Hx. rewrite (Z.mod_small (offset + a - 1 - 2 ^ 64)) by lia. lia.
Qed.

Lemma roundUpPow2_wraps_to_zero_witness :
  utils.roundUpPow2 (2 ^ 64 - 3) 8 = 0.
Proof.
  apply (roundUpPow2_wraps_to_zero (2 ^ 64 - 3) 3); [lia | simpl; lia | lia].
Defined.



Lemma roundUp_eq (w offset alignment : Z) :
  0 <= w -> 0 <= offset -> 0 < alignment -> offset + alignment <= 2 ^ w ->
  utils.roundUp w offset alignment
  = Some ((offset + (alignment - 1)) / alignment * alignment).
Proof.
  intros Hw Hoff Hal Hfit. unfold utils.roundUp, utils.divideRoundUp.
  destruct (Z.eqb_spec alignment 0) as [| _]; [lia |].
  cbn [mbind option_bind]. f_equal.
  rewrite (Z.mod_small (offset + (alignment - 1))) by lia.
  apply Z.mod_small.
  pose proof (Z.div_mod (offset + (alignment - 1)) alignment ltac:(lia)).
  pose proof (Z.mod_pos_bound (offset + (alignment - 1)) alignment ltac:(lia)).
  assert (0 <= (offset + (alignment - 1)) / alignment)
    by (apply Z.div_pos; lia).
  nia.
Qed.

(** X5. Without overflow, [roundUp] returns the least multiple of the
    alignment that is not below the offset, for any positive alignment;
    for a power of two it returns what [roundUpPow2] returns. *)
Theorem roundUp_least_multiple (w offset alignment : Z) (Hw : 0 <= w)
    (Hoff : 0 <= offset) (Hal : 0 < alignment)
    (Hfit : offset + alignment <= 2 ^ w) :
  (exists r,
     utils.roundUp w offset alignment = Some r /\
     r mod alignment = 0 /\ offset <= r < offset + alignment /\
     forall m, m mod alignment = 0 -> offset <= m -> r <= m) /\
  forall k : nat,
    w = 64 -> alignment = 2 ^ Z.of_nat k ->
    utils.roundUp w offset alignment
    = Some (utils.roundUpPow2 offset alignment).
Proof.
  rewrite roundUp_eq by assumption.
  set (x := offset + (alignment - 1)).
  pose proof (Z.div_mod x alignment ltac:(lia)) as Hdm.
  pose proof (Z.mod_pos_bound x alignment ltac:(lia)) as Hm.
  split.
  - eexists. split; [reflexivity |].
    split; [apply Z.mod_mul; lia |].
    split; [unfold x in *; nia |].
    intros m Hm0 Hle.
    pose proof (Z.div_mod m alignment ltac:(lia)) as Hdm'. rewrite Hm0 in Hdm'.
    destruct (Z.le_gt_cases (x / alignment) (m / alignment)) as [|Hgt]; [nia |].
    assert (m / alignment + 1 <= x / alignment) by lia. unfold x in *. nia.
  - intros k -> ->. f_equal.
    assert (Hk : (k <= 64)%nat).
    { destruct (Nat.le_gt_cases k 64) as [|Hge]; [assumption | exfalso].
      assert (2 ^ 65 <= 2 ^ Z.of_nat k) by (apply Z.pow_le_mono_r; lia).
      lia. }
    rewrite roundUpPow2_eq by lia.
    unfold u64. rewrite (Z.mod_small (offset + 2 ^ Z.of_nat k - 1)) by lia.
    replace (offset + 2 ^ Z.of_nat k - 1) with x by (unfold x; lia).
    lia.
Qed.

Lemma roundUp_least_multiple_witness :
  exists r, utils.roundUp 32 10 6 = Some r /\ r mod 6 = 0 /\ 10 <= r < 10 + 6.
Proof.
  destruct (proj1 (roundUp_least_multiple 32 10 6 ltac:(lia) ltac:(lia)
                     ltac:(lia) ltac:(lia))) as (r & H1 & H2 & H3 & _).
  exists r. auto.
Defined.

(** Counting leading zeros finds the position of the highest set bit. *)
Lemma leading_zeros_log2 (bits : nat) :
  forall x, 0 < x < 2 ^ Z.of_nat bits ->
            utils.leading_zeros bits x = Z.of_nat bits - 1 - Z.log2 x.
Proof.
  induction bits as [| n IH]; intros x Hx.
  - simpl in Hx. lia.
  - cbn [utils.leading_zeros].
    rewrite Nat2Z.inj_succ in *.
    rewrite Z.pow_succ_r in Hx by lia.
    destruct (Z.testbit x (Z.of_nat n)) eqn:Hb.
    + assert (Hlog : Z.log2 x = Z.of_nat n).
      { apply Z.log2_unique; [lia |].
        rewrite Z.pow_succ_r by lia. split; [| lia].
        destruct (Z.le_gt_cases (2 ^ Z.of_nat n) x) as [|Hlt]; [assumption |].
        rewrite (testbit_above x (Z.of_nat n) (Z.of_nat n)) in Hb by lia.
        discriminate. }
      lia.
    + assert (Hlt : x < 2 ^ Z.of_nat n).
      { destruct (Z.lt_ge_cases x (2 ^ Z.of_nat n)) as [|Hge]; [assumption |].
        assert (Hlog : Z.log2 x = Z.of_nat n).
        { apply Z.log2_unique; [lia |].
          rewrite Z.pow_succ_r by lia. lia. }
        rewrite <- Hlog in Hb. rewrite Z.bit_log2 in Hb by lia. discriminate. }
      rewrite IH by lia. lia.
Qed.

Lemma builtin_clz_log2 (x : Z) :
  0 < x < 2 ^ 32 -> utils.builtin_clz x = Some (31 - Z.log2 x).
Proof.
  intros Hx. unfold utils.builtin_clz.
  destruct (Z.eqb_spec x 0) as [| _]; [lia |].
  rewrite (leading_zeros_log2 32) by (simpl; lia). f_equal; lia.
Qed.

Lemma builtin_clzll_log2 (x : Z) :
  0 < x < 2 ^ 64 -> utils.builtin_clzll x = Some (63 - Z.log2 x).
Proof.
  intros Hx. unfold utils.builtin_clzll.
  destruct (Z.eqb_spec x 0) as [| _]; [lia |].
  rewrite (leading_zeros_log2 64) by (simpl; lia). f_equal; lia.
Qed.

(** X6. For [1 <= v <= 2^31], [int32NextPow2] returns the least power of
    two that is not below [v]; for 0 and for values above [2^31] it shifts
    a 32-bit [1u] by 32, which is undefined. *)
Theorem int32NextPow2_least_power (v : Z) (Hv : 0 <= v < 2 ^ 32) :
  (1 <= v <= 2 ^ 31 ->
   exists k : nat,
     utils.int32NextPow2 v = Some (2 ^ Z.of_nat k) /\
     v <= 2 ^ Z.of_nat k < 2 * v) /\
  (v = 0 \/ 2 ^ 31 < v -> utils.int32NextPow2 v = None).
Proof.
  unfold utils.int32NextPow2. split.
  - intros Hr. destruct (Z.eqb_spec v 1) as [-> | Hne].
    { exists 0%nat. split; [reflexivity | simpl; lia]. }
    rewrite (u32_small (v - 1)) by lia.
    rewrite builtin_clz_log2 by lia. cbn [mbind option_bind].
    pose proof (log2_lt_width (v - 1) 32 ltac:(lia)) as Hl.
    destruct (Z.log2_spec (v - 1) ltac:(lia)) as [Hlo Hhi].
    assert (Hl31 : Z.log2 (v - 1) < 31).
    { apply Z.log2_lt_pow2; lia. }
    replace (32 - (31 - Z.log2 (v - 1))) with (Z.log2 (v - 1) + 1) by lia.
    rewrite u32_small by lia.
    destruct (Z.ltb_spec (Z.log2 (v - 1) + 1) 32) as [_ |]; [| lia].
    exists (Z.to_nat (Z.log2 (v - 1) + 1)).
    rewrite Z2Nat.id by lia.
    rewrite Z.shiftl_1_l.
    replace (Z.succ (Z.log2 (v - 1))) with (Z.log2 (v - 1) + 1) in Hhi by lia.
    assert (Hp : 2 ^ (Z.log2 (v - 1) + 1) <= 2 ^ 31)
      by (apply Z.pow_le_mono_r; lia).
    rewrite u32_small by lia. split; [reflexivity |].
    rewrite Z.pow_add_r in * by lia. lia.
  - intros [-> | Hbig].
    + reflexivity.
    + destruct (Z.eqb_spec v 1) as [| _]; [lia |].
      rewrite (u32_small (v - 1)) by lia.
      rewrite builtin_clz_log2 by lia. cbn [mbind option_bind].
      assert (Hlog : Z.log2 (v - 1) = 31).
      { apply Z.log2_unique; [lia |]. simpl. lia. }
      rewrite Hlog. reflexivity.
Qed.

Lemma int32NextPow2_least_power_witness :
  exists k : nat,
    utils.int32NextPow2 100 = Some (2 ^ Z.of_nat k) /\
    100 <= 2 ^ Z.of_nat k < 2 * 100.
Proof.
  apply (proj1 (int32NextPow2_least_power 100 ltac:(lia))). lia.
Defined.

(** X7. [int32Log2] and [int64Log2] return the position of the highest
    set bit of a positive argument, that is the logarithm rounded down;
    for 0 they are undefined. *)
Theorem intLog2_floor (v : Z) (Hv : 0 < v < 2 ^ 64) :
  (exists r, utils.int64Log2 v = Some r /\
             0 <= r < 64 /\ 2 ^ r <= v < 2 ^ (r + 1)) /\
  (v < 2 ^ 32 ->
   exists r, utils.int32Log2 v = Some r /\
             0 <= r < 32 /\ 2 ^ r <= v < 2 ^ (r + 1)) /\
  utils.int32Log2 0 = None /\ utils.int64Log2 0 = None.
Proof.
  destruct (Z.log2_spec v ltac:(lia)) as [Hlo Hhi].
  replace (Z.succ (Z.log2 v)) with (Z.log2 v + 1) in Hhi by lia.
  split; [| split; [| split; reflexivity]].
  - pose proof (log2_lt_width v 64 ltac:(lia)) as Hl.
    exists (Z.log2 v). unfold utils.int64Log2.
    rewrite builtin_clzll_log2 by lia. cbn [mbind option_bind].
    split; [| split; [lia | lia]].
    f_equal. replace (8 * 8 - (63 - Z.log2 v)) with (Z.log2 v + 1) by lia.
    unfold u64. rewrite (Z.mod_small (Z.log2 v + 1)) by lia.
    replace (Z.log2 v + 1 - 1) with (Z.log2 v) by lia.
    apply Z.mod_small; lia.
  - intros Hv32.
    pose proof (log2_lt_width v 32 ltac:(lia)) as Hl.
    exists (Z.log2 v). unfold utils.int32Log2.
    rewrite builtin_clz_log2 by lia. cbn [mbind option_bind].
    split; [| split; [lia | lia]].
    f_equal. replace (4 * 8 - (31 - Z.log2 v)) with (Z.log2 v + 1) by lia.
    unfold u64. rewrite (Z.mod_small (Z.log2 v + 1)) by lia.
    replace (Z.log2 v + 1 - 1) with (Z.log2 v) by lia.
    rewrite (Z.mod_small (Z.log2 v)) by lia.
    apply u32_small; lia.
Qed.

Lemma intLog2_floor_witness :
  exists r, utils.int64Log2 1000 = Some r /\
            0 <= r < 64 /\ 2 ^ r <= 1000 < 2 ^ (r + 1).
Proof.
  apply (proj1 (intLog2_floor 1000 ltac:(lia))).
Defined.

(** [x ^= x >> s] is undone by xoring the shifts by [s], [2s], ... back
    in, as long as [3s] exceeds the width. *)
Lemma xorshift16_inv (x : Z) :
  0 <= x < 2 ^ 32 ->
  let y := Z.lxor x (Z.shiftr x 16) in
  Z.lxor y (Z.shiftr y 16) = x.
Proof.
  intros Hx y. subst y. apply Z.bits_inj'. intros n Hn.
  rewrite !Z.lxor_spec, !Z.shiftr_spec, !Z.lxor_spec, !Z.shiftr_spec by lia.
  rewrite (testbit_above x (n + 16 + 16) 32) by lia.
  destruct (Z.testbit x n), (Z.testbit x (n + 16)); reflexivity.
Qed.

Lemma xorshift15_inv (x : Z) :
  0 <= x < 2 ^ 32 ->
  let y := Z.lxor x (Z.shiftr x 15) in
  Z.lxor y (Z.lxor (Z.shiftr y 15) (Z.shiftr y 30)) = x.
Proof.
  intros Hx y. subst y. apply Z.bits_inj'. intros n Hn.
  rewrite !Z.lxor_spec, !Z.shiftr_spec, !Z.lxor_spec, !Z.shiftr_spec by lia.
  replace (n + 15 + 15) with (n + 30) by lia.
  rewrite (testbit_above x (n + 30 + 15) 32) by lia.
  destruct (Z.testbit x n), (Z.testbit x (n + 15)), (Z.testbit x (n + 30));
    reflexivity.
Qed.

Lemma mul_odd_inv (c c' x : Z) :
  u32 (c * c') = 1 -> 0 <= x < 2 ^ 32 -> u32 (u32 (x * c) * c') = x.
Proof.
  unfold u32. intros Hc Hx.
  rewrite Z.mul_mod_idemp_l by lia.
  rewrite <- Z.mul_assoc, <- Z.mul_mod_idemp_r, Hc by lia.
  rewrite Z.mul_1_r. apply Z.mod_small. assumption.
Qed.

(** Undoing the five steps of [int32Hash], last step first. *)
Lemma int32Hash_undo (x : Z) :
  0 <= x < 2 ^ 32 ->
  let un16 := fun z => Z.lxor z (Z.shiftr z 16) in
  let un15 := fun z => Z.lxor z (Z.lxor (Z.shiftr z 15) (Z.shiftr z 30)) in
  un16 (u32 (un15 (u32 (un16 (utils.int32Hash x) * 0x43021123)) * 0x1d69e2a5))
  = x.
Proof.
  intros Hx un16 un15. unfold utils.int32Hash.
  set (x1 := Z.lxor x (Z.shiftr x 16)).
  set (x2 := u32 (x1 * 0x7feb352d)).
  set (x3 := Z.lxor x2 (Z.shiftr x2 15)).
  set (x4 := u32 (x3 * 0x846ca68b)).
  assert (H1 : 0 <= x1 < 2 ^ 32)
    by (apply lxor_range; [lia | lia | apply shiftr_range; lia]).
  assert (H2 : 0 <= x2 < 2 ^ 32) by apply u32_range.
  assert (H3 : 0 <= x3 < 2 ^ 32)
    by (apply lxor_range; [lia | lia | apply shiftr_range; lia]).
  assert (H4 : 0 <= x4 < 2 ^ 32) by apply u32_range.
  unfold un16 at 2. rewrite (xorshift16_inv x4 H4).
  unfold x4. rewrite (mul_odd_inv 0x846ca68b 0x43021123 x3) by
    (try reflexivity; assumption).
  unfold un15, x3. rewrite (xorshift15_inv x2 H2).
  unfold x2. rewrite (mul_odd_inv 0x7feb352d 0x1d69e2a5 x1) by
    (try reflexivity; assumption).
  unfold un16, x1. apply xorshift16_inv. assumption.
Qed.

(** X8. [int32Hash] maps 32-bit values to 32-bit values and no two of
    them to the same one: it permutes them.  It leaves 0 in place. *)
Theorem int32Hash_injective (x y : Z)
    (Hx : 0 <= x < 2 ^ 32) (Hy : 0 <= y < 2 ^ 32) :
  0 <= utils.int32Hash x < 2 ^ 32 /\
  (utils.int32Hash x = utils.int32Hash y -> x = y) /\
  utils.int32Hash 0 = 0.
Proof.
  split; [| split; [| reflexivity]].
  - unfold utils.int32Hash.
    apply lxor_range; [lia | apply u32_range |].
    apply shiftr_range; [lia | apply u32_range].
  - intros Heq.
    rewrite <- (int32Hash_undo x Hx), <- (int32Hash_undo y Hy).
    cbv zeta. rewrite Heq. reflexivity.
Qed.

Lemma int32Hash_injective_witness :
  0 <= utils.int32Hash 1 < 2 ^ 32 /\ utils.int32Hash 0 = 0.
Proof.
  pose proof (int32Hash_injective 1 2 ltac:(lia) ltac:(lia)) as H.
  exact (conj (proj1 H) (proj2 (proj2 H))).
Defined.

(** Replacing one caller changes the number of holders by what the old
    and the new caller count. *)
Lemma holders_insert (cs : list utils.Caller) (t : nat) (c c' : utils.Caller) :
  cs !! t = Some c ->
  (length (List.filter utils.is_holding (<[t := c']> cs))
   + (if utils.is_holding c then 1 else 0)
   = length (List.filter utils.is_holding cs)
     + (if utils.is_holding c' then 1 else 0))%nat.
Proof.
  intros Hc.
  pose proof (lookup_lt_Some _ _ _ Hc) as Hlt.
  rewrite insert_take_drop by assumption.
  rewrite <- (take_drop_middle cs t c Hc) at 3.
  rewrite !List.filter_app, !length_app. cbn [List.filter].
  destruct (utils.is_holding c), (utils.is_holding c'); cbn [length]; lia.
Qed.

Lemma lock_step_holders (w w' : utils.LockWorld) (ta : nat * utils.LockAction) :
  utils.lock_step w ta = Some w' ->
  utils.holders w = (if utils.lock_ (utils.the_lock w) then 1 else 0)%nat ->
  utils.holders w' = (if utils.lock_ (utils.the_lock w') then 1 else 0)%nat /\
  length (utils.callers w') = length (utils.callers w).
Proof.
  destruct ta as [t a]. unfold utils.lock_step, utils.holders.
  destruct w as [[flag] cs]. cbn [utils.the_lock utils.callers utils.lock_].
  destruct (cs !! t) as [c |] eqn:Hc; cbn [mbind option_bind]; [| discriminate].
  intros Hstep Hinv.
  destruct c, a; try discriminate;
    unfold utils.lockNoSpin, utils.test_and_set, utils.unlock in Hstep;
    cbn [utils.lock_] in Hstep;
    destruct flag; injection Hstep as <-;
    cbn [utils.the_lock utils.callers utils.lock_];
    rewrite ?length_insert;
    try (split; [assumption | reflexivity]);
    match goal with
    | |- context [<[t := ?c']> cs] =>
        pose proof (holders_insert cs t _ c' Hc) as Hi;
        cbn [utils.is_holding] in Hi
    end;
    split; try reflexivity; lia.
Qed.

(** X9. However the calls of [lock], [lockNoSpin] and [unlock] of any
    number of threads interleave, at most one thread holds a [SpinLock],
    and one does exactly when the flag is set. *)
Theorem SpinLock_mutual_exclusion (n : nat)
    (sched : list (nat * utils.LockAction)) (w : utils.LockWorld)
    (Hrun : Array.for_each utils.lock_step (utils.lock_init n) sched = Some w) :
  (utils.holders w <= 1)%nat /\
  (utils.holders w = 1%nat <-> utils.lock_ (utils.the_lock w) = true) /\
  length (utils.callers w) = n.
Proof.
  assert (Hgen : forall sched w0 w1,
             Array.for_each utils.lock_step w0 sched = Some w1 ->
             utils.holders w0
               = (if utils.lock_ (utils.the_lock w0) then 1 else 0)%nat ->
             utils.holders w1
               = (if utils.lock_ (utils.the_lock w1) then 1 else 0)%nat /\
             length (utils.callers w1) = length (utils.callers w0)).
  { clear. induction sched as [| ta sched IH]; intros w0 w1 Hrun Hinv.
    - injection Hrun as <-. split; [assumption | reflexivity].
    - cbn [Array.for_each] in Hrun.
      apply bind_Some in Hrun as (wm & Hstep & Hrun).
      destruct (lock_step_holders _ _ _ Hstep Hinv) as [Hinv' Hlen].
      destruct (IH _ _ Hrun Hinv') as [Hinv1 Hlen1].
      split; [assumption | congruence]. }
  destruct (Hgen sched _ _ Hrun) as [Hinv Hlen].
  { unfold utils.holders, utils.lock_init.
    cbn [utils.callers utils.the_lock utils.lock_].
    clear. induction n as [| n IHn]; [reflexivity | exact IHn]. }
  unfold utils.lock_init in Hlen. cbn [utils.callers] in Hlen.
  rewrite length_replicate in Hlen.
  destruct (utils.lock_ (utils.the_lock w)); rewrite Hinv.
  - split; [lia |]. split; [tauto | assumption].
  - split; [lia |]. split; [| assumption]. split; intros; discriminate.
Qed.

Lemma SpinLock_mutual_exclusion_witness :
  (utils.holders (utils.mkLockWorld (utils.mkSpinLock true)
                    [utils.Holding; utils.AtTest; utils.Outside]) <= 1)%nat.
Proof.
  apply (SpinLock_mutual_exclusion 3
           [(0%nat, utils.CallLockNoSpin); (1%nat, utils.CallLock);
            (1%nat, utils.Advance); (2%nat, utils.CallLockNoSpin)]).
  reflexivity.
Defined.

(** ** math.inl *)

(** IEEE comparison, as the instance [prim_float_ops] has it, is
    irreflexive and transitive. *)
Lemma SFltb_irrefl (x : SpecFloat.spec_float) : SpecFloat.SFltb x x = false.
Proof.
  unfold SpecFloat.SFltb, SpecFloat.SFcompare.
  destruct x as [s | s | | s m e]; try reflexivity.
  - destruct s; reflexivity.
  - destruct s; rewrite Z.compare_refl, Pos.compare_cont_refl; reflexivity.
Qed.

Ltac compare_cases :=
  repeat match goal with
         | |- context [Z.compare ?a ?b] => destruct (Z.compare_spec a b); subst
         | |- context [Pos.compare_cont Eq ?a ?b] =>
             change (Pos.compare_cont Eq a b) with (Pos.compare a b)
         | |- context [Pos.compare ?a ?b] =>
             destruct (Pos.compare_spec a b); subst
         end.

Lemma SFltb_trans (x y z : SpecFloat.spec_float) :
  SpecFloat.SFltb x y = true -> SpecFloat.SFltb y z = true ->
  SpecFloat.SFltb x z = true.
Proof.
  unfold SpecFloat.SFltb, SpecFloat.SFcompare.
  destruct x as [sx | sx | | sx mx ex], y as [sy | sy | | sy my ey],
           z as [sz | sz | | sz mz ez];
    try destruct sx; try destruct sy; try destruct sz; simpl; try congruence.
  all: compare_cases; simpl; try congruence; try lia.
Qed.

Lemma prim_float_order : FloatOrder prim_float_ops.
Proof.
  split; cbn [flt prim_float_ops float].
  - intros x. rewrite ltb_spec. apply SFltb_irrefl.
  - intros x y z. rewrite !ltb_spec. apply SFltb_trans.
Qed.

Lemma exact_int_exact : FloatExact exact_int_ops.
Proof. split; [exact Zth | reflexivity]. Qed.

Section ExactArithmetic.
Context {FO : FloatOps} {FE : FloatExact FO}.

Add Ring float_is_ring : (@float_ring FO FE).

Lemma Vector3_eq (a b : Vector3) :
  v_x a = v_x b -> v_y a = v_y b -> v_z a = v_z b -> a = b.
Proof. destruct a, b. cbn. intros -> -> ->. reflexivity. Qed.

Lemma Quat_eq (a b : Quat) :
  q_w a = q_w b -> q_x a = q_x b -> q_y a = q_y b -> q_z a = q_z b -> a = b.
Proof. destruct a, b. cbn. intros -> -> -> ->. reflexivity. Qed.

Ltac by_ring :=
  try unfold Quat_length2; cbn; rewrite ?f_two_eq; ring.

(** The matrix of a quaternion rotates as the quaternion does. *)
Lemma fromQuat_rotates (r : Quat) (v : Vector3) :
  Mat3x3_mulVec (Mat3x3_fromQuat r) v = Quat_rotateVec r v.
Proof.
  destruct r as [w x y z], v as [a b c].
  apply Vector3_eq; by_ring.
Qed.

Lemma fromRS_scales_then_rotates (r : Quat) (s : Diag3x3) (p : Vector3) :
  Mat3x3_mulVec (Mat3x3_fromRS r s) p
  = Quat_rotateVec r (Diag3x3_mulVec s p).
Proof.
  destruct r as [w x y z], s as [s0 s1 s2], p as [a b c].
  apply Vector3_eq; by_ring.
Qed.

(** [Mat3x4::fromTRS] and [Mat3x3::fromRS] compute the same three columns
    by the same operations. *)
Lemma fromTRS_columns (t : Vector3) (r : Quat) (s : Diag3x3) (p : Vector3) :
  Mat3x4_txfmDir (Mat3x4_fromTRS t r s) p = Mat3x3_mulVec (Mat3x3_fromRS r s) p.
Proof. reflexivity. Qed.

(** X10. In exact arithmetic, the matrix [Mat3x4::fromTRS(t, r, s)] takes a
    point to its scaling by [s], rotated by [r] ([Quat::rotateVec]), moved
    by [t]; a direction is scaled and rotated and not moved; and
    [Mat3x3::fromQuat(r)] times a vector is the vector rotated by [r]. *)
Theorem fromTRS_scales_rotates_translates
    (t : Vector3) (r : Quat) (s : Diag3x3) (p : Vector3) :
  Mat3x4_txfmPoint (Mat3x4_fromTRS t r s) p
    = Vector3_add (Quat_rotateVec r (Diag3x3_mulVec s p)) t /\
  Mat3x4_txfmDir (Mat3x4_fromTRS t r s) p
    = Quat_rotateVec r (Diag3x3_mulVec s p) /\
  Mat3x3_mulVec (Mat3x3_fromQuat r) p = Quat_rotateVec r p.
Proof.
  split; [| split].
  - rewrite <- fromRS_scales_then_rotates, <- (fromTRS_columns t).
    reflexivity.
  - rewrite <- fromRS_scales_then_rotates. apply fromTRS_columns.
  - apply fromQuat_rotates.
Qed.

(** X11. In exact arithmetic, [a.compose(b)] is the transform that applies
    [b] and then [a], to points and to directions, and composing with
    [Mat3x4::identity()] on either side changes nothing. *)
Theorem compose_applies_right_then_left (a b : Mat3x4) (p : Vector3) :
  Mat3x4_txfmPoint (Mat3x4_compose a b) p
    = Mat3x4_txfmPoint a (Mat3x4_txfmPoint b p) /\
  Mat3x4_txfmDir (Mat3x4_compose a b) p
    = Mat3x4_txfmDir a (Mat3x4_txfmDir b p) /\
  Mat3x4_compose a Mat3x4_identity = a /\
  Mat3x4_compose Mat3x4_identity a = a.
Proof.
  destruct a as [[a00 a01 a02] [a10 a11 a12] [a20 a21 a22] [a30 a31 a32]],
           b as [[b00 b01 b02] [b10 b11 b12] [b20 b21 b22] [b30 b31 b32]],
           p as [x y z].
  split; [| split; [| split]].
  - apply Vector3_eq; by_ring.
  - apply Vector3_eq; by_ring.
  - unfold Mat3x4_compose. f_equal; apply Vector3_eq; by_ring.
  - unfold Mat3x4_compose. f_equal; apply Vector3_eq; by_ring.
Qed.

(** X12. In exact arithmetic, the squared length of a product of
    quaternions is the product of the squared lengths; a quaternion times
    its [inv()] is its squared length as a scalar, so [inv()] inverts the
    quaternions of length one; the product is associative, and [inv()]
    reverses it. *)
Theorem Quat_product_laws (a b c : Quat) :
  Quat_length2 (Quat_mul a b) = fmul (Quat_length2 a) (Quat_length2 b) /\
  Quat_mul a (Quat_inv a) = mkQuat (Quat_length2 a) f_zero f_zero f_zero /\
  Quat_mul (Quat_inv a) a = mkQuat (Quat_length2 a) f_zero f_zero f_zero /\
  Quat_mul (Quat_mul a b) c = Quat_mul a (Quat_mul b c) /\
  Quat_inv (Quat_mul a b) = Quat_mul (Quat_inv b) (Quat_inv a).
Proof.
  destruct a as [aw ax ay az], b as [bw bx b_y bz], c as [cw cx cy cz].
  split; [| split; [| split; [| split]]].
  - unfold Quat_mul. by_ring.
  - apply Quat_eq; by_ring.
  - apply Quat_eq; by_ring.
  - apply Quat_eq; by_ring.
  - apply Quat_eq; by_ring.
Qed.

(** What [Quat::rotateVec] does for a quaternion of any length: the
    defect from preserving the dot product, and from being undone by the
    conjugate, is a multiple of [1 - length2]. *)
Lemma rotateVec_dot_any (q : Quat) (a b : Vector3) :
  let pure := mkVector3 (q_x q) (q_y q) (q_z q) in
  Vector3_dot (Quat_rotateVec q a) (Quat_rotateVec q b)
  = fsub (Vector3_dot a b)
         (fmul (fmul (fmul f_two f_two) (fsub f_one (Quat_length2 q)))
               (Vector3_dot (Vector3_cross pure a) (Vector3_cross pure b))).
Proof.
  destruct q as [w x y z], a as [a0 a1 a2], b as [b0 b1 b2].
  unfold Vector3_dot, Quat_rotateVec, Vector3_cross, Vector3_add,
    Vector3_scale_l, Vector3_scale. by_ring.
Qed.

Lemma rotateVec_inv_any (q : Quat) (v : Vector3) :
  let pure := mkVector3 (q_x q) (q_y q) (q_z q) in
  Quat_rotateVec (Quat_inv q) (Quat_rotateVec q v)
  = Vector3_add v
      (Vector3_scale (Vector3_cross pure (Vector3_cross pure v))
                     (fmul (fmul f_two f_two) (fsub f_one (Quat_length2 q)))).
Proof.
  destruct q as [w x y z], v as [a b c]. apply Vector3_eq; by_ring.
Qed.

(** X25. In exact arithmetic, [rotateVec] by a quaternion of length one is
    a rotation: it preserves the dot product of any two vectors, hence
    lengths and angles, and [rotateVec] by the [inv()] of the quaternion
    undoes it, in either order. *)
Theorem rotateVec_unit_rotation (q : Quat) (a b : Vector3)
    (Hunit : Quat_length2 q = f_one) :
  Vector3_dot (Quat_rotateVec q a) (Quat_rotateVec q b) = Vector3_dot a b /\
  Vector3_length2 (Quat_rotateVec q a) = Vector3_length2 a /\
  Quat_rotateVec (Quat_inv q) (Quat_rotateVec q a) = a /\
  Quat_rotateVec q (Quat_rotateVec (Quat_inv q) a) = a.
Proof.
  assert (Hdot : forall u v,
            Vector3_dot (Quat_rotateVec q u) (Quat_rotateVec q v)
            = Vector3_dot u v).
  { intros u v. rewrite rotateVec_dot_any. cbv zeta. rewrite Hunit. ring. }
  assert (Hlen : forall u, Vector3_length2 u = Vector3_dot u u)
    by reflexivity.
  assert (Hinv : Quat_length2 (Quat_inv q) = f_one).
  { rewrite <- Hunit. destruct q as [w x y z]. by_ring. }
  split; [apply Hdot |]. split; [rewrite !Hlen; apply Hdot |]. split.
  - rewrite rotateVec_inv_any. cbv zeta. rewrite Hunit.
    destruct a as [a0 a1 a2]. apply Vector3_eq; by_ring.
  - replace q with (Quat_inv (Quat_inv q)) at 1
      by (destruct q as [w x y z]; apply Quat_eq; by_ring).
    rewrite rotateVec_inv_any. cbv zeta. rewrite Hinv.
    destruct a as [a0 a1 a2]. apply Vector3_eq; by_ring.
Qed.

End ExactArithmetic.

Lemma fromTRS_scales_rotates_translates_witness :
  Mat3x4_txfmPoint (Mat3x4_fromTRS sample_vec sample_quat sample_diag)
                   sample_vec
  = Vector3_add (Quat_rotateVec sample_quat (Diag3x3_mulVec sample_diag sample_vec))
                sample_vec.
Proof.
  exact (proj1 (fromTRS_scales_rotates_translates (FE := exact_int_exact)
                  sample_vec sample_quat sample_diag sample_vec)).
Defined.

Lemma compose_applies_right_then_left_witness :
  Mat3x4_txfmPoint (Mat3x4_compose sample_mat sample_mat) sample_vec
  = Mat3x4_txfmPoint sample_mat (Mat3x4_txfmPoint sample_mat sample_vec).
Proof.
  exact (proj1 (compose_applies_right_then_left (FE := exact_int_exact)
                  sample_mat sample_mat sample_vec)).
Defined.

Lemma Quat_product_laws_witness :
  Quat_length2 (Quat_mul sample_quat sample_quat)
  = fmul (Quat_length2 sample_quat) (Quat_length2 sample_quat).
Proof.
  exact (proj1 (Quat_product_laws (FE := exact_int_exact) sample_quat
                  sample_quat sample_quat)).
Defined.

Lemma rotateVec_unit_rotation_witness :
  Vector3_length2 (Quat_rotateVec sample_unit_quat sample_vec)
  = Vector3_length2 sample_vec /\
  Quat_rotateVec (Quat_inv sample_unit_quat)
                 (Quat_rotateVec sample_unit_quat sample_vec) = sample_vec.
Proof.
  destruct (rotateVec_unit_rotation (FE := exact_int_exact) sample_unit_quat
              sample_vec sample_vec eq_refl) as (_ & H1 & H2 & _).
  split; [exact H1 | exact H2].
Defined.

Section OrderedComparison.
Context {FO : FloatOps} {FOrd : FloatOrder FO}.

Lemma flt_chain (x y z : float) :
  flt x y = true -> flt y z = true -> flt x z = false -> False.
Proof. intros H1 H2 H3. rewrite (flt_trans _ _ _ H1 H2) in H3. discriminate. Qed.

(** One axis of [AABB::expand] keeps an ordered interval ordered, brings
    the point in and keeps in what was in. *)
Lemma expand_axis_spec (p lo hi : float) :
  flt hi lo = false ->
  flt (snd (expand_axis p lo hi)) (fst (expand_axis p lo hi)) = false /\
  flt p (fst (expand_axis p lo hi)) = false /\
  flt (snd (expand_axis p lo hi)) p = false /\
  forall q, flt q lo = false -> flt hi q = false ->
            flt q (fst (expand_axis p lo hi)) = false /\
            flt (snd (expand_axis p lo hi)) q = false.
Proof.
  intros Hord. unfold expand_axis.
  destruct (flt p lo) eqn:Hplo; cbn [fst snd].
  - assert (Hhp : flt hi p = false).
    { destruct (flt hi p) eqn:E; [| reflexivity].
      exfalso. exact (flt_chain _ _ _ E Hplo Hord). }
    split; [exact Hhp |]. split; [apply flt_irrefl |]. split; [exact Hhp |].
    intros q Hq1 Hq2. split; [| exact Hq2].
    destruct (flt q p) eqn:E; [| reflexivity].
    exfalso. exact (flt_chain _ _ _ E Hplo Hq1).
  - destruct (flt hi p) eqn:Hhp; cbn [fst snd].
    + split; [exact Hplo |]. split; [exact Hplo |].
      split; [apply flt_irrefl |].
      intros q Hq1 Hq2. split; [exact Hq1 |].
      destruct (flt p q) eqn:E; [| reflexivity].
      exfalso. exact (flt_chain _ _ _ Hhp E Hq2).
    + split; [exact Hord |]. split; [exact Hplo |]. split; [exact Hhp |].
      intros q Hq1 Hq2. split; assumption.
Qed.

Lemma AABB_expand_eq (b : AABB) (p : Vector3) :
  AABB_expand b p
  = mkAABB
      (mkVector3 (fst (expand_axis (v_x p) (v_x (pMin b)) (v_x (pMax b))))
                 (fst (expand_axis (v_y p) (v_y (pMin b)) (v_y (pMax b))))
                 (fst (expand_axis (v_z p) (v_z (pMin b)) (v_z (pMax b)))))
      (mkVector3 (snd (expand_axis (v_x p) (v_x (pMin b)) (v_x (pMax b))))
                 (snd (expand_axis (v_y p) (v_y (pMin b)) (v_y (pMax b))))
                 (snd (expand_axis (v_z p) (v_z (pMin b)) (v_z (pMax b))))).
Proof.
  unfold AABB_expand.
  destruct (expand_axis (v_x p) _ _), (expand_axis (v_y p) _ _),
           (expand_axis (v_z p) _ _).
  reflexivity.
Qed.

Lemma AABB_expand_spec (b : AABB) (p : Vector3) :
  AABB_ordered b ->
  AABB_ordered (AABB_expand b p) /\
  AABB_holds (AABB_expand b p) p /\
  forall q, AABB_holds b q -> AABB_holds (AABB_expand b p) q.
Proof.
  intros (Hx & Hy & Hz). rewrite AABB_expand_eq.
  destruct (expand_axis_spec (v_x p) _ _ Hx) as (Ox & Px1 & Px2 & Qx).
  destruct (expand_axis_spec (v_y p) _ _ Hy) as (Oy & Py1 & Py2 & Qy).
  destruct (expand_axis_spec (v_z p) _ _ Hz) as (Oz & Pz1 & Pz2 & Qz).
  unfold AABB_ordered, AABB_holds. cbn [pMin pMax v_x v_y v_z].
  split; [auto |]. split; [repeat split; assumption |].
  intros q (Q1 & Q2 & Q3 & Q4 & Q5 & Q6).
  destruct (Qx _ Q1 Q2), (Qy _ Q3 Q4), (Qz _ Q5 Q6).
  repeat split; assumption.
Qed.

(** [AABB::point] followed by [expand] for further points gives a box
    that holds all of them. *)
Lemma point_expand_holds (pts : list Vector3) :
  forall b, AABB_ordered b ->
    AABB_ordered (fold_left AABB_expand pts b) /\
    (forall q, AABB_holds b q -> AABB_holds (fold_left AABB_expand pts b) q) /\
    Forall (AABB_holds (fold_left AABB_expand pts b)) pts.
Proof.
  induction pts as [| p pts IH]; intros b Hb; cbn [fold_left].
  - split; [exact Hb |]. split; [auto | constructor].
  - destruct (AABB_expand_spec b p Hb) as (Hb1 & Hp & Hq).
    destruct (IH _ Hb1) as (Hb2 & Hq2 & Hall).
    split; [exact Hb2 |]. split; [auto |].
    constructor; [apply Hq2, Hp | exact Hall].
Qed.

(** X13. After [preprocessObject], the bounding box of the object has its
    [pMin] not above its [pMax] and holds the eight corners of the
    two-unit cube, transformed by the translation and the rotation the
    object now has: [AABB::point] of the first corner and [expand] for the
    others lose none of them. *)
Theorem preprocessObject_box_holds_cube (sim sim' : SimpleSim) (obj_id : Z)
    (Hrun : preprocessObject sim obj_id = Some sim') :
  exists o',
    Array.load (sphereObjects sim') obj_id = Some o' /\
    AABB_ordered (aabb o') /\
    Forall (fun corner =>
              AABB_holds (aabb o')
                (Mat3x4_txfmPoint
                   (Mat3x4_fromTRS (translation o') (rotation o') Diag3x3_one)
                   corner))
           cube_corners.
Proof.
  unfold preprocessObject in Hrun.
  apply bind_Some in Hrun as (object & Hobj & Hrun).
  apply bind_Some in Hrun as (objs & Hstore & Hrun).
  injection Hrun as <-. cbn [sphereObjects set_sphereObjects].
  eexists. split; [eapply Array_load_store_eq; exact Hstore |].
  cbn [aabb translation rotation].
  match goal with
  | |- context [fold_left AABB_expand ?rest (AABB_point ?c0)] =>
      destruct (point_expand_holds rest (AABB_point c0)) as (Ho & Hq & Hall)
  end.
  { unfold AABB_ordered, AABB_point. cbn [pMin pMax].
    repeat split; apply flt_irrefl. }
  split; [exact Ho |].
  unfold cube_corners. constructor.
  - apply Hq. unfold AABB_holds, AABB_point. cbn [pMin pMax].
    repeat split; apply flt_irrefl.
  - rewrite Forall_map in Hall. exact Hall.
Qed.

Lemma clamp_spec (v lo hi : float) :
  flt hi lo = false ->
  flt (clamp v lo hi) lo = false /\ flt hi (clamp v lo hi) = false /\
  clamp (clamp v lo hi) lo hi = clamp v lo hi.
Proof.
  intros Hord. unfold clamp.
  destruct (flt v lo) eqn:Hvlo.
  - rewrite flt_irrefl, Hord. auto.
  - destruct (flt hi v) eqn:Hhv.
    + rewrite Hord, flt_irrefl. auto.
    + rewrite Hvlo, Hhv. auto.
Qed.

(** X14. In a world whose bounds have [pMin] not above [pMax],
    [preprocessObject] leaves the translation of the object inside the
    bounds, and running it again on the same object changes nothing. *)
Theorem preprocessObject_clamps_once (sim sim' : SimpleSim) (obj_id : Z)
    (Hbounds : AABB_ordered (worldBounds sim))
    (Hrun : preprocessObject sim obj_id = Some sim') :
  (exists o', Array.load (sphereObjects sim') obj_id = Some o' /\
              AABB_holds (worldBounds sim') (translation o')) /\
  preprocessObject sim' obj_id = Some sim'.
Proof.
  destruct Hbounds as (Hx & Hy & Hz).
  unfold preprocessObject in Hrun |- *.
  apply bind_Some in Hrun as (object & Hobj & Hrun).
  apply bind_Some in Hrun as (objs & Hstore & Hrun).
  injection Hrun as <-.
  cbn [sphereObjects set_sphereObjects worldBounds].
  pose proof (Array_load_store_eq _ _ _ _ Hstore) as Hload.
  destruct (clamp_spec (v_x (translation object)) _ _ Hx) as (X1 & X2 & X3).
  destruct (clamp_spec (v_y (translation object)) _ _ Hy) as (Y1 & Y2 & Y3).
  destruct (clamp_spec (v_z (translation object)) _ _ Hz) as (Z1 & Z2 & Z3).
  split.
  - eexists. split; [exact Hload |].
    unfold AABB_holds. cbn [translation v_x v_y v_z].
    repeat split; assumption.
  - rewrite Hload. cbn [mbind option_bind translation rotation v_x v_y v_z].
    rewrite X3, Y3, Z3.
    apply Array_store_Some in Hstore as [Hin ->].
    rewrite Array_store_in_range by (rewrite length_insert; exact Hin).
    rewrite list_insert_insert_eq. reflexivity.
Qed.

End OrderedComparison.

Lemma preprocessObject_box_holds_cube_witness :
  exists o',
    Array.load (sphereObjects sample_sim_preprocessed) 0 = Some o' /\
    AABB_ordered (aabb o').
Proof.
  destruct (preprocessObject_box_holds_cube (FOrd := prim_float_order)
              sample_sim sample_sim_preprocessed 0
              ltac:(vm_compute; reflexivity)) as (o' & H1 & H2 & _).
  exists o'. split; assumption.
Defined.

Lemma preprocessObject_clamps_once_witness :
  preprocessObject sample_sim_preprocessed 0 = Some sample_sim_preprocessed.
Proof.
  apply (proj2 (preprocessObject_clamps_once (FOrd := prim_float_order)
                  sample_sim sample_sim_preprocessed 0
                  ltac:(vm_compute; auto)
                  ltac:(vm_compute; reflexivity))).
Defined.

(** The integers are ordered exact arithmetic. *)
Lemma exact_int_order : FloatOrder exact_int_ops.
Proof.
  split; cbn [flt exact_int_ops float].
  - intros x. apply Z.ltb_irrefl.
  - intros x y z H1 H2. apply Z.ltb_lt in H1, H2. apply Z.ltb_lt. lia.
Qed.

Lemma exact_int_ordered : FloatOrderedExact exact_int_ops.
Proof.
  split; [exact exact_int_exact | exact exact_int_order | ..];
    cbn [flt fadd fmul f_zero exact_int_ops float].
  - intros x y H1 H2. apply Z.ltb_ge in H1, H2. lia.
  - intros x y z H. apply Z.ltb_lt in H. apply Z.ltb_lt. lia.
  - intros x y z Hz H. apply Z.ltb_lt in Hz, H. apply Z.ltb_lt. nia.
Qed.

Section OrderedExactArithmetic.
Context {FO : FloatOps} {FOE : FloatOrderedExact FO}.

Add Ring float_is_ordered_ring : (@float_ring FO foe_exact).

Lemma flt_asym (x y : float) : flt x y = true -> flt y x = false.
Proof.
  intros H. destruct (flt y x) eqn:E; [| reflexivity].
  pose proof (flt_trans _ _ _ H E) as Hxx. rewrite flt_irrefl in Hxx.
  discriminate.
Qed.

Lemma not_above_refl (x : float) : not_above x x.
Proof. apply flt_irrefl. Qed.

Lemma not_above_cases (x y : float) :
  not_above x y -> flt x y = true \/ x = y.
Proof.
  unfold not_above. intros H. destruct (flt x y) eqn:E; [left; reflexivity |].
  right. apply flt_total; assumption.
Qed.

Lemma flt_not_above (x y : float) : flt x y = true -> not_above x y.
Proof. apply flt_asym. Qed.

Lemma not_above_flt (x y z : float) :
  not_above x y -> flt y z = true -> flt x z = true.
Proof.
  intros H1 H2. destruct (not_above_cases _ _ H1) as [H | ->];
    [exact (flt_trans _ _ _ H H2) | exact H2].
Qed.

Lemma not_above_trans (x y z : float) :
  not_above x y -> not_above y z -> not_above x z.
Proof.
  intros H1 H2. destruct (not_above_cases _ _ H2) as [H | <-]; [| exact H1].
  apply flt_not_above. exact (not_above_flt _ _ _ H1 H).
Qed.

Lemma not_above_add (x y z : float) :
  not_above x y -> not_above (fadd x z) (fadd y z).
Proof.
  intros H. destruct (not_above_cases _ _ H) as [Hlt | ->];
    [| apply not_above_refl].
  apply flt_not_above, flt_add. exact Hlt.
Qed.

Lemma not_above_add2 (a b c d : float) :
  not_above a b -> not_above c d -> not_above (fadd a c) (fadd b d).
Proof.
  intros H1 H2. apply (not_above_trans _ (fadd b c)).
  - apply not_above_add. exact H1.
  - replace (fadd b c) with (fadd c b) by ring.
    replace (fadd b d) with (fadd d b) by ring.
    apply not_above_add. exact H2.
Qed.

Lemma not_above_mul (r a b : float) :
  not_above f_zero r -> not_above a b -> not_above (fmul r a) (fmul r b).
Proof.
  intros Hr H. destruct (not_above_cases _ _ Hr) as [Hpos | <-].
  - destruct (not_above_cases _ _ H) as [Hlt | ->]; [| apply not_above_refl].
    apply flt_not_above, flt_mul_pos; assumption.
  - replace (fmul f_zero a) with (fmul f_zero b) by ring. apply not_above_refl.
Qed.

Lemma not_above_mul_neg (r a b : float) :
  flt r f_zero = true -> not_above a b -> not_above (fmul r b) (fmul r a).
Proof.
  intros Hr H.
  assert (Hpos : flt f_zero (fneg r) = true).
  { pose proof (flt_add _ _ (fneg r) Hr) as Hn.
    replace (fadd r (fneg r)) with f_zero in Hn by ring.
    replace (fadd f_zero (fneg r)) with (fneg r) in Hn by ring. exact Hn. }
  pose proof (not_above_mul (fneg r) a b (flt_not_above _ _ Hpos) H) as Hm.
  apply (not_above_add _ _ (fadd (fmul r a) (fmul r b))) in Hm.
  replace (fadd (fmul (fneg r) a) (fadd (fmul r a) (fmul r b)))
    with (fmul r b) in Hm by ring.
  replace (fadd (fmul (fneg r) b) (fadd (fmul r a) (fmul r b)))
    with (fmul r a) in Hm by ring.
  exact Hm.
Qed.

(** One term of a row: the product with a coordinate between the bounds
    lies between the smaller and the larger of the products with the
    bounds, and these are in order whatever the bounds. *)
Lemma slab_holds (r lo hi p : float) :
  not_above (fst (slab (fmul r lo) (fmul r hi)))
            (snd (slab (fmul r lo) (fmul r hi))) /\
  (not_above lo p -> not_above p hi ->
   not_above (fst (slab (fmul r lo) (fmul r hi))) (fmul r p) /\
   not_above (fmul r p) (snd (slab (fmul r lo) (fmul r hi)))).
Proof.
  unfold slab.
  destruct (flt (fmul r lo) (fmul r hi)) eqn:E; cbn [fst snd].
  - split; [apply flt_not_above; exact E |]. intros H1 H2.
    destruct (flt r f_zero) eqn:Hr.
    + exfalso.
      pose proof (not_above_mul_neg r _ _ Hr
                    (not_above_trans _ _ _ H1 H2)) as Hc.
      unfold not_above in Hc. congruence.
    + split; apply not_above_mul; assumption.
  - split; [exact E |]. intros H1 H2.
    destruct (flt r f_zero) eqn:Hr.
    + split; apply not_above_mul_neg; assumption.
    + pose proof (not_above_mul r _ _ Hr H1) as A1.
      pose proof (not_above_mul r _ _ Hr H2) as A2.
      split.
      * exact (not_above_trans _ _ _ E A1).
      * exact (not_above_trans _ _ _ A2 E).
Qed.

Lemma index_assign (v : Vector3) (i : Z) (a : float) :
  Vector3_index (Vector3_assign v i a) i = a.
Proof.
  unfold Vector3_index, Vector3_assign.
  destruct (i =? 1); [reflexivity |]. destruct (i =? 2); reflexivity.
Qed.

Lemma assign_assign (v : Vector3) (i : Z) (a b : float) :
  Vector3_assign (Vector3_assign v i a) i b = Vector3_assign v i b.
Proof.
  unfold Vector3_assign.
  destruct (i =? 1); [reflexivity |]. destruct (i =? 2); reflexivity.
Qed.

Lemma applyTRS_term_eq (m : Mat3x3) (box txfmed : AABB) (i j : Z)
    (col : Vector3) :
  Mat3x3_index m j = Some col ->
  applyTRS_term m box i txfmed j
  = let s := slab (fmul (Vector3_index col i) (Vector3_index (pMin box) j))
                  (fmul (Vector3_index col i) (Vector3_index (pMax box) j)) in
    Some (mkAABB (Vector3_assign (pMin txfmed) i
                    (fadd (Vector3_index (pMin txfmed) i) (fst s)))
                 (Vector3_assign (pMax txfmed) i
                    (fadd (Vector3_index (pMax txfmed) i) (snd s)))).
Proof.
  intros H. unfold applyTRS_term, slab. rewrite H. cbn [mbind option_bind].
  cbv zeta. destruct (flt _ _); reflexivity.
Qed.

(** A row of [AABB::applyTRS]: the inner loop. *)
Lemma applyTRS_row (m : Mat3x3) (box : AABB) (lo hi : Vector3) (i : Z)
    (t : float) :
  Array.for_each (applyTRS_term m box i)
                 (mkAABB (Vector3_assign lo i t) (Vector3_assign hi i t))
                 (int_range 3)
  = Some (mkAABB (Vector3_assign lo i (fst (row_bounds m box t i)))
                 (Vector3_assign hi i (snd (row_bounds m box t i)))).
Proof.
  change (int_range 3) with [0; 1; 2]. cbn [Array.for_each].
  rewrite (applyTRS_term_eq m box _ i 0 (m_cols0 m)) by reflexivity.
  cbv zeta. cbn [mbind option_bind pMin pMax].
  rewrite (applyTRS_term_eq m box _ i 1 (m_cols1 m)) by reflexivity.
  cbv zeta. cbn [mbind option_bind pMin pMax].
  rewrite (applyTRS_term_eq m box _ i 2 (m_cols2 m)) by reflexivity.
  cbv zeta. cbn [mbind option_bind pMin pMax].
  rewrite !index_assign, !assign_assign. reflexivity.
Qed.

(** [AABB::applyTRS] in closed form; the value [txfmed] starts with does
    not matter. *)
Lemma applyTRS_closed (txfmed box : AABB) (t : Vector3) (r : Quat)
    (s : Diag3x3) :
  AABB_applyTRS txfmed box t r s
  = let m := Mat3x3_fromRS r s in
    Some (mkAABB
            (mkVector3 (fst (row_bounds m box (v_x t) 0))
                       (fst (row_bounds m box (v_y t) 1))
                       (fst (row_bounds m box (v_z t) 2)))
            (mkVector3 (snd (row_bounds m box (v_x t) 0))
                       (snd (row_bounds m box (v_y t) 1))
                       (snd (row_bounds m box (v_z t) 2)))).
Proof.
  unfold AABB_applyTRS. cbv zeta.
  match goal with
  | |- Array.for_each ?f _ _ = _ => set (row := f)
  end.
  change (int_range 3) with [0; 1; 2]. cbn [Array.for_each].
  unfold row. cbv beta.
  rewrite applyTRS_row. cbn [mbind option_bind pMin pMax].
  rewrite applyTRS_row. cbn [mbind option_bind pMin pMax].
  rewrite applyTRS_row. cbn [mbind option_bind pMin pMax].
  reflexivity.
Qed.

Lemma row_bounds_hold (m : Mat3x3) (box : AABB) (t : float) (i : Z) :
  not_above (fst (row_bounds m box t i)) (snd (row_bounds m box t i)) /\
  forall p : Vector3,
    AABB_holds box p ->
    let q := fadd (fadd (fadd t (fmul (Vector3_index (m_cols0 m) i) (v_x p)))
                        (fmul (Vector3_index (m_cols1 m) i) (v_y p)))
                  (fmul (Vector3_index (m_cols2 m) i) (v_z p)) in
    not_above (fst (row_bounds m box t i)) q /\
    not_above q (snd (row_bounds m box t i)).
Proof.
  unfold row_bounds. cbv zeta. cbn [fst snd].
  change (Vector3_index (pMin box) 0) with (v_x (pMin box)).
  change (Vector3_index (pMax box) 0) with (v_x (pMax box)).
  change (Vector3_index (pMin box) 1) with (v_y (pMin box)).
  change (Vector3_index (pMax box) 1) with (v_y (pMax box)).
  change (Vector3_index (pMin box) 2) with (v_z (pMin box)).
  change (Vector3_index (pMax box) 2) with (v_z (pMax box)).
  split.
  - repeat apply not_above_add2; try apply not_above_refl;
      apply (proj1 (slab_holds _ _ _ f_zero)).
  - intros p (X1 & X2 & Y1 & Y2 & Z1 & Z2).
    destruct (slab_holds (Vector3_index (m_cols0 m) i)
                (v_x (pMin box)) (v_x (pMax box)) (v_x p)) as [_ H0].
    destruct (slab_holds (Vector3_index (m_cols1 m) i)
                (v_y (pMin box)) (v_y (pMax box)) (v_y p)) as [_ H1].
    destruct (slab_holds (Vector3_index (m_cols2 m) i)
                (v_z (pMin box)) (v_z (pMax box)) (v_z p)) as [_ H2].
    destruct (H0 X1 X2) as [A0 B0]. destruct (H1 Y1 Y2) as [A1 B1].
    destruct (H2 Z1 Z2) as [A2 B2]. clear H0 H1 H2.
    split; repeat apply not_above_add2; try apply not_above_refl; assumption.
Qed.

(** X27. In exact ordered arithmetic, the box [AABB::applyTRS] returns
    holds the transform [Mat3x4::fromTRS(translation, rotation, scale)] of
    every point the box holds.  Its bounds are in order on every axis
    whatever the box was, and the result does not depend on the value the
    local [txfmed] starts with: the loops assign every coordinate before
    they read it. *)
Theorem applyTRS_encloses (txfmed box : AABB) (t : Vector3) (r : Quat)
    (s : Diag3x3) :
  exists out,
    AABB_applyTRS txfmed box t r s = Some out /\
    (forall other, AABB_applyTRS other box t r s = Some out) /\
    AABB_ordered out /\
    forall p, AABB_holds box p ->
              AABB_holds out (Mat3x4_txfmPoint (Mat3x4_fromTRS t r s) p).
Proof.
  eexists. split; [apply applyTRS_closed |]. cbv zeta.
  split; [intros other; apply applyTRS_closed |].
  set (m := Mat3x3_fromRS r s).
  pose proof (row_bounds_hold m box (v_x t) 0) as [O0 E0].
  pose proof (row_bounds_hold m box (v_y t) 1) as [O1 E1].
  pose proof (row_bounds_hold m box (v_z t) 2) as [O2 E2].
  split; [repeat split; assumption |].
  intros p Hp.
  specialize (E0 p Hp). specialize (E1 p Hp). specialize (E2 p Hp).
  cbv zeta in E0, E1, E2.
  assert (Hq : Mat3x4_txfmPoint (Mat3x4_fromTRS t r s) p
               = mkVector3
                   (fadd (fadd (fadd (v_x t)
                      (fmul (Vector3_index (m_cols0 m) 0) (v_x p)))
                      (fmul (Vector3_index (m_cols1 m) 0) (v_y p)))
                      (fmul (Vector3_index (m_cols2 m) 0) (v_z p)))
                   (fadd (fadd (fadd (v_y t)
                      (fmul (Vector3_index (m_cols0 m) 1) (v_x p)))
                      (fmul (Vector3_index (m_cols1 m) 1) (v_y p)))
                      (fmul (Vector3_index (m_cols2 m) 1) (v_z p)))
                   (fadd (fadd (fadd (v_z t)
                      (fmul (Vector3_index (m_cols0 m) 2) (v_x p)))
                      (fmul (Vector3_index (m_cols1 m) 2) (v_y p)))
                      (fmul (Vector3_index (m_cols2 m) 2) (v_z p)))).
  { unfold m. destruct t as [t0 t1 t2], r as [w x y z], s as [s0 s1 s2],
             p as [p0 p1 p2].
    apply Vector3_eq; cbn; rewrite ?f_two_eq; ring. }
  rewrite Hq. unfold AABB_holds. cbn [pMin pMax v_x v_y v_z].
  destruct E0 as [A0 B0], E1 as [A1 B1], E2 as [A2 B2].
  repeat split; assumption.
Qed.

End OrderedExactArithmetic.

Lemma applyTRS_encloses_witness :
  exists out,
    AABB_applyTRS sample_box sample_box sample_vec sample_quat sample_diag
    = Some out /\
    AABB_holds out
      (Mat3x4_txfmPoint (Mat3x4_fromTRS sample_vec sample_quat sample_diag)
                        sample_vec).
Proof.
  destruct (applyTRS_encloses (FOE := exact_int_ordered) sample_box sample_box
              sample_vec sample_quat sample_diag) as (out & H1 & _ & _ & H2).
  exists out. split; [exact H1 |]. apply H2.
  vm_compute. repeat split; reflexivity.
Defined.

(** IEEE [<=] and [<] chain. *)
Lemma SFleb_trans (x y z : SpecFloat.spec_float) :
  SpecFloat.SFleb x y = true -> SpecFloat.SFleb y z = true ->
  SpecFloat.SFleb x z = true.
Proof.
  unfold SpecFloat.SFleb, SpecFloat.SFcompare.
  destruct x as [sx | sx | | sx mx ex], y as [sy | sy | | sy my ey],
           z as [sz | sz | | sz mz ez];
    try destruct sx; try destruct sy; try destruct sz; simpl; try congruence.
  all: compare_cases; simpl; try congruence; try lia.
Qed.

Lemma SFleb_SFltb_trans (x y z : SpecFloat.spec_float) :
  SpecFloat.SFleb x y = true -> SpecFloat.SFltb y z = true ->
  SpecFloat.SFltb x z = true.
Proof.
  unfold SpecFloat.SFleb, SpecFloat.SFltb, SpecFloat.SFcompare.
  destruct x as [sx | sx | | sx mx ex], y as [sy | sy | | sy my ey],
           z as [sz | sz | | sz mz ez];
    try destruct sx; try destruct sy; try destruct sz; simpl; try congruence.
  all: compare_cases; simpl; try congruence; try lia.
Qed.

Lemma SFltb_SFleb_trans (x y z : SpecFloat.spec_float) :
  SpecFloat.SFltb x y = true -> SpecFloat.SFleb y z = true ->
  SpecFloat.SFltb x z = true.
Proof.
  unfold SpecFloat.SFleb, SpecFloat.SFltb, SpecFloat.SFcompare.
  destruct x as [sx | sx | | sx mx ex], y as [sy | sy | | sy my ey],
           z as [sz | sz | | sz mz ez];
    try destruct sx; try destruct sy; try destruct sz; simpl; try congruence.
  all: compare_cases; simpl; try congruence; try lia.
Qed.

Lemma prim_float_le_order : FloatLeOrder prim_float_ops prim_float_le.
Proof.
  split; cbn [flt fle prim_float_ops prim_float_le float];
    intros x y z; rewrite ?ltb_spec, ?leb_spec.
  - apply SFleb_trans.
  - apply SFleb_SFltb_trans.
  - apply SFltb_SFleb_trans.
Qed.

Section Containment.
Context {FO : FloatOps} {FL : FloatLe FO} {FLO : FloatLeOrder FO FL}.

(** X28. A box that contains another overlaps every box the other
    overlaps, and containment is transitive: a query that misses a box
    misses everything inside it.  This holds for [float] as it is, NaN and
    infinities included. *)
Theorem contains_keeps_overlaps (a b c : AABB) :
  AABB_contains a b = true ->
  (AABB_overlaps b c = true -> AABB_overlaps a c = true) /\
  (AABB_overlaps c b = true -> AABB_overlaps c a = true) /\
  (AABB_contains b c = true -> AABB_contains a c = true).
Proof.
  unfold AABB_contains, AABB_overlaps. cbv zeta. intros H.
  repeat (apply andb_true_iff in H as [H ?]).
  split; [| split]; intros Ho;
    repeat (apply andb_true_iff in Ho as [Ho ?]);
    repeat (apply andb_true_iff; split);
    eauto using fle_trans, fle_flt_trans, flt_fle_trans.
Qed.

End Containment.

Lemma contains_keeps_overlaps_witness :
  AABB_overlaps sample_outer_box sample_other_box = true.
Proof.
  apply (proj1 (contains_keeps_overlaps (FLO := prim_float_le_order)
                  sample_outer_box sample_inner_box sample_other_box
                  eq_refl)).
  reflexivity.
Defined.

(** ** simple.cpp: the bounding-volume list *)

Section PhysicsBVHFacts.
Context {FO : FloatOps}.

Lemma addObject_step (bvh : PhysicsBVH) (box : AABB) (id : Z) :
  length (aabbs bvh) = length (ids bvh) -> 0 <= numObjects bvh ->
  Z.of_nat (length (aabbs bvh)) < 2 ^ 32 ->
  PhysicsBVH_addObject bvh (box, id)
  = if numObjects bvh <? Z.of_nat (length (aabbs bvh))
    then Some (mkPhysicsBVH (<[Z.to_nat (numObjects bvh) := box]> (aabbs bvh))
                            (<[Z.to_nat (numObjects bvh) := id]> (ids bvh))
                            (numObjects bvh + 1) (maxNumObjects bvh))
    else None.
Proof.
  intros Hlen Hn Hcap. unfold PhysicsBVH_addObject.
  destruct (Z.ltb_spec (numObjects bvh) (Z.of_nat (length (aabbs bvh))))
    as [Hlt | Hge].
  - rewrite (Array_store_in_range (aabbs bvh)) by lia.
    rewrite (Array_store_in_range (ids bvh)) by lia.
    cbn [mbind option_bind]. rewrite u32_small by lia. reflexivity.
  - assert (Hnone : Array.store (aabbs bvh) (numObjects bvh) box = None).
    { unfold Array.store.
      destruct (Z.ltb_spec (numObjects bvh) (Z.of_nat (length (aabbs bvh))));
        [lia |].
      destruct (0 <=? numObjects bvh); reflexivity. }
    rewrite Hnone. reflexivity.
Qed.

(** [addObject] from a list that so far holds [numObjects] entries. *)
Lemma addObject_loop (objs : list (AABB * Z)) :
  forall bvh,
    length (aabbs bvh) = length (ids bvh) ->
    0 <= numObjects bvh ->
    Z.of_nat (length (aabbs bvh)) < 2 ^ 32 ->
    (numObjects bvh + Z.of_nat (length objs) <= Z.of_nat (length (aabbs bvh)) ->
     exists bvh',
       Array.for_each PhysicsBVH_addObject bvh objs = Some bvh' /\
       numObjects bvh' = numObjects bvh + Z.of_nat (length objs) /\
       maxNumObjects bvh' = maxNumObjects bvh /\
       length (aabbs bvh') = length (aabbs bvh) /\
       length (ids bvh') = length (ids bvh) /\
       take (Z.to_nat (numObjects bvh')) (aabbs bvh')
         = take (Z.to_nat (numObjects bvh)) (aabbs bvh) ++ map fst objs /\
       take (Z.to_nat (numObjects bvh')) (ids bvh')
         = take (Z.to_nat (numObjects bvh)) (ids bvh) ++ map snd objs) /\
    (numObjects bvh <= Z.of_nat (length (aabbs bvh)) ->
     Z.of_nat (length (aabbs bvh)) < numObjects bvh + Z.of_nat (length objs) ->
     Array.for_each PhysicsBVH_addObject bvh objs = None).
Proof.
  induction objs as [| [box id] objs IH]; intros bvh Hlen Hn Hcap.
  - split.
    + intros _. exists bvh. cbn [Array.for_each length map].
      rewrite Z.add_0_r, !app_nil_r. auto 10.
    + cbn [length]. lia.
  - cbn [Array.for_each length].
    rewrite (addObject_step bvh box id Hlen Hn Hcap).
    destruct (Z.ltb_spec (numObjects bvh) (Z.of_nat (length (aabbs bvh))))
      as [Hlt | Hge].
    + cbn [mbind option_bind].
      set (bvh1 := mkPhysicsBVH _ _ _ _).
      assert (Hn1 : numObjects bvh1 = numObjects bvh + 1) by reflexivity.
      assert (Hl1 : length (aabbs bvh1) = length (aabbs bvh))
        by (cbn [aabbs bvh1]; apply length_insert).
      assert (Hi1 : length (ids bvh1) = length (ids bvh))
        by (cbn [ids bvh1]; apply length_insert).
      destruct (IH bvh1) as [Hok Hbad]; [congruence | lia | lia |].
      split.
      * intros Hroom.
        destruct Hok as (bvh' & Hrun & Hc & Hm & Hla & Hli & Ha & Hi);
          [rewrite Hn1, Hl1; lia |].
        exists bvh'. split; [exact Hrun |].
        split; [lia |]. split; [exact Hm |].
        split; [congruence |]. split; [congruence |].
        rewrite Ha, Hi, Hn1.
        replace (Z.to_nat (numObjects bvh + 1))
          with (S (Z.to_nat (numObjects bvh))) by lia.
        cbn [aabbs ids bvh1 map fst snd].
        rewrite (take_S_r _ _ box), (take_S_r _ _ id)
          by (apply list_lookup_insert_eq; lia).
        rewrite !take_insert_ge by lia.
        rewrite <- !app_assoc. split; reflexivity.
      * intros _ Hover. apply Hbad; rewrite ?Hn1, ?Hl1; lia.
    + split; [intros; lia | reflexivity].
Qed.

(** X15. A [PhysicsBVH] built for [num_max_objects] objects takes that many
    [addObject] calls, and then holds the boxes and ids in the order they
    were added; [addObject] does not compare [numObjects] with
    [maxNumObjects], and one call more writes past both arrays. *)
Theorem PhysicsBVH_addObject_fills (num_max_objects : Z)
    (objs : list (AABB * Z)) (Hmax : 0 <= num_max_objects < 2 ^ 32) :
  (Z.of_nat (length objs) <= num_max_objects ->
   exists bvh,
     Array.for_each PhysicsBVH_addObject (PhysicsBVH_ctor num_max_objects) objs
       = Some bvh /\
     numObjects bvh = Z.of_nat (length objs) /\
     maxNumObjects bvh = num_max_objects /\
     take (length objs) (aabbs bvh) = map fst objs /\
     take (length objs) (ids bvh) = map snd objs) /\
  (num_max_objects < Z.of_nat (length objs) ->
   Array.for_each PhysicsBVH_addObject (PhysicsBVH_ctor num_max_objects) objs
     = None).
Proof.
  pose proof (addObject_loop objs (PhysicsBVH_ctor num_max_objects)) as H.
  unfold PhysicsBVH_ctor in *.
  cbn [aabbs ids numObjects maxNumObjects] in H.
  rewrite !length_replicate in H.
  destruct H as [Hok Hbad]; [reflexivity | lia | lia |].
  split.
  - intros Hfit.
    destruct Hok as (bvh & Hrun & Hc & Hm & _ & _ & Ha & Hi); [lia |].
    exists bvh. split; [exact Hrun |]. split; [lia |]. split; [exact Hm |].
    rewrite Hc in Ha, Hi. rewrite Z.add_0_l, Nat2Z.id in Ha, Hi.
    split; assumption.
  - intros Hover. apply Hbad; lia.
Qed.

End PhysicsBVHFacts.

Lemma PhysicsBVH_addObject_fills_witness :
  Array.for_each (PhysicsBVH_addObject (FO := prim_float_ops))
                 (PhysicsBVH_ctor 1)
                 [(AABB_invalid, 7); (AABB_invalid, 8)]
  = None.
Proof.
  apply (proj2 (PhysicsBVH_addObject_fills (FO := prim_float_ops) 1
                  [(AABB_invalid, 7); (AABB_invalid, 8)] ltac:(lia))).
  simpl. lia.
Defined.

(** ** simple.cpp: the constructor and whole epochs *)

Lemma int_range_elem (n i : Z) : i ∈ int_range n <-> 0 <= i < n.
Proof.
  unfold int_range. rewrite list_elem_of_In, in_map_iff. split.
  - intros (k & <- & Hk). apply in_seq in Hk. lia.
  - intros Hi. exists (Z.to_nat i). split; [lia |]. apply in_seq. lia.
Qed.

Lemma int_range_length (n : Z) : length (int_range n) = Z.to_nat n.
Proof. unfold int_range. rewrite length_map, length_seq. reflexivity. Qed.

Lemma int_range_lookup (n : Z) (k : nat) :
  (k < Z.to_nat n)%nat -> int_range n !! k = Some (Z.of_nat k).
Proof.
  intros Hk. unfold int_range.
  change (map Z.of_nat (seq 0 (Z.to_nat n))) with (Z.of_nat <$> seq 0 (Z.to_nat n)).
  rewrite list_lookup_fmap, lookup_seq_lt by assumption. reflexivity.
Qed.

Lemma int_range_NoDup (n : Z) : NoDup (int_range n).
Proof.
  unfold int_range.
  change (map Z.of_nat (seq 0 (Z.to_nat n))) with (Z.of_nat <$> seq 0 (Z.to_nat n)).
  apply NoDup_fmap_2; [| apply NoDup_seq].
  intros x y. apply Nat2Z.inj.
Qed.

(** Reading an array at every index gives the array. *)
Lemma load_all {A} (a : list A) :
  map (Array.load a) (int_range (Z.of_nat (length a))) = map Some a.
Proof.
  apply list_eq. intros k.
  change (map (Array.load a) ?l) with (Array.load a <$> l).
  change (map Some a) with (Some <$> a).
  rewrite !list_lookup_fmap.
  destruct (a !! k) as [x |] eqn:Hk.
  - pose proof (lookup_lt_Some _ _ _ Hk) as Hlt.
    rewrite int_range_lookup by lia. cbn.
    unfold Array.load. destruct (Z.leb_spec 0 (Z.of_nat k)); [| lia].
    rewrite Nat2Z.id, Hk. reflexivity.
  - pose proof (lookup_ge_None_1 _ _ Hk) as Hge.
    rewrite (lookup_ge_None_2 (int_range _)); [reflexivity |].
    rewrite int_range_length. lia.
Qed.

Section Epochs.
Context {FO : FloatOps}.
Variable MADRONA_GPU_MODE : bool.

(** *** The index tables *)

Lemma world_spheres_elem (w n : Z) (si : SphereIndex) :
  si ∈ world_spheres w n <->
  sphere_world si = w /\ 0 <= sphere_offset si < n.
Proof.
  unfold world_spheres. rewrite list_elem_of_In, in_map_iff. split.
  - intros (o & <- & Ho). apply list_elem_of_In, int_range_elem in Ho.
    cbn. auto.
  - intros [Hw Ho]. exists (sphere_offset si). split.
    + destruct si. cbn in *. subst. reflexivity.
    + apply list_elem_of_In, int_range_elem. exact Ho.
Qed.

Lemma world_tests_elem (w n : Z) (t : TestIndex) :
  t ∈ world_tests w n <->
  test_world t = w /\ 0 <= test_a t < n /\ 0 <= test_b t < n.
Proof.
  unfold world_tests. rewrite list_elem_of_In, in_flat_map. split.
  - intros (a & Ha & Hin). apply in_map_iff in Hin as (b & <- & Hb).
    apply list_elem_of_In, int_range_elem in Ha, Hb. cbn. auto.
  - intros (Hw & Ha & Hb). exists (test_a t). split.
    + apply list_elem_of_In, int_range_elem. exact Ha.
    + apply in_map_iff. exists (test_b t). split.
      * destruct t. cbn in *. subst. reflexivity.
      * apply list_elem_of_In, int_range_elem. exact Hb.
Qed.

Lemma world_tests_length (w n : Z) :
  length (world_tests w n) = (Z.to_nat n * Z.to_nat n)%nat.
Proof.
  unfold world_tests.
  erewrite flat_map_constant_length;
    [| intros a _; rewrite length_map; apply int_range_length].
  rewrite int_range_length. reflexivity.
Qed.

Lemma sphere_table_elem (ss : list SimpleSim) :
  forall k si,
    si ∈ sphere_table k ss <->
    exists i sim, ss !! i = Some sim /\ sphere_world si = k + Z.of_nat i /\
                  0 <= sphere_offset si < numSphereObjects sim.
Proof.
  induction ss as [| s ss IH]; intros k si; cbn [sphere_table].
  - split; [intros H; inversion H | intros (i & sim & H & _); discriminate].
  - rewrite elem_of_app, world_spheres_elem, IH. split.
    + intros [[Hw Ho] | (i & sim & Hi & Hw & Ho)].
      * exists 0%nat, s. split; [reflexivity |]. split; [lia | exact Ho].
      * exists (S i), sim. split; [exact Hi |]. split; [lia | exact Ho].
    + intros ([| i] & sim & Hi & Hw & Ho).
      * left. injection Hi as ->. split; [lia | exact Ho].
      * right. exists i, sim. split; [exact Hi |]. split; [lia | exact Ho].
Qed.

Lemma test_table_elem (ss : list SimpleSim) :
  forall k t,
    t ∈ test_table k ss <->
    exists i sim, ss !! i = Some sim /\ test_world t = k + Z.of_nat i /\
                  0 <= test_a t < numSphereObjects sim /\
                  0 <= test_b t < numSphereObjects sim.
Proof.
  induction ss as [| s ss IH]; intros k t; cbn [test_table].
  - split; [intros H; inversion H | intros (i & sim & H & _); discriminate].
  - rewrite elem_of_app, world_tests_elem, IH. split.
    + intros [(Hw & Ho) | (i & sim & Hi & Hw & Ho)].
      * exists 0%nat, s. split; [reflexivity |]. split; [lia | exact Ho].
      * exists (S i), sim. split; [exact Hi |]. split; [lia | exact Ho].
    + intros ([| i] & sim & Hi & Hw & Ho).
      * left. injection Hi as ->. split; [lia | exact Ho].
      * right. exists i, sim. split; [exact Hi |]. split; [lia | exact Ho].
Qed.

Lemma sphere_table_valid (ss : list SimpleSim) :
  Forall (valid_sphere ss) (sphere_table 0 ss).
Proof.
  apply Forall_forall. intros si Hin.
  apply sphere_table_elem in Hin as (i & sim & Hi & Hw & Ho).
  exists sim. split; [| exact Ho].
  apply Array_load_Some. rewrite Hw. split; [lia |].
  rewrite Z.add_0_l, Nat2Z.id. exact Hi.
Qed.

Lemma test_table_valid (ss : list SimpleSim) :
  Forall (valid_test ss) (test_table 0 ss).
Proof.
  apply Forall_forall. intros t Hin.
  apply test_table_elem in Hin as (i & sim & Hi & Hw & Ho).
  exists sim. split; [| exact Ho].
  apply Array_load_Some. rewrite Hw. split; [lia |].
  rewrite Z.add_0_l, Nat2Z.id. exact Hi.
Qed.

(** The tables depend on the worlds through their numbers of objects only. *)
Lemma tables_shape (ss ss' : list SimpleSim) :
  Forall2 (fun s s' => numSphereObjects s' = numSphereObjects s) ss ss' ->
  forall k, sphere_table k ss' = sphere_table k ss /\
            test_table k ss' = test_table k ss.
Proof.
  induction 1 as [| s s' ss ss' Hn _ IH]; intros k; [split; reflexivity |].
  cbn [sphere_table test_table]. rewrite Hn.
  destruct (IH (k + 1)) as [-> ->]. split; reflexivity.
Qed.

Lemma world_count_app (w : Z) (l1 l2 : list (option Z)) :
  world_count w (l1 ++ l2) = world_count w l1 + world_count w l2.
Proof. unfold world_count. rewrite filter_app, length_app. lia. Qed.

Lemma world_count_cons (w : Z) (x : option Z) (l : list (option Z)) :
  world_count w (x :: l)
  = (if decide (x = Some w) then 1 else 0) + world_count w l.
Proof.
  unfold world_count. rewrite filter_cons.
  destruct (decide (x = Some w)); cbn [length]; lia.
Qed.

Lemma world_count_nonneg (w : Z) (l : list (option Z)) : 0 <= world_count w l.
Proof. unfold world_count. lia. Qed.

Lemma world_count_perm (w : Z) (l1 l2 : list (option Z)) :
  l1 ≡ₚ l2 -> world_count w l1 = world_count w l2.
Proof. intros H. unfold world_count. rewrite H. reflexivity. Qed.

Lemma world_count_none (w : Z) (l : list (option Z)) :
  Forall (fun x => x <> Some w) l -> world_count w l = 0.
Proof.
  induction 1 as [| x l Hx _ IH]; [reflexivity |].
  rewrite world_count_cons, IH. destruct (decide (x = Some w)); [contradiction | lia].
Qed.

Lemma world_count_all (w : Z) (l : list (option Z)) :
  Forall (fun x => x = Some w) l -> world_count w l = Z.of_nat (length l).
Proof.
  induction 1 as [| x l Hx _ IH]; [reflexivity |].
  rewrite world_count_cons, IH. cbn [length].
  destruct (decide (x = Some w)); [lia | contradiction].
Qed.

Lemma world_count_filter (w : Z) {A} (h : A -> option Z) (P : A -> Prop)
    `{forall x, Decision (P x)} (l : list A) :
  world_count w (map h (filter P l)) <= world_count w (map h l).
Proof.
  induction l as [| x l IH]; [reflexivity |].
  rewrite filter_cons. destruct (decide (P x)); cbn [map];
    rewrite ?world_count_cons; destruct (decide (h x = Some w)); lia.
Qed.

(** The tests of world [w] in the table are the ordered pairs of its
    objects. *)
Lemma test_table_count (ss : list SimpleSim) :
  forall k w sim,
    0 <= w - k -> ss !! Z.to_nat (w - k) = Some sim ->
    world_count w (map (fun t => Some (test_world t)) (test_table k ss))
    = Z.of_nat (Z.to_nat (numSphereObjects sim) * Z.to_nat (numSphereObjects sim)).
Proof.
  assert (Hbelow : forall ss k w, w < k ->
            world_count w (map (fun t => Some (test_world t)) (test_table k ss)) = 0).
  { intros ss' k w Hlt. apply world_count_none.
    apply Forall_forall. intros x Hx.
    apply list_elem_of_In, in_map_iff in Hx as (t & <- & Ht).
    apply list_elem_of_In, test_table_elem in Ht as (i & s & _ & Hw & _).
    intros [= Heq]. lia. }
  induction ss as [| s ss IH]; intros k w sim Hk Hsim; [discriminate |].
  cbn [test_table]. rewrite map_app, world_count_app.
  destruct (Z.eq_dec w k) as [-> | Hne].
  - replace (k - k) with 0 in Hsim by lia. injection Hsim as ->.
    rewrite Hbelow by lia. rewrite world_count_all.
    + rewrite length_map, world_tests_length. lia.
    + apply Forall_forall. intros x Hx.
      apply list_elem_of_In, in_map_iff in Hx as (t & <- & Ht).
      apply list_elem_of_In, world_tests_elem in Ht as (-> & _). reflexivity.
  - rewrite world_count_none.
    + rewrite (IH (k + 1) w sim); [reflexivity | lia |].
      replace (Z.to_nat (w - k)) with (S (Z.to_nat (w - (k + 1)))) in Hsim by lia.
      exact Hsim.
    + apply Forall_forall. intros x Hx.
      apply list_elem_of_In, in_map_iff in Hx as (t & <- & Ht).
      apply list_elem_of_In, world_tests_elem in Ht as (Hw & _).
      intros [= Heq]. lia.
Qed.


(** *** Worlds during an epoch *)

Lemma Forall2_update {A B} (R : A -> B -> Prop) (l : list A) (k : list B)
    (i : nat) (x : A) (y' : B) :
  Forall2 R l k -> l !! i = Some x -> R x y' -> Forall2 R l (<[i := y']> k).
Proof.
  intros HF Hx HR. rewrite <- (list_insert_id l i x) by assumption.
  apply Forall2_insert; assumption.
Qed.

Lemma world_kept_step (sim0 sim sim' : SimpleSim) :
  world_kept sim0 sim -> same_shape sim sim' -> sim_ok sim' ->
  world_kept sim0 sim'.
Proof.
  intros [Hs _] Hs' Hok. split; [| exact Hok].
  eapply same_shape_trans; eassumption.
Qed.

Lemma world_kept_refl (ss : list SimpleSim) :
  Forall unified_ready ss -> Forall2 world_kept ss ss.
Proof.
  intros H. apply Forall_Forall2_diag. eapply Forall_impl; [exact H |].
  intros s (Hok & _). split; [apply same_shape_refl | exact Hok].
Qed.

(** The world an index names, in the worlds as they are now. *)
Lemma world_now (ss0 ss : list SimpleSim) (w : Z) (sim0 : SimpleSim) :
  Forall2 world_kept ss0 ss -> Array.load ss0 w = Some sim0 ->
  exists sim, Array.load ss w = Some sim /\ world_kept sim0 sim /\
              ss0 !! Z.to_nat w = Some sim0 /\
              0 <= w < Z.of_nat (length ss).
Proof.
  intros HF Hl. apply Array_load_Some in Hl as [Hw Hl].
  destruct (Forall2_lookup_l _ _ _ _ _ HF Hl) as (sim & Hsim & Hk).
  exists sim. split; [apply Array_load_Some; auto |].
  split; [exact Hk |]. split; [exact Hl |].
  apply lookup_lt_Some in Hsim. lia.
Qed.

Lemma same_tables_refl (mgr : SimManager) : same_tables mgr mgr.
Proof. unfold same_tables. auto 10. Qed.

Lemma same_tables_trans (m1 m2 m3 : SimManager) :
  same_tables m1 m2 -> same_tables m2 m3 -> same_tables m1 m3.
Proof.
  unfold same_tables.
  intros (A1 & A2 & A3 & A4 & A5 & A6 & A7) (B1 & B2 & B3 & B4 & B5 & B6 & B7).
  repeat split; congruence.
Qed.

(** *** Preprocess *)

Lemma PreprocessSystem_run_returns (ss0 : list SimpleSim) (mgr : SimManager)
    (off : Z) (si : SphereIndex) :
  Forall2 world_kept ss0 (sims mgr) ->
  Array.load (sphereIndices mgr) off = Some si -> valid_sphere ss0 si ->
  exists sim sim',
    Array.load (sims mgr) (sphere_world si) = Some sim /\
    preprocessObject sim (sphere_offset si) = Some sim' /\
    same_shape sim sim' /\ sim_ok sim' /\ numContacts sim' = numContacts sim /\
    PreprocessSystem_run mgr off
    = Some (set_sims (if off =? 0 then set_narrow_numInvocations mgr 0 else mgr)
                     (<[Z.to_nat (sphere_world si) := sim']> (sims mgr))).
Proof.
  intros HF Hsi (sim0 & Hw & Ho).
  destruct (world_now _ _ _ _ HF Hw) as (sim & Hsim & [[Hn Hl] Hok] & _ & Hin).
  destruct (preprocessObject_returns sim (sphere_offset si) Hok)
    as (sim' & Hpre & Hok' & Hc & Hsh); [rewrite Hn; exact Ho |].
  exists sim, sim'. do 5 (split; [assumption |]).
  unfold PreprocessSystem_run.
  destruct (off =? 0);
    cbn [sphereIndices sims set_narrow_numInvocations];
    rewrite Hsi; cbn [mbind option_bind]; rewrite Hsim;
    cbn [mbind option_bind]; rewrite Hpre; cbn [mbind option_bind];
    rewrite Array_store_in_range by exact Hin; reflexivity.
Qed.

Lemma preprocess_phase (ss0 : list SimpleSim) (l : list Z) :
  forall mgr,
    Forall2 world_kept ss0 (sims mgr) ->
    Forall (fun s => numContacts s = 0) (sims mgr) ->
    sphereIndices mgr = sphere_table 0 ss0 ->
    Forall (fun i => 0 <= i < Z.of_nat (length (sphereIndices mgr))) l ->
    exists mgr',
      Array.for_each PreprocessSystem_run mgr l = Some mgr' /\
      Forall2 world_kept ss0 (sims mgr') /\
      Forall (fun s => numContacts s = 0) (sims mgr') /\
      same_tables mgr mgr' /\
      candidatePairs mgr' = candidatePairs mgr.
Proof.
  induction l as [| off l IH]; intros mgr HF Hz Htab Hin.
  - exists mgr. split; [reflexivity |]. split; [exact HF |].
    split; [exact Hz |]. split; [apply same_tables_refl | reflexivity].
  - apply Forall_cons in Hin as [Hoff Hin].
    destruct (Array_load_in_range (sphereIndices mgr) off Hoff) as [si Hsi].
    assert (Hvalid : valid_sphere ss0 si).
    { pose proof (sphere_table_valid ss0) as Hv. rewrite <- Htab in Hv.
      rewrite Forall_forall in Hv. apply Hv.
      apply Array_load_Some in Hsi as [_ Hsi].
      eapply list_elem_of_lookup_2; exact Hsi. }
    destruct (PreprocessSystem_run_returns ss0 mgr off si HF Hsi Hvalid)
      as (sim & sim' & Hsim & _ & Hsh & Hok' & Hc & Hrun).
    pose proof Hvalid as (sim0 & Hw0 & _).
    destruct (world_now _ _ _ _ HF Hw0) as (sim1 & Hsim1 & Hk & Hl0 & _).
    rewrite Hsim in Hsim1. injection Hsim1 as <-.
    set (mgr1 := set_sims _ _) in Hrun.
    assert (Hs1 : sims mgr1 = <[Z.to_nat (sphere_world si) := sim']> (sims mgr))
      by reflexivity.
    assert (Ht1 : same_tables mgr mgr1 /\ candidatePairs mgr1 = candidatePairs mgr).
    { unfold mgr1. destruct (off =? 0); split;
        try reflexivity; unfold same_tables; cbn; auto 10. }
    destruct Ht1 as [Ht1 Hcp1].
    destruct (IH mgr1) as (mgr' & Hrun' & HF' & Hz' & Ht' & Hcp').
    + rewrite Hs1. eapply Forall2_update; [exact HF | exact Hl0 |].
      eapply world_kept_step; eassumption.
    + rewrite Hs1. apply Forall_insert; [exact Hz |].
      apply Array_load_Some in Hsim as [_ Hsim].
      rewrite Forall_forall in Hz. rewrite Hc. apply Hz.
      eapply list_elem_of_lookup_2; exact Hsim.
    + destruct Ht1 as (_ & _ & _ & _ & -> & _). exact Htab.
    + destruct Ht1 as (_ & _ & _ & _ & -> & _). exact Hin.
    + exists mgr'. cbn [Array.for_each]. rewrite Hrun. cbn [mbind option_bind].
      split; [exact Hrun' |]. split; [exact HF' |]. split; [exact Hz' |].
      split; [eapply same_tables_trans; eassumption | congruence].
Qed.


(** *** Broadphase *)

Lemma BroadphaseSystem_run_tables (mgr mgr' : SimManager) (off : Z) :
  BroadphaseSystem_run mgr off = Some mgr' -> same_tables mgr mgr'.
Proof.
  unfold BroadphaseSystem_run. intros H.
  apply bind_Some in H as (test & _ & H).
  apply bind_Some in H as (sim & _ & H).
  apply bind_Some in H as ([|] & _ & H).
  - cbn [atomic_fetch_add] in H.
    apply bind_Some in H as (cp & Hcp & H). injection H as <-.
    apply Array_store_length in Hcp.
    unfold same_tables. cbn. auto 10.
  - injection H as <-. apply same_tables_refl.
Qed.

Lemma broadphase_tables (l : list Z) :
  forall mgr mgr',
    Array.for_each BroadphaseSystem_run mgr l = Some mgr' ->
    same_tables mgr mgr'.
Proof.
  induction l as [| off l IH]; intros mgr mgr' H.
  - injection H as <-. apply same_tables_refl.
  - cbn [Array.for_each] in H. apply bind_Some in H as (m1 & H1 & H).
    eapply same_tables_trans; [eapply BroadphaseSystem_run_tables; exact H1 |].
    apply IH. exact H.
Qed.

Lemma valid_test_now (ss0 : list SimpleSim) (mgr : SimManager) (off : Z) :
  Forall2 world_kept ss0 (sims mgr) ->
  testIndices mgr = test_table 0 ss0 ->
  0 <= off < Z.of_nat (length (testIndices mgr)) ->
  exists test sim,
    Array.load (testIndices mgr) off = Some test /\
    Array.load (sims mgr) (test_world test) = Some sim /\
    sim_ok sim /\
    0 <= test_a test < numSphereObjects sim /\
    0 <= test_b test < numSphereObjects sim.
Proof.
  intros HF Htab Hoff.
  destruct (Array_load_in_range (testIndices mgr) off Hoff) as [test Ht].
  assert (Hvalid : valid_test ss0 test).
  { pose proof (test_table_valid ss0) as Hv. rewrite <- Htab in Hv.
    rewrite Forall_forall in Hv. apply Hv.
    apply Array_load_Some in Ht as [_ Ht].
    eapply list_elem_of_lookup_2; exact Ht. }
  destruct Hvalid as (sim0 & Hw0 & Ha & Hb).
  destruct (world_now _ _ _ _ HF Hw0) as (sim & Hsim & [[Hn _] Hok] & _).
  exists test, sim. rewrite Hn. auto 10.
Qed.

Lemma broadphase_phase (ss0 : list SimpleSim) (l : list Z) (mgr : SimManager) :
  Forall2 world_kept ss0 (sims mgr) ->
  testIndices mgr = test_table 0 ss0 ->
  Forall (fun i => 0 <= i < Z.of_nat (length (testIndices mgr))) l ->
  narrow_numInvocations mgr = 0 ->
  Z.of_nat (length l) <= Z.of_nat (length (candidatePairs mgr)) ->
  Z.of_nat (length l) < 2 ^ 32 ->
  exists mgr',
    Array.for_each BroadphaseSystem_run mgr l = Some mgr' /\
    sims mgr' = sims mgr /\ same_tables mgr mgr' /\
    let hits := filter (overlapping mgr) l in
    narrow_numInvocations mgr' = Z.of_nat (length hits) /\
    forall i off, hits !! i = Some off ->
      exists test,
        Array.load (testIndices mgr) off = Some test /\
        Array.load (candidatePairs mgr') (Z.of_nat i) = Some (pair_of test).
Proof.
  intros HF Htab Hin Hzero Hroom Hfit.
  destruct (broadphase_returns l mgr) as [mgr' Hrun]; [| lia | lia | lia |].
  { eapply Forall_impl; [exact Hin |]. intros off Hoff.
    apply (valid_test_now ss0); assumption. }
  exists mgr'. split; [exact Hrun |].
  pose proof (broadphase_claims l mgr mgr' ltac:(lia) ltac:(lia) Hrun) as Hc.
  cbv zeta in Hc. destruct Hc as (Hs & _ & Hn & _ & _ & _ & Hslots).
  split; [exact Hs |]. split; [eapply broadphase_tables; exact Hrun |].
  cbv zeta. split; [lia |].
  intros i off Hi. destruct (Hslots i off Hi) as (test & Hbt & Hload).
  exists test. rewrite Hzero, Z.add_0_l in Hload. split; [| exact Hload].
  unfold broad_test in Hbt.
  destruct (Array.load (testIndices mgr) off) as [t |]; [| discriminate].
  cbn [mbind option_bind] in Hbt.
  apply bind_Some in Hbt as (sim & _ & Hbt).
  apply bind_Some in Hbt as (ov & _ & Hbt).
  injection Hbt as -> _. reflexivity.
Qed.


(** *** Narrowphase *)

Lemma narrowphase_phase (ss0 : list SimpleSim) (l : list Z) :
  forall mgr,
    Forall unified_ready ss0 ->
    Forall2 world_kept ss0 (sims mgr) ->
    Forall (fun i => exists c,
              Array.load (candidatePairs mgr) i = Some c /\
              valid_test ss0 (mkTestIndex (pair_world c) (pair_a c) (pair_b c)))
           l ->
    (forall w sim,
        Array.load (sims mgr) w = Some sim ->
        numContacts sim
        + world_count w (map (slot_world (candidatePairs mgr)) l)
        <= numSphereObjects sim * numSphereObjects sim) ->
    exists mgr',
      Array.for_each (NarrowphaseSystem_run MADRONA_GPU_MODE) mgr l = Some mgr' /\
      Forall2 world_kept ss0 (sims mgr') /\
      same_tables mgr mgr' /\
      candidatePairs mgr' = candidatePairs mgr /\
      narrow_numInvocations mgr' = narrow_numInvocations mgr.
Proof.
  induction l as [| i l IH]; intros mgr Hready HF Hvalid Hcount.
  - exists mgr. split; [reflexivity |]. split; [exact HF |].
    split; [apply same_tables_refl | split; reflexivity].
  - apply Forall_cons in Hvalid as [(c & Hc & sim0 & Hw0 & Ha & Hb) Hvalid].
    cbn [test_world test_a test_b] in Hw0, Ha, Hb.
    destruct (world_now _ _ _ _ HF Hw0)
      as (sim & Hsim & [[Hn Hl] Hok] & Hl0 & Hin).
    assert (Hr0 : unified_ready sim0).
    { rewrite Forall_forall in Hready. apply Hready.
      eapply list_elem_of_lookup_2; exact Hl0. }
    destruct Hr0 as (_ & _ & Hn0 & Hroom0).
    pose proof (Hcount _ _ Hsim) as Hcw. cbn [map] in Hcw.
    rewrite world_count_cons in Hcw.
    assert (Hslot : slot_world (candidatePairs mgr) i = Some (pair_world c))
      by (unfold slot_world; rewrite Hc; reflexivity).
    rewrite Hslot in Hcw.
    destruct (decide (Some (pair_world c) = Some (pair_world c)));
      [| contradiction].
    pose proof (world_count_nonneg (pair_world c)
                  (map (slot_world (candidatePairs mgr)) l)) as Hnn.
    destruct (narrowPhase_returns MADRONA_GPU_MODE true sim (pair_a c) (pair_b c) Hok)
      as (sim' & Hnp & Hok' & Hc' & Hsh'); [lia | lia | lia | lia |].
    set (mgr1 := set_sims (log_access mgr (PairRead i))
                          (<[Z.to_nat (pair_world c) := sim']> (sims mgr))).
    assert (Hrun : NarrowphaseSystem_run MADRONA_GPU_MODE mgr i = Some mgr1).
    { unfold NarrowphaseSystem_run. rewrite Hc. cbn [mbind option_bind].
      cbn [sims log_access]. rewrite Hsim. cbn [mbind option_bind].
      rewrite Hnp. cbn [mbind option_bind].
      rewrite Array_store_in_range by exact Hin. reflexivity. }
    destruct (IH mgr1 Hready) as (mgr' & Hrun' & HF' & Ht' & Hcp' & Hnn').
    + cbn [sims mgr1 set_sims]. eapply Forall2_update; [exact HF | exact Hl0 |].
      eapply world_kept_step; [split; [split |]; eassumption | exact Hsh' | exact Hok'].
    + exact Hvalid.
    + cbn [sims mgr1 set_sims candidatePairs log_access].
      intros w s Hs. apply Array_load_Some in Hs as [Hw0' Hs].
      destruct (Z.eq_dec w (pair_world c)) as [-> | Hne].
      * rewrite list_lookup_insert_eq in Hs by lia. injection Hs as <-.
        destruct Hsh' as [-> _]. lia.
      * rewrite list_lookup_insert_ne in Hs by lia.
        assert (Hs' : Array.load (sims mgr) w = Some s)
          by (apply Array_load_Some; auto).
        pose proof (Hcount _ _ Hs') as Hcw'. cbn [map] in Hcw'.
        rewrite world_count_cons, Hslot in Hcw'.
        destruct (decide (Some (pair_world c) = Some w)) as [[= Heq] |];
          [congruence | lia].
    + exists mgr'. cbn [Array.for_each]. rewrite Hrun. cbn [mbind option_bind].
      split; [exact Hrun' |]. split; [exact HF' |].
      split; [| split; [exact Hcp' | exact Hnn']].
      eapply same_tables_trans; [| exact Ht'].
      unfold same_tables. cbn. auto 10.
Qed.

(** *** Solver *)

Lemma solver_phase (ss0 : list SimpleSim) (l : list Z) :
  forall mgr,
    Forall2 world_kept ss0 (sims mgr) ->
    Forall (fun w => 0 <= w < Z.of_nat (length (sims mgr))) l ->
    exists mgr',
      Array.for_each SolverSystem_run mgr l = Some mgr' /\
      Forall2 world_kept ss0 (sims mgr') /\
      same_tables mgr mgr' /\
      narrow_numInvocations mgr' = narrow_numInvocations mgr /\
      forall w sim',
        Array.load (sims mgr') w = Some sim' ->
        w ∈ l \/ (exists sim, Array.load (sims mgr) w = Some sim /\
                              numContacts sim = 0) ->
        numContacts sim' = 0.
Proof.
  induction l as [| v l IH]; intros mgr HF Hin.
  - exists mgr. split; [reflexivity |]. split; [exact HF |].
    split; [apply same_tables_refl |]. split; [reflexivity |].
    intros w sim' Hs [Hw | (sim & Hsim & Hz)]; [inversion Hw |].
    rewrite Hs in Hsim. injection Hsim as <-. exact Hz.
  - apply Forall_cons in Hin as [Hv Hin].
    destruct (Array_load_in_range (sims mgr) v Hv) as [sim Hsim].
    pose proof Hsim as Hsim2. apply Array_load_Some in Hsim2 as [_ Hsim2].
    destruct (Forall2_lookup_r _ _ _ _ _ HF Hsim2) as (sim0 & Hl0 & Hk).
    destruct (SolverSystem_run_returns mgr v sim Hsim (proj2 Hk))
      as (mgr1 & sim1 & Hrun & Hsim1 & Hok1 & Hz1 & Hsh1).
    assert (Heff : sims mgr1 = <[Z.to_nat v := sim1]> (sims mgr) /\
                   same_tables mgr mgr1 /\
                   narrow_numInvocations mgr1 = narrow_numInvocations mgr).
    { unfold SolverSystem_run in Hrun. rewrite Hsim in Hrun.
      cbn [mbind option_bind] in Hrun.
      apply bind_Some in Hrun as (s2 & Hs2 & Hrun).
      apply bind_Some in Hrun as (ss & Hss & Hrun). injection Hrun as <-.
      apply Array_store_Some in Hss as [_ ->].
      cbn [sims set_sims] in Hsim1.
      apply Array_load_Some in Hsim1 as [_ Hsim1].
      rewrite list_lookup_insert_eq in Hsim1 by lia. injection Hsim1 as <-.
      split; [reflexivity |]. split; [| reflexivity].
      unfold same_tables. cbn. auto 10. }
    destruct Heff as (Hs1 & Ht1 & Hn1).
    destruct (IH mgr1) as (mgr' & Hrun' & HF' & Ht' & Hn' & Hzero').
    + rewrite Hs1. eapply Forall2_update; [exact HF | exact Hl0 |].
      eapply world_kept_step; eassumption.
    + rewrite Hs1, length_insert. exact Hin.
    + exists mgr'. cbn [Array.for_each]. rewrite Hrun. cbn [mbind option_bind].
      split; [exact Hrun' |]. split; [exact HF' |].
      split; [eapply same_tables_trans; eassumption |].
      split; [congruence |].
      intros w sim' Hs Hcase. apply (Hzero' w sim' Hs).
      destruct (Z.eq_dec w v) as [-> | Hne].
      * right. exists sim1. split; [exact Hsim1 | exact Hz1].
      * destruct Hcase as [Hw | (s & Hsw & Hz)].
        -- left. apply elem_of_cons in Hw as [? | ?]; [contradiction | assumption].
        -- right. exists s. split; [| exact Hz].
           apply Array_load_Some in Hsw as [Hw0 Hsw].
           apply Array_load_Some. split; [exact Hw0 |].
           rewrite Hs1, list_lookup_insert_ne by lia. exact Hsw.
Qed.


(** *** A whole epoch *)

Lemma dispatch_in_range (order : Z -> list Z) (n : Z) :
  dispatch_order order -> Forall (fun i => 0 <= i < n) (order n).
Proof.
  intros Hord. apply Forall_forall. intros i Hi.
  rewrite (Hord n) in Hi. apply int_range_elem in Hi. exact Hi.
Qed.

Lemma dispatch_length (order : Z -> list Z) (n : Z) :
  dispatch_order order -> length (order n) = Z.to_nat n.
Proof. intros Hord. rewrite (Hord n). apply int_range_length. Qed.

Lemma sphere_table_nil (ss : list SimpleSim) :
  forall k, sphere_table k ss = [] -> test_table k ss = [].
Proof.
  induction ss as [| s ss IH]; intros k H; [reflexivity |].
  cbn [sphere_table test_table] in *.
  apply app_eq_nil in H as [Hs Hrest].
  rewrite (IH _ Hrest), app_nil_r.
  apply nil_length_inv. rewrite world_tests_length.
  apply (f_equal length) in Hs. unfold world_spheres in Hs.
  rewrite length_map, int_range_length in Hs. cbn [length] in Hs. lia.
Qed.

Lemma shapes_kept (ss0 ss : list SimpleSim) :
  Forall2 world_kept ss0 ss ->
  Forall2 (fun s s' => numSphereObjects s' = numSphereObjects s) ss0 ss.
Proof.
  intros H. eapply Forall2_impl; [exact H |].
  intros s s' [[Hn _] _]. exact Hn.
Qed.

(** The slots the broadphase filled name tests of the table, and no
    world has more slots than it has tests. *)
Lemma slots_per_world (ss0 : list SimpleSim) (tests : list TestIndex)
    (pairs : list CandidatePair) (offs hits l : list Z) (w : Z)
    (sim0 : SimpleSim) :
  tests = test_table 0 ss0 ->
  offs ≡ₚ int_range (Z.of_nat (length tests)) ->
  (exists P (D : forall x, Decision (P x)), hits = filter P offs) ->
  (forall i off, hits !! i = Some off ->
     exists test, Array.load tests off = Some test /\
                  Array.load pairs (Z.of_nat i) = Some (pair_of test)) ->
  l ≡ₚ int_range (Z.of_nat (length hits)) ->
  Array.load ss0 w = Some sim0 -> 0 <= numSphereObjects sim0 ->
  world_count w (map (slot_world pairs) l)
  <= numSphereObjects sim0 * numSphereObjects sim0.
Proof.
  intros Htab Hoffs (P & D & Hhits) Hslots Hl Hw Hn.
  rewrite (world_count_perm w _ (map (slot_world pairs)
                                     (int_range (Z.of_nat (length hits)))))
    by (apply Permutation_map; exact Hl).
  assert (Hpt : map (slot_world pairs) (int_range (Z.of_nat (length hits)))
                = map (offset_world tests) hits).
  { apply list_eq. intros k.
    change (map ?f ?x) with (f <$> x). rewrite !list_lookup_fmap.
    destruct (hits !! k) as [off |] eqn:Hk.
    - pose proof (lookup_lt_Some _ _ _ Hk) as Hlt.
      rewrite int_range_lookup by lia. cbn [fmap option_fmap option_map].
      destruct (Hslots k off Hk) as (test & Ht & Hp).
      unfold slot_world, offset_world. rewrite Ht, Hp. reflexivity.
    - pose proof (lookup_ge_None_1 _ _ Hk) as Hge.
      rewrite (lookup_ge_None_2 (int_range _)); [reflexivity |].
      rewrite int_range_length. lia. }
  rewrite Hpt, Hhits.
  etransitivity; [apply world_count_filter |].
  rewrite (world_count_perm w _ (map (offset_world tests)
                                     (int_range (Z.of_nat (length tests)))))
    by (apply Permutation_map; exact Hoffs).
  assert (Hall : map (offset_world tests) (int_range (Z.of_nat (length tests)))
                 = map (fun t => Some (test_world t)) tests).
  { unfold offset_world.
    rewrite <- (map_map (Array.load tests) (fmap test_world)), load_all.
    rewrite map_map. reflexivity. }
  rewrite Hall, Htab.
  apply Array_load_Some in Hw as [Hw0 Hw].
  rewrite (test_table_count ss0 0 w sim0) by (rewrite ?Z.sub_0_r; auto; lia).
  nia.
Qed.


Lemma ready_again (ss0 ss : list SimpleSim) :
  Forall unified_ready ss0 -> Forall2 world_kept ss0 ss ->
  Forall (fun s => numContacts s = 0) ss -> Forall unified_ready ss.
Proof.
  intros Hready HF Hz. apply Forall_lookup. intros k sim Hk.
  destruct (Forall2_lookup_r _ _ _ _ _ HF Hk) as (sim0 & Hk0 & [[Hn Hl] Hok]).
  rewrite Forall_lookup in Hready, Hz.
  destruct (Hready _ _ Hk0) as (_ & _ & Hn0 & Hroom0).
  split; [exact Hok |]. split; [exact (Hz _ _ Hk) |].
  rewrite Hn, Hl. split; assumption.
Qed.

(** The four Systems one after the other, each in any order. *)
Lemma split_epoch_returns (mgr : SimManager) (pre broad narrow solve : Z -> list Z)
    (Hready : mgr_ready mgr)
    (Hpre : dispatch_order pre) (Hbroad : dispatch_order broad)
    (Hnarrow : dispatch_order narrow) (Hsolve : dispatch_order solve) :
  exists mgr',
    split_epoch MADRONA_GPU_MODE pre broad narrow solve mgr = Some mgr' /\
    mgr_ready mgr' /\
    Forall2 same_shape (sims mgr) (sims mgr').
Proof.
  destruct Hready as [Hworlds Hsph Htst Hpairs Hnpre Hnbroad Hnsolve Hnuni
                        Hsmall Hnarrow0].
  set (ss0 := sims mgr) in *.
  pose proof (world_kept_refl ss0 Hworlds) as HF0.
  assert (Hz0 : Forall (fun s => numContacts s = 0) ss0).
  { eapply Forall_impl; [exact Hworlds |]. intros s (_ & Hz & _). exact Hz. }
  unfold split_epoch, run_system.
  (* preprocess *)
  destruct (preprocess_phase ss0 (pre (preprocess_numInvocations mgr)) mgr
              HF0 Hz0 Hsph)
    as (mgr1 & Hrun1 & HF1 & Hz1 & Ht1 & Hcp1).
  { rewrite Hnpre. apply dispatch_in_range. exact Hpre. }
  rewrite Hrun1. cbn [mbind option_bind].
  assert (Hn1 : narrow_numInvocations mgr1 = 0).
  { destruct (preprocess_resets_narrow _ _ _ Hrun1) as (_ & Hin & Hnin).
    destruct (decide (0 ∈ pre (preprocess_numInvocations mgr))) as [H0 | H0].
    - apply Hin, list_elem_of_In, H0.
    - rewrite Hnin by (intros Hx; apply H0, list_elem_of_In, Hx).
      apply Hnarrow0.
      rewrite (Hpre _), int_range_elem, Hnpre in H0.
      apply nil_length_inv. lia. }
  destruct Ht1 as (T1 & T2 & T3 & T4 & T5 & T6 & T7).
  (* broadphase *)
  destruct (broadphase_phase ss0 (broad (broad_numInvocations mgr1)) mgr1 HF1)
    as (mgr2 & Hrun2 & Hs2 & Ht2 & Hhits); try assumption.
  { congruence. }
  { rewrite T2, Hnbroad, T6. apply dispatch_in_range. exact Hbroad. }
  { rewrite (dispatch_length _ _ Hbroad), T2, Hnbroad, T7, Hpairs. lia. }
  { rewrite (dispatch_length _ _ Hbroad), T2, Hnbroad. lia. }
  rewrite Hrun2. cbn [mbind option_bind]. cbv zeta in Hhits.
  destruct Hhits as [Hn2 Hslots].
  set (hits := filter (overlapping mgr1) (broad (broad_numInvocations mgr1))) in *.
  destruct Ht2 as (U1 & U2 & U3 & U4 & U5 & U6 & U7).
  (* narrowphase *)
  destruct (narrowphase_phase ss0 (narrow (narrow_numInvocations mgr2)) mgr2
              Hworlds)
    as (mgr3 & Hrun3 & HF3 & Ht3 & Hcp3 & Hn3).
  { rewrite Hs2. exact HF1. }
  { apply Forall_forall. intros i Hi.
    rewrite (Hnarrow _), int_range_elem, Hn2 in Hi.
    destruct (lookup_lt_is_Some_2 hits (Z.to_nat i)) as [off Hoff]; [lia |].
    destruct (Hslots _ _ Hoff) as (test & Ht & Hp).
    rewrite Z2Nat.id in Hp by lia.
    exists (pair_of test). split; [exact Hp |].
    pose proof (test_table_valid ss0) as Hv.
    rewrite Forall_forall in Hv.
    replace (mkTestIndex _ _ _) with test by (destruct test; reflexivity).
    apply Hv. rewrite <- Htst, <- T6.
    apply Array_load_Some in Ht as [_ Ht].
    eapply list_elem_of_lookup_2; exact Ht. }
  { intros w sim Hsim. rewrite Hs2 in Hsim.
    pose proof Hsim as Hsim'. apply Array_load_Some in Hsim' as [Hw0 Hsim'].
    destruct (Forall2_lookup_r _ _ _ _ _ HF1 Hsim')
      as (sim0 & Hl0 & [[Hsn _] _]).
    assert (Hr0 : unified_ready sim0).
    { rewrite Forall_forall in Hworlds. apply Hworlds.
      eapply list_elem_of_lookup_2; exact Hl0. }
    destruct Hr0 as (_ & _ & Hn0 & _).
    rewrite Forall_forall in Hz1.
    rewrite (Hz1 sim) by (eapply list_elem_of_lookup_2; exact Hsim').
    rewrite Z.add_0_l, Hsn.
    apply (slots_per_world ss0 (testIndices mgr1) _
             (broad (broad_numInvocations mgr1)) hits).
    - congruence.
    - rewrite T2, Hnbroad, T6. apply Hbroad.
    - exists (overlapping mgr1), _. reflexivity.
    - exact Hslots.
    - rewrite Hn2. apply Hnarrow.
    - apply Array_load_Some. auto.
    - lia. }
  rewrite Hrun3. cbn [mbind option_bind].
  destruct Ht3 as (V1 & V2 & V3 & V4 & V5 & V6 & V7).
  (* solver *)
  destruct (solver_phase ss0 (solve (solver_numInvocations mgr3)) mgr3 HF3)
    as (mgr4 & Hrun4 & HF4 & Ht4 & Hn4 & Hzero4).
  { rewrite V3, U3, T3, Hnsolve.
    rewrite <- (Forall2_length _ _ _ HF3).
    apply dispatch_in_range. exact Hsolve. }
  destruct Ht4 as (W1 & W2 & W3 & W4 & W5 & W6 & W7).
  exists mgr4. split; [exact Hrun4 |].
  pose proof (tables_shape _ _ (shapes_kept _ _ HF4) 0) as [Hst Htt].
  split.
  - constructor.
    + apply (ready_again ss0); [exact Hworlds | exact HF4 |].
      apply Forall_lookup. intros k sim' Hk.
      apply (Hzero4 (Z.of_nat k)).
      * apply Array_load_Some. rewrite Nat2Z.id. split; [lia | exact Hk].
      * left. rewrite (Hsolve _), int_range_elem.
        rewrite V3, U3, T3, Hnsolve.
        apply lookup_lt_Some in Hk.
        rewrite <- (Forall2_length _ _ _ HF4) in Hk. lia.
    + rewrite Hst. congruence.
    + rewrite Htt. congruence.
    + congruence.
    + congruence.
    + congruence.
    + rewrite <- (Forall2_length _ _ _ HF4). congruence.
    + rewrite <- (Forall2_length _ _ _ HF4). congruence.
    + congruence.
    + intros Hnil.
      assert (Hsn : sphere_table 0 ss0 = []) by congruence.
      apply sphere_table_nil in Hsn.
      rewrite Hn4, Hn3, Hn2.
      assert (Hb : broad (broad_numInvocations mgr1) = []).
      { apply nil_length_inv.
        rewrite (dispatch_length _ _ Hbroad), T2, Hnbroad, Htst, Hsn.
        reflexivity. }
      unfold hits. rewrite Hb. reflexivity.
  - eapply Forall2_impl; [exact HF4 |]. intros s s' [Hsh _]. exact Hsh.
Qed.

(** X17. An epoch of the four Systems, each dispatched in any order once
    the System before it is done, makes no access outside an array on a
    manager that is ready for an epoch, and leaves the manager ready for
    the next one: no world gets more contacts than its [contacts] block
    holds, and no more pairs are claimed than [candidatePairs] holds. *)
Theorem split_epoch_runs (mgr : SimManager) (pre broad narrow solve : Z -> list Z)
    (Hready : mgr_ready mgr)
    (Hpre : dispatch_order pre) (Hbroad : dispatch_order broad)
    (Hnarrow : dispatch_order narrow) (Hsolve : dispatch_order solve) :
  exists mgr',
    split_epoch MADRONA_GPU_MODE pre broad narrow solve mgr = Some mgr' /\
    mgr_ready mgr' /\
    Forall2 same_shape (sims mgr) (sims mgr').
Proof.
  destruct (split_epoch_returns mgr pre broad narrow solve)
    as (mgr' & Hrun & Hr & Hs); try assumption.
  exists mgr'. split; [exact Hrun |]. split; [exact Hr | exact Hs].
Qed.


(** *** The unified System *)

Lemma for_each_preserves {S I} (body : S -> I -> option S) (R : S -> S -> Prop)
    (l : list I) :
  (forall s, R s s) -> (forall a b c, R a b -> R b c -> R a c) ->
  (forall s i s', body s i = Some s' -> R s s') ->
  forall s s', Array.for_each body s l = Some s' -> R s s'.
Proof.
  intros Hrefl Htrans Hstep. induction l as [| i l IH]; intros s s' H.
  - injection H as <-. apply Hrefl.
  - cbn [Array.for_each] in H. apply bind_Some in H as (s1 & H1 & H).
    eapply Htrans; [eapply Hstep; exact H1 | apply IH; exact H].
Qed.

Lemma preprocessObject_shape (sim sim' : SimpleSim) (i : Z) :
  preprocessObject sim i = Some sim' -> same_shape sim sim'.
Proof.
  unfold preprocessObject. intros H.
  apply bind_Some in H as (o & _ & H).
  apply bind_Some in H as (objs & _ & H). injection H as <-.
  split; reflexivity.
Qed.

Lemma narrowPhase_shape (use_atomic : bool) (sim sim' : SimpleSim) (i j : Z) :
  narrowPhase MADRONA_GPU_MODE use_atomic sim i j = Some sim' ->
  same_shape sim sim'.
Proof.
  intros H. apply narrowPhase_effect in H as (a & b & _ & _ & _ & ->).
  split; cbn [numSphereObjects contacts]; [reflexivity |].
  apply length_insert.
Qed.

Lemma processContact_shape (sim sim' : SimpleSim) (i : Z) :
  processContact sim i = Some sim' -> same_shape sim sim'.
Proof.
  unfold processContact. intros H.
  apply bind_Some in H as (c & _ & H).
  apply bind_Some in H as (a & _ & H).
  apply bind_Some in H as (b0 & _ & H).
  apply bind_Some in H as (objs & _ & H).
  apply bind_Some in H as (b & _ & H).
  apply bind_Some in H as (objs' & _ & H). injection H as <-.
  split; reflexivity.
Qed.

Lemma UnifiedSystem_run_shape (mgr mgr' : SimManager) (w : Z) :
  UnifiedSystem_run MADRONA_GPU_MODE mgr w = Some mgr' ->
  exists sim sim',
    Array.load (sims mgr) w = Some sim /\
    mgr' = set_sims mgr (<[Z.to_nat w := sim']> (sims mgr)) /\
    same_shape sim sim'.
Proof.
  unfold UnifiedSystem_run. intros H.
  apply bind_Some in H as (sim & Hsim & H).
  apply bind_Some in H as (s1 & H1 & H).
  apply bind_Some in H as (s2 & H2 & H).
  apply bind_Some in H as (s3 & H3 & H).
  apply bind_Some in H as (ss & Hss & H). injection H as <-.
  apply Array_store_Some in Hss as [_ ->].
  exists sim, (set_numContacts s3 (atomic_store 0)).
  split; [exact Hsim |]. split; [reflexivity |].
  apply (same_shape_trans _ s1).
  { revert H1. apply for_each_preserves;
      [apply same_shape_refl | apply same_shape_trans |].
    intros s i s'. apply preprocessObject_shape. }
  apply (same_shape_trans _ s2).
  { revert H2. apply for_each_preserves;
      [apply same_shape_refl | apply same_shape_trans |].
    intros s [i j] s'. unfold unified_pair. intros H.
    apply bind_Some in H as ([|] & _ & H).
    - eapply narrowPhase_shape; exact H.
    - injection H as <-. apply same_shape_refl. }
  apply (same_shape_trans _ s3).
  { revert H3. unfold processContacts. apply for_each_preserves;
      [apply same_shape_refl | apply same_shape_trans |].
    intros s i s'. apply processContact_shape. }
  split; reflexivity.
Qed.

Lemma unified_phase (ss0 : list SimpleSim) (l : list Z) :
  forall mgr,
    Forall2 same_shape ss0 (sims mgr) ->
    Forall unified_ready (sims mgr) ->
    Forall (fun w => 0 <= w < Z.of_nat (length (sims mgr))) l ->
    exists mgr',
      Array.for_each (UnifiedSystem_run MADRONA_GPU_MODE) mgr l = Some mgr' /\
      Forall2 same_shape ss0 (sims mgr') /\
      Forall unified_ready (sims mgr') /\
      same_tables mgr mgr' /\
      narrow_numInvocations mgr' = narrow_numInvocations mgr.
Proof.
  induction l as [| v l IH]; intros mgr HF Hready Hin.
  - exists mgr. split; [reflexivity |]. split; [exact HF |].
    split; [exact Hready |]. split; [apply same_tables_refl | reflexivity].
  - apply Forall_cons in Hin as [Hv Hin].
    destruct (Array_load_in_range (sims mgr) v Hv) as [sim Hsim].
    pose proof Hsim as Hsim2. apply Array_load_Some in Hsim2 as [_ Hsim2].
    assert (Hr : unified_ready sim).
    { rewrite Forall_forall in Hready. apply Hready.
      eapply list_elem_of_lookup_2; exact Hsim2. }
    destruct (UnifiedSystem_run_returns MADRONA_GPU_MODE mgr v sim Hsim Hr)
      as (mgr1 & sim1 & Hrun & Hsim1 & Hr1).
    destruct (UnifiedSystem_run_shape _ _ _ Hrun) as (s & s' & Hs & -> & Hsh).
    rewrite Hsim in Hs. injection Hs as <-.
    cbn [sims set_sims] in Hsim1.
    apply Array_load_Some in Hsim1 as [_ Hsim1].
    rewrite list_lookup_insert_eq in Hsim1 by lia. injection Hsim1 as ->.
    destruct (Forall2_lookup_r _ _ _ _ _ HF Hsim2) as (sim0 & Hl0 & Hk).
    destruct (IH (set_sims mgr (<[Z.to_nat v := sim1]> (sims mgr))))
      as (mgr' & Hrun' & HF' & Hr' & Ht' & Hn').
    + cbn [sims set_sims]. eapply Forall2_update; [exact HF | exact Hl0 |].
      eapply same_shape_trans; eassumption.
    + cbn [sims set_sims]. apply Forall_insert; assumption.
    + cbn [sims set_sims]. rewrite length_insert. exact Hin.
    + exists mgr'. cbn [Array.for_each]. rewrite Hrun. cbn [mbind option_bind].
      split; [exact Hrun' |]. split; [exact HF' |]. split; [exact Hr' |].
      split; [| exact Hn'].
      eapply same_tables_trans; [| exact Ht'].
      unfold same_tables. cbn. auto 10.
Qed.

(** The unified System, its invocations in any order. *)
Lemma unified_epoch_returns (mgr : SimManager) (order : Z -> list Z)
    (Hready : mgr_ready mgr) (Hord : dispatch_order order) :
  exists mgr',
    unified_epoch MADRONA_GPU_MODE order mgr = Some mgr' /\
    mgr_ready mgr' /\
    Forall2 same_shape (sims mgr) (sims mgr').
Proof.
  destruct Hready as [Hworlds Hsph Htst Hpairs Hnpre Hnbroad Hnsolve Hnuni
                        Hsmall Hnarrow0].
  unfold unified_epoch, run_system.
  destruct (unified_phase (sims mgr) (order (unified_numInvocations mgr)) mgr)
    as (mgr' & Hrun & HF & Hr & Ht & Hn).
  { apply Forall_Forall2_diag. apply Forall_forall. intros s _.
    apply same_shape_refl. }
  { exact Hworlds. }
  { rewrite Hnuni. apply dispatch_in_range. exact Hord. }
  exists mgr'. split; [exact Hrun |]. split; [| exact HF].
  destruct Ht as (T1 & T2 & T3 & T4 & T5 & T6 & T7).
  assert (Hshape : Forall2 (fun s s' => numSphereObjects s' = numSphereObjects s)
                     (sims mgr) (sims mgr')).
  { eapply Forall2_impl; [exact HF |]. intros s s' [Hs _]. exact Hs. }
  pose proof (tables_shape _ _ Hshape 0) as [Hst Htt].
  constructor.
  - exact Hr.
  - rewrite Hst. congruence.
  - rewrite Htt. congruence.
  - congruence.
  - congruence.
  - congruence.
  - rewrite <- (Forall2_length _ _ _ HF). congruence.
  - rewrite <- (Forall2_length _ _ _ HF). congruence.
  - congruence.
  - intros Hnil. rewrite Hn. apply Hnarrow0. congruence.
Qed.

(** X18. An epoch of the unified System, its invocations in any order,
    makes no access outside an array on a manager that is ready for an
    epoch, and leaves the manager ready for the next one. *)
Theorem unified_epoch_runs (mgr : SimManager) (order : Z -> list Z)
    (Hready : mgr_ready mgr) (Hord : dispatch_order order) :
  exists mgr',
    unified_epoch MADRONA_GPU_MODE order mgr = Some mgr' /\
    mgr_ready mgr' /\
    Forall2 same_shape (sims mgr) (sims mgr').
Proof.
  destruct (unified_epoch_returns mgr order) as (mgr' & Hrun & Hr & Hs);
    try assumption.
  exists mgr'. split; [exact Hrun |]. split; [exact Hr | exact Hs].
Qed.


(** *** The constructor *)

Lemma SimpleSim_ctor_returns (e : EnvInit) :
  0 <= numObjs e <= Z.of_nat (length (objsInit e)) ->
  exists sim, SimpleSim_ctor e = Some sim.
Proof.
  intros Hn. unfold SimpleSim_ctor.
  destruct (mapM (fun i => o ← Array.load (objsInit e) i;
                           Some (mkSphereObject (initPosition o) (initRotation o)
                                                AABB_invalid))
                 (int_range (numObjs e))) as [objs |] eqn:Hobjs.
  - cbn [mbind option_bind]. apply length_mapM in Hobjs.
    rewrite int_range_length in Hobjs. unfold Array.filled.
    destruct (Z.leb_spec (Z.of_nat (length objs)) (numObjs e)); [| lia].
    cbn [mbind option_bind]. eexists. reflexivity.
  - exfalso. apply eq_None_not_Some in Hobjs. apply Hobjs.
    apply mapM_is_Some. apply Forall_forall. intros i Hi.
    apply int_range_elem in Hi.
    destruct (Array_load_in_range (objsInit e) i ltac:(lia)) as [o Ho].
    unfold compose. rewrite Ho. eexists. reflexivity.
Qed.

Lemma mapM_indexed {A B} (f : A -> option B) (l : list A) (k : list B) :
  mapM f l = Some k ->
  mapM (fun i => e ← Array.load l i; f e) (int_range (Z.of_nat (length l)))
  = Some k.
Proof.
  intros H. apply mapM_Some in H. apply mapM_Some.
  apply Forall2_same_length_lookup_2.
  - rewrite int_range_length, Nat2Z.id. eapply Forall2_length; exact H.
  - intros n i y Hi Hy.
    pose proof (lookup_lt_Some _ _ _ Hi) as Hlt.
    rewrite int_range_length, Nat2Z.id in Hlt.
    rewrite int_range_lookup in Hi by lia. injection Hi as <-.
    destruct (Forall2_lookup_r _ _ _ _ _ H Hy) as (e & He & Hf).
    unfold Array.load. destruct (Z.leb_spec 0 (Z.of_nat n)); [| lia].
    rewrite Nat2Z.id, He. exact Hf.
Qed.

Lemma fold_left_u32_sum {A} (g : A -> Z) (l : list A) :
  forall a,
    0 <= a -> Forall (fun x => 0 <= g x) l ->
    a + fold_right (fun x acc => g x + acc) 0 l < 2 ^ 32 ->
    fold_left (fun acc x => u32 (acc + g x)) l a
    = a + fold_right (fun x acc => g x + acc) 0 l.
Proof.
  induction l as [| x l IH]; intros a Ha Hg Hfit; cbn [fold_left fold_right] in *.
  - lia.
  - apply Forall_cons in Hg as [Hx Hg].
    assert (0 <= fold_right (fun x acc => g x + acc) 0 l).
    { clear -Hg. induction Hg; cbn [fold_right]; lia. }
    rewrite u32_small by lia. rewrite IH by (try assumption; lia). lia.
Qed.

Lemma flat_map_ext_In {A B} (f g : A -> list B) (l : list A) :
  (forall x, In x l -> f x = g x) -> flat_map f l = flat_map g l.
Proof.
  induction l as [| x l IH]; intros H; [reflexivity |].
  cbn [flat_map]. rewrite (H x) by (left; reflexivity).
  rewrite IH; [reflexivity |]. intros y Hy. apply H. right. exact Hy.
Qed.

(** The entries the two loops of the constructor write, world by world,
    are the tables. *)
Lemma ctor_tables (b : list SimpleSim) :
  forall k : nat,
    Forall (fun s => 0 <= numSphereObjects s < 2 ^ 31) b ->
    Z.of_nat (k + length b) <= 2 ^ 31 ->
    flat_map (fun '(w, s) =>
                map (fun offset => mkSphereIndex (u32 w) (u32 offset))
                    (int_range (to_int (numSphereObjects s))))
             (combine (map Z.of_nat (seq k (length b))) b)
    = sphere_table (Z.of_nat k) b /\
    flat_map (fun '(w, s) =>
                flat_map (fun offset =>
                            map (fun other =>
                                   mkTestIndex (u32 w) (u32 offset) (u32 other))
                                (int_range (to_int (numSphereObjects s))))
                         (int_range (to_int (numSphereObjects s))))
             (combine (map Z.of_nat (seq k (length b))) b)
    = test_table (Z.of_nat k) b.
Proof.
  induction b as [| s b IH]; intros k Hn Hk; [split; reflexivity |].
  apply Forall_cons in Hn as [Hs Hn].
  cbn [length seq map combine flat_map sphere_table test_table] in *.
  destruct (IH (S k) Hn ltac:(lia)) as [IH1 IH2].
  replace (Z.of_nat k + 1) with (Z.of_nat (S k)) by lia.
  rewrite IH1, IH2, to_int_small by lia.
  rewrite (u32_small (Z.of_nat k)) by lia.
  split; f_equal.
  - unfold world_spheres. apply map_ext_in. intros o Ho.
    apply list_elem_of_In, int_range_elem in Ho.
    rewrite u32_small by lia. reflexivity.
  - unfold world_tests. apply flat_map_ext_In. intros a Ha.
    apply list_elem_of_In, int_range_elem in Ha.
    apply map_ext_in. intros o Ho.
    apply list_elem_of_In, int_range_elem in Ho.
    rewrite !u32_small by lia. reflexivity.
Qed.

Lemma tables_length (b : list SimpleSim) :
  forall k,
    Forall (fun s => 0 <= numSphereObjects s) b ->
    Z.of_nat (length (sphere_table k b))
    = fold_right (fun s acc => numSphereObjects s + acc) 0 b /\
    Z.of_nat (length (test_table k b))
    = fold_right (fun s acc => numSphereObjects s * numSphereObjects s + acc) 0 b.
Proof.
  induction b as [| s b IH]; intros k Hn; [split; reflexivity |].
  apply Forall_cons in Hn as [Hs Hn].
  cbn [sphere_table test_table fold_right].
  rewrite !length_app, world_tests_length. unfold world_spheres.
  rewrite length_map, int_range_length.
  destruct (IH (k + 1) Hn) as [IH1 IH2].
  split; [lia | nia].
Qed.

Lemma squares_same (envs : list EnvInit) (b : list SimpleSim) :
  Forall2 (fun e s => numSphereObjects s = numObjs e) envs b ->
  fold_right (fun s acc => numSphereObjects s * numSphereObjects s + acc) 0 b
  = total_tests envs.
Proof.
  induction 1 as [| e s envs b He _ IH]; [reflexivity |].
  unfold total_tests in *. cbn [fold_right]. rewrite He, IH. reflexivity.
Qed.

Lemma sum_below_squares (b : list SimpleSim) :
  Forall (fun s => 0 <= numSphereObjects s) b ->
  0 <= fold_right (fun s acc => numSphereObjects s + acc) 0 b
    <= fold_right (fun s acc => numSphereObjects s * numSphereObjects s + acc) 0 b.
Proof.
  induction 1 as [| s b Hs _ IH]; cbn [fold_right]; [lia | nia].
Qed.

(** The constructor returns, and what it returns is ready for an epoch. *)
Lemma SimManager_ctor_builds (env_inits : list EnvInit) (num_worlds : Z)
    (Hworlds : num_worlds = Z.of_nat (length env_inits))
    (Hfew : num_worlds < 2 ^ 31)
    (Henvs : Forall (fun e => 0 <= numObjs e <= Z.of_nat (length (objsInit e)) /\
                              numObjs e * numObjs e < 2 ^ 31) env_inits)
    (Htotal : total_tests env_inits < 2 ^ 32) :
  exists mgr,
    SimManager_ctor env_inits num_worlds 0 = Some mgr /\
    mgr_ready mgr /\
    Forall2 (fun e s => numSphereObjects s = numObjs e) env_inits (sims mgr) /\
    broad_numInvocations mgr = total_tests env_inits.
Proof.
  (* the worlds *)
  assert (Hbuilt : exists built, mapM SimpleSim_ctor env_inits = Some built).
  { apply mapM_is_Some. eapply Forall_impl; [exact Henvs |].
    intros e [He _]. destruct (SimpleSim_ctor_returns e He) as [sim Hsim].
    unfold compose. rewrite Hsim. eexists. reflexivity. }
  destruct Hbuilt as [built Hbuilt].
  pose proof Hbuilt as HF. apply mapM_Some in HF.
  assert (Hlen : length built = length env_inits)
    by (symmetry; eapply Forall2_length; exact HF).
  assert (Hready : Forall unified_ready built /\
                   Forall2 (fun e s => numSphereObjects s = numObjs e)
                           env_inits built).
  { clear -HF Henvs. induction HF as [| e s envs b He _ IH].
    - split; constructor.
    - apply Forall_cons in Henvs as [[Hn Hsq] Henvs].
      destruct (SimpleSim_ctor_ready e s He ltac:(lia) Hsq) as [Hr Hns].
      destruct (IH Henvs) as [IH1 IH2].
      split; constructor; assumption. }
  destruct Hready as [Hready Hsame].
  assert (Hn : Forall (fun s => 0 <= numSphereObjects s < 2 ^ 31) built).
  { eapply Forall_impl; [exact Hready |]. intros s (_ & _ & H & _). exact H. }
  assert (Hn0 : Forall (fun s => 0 <= numSphereObjects s) built).
  { eapply Forall_impl; [exact Hn |]. intros s [H _]. exact H. }
  assert (Hk : Z.of_nat (0 + length built) <= 2 ^ 31)
    by (cbn [Nat.add]; lia).
  destruct (ctor_tables built 0 Hn Hk) as [Hst Htt].
  change (Z.of_nat 0) with 0 in Hst, Htt.
  destruct (tables_length built 0 Hn0) as [Hls Hlt].
  pose proof (squares_same _ _ Hsame) as Hsq.
  pose proof (sum_below_squares built Hn0) as Hsum.
  (* the constructor *)
  subst num_worlds. set (W := Z.of_nat (length env_inits)) in *.
  assert (Hu : fold_right (fun s acc =>
                 u32 (numSphereObjects s * numSphereObjects s) + acc) 0 built
               = total_tests env_inits).
  { rewrite <- Hsq. clear -Hready. induction Hready as [| s b Hs _ IH];
      [reflexivity |].
    cbn [fold_right]. destruct Hs as (_ & _ & H & Hroom).
    rewrite u32_small by lia. rewrite IH. reflexivity. }
  assert (E1 : mapM (fun i => e ← Array.load env_inits i; SimpleSim_ctor e)
                    (int_range W) = Some built)
    by (apply mapM_indexed; exact Hbuilt).
  assert (E2 : Array.filled W built uninit_sim = Some built).
  { unfold Array.filled.
    destruct (Z.leb_spec (Z.of_nat (length built)) W); [| lia].
    replace (Z.to_nat W - length built)%nat with 0%nat by lia.
    cbn [replicate]. rewrite app_nil_r. reflexivity. }
  assert (E0 : int_range W = map Z.of_nat (seq 0 (length built))).
  { unfold int_range. f_equal. f_equal. lia. }
  assert (E5 : fold_left (fun acc s => u32 (acc + numSphereObjects s)) built 0
               = Z.of_nat (length (sphere_table 0 built))).
  { rewrite (fold_left_u32_sum numSphereObjects) by (try assumption; lia). lia. }
  assert (E6 : fold_left (fun acc s =>
                 u32 (acc + u32 (numSphereObjects s * numSphereObjects s)))
                 built 0
               = Z.of_nat (length (test_table 0 built))).
  { rewrite (fold_left_u32_sum
               (fun s => u32 (numSphereObjects s * numSphereObjects s))).
    - lia.
    - lia.
    - apply Forall_forall. intros s _. apply u32_range.
    - lia. }
  assert (E7 : forall {A} (l : list A) (d : A),
             Array.filled (Z.of_nat (length l)) l d = Some l).
  { intros A l d. unfold Array.filled.
    destruct (Z.leb_spec (Z.of_nat (length l)) (Z.of_nat (length l))); [| lia].
    replace (Z.to_nat (Z.of_nat (length l)) - length l)%nat with 0%nat by lia.
    cbn [replicate]. rewrite app_nil_r. reflexivity. }
  unfold SimManager_ctor. cbv zeta.
  rewrite to_int_small by lia.
  rewrite E1. cbn [mbind option_bind].
  rewrite E2. cbn [mbind option_bind].
  rewrite E0, Hst, Htt, E5, E6.
  rewrite !E7. cbn [mbind option_bind].
  eexists. split; [reflexivity |].
  unfold atomic_store. rewrite !u32_small by lia.
  split; [| split; [exact Hsame |]].
  - constructor; cbn [sims sphereIndices testIndices candidatePairs
                       preprocess_numInvocations broad_numInvocations
                       solver_numInvocations unified_numInvocations
                       narrow_numInvocations].
    + exact Hready.
    + reflexivity.
    + reflexivity.
    + rewrite length_replicate. lia.
    + reflexivity.
    + reflexivity.
    + lia.
    + lia.
    + lia.
    + reflexivity.
  - cbn [broad_numInvocations]. lia.
Qed.


Lemma NoDup_flat_map {A B} (f : A -> list B) (l : list A) :
  NoDup l -> (forall x, x ∈ l -> NoDup (f x)) ->
  (forall x1 x2 y, x1 ∈ l -> x2 ∈ l -> y ∈ f x1 -> y ∈ f x2 -> x1 = x2) ->
  NoDup (flat_map f l).
Proof.
  induction 1 as [| x l Hx Hl IH]; intros Hf Hinj; cbn [flat_map].
  - constructor.
  - apply NoDup_app. split; [apply Hf; left |]. split.
    + intros y Hy Hin. apply list_elem_of_In, in_flat_map in Hin as (x2 & Hx2 & Hy2).
      apply list_elem_of_In in Hx2, Hy2.
      assert (x = x2) by (eapply Hinj; [left | right; exact Hx2 | exact Hy | exact Hy2]).
      subst x2. contradiction.
    + apply IH.
      * intros z Hz. apply Hf. right. exact Hz.
      * intros x1 x2 y H1 H2. apply Hinj; right; assumption.
Qed.

Lemma world_tests_NoDup (w n : Z) : NoDup (world_tests w n).
Proof.
  unfold world_tests. apply NoDup_flat_map.
  - apply int_range_NoDup.
  - intros a _. change (map ?f ?l) with (f <$> l).
    apply NoDup_fmap_2; [| apply int_range_NoDup].
    intros x y [= H]. exact H.
  - intros a1 a2 t _ _ H1 H2.
    apply list_elem_of_In, in_map_iff in H1 as (b1 & <- & _).
    apply list_elem_of_In, in_map_iff in H2 as (b2 & [= H _] & _).
    congruence.
Qed.

Lemma world_spheres_NoDup (w n : Z) : NoDup (world_spheres w n).
Proof.
  unfold world_spheres. change (map ?f ?l) with (f <$> l).
  apply NoDup_fmap_2; [| apply int_range_NoDup].
  intros x y [= H]. exact H.
Qed.

Lemma tables_NoDup (ss : list SimpleSim) :
  forall k, NoDup (sphere_table k ss) /\ NoDup (test_table k ss).
Proof.
  induction ss as [| s ss IH]; intros k; cbn [sphere_table test_table].
  - split; constructor.
  - destruct (IH (k + 1)) as [IH1 IH2]. split; apply NoDup_app.
    + split; [apply world_spheres_NoDup |]. split; [| exact IH1].
      intros si Hsi Hin. apply world_spheres_elem in Hsi as [Hw _].
      apply sphere_table_elem in Hin as (i & sim & _ & Hw' & _). lia.
    + split; [apply world_tests_NoDup |]. split; [| exact IH2].
      intros t Ht Hin. apply world_tests_elem in Ht as [Hw _].
      apply test_table_elem in Hin as (i & sim & _ & Hw' & _). lia.
Qed.

(** X16. For [num_worlds] environments, each with at least [numObjs]
    initial objects, the square of [numObjs] fitting an [int] and the
    squares together fitting a [uint32_t], the constructor returns a
    manager that is ready for an epoch.  [sphereIndices] lists every
    object of every world and [testIndices] every ordered pair of objects
    of a world, each once and nothing else; the count of the broadphase is
    the number of these pairs, and every world has room in [contacts] for
    a contact per pair. *)
Theorem SimManager_ctor_ready (env_inits : list EnvInit) (num_worlds : Z)
    (Hworlds : num_worlds = Z.of_nat (length env_inits))
    (Hfew : num_worlds < 2 ^ 31)
    (Henvs : Forall (fun e => 0 <= numObjs e <= Z.of_nat (length (objsInit e)) /\
                              numObjs e * numObjs e < 2 ^ 31) env_inits)
    (Htotal : total_tests env_inits < 2 ^ 32) :
  exists mgr,
    SimManager_ctor env_inits num_worlds 0 = Some mgr /\
    mgr_ready mgr /\
    Forall2 (fun e s => numSphereObjects s = numObjs e) env_inits (sims mgr) /\
    broad_numInvocations mgr = total_tests env_inits /\
    NoDup (sphereIndices mgr) /\ NoDup (testIndices mgr) /\
    (forall si, si ∈ sphereIndices mgr <-> valid_sphere (sims mgr) si) /\
    (forall t, t ∈ testIndices mgr <-> valid_test (sims mgr) t).
Proof.
  destruct (SimManager_ctor_builds env_inits num_worlds Hworlds Hfew Henvs Htotal)
    as (mgr & Hctor & Hready & Hsame & Hbroad).
  exists mgr. do 4 (split; [assumption |]).
  rewrite (mr_spheres _ Hready), (mr_tests _ Hready).
  destruct (tables_NoDup (sims mgr) 0) as [N1 N2].
  split; [exact N1 |]. split; [exact N2 |]. split.
  - intros si. split.
    + intros Hin. pose proof (sphere_table_valid (sims mgr)) as Hv.
      rewrite Forall_forall in Hv. apply Hv. exact Hin.
    + intros (sim & Hw & Ho). apply Array_load_Some in Hw as [Hw0 Hw].
      apply sphere_table_elem. exists (Z.to_nat (sphere_world si)), sim.
      split; [exact Hw |]. split; [lia | exact Ho].
  - intros t. split.
    + intros Hin. pose proof (test_table_valid (sims mgr)) as Hv.
      rewrite Forall_forall in Hv. apply Hv. exact Hin.
    + intros (sim & Hw & Ho). apply Array_load_Some in Hw as [Hw0 Hw].
      apply test_table_elem. exists (Z.to_nat (test_world t)), sim.
      split; [exact Hw |]. split; [lia | exact Ho].
Qed.

(** *** What an epoch computes *)

Lemma preprocessObject_value (sim : SimpleSim) (obj_id : Z) :
  preprocessObject sim obj_id
  = (object ← Array.load (sphereObjects sim) obj_id;
     objs ← Array.store (sphereObjects sim) obj_id
              (preprocessed (worldBounds sim) object);
     Some (set_sphereObjects sim objs)).
Proof. reflexivity. Qed.

Lemma SimpleSim_eq (a b : SimpleSim) :
  worldBounds a = worldBounds b -> sphereObjects a = sphereObjects b ->
  contacts a = contacts b -> numSphereObjects a = numSphereObjects b ->
  numContacts a = numContacts b -> a = b.
Proof. destruct a, b. cbn. intros -> -> -> -> ->. reflexivity. Qed.

(** The worlds while the preprocess System runs: the objects named by the
    invocations done so far are preprocessed, the others are as the epoch
    found them, and nothing else has changed. *)
Lemma preprocess_values (ss0 : list SimpleSim) (l : list Z) :
  forall (done : list SphereIndex) (mgr mgr' : SimManager),
    sphereIndices mgr = sphere_table 0 ss0 ->
    NoDup l ->
    (forall i si, i ∈ l -> Array.load (sphereIndices mgr) i = Some si ->
                  si ∉ done) ->
    (forall w s0, ss0 !! w = Some s0 ->
       exists s, sims mgr !! w = Some s /\
         worldBounds s = worldBounds s0 /\ contacts s = contacts s0 /\
         numContacts s = numContacts s0 /\
         numSphereObjects s = numSphereObjects s0 /\
         length (sphereObjects s) = length (sphereObjects s0) /\
         forall o obj0, sphereObjects s0 !! o = Some obj0 ->
           sphereObjects s !! o
           = Some (if decide (mkSphereIndex (Z.of_nat w) (Z.of_nat o) ∈ done)
                   then preprocessed (worldBounds s0) obj0 else obj0)) ->
    length (sims mgr) = length ss0 ->
    Array.for_each PreprocessSystem_run mgr l = Some mgr' ->
    exists done' : list SphereIndex,
      (forall si, si ∈ done' <->
         si ∈ done \/ exists i, i ∈ l /\ Array.load (sphereIndices mgr) i = Some si) /\
      length (sims mgr') = length ss0 /\
      forall w s0, ss0 !! w = Some s0 ->
        exists s, sims mgr' !! w = Some s /\
          worldBounds s = worldBounds s0 /\ contacts s = contacts s0 /\
          numContacts s = numContacts s0 /\
          numSphereObjects s = numSphereObjects s0 /\
          length (sphereObjects s) = length (sphereObjects s0) /\
          forall o obj0, sphereObjects s0 !! o = Some obj0 ->
            sphereObjects s !! o
            = Some (if decide (mkSphereIndex (Z.of_nat w) (Z.of_nat o) ∈ done')
                    then preprocessed (worldBounds s0) obj0 else obj0).
Proof.
  induction l as [| i l IH]; intros done mgr mgr' Htab Hnd Hfresh Hinv Hlen Hrun.
  - injection Hrun as <-. exists done. split; [| split; assumption].
    intros si. split; [auto |]. intros [H | (i & Hi & _)]; [exact H |].
    inversion Hi.
  - cbn [Array.for_each] in Hrun.
    apply bind_Some in Hrun as (mgr1 & Hrun1 & Hrun).
    apply NoDup_cons in Hnd as [Hil Hnd].
    (* the step *)
    unfold PreprocessSystem_run in Hrun1.
    set (mgr0 := if i =? 0 then _ else mgr) in Hrun1.
    assert (Hm0 : sims mgr0 = sims mgr /\ sphereIndices mgr0 = sphereIndices mgr)
      by (unfold mgr0; destruct (i =? 0); split; reflexivity).
    destruct Hm0 as [Hs0 Hi0]. rewrite Hs0, Hi0 in Hrun1.
    apply bind_Some in Hrun1 as (si & Hsi & Hrun1).
    apply bind_Some in Hrun1 as (sim & Hsim & Hrun1).
    apply bind_Some in Hrun1 as (sim' & Hpre & Hrun1).
    apply bind_Some in Hrun1 as (ss & Hss & Hrun1).
    injection Hrun1 as <-.
    apply Array_store_Some in Hss as [Hwin ->].
    rewrite preprocessObject_value in Hpre.
    apply bind_Some in Hpre as (object & Hobj & Hpre).
    apply bind_Some in Hpre as (objs & Hobjs & Hpre).
    injection Hpre as <-.
    apply Array_store_Some in Hobjs as [Hoin ->].
    apply Array_load_Some in Hsim as [Hw0 Hsim], Hobj as [Ho0 Hobj].
    set (w := Z.to_nat (sphere_world si)) in *.
    set (o := Z.to_nat (sphere_offset si)) in *.
    assert (Hsieq : si = mkSphereIndex (Z.of_nat w) (Z.of_nat o)).
    { destruct si as [sw so]. cbn in *. unfold w, o. f_equal; lia. }
    assert (Hnew : si ∉ done) by (apply (Hfresh i); [left | exact Hsi]).
    destruct (lookup_lt_is_Some_2 ss0 w) as [s0 Hs0w];
      [rewrite <- Hlen; eapply lookup_lt_Some; exact Hsim |].
    destruct (Hinv w s0 Hs0w) as (s & Hs & Hwb & Hct & Hnc & Hns & Hlo & Hobjs).
    rewrite Hsim in Hs. injection Hs as <-.
    destruct (lookup_lt_is_Some_2 (sphereObjects s0) o) as [obj0 Hobj0];
      [rewrite <- Hlo; eapply lookup_lt_Some; exact Hobj |].
    pose proof (Hobjs o obj0 Hobj0) as Hcur. rewrite Hobj in Hcur.
    rewrite <- Hsieq in Hcur.
    destruct (decide (si ∈ done)) as [? |]; [contradiction |].
    injection Hcur as ->.
    (* the rest *)
    match type of Hrun with
    | Array.for_each _ ?m _ = _ => set (mgr1 := m) in *
    end.
    assert (Ht1 : sphereIndices mgr1 = sphereIndices mgr) by exact Hi0.
    assert (Hs1 : sims mgr1 = <[w := set_sphereObjects sim
                                     (<[o := preprocessed (worldBounds sim) obj0]>
                                        (sphereObjects sim))]> (sims mgr))
      by reflexivity.
    clearbody mgr1.
    destruct (IH (done ++ [si]) mgr1 mgr' ltac:(congruence) Hnd)
      as (done' & Hdone' & Hlen' & Hinv'); [| | | exact Hrun |];
      rewrite ?Ht1, ?Hs1 in *.
    + intros j sj Hj Hsj Hin.
      apply elem_of_app in Hin as [Hin | Hin].
      * apply (Hfresh j sj); [right; exact Hj | exact Hsj | exact Hin].
      * apply list_elem_of_singleton in Hin. subst sj.
        apply Array_load_Some in Hsi as [Hi00 Hsi], Hsj as [Hj0 Hsj].
        pose proof (proj1 (tables_NoDup ss0 0)) as Hnd0. rewrite <- Htab in Hnd0.
        pose proof (NoDup_lookup _ _ _ _ Hnd0 Hsi Hsj) as Heq.
        apply Hil. replace i with j by lia. exact Hj.
    + intros w' s0' Hs0'.
      destruct (Hinv w' s0' Hs0') as (s' & Hs' & Hwb' & Hct' & Hnc' & Hns' & Hlo' & Hobjs').
      destruct (decide (w' = w)) as [-> | Hne].
      * rewrite Hs0w in Hs0'. injection Hs0' as <-.
        rewrite Hsim in Hs'. injection Hs' as <-.
        eexists. split; [apply list_lookup_insert_eq; eapply lookup_lt_Some; exact Hsim |].
        cbn [worldBounds contacts numContacts numSphereObjects sphereObjects
             set_sphereObjects].
        do 4 (split; [assumption |]). split; [rewrite length_insert; exact Hlo |].
        intros o' obj0' Hobj0'.
        destruct (decide (o' = o)) as [-> | Hneo].
        -- rewrite Hobj0 in Hobj0'. injection Hobj0' as <-.
           rewrite list_lookup_insert_eq by (eapply lookup_lt_Some; exact Hobj).
           rewrite <- Hsieq, Hwb.
           destruct (decide (si ∈ done ++ [si])) as [_ | Hn]; [reflexivity |].
           exfalso. apply Hn, elem_of_app. right. apply list_elem_of_singleton.
           reflexivity.
        -- rewrite list_lookup_insert_ne by congruence.
           rewrite (Hobjs o' obj0' Hobj0'). f_equal.
           destruct (decide (_ ∈ done)) as [Hd | Hd];
             destruct (decide (_ ∈ done ++ [si])) as [Hd' | Hd'];
             try reflexivity; exfalso.
           ++ apply Hd', elem_of_app. left. exact Hd.
           ++ apply elem_of_app in Hd' as [Hd' | Hd']; [contradiction |].
              apply list_elem_of_singleton in Hd'. rewrite Hsieq in Hd'.
              injection Hd' as Hd'. lia.
      * exists s'. rewrite list_lookup_insert_ne by congruence.
        split; [exact Hs' |]. do 5 (split; [assumption |]).
        intros o' obj0' Hobj0'. rewrite (Hobjs' o' obj0' Hobj0'). f_equal.
        destruct (decide (_ ∈ done)) as [Hd | Hd];
          destruct (decide (_ ∈ done ++ [si])) as [Hd' | Hd'];
          try reflexivity; exfalso.
        -- apply Hd', elem_of_app. left. exact Hd.
        -- apply elem_of_app in Hd' as [Hd' | Hd']; [contradiction |].
           apply list_elem_of_singleton in Hd'. rewrite Hsieq in Hd'.
           injection Hd' as Hd' _. lia.
    + rewrite length_insert. exact Hlen.
    + exists done'. split; [| split; assumption].
      intros sj. rewrite Hdone'.
      rewrite elem_of_app, list_elem_of_singleton. split.
      * intros [[H | ->] | (j & Hj & Hsj)].
        -- left. exact H.
        -- right. exists i. split; [left | exact Hsi].
        -- right. exists j. split; [right; exact Hj | exact Hsj].
      * intros [H | (j & Hj & Hsj)]; [left; left; exact H |].
        apply elem_of_cons in Hj as [-> | Hj].
        -- left. right. congruence.
        -- right. exists j. split; assumption.
Qed.

Lemma dispatch_NoDup (order : Z -> list Z) (n : Z) :
  dispatch_order order -> NoDup (order n).
Proof. intros Hord. rewrite (Hord n). apply int_range_NoDup. Qed.

(** The preprocess System, in whatever order its invocations run,
    preprocesses every object of every world and touches nothing else of
    the worlds. *)
Lemma preprocess_result (mgr mgr' : SimManager) (l : list Z) :
  mgr_ready mgr ->
  l ≡ₚ int_range (preprocess_numInvocations mgr) ->
  Array.for_each PreprocessSystem_run mgr l = Some mgr' ->
  sims mgr' = map preprocess_world (sims mgr).
Proof.
  intros Hready Hl Hrun.
  pose proof (mr_spheres _ Hready) as Htab.
  pose proof (mr_worlds _ Hready) as Hworlds.
  destruct (preprocess_values (sims mgr) l [] mgr mgr' Htab)
    as (done' & Hdone & Hlen & Hinv); try assumption.
  { rewrite Hl. apply int_range_NoDup. }
  { intros i si _ _ Hin. inversion Hin. }
  { intros w s0 Hs0. exists s0. split; [exact Hs0 |].
    do 5 (split; [reflexivity |]). intros o obj0 Ho. rewrite Ho.
    destruct (decide (_ ∈ [])) as [Hin |]; [inversion Hin | reflexivity]. }
  { reflexivity. }
  apply list_eq. intros w.
  change (map preprocess_world (sims mgr)) with (preprocess_world <$> sims mgr).
  rewrite list_lookup_fmap.
  destruct (sims mgr !! w) as [s0 |] eqn:Hs0.
  - destruct (Hinv w s0 Hs0) as (s & Hs & Hwb & Hct & Hnc & Hns & Hlo & Hobjs).
    rewrite Hs. cbn [fmap option_fmap option_map]. f_equal.
    apply SimpleSim_eq; cbn [preprocess_world set_sphereObjects worldBounds
                              sphereObjects contacts numSphereObjects numContacts];
      try assumption.
    apply list_eq. intros o.
    change (map ?f ?x) with (f <$> x). rewrite list_lookup_fmap.
    destruct (sphereObjects s0 !! o) as [obj0 |] eqn:Hobj0.
    + rewrite (Hobjs o obj0 Hobj0). cbn [fmap option_fmap option_map].
      destruct (decide (_ ∈ done')) as [_ | Hn]; [reflexivity | exfalso].
      apply Hn, Hdone. right.
      assert (Hin : mkSphereIndex (Z.of_nat w) (Z.of_nat o)
                    ∈ sphere_table 0 (sims mgr)).
      { apply sphere_table_elem. exists w, s0. split; [exact Hs0 |].
        cbn [sphere_world sphere_offset]. split; [lia |].
        rewrite Forall_forall in Hworlds.
        destruct (Hworlds s0) as ([Hobjs0 _ _ _] & _);
          [eapply list_elem_of_lookup_2; exact Hs0 |].
        apply lookup_lt_Some in Hobj0. lia. }
      rewrite <- Htab in Hin. apply list_elem_of_lookup in Hin as [i Hi].
      exists (Z.of_nat i). split.
      * rewrite Hl. apply int_range_elem. rewrite (mr_preprocess _ Hready).
        apply lookup_lt_Some in Hi. lia.
      * apply Array_load_Some. rewrite Nat2Z.id. split; [lia | exact Hi].
    + cbn [fmap option_fmap option_map]. apply lookup_ge_None.
      apply lookup_ge_None in Hobj0. lia.
  - cbn [fmap option_fmap option_map]. apply lookup_ge_None.
    apply lookup_ge_None in Hs0. lia.
Qed.

Lemma for_each_app {S I} (body : S -> I -> option S) (l1 l2 : list I) (s : S) :
  Array.for_each body s (l1 ++ l2)
  = (s' ← Array.for_each body s l1; Array.for_each body s' l2).
Proof.
  revert s. induction l1 as [| i l1 IH]; intros s; [reflexivity |].
  cbn [app Array.for_each]. destruct (body s i) as [s1 |]; [| reflexivity].
  cbn [mbind option_bind]. apply IH.
Qed.

Lemma int_range_succ (k : nat) :
  int_range (Z.of_nat (S k)) = int_range (Z.of_nat k) ++ [Z.of_nat k].
Proof.
  unfold int_range. rewrite !Nat2Z.id, seq_S, map_app. reflexivity.
Qed.

(** The first loop of [UnifiedSystem::run] preprocesses every object. *)
Lemma unified_preprocess_loop (sim : SimpleSim) :
  Z.of_nat (length (sphereObjects sim)) = numSphereObjects sim ->
  numSphereObjects sim < 2 ^ 32 ->
  Array.for_each (fun s i => preprocessObject s (u32 i)) sim
                 (int_range (numSphereObjects sim))
  = Some (preprocess_world sim).
Proof.
  intros Hlen Hsmall. rewrite <- Hlen.
  assert (Hk : forall k, (k <= length (sphereObjects sim))%nat ->
            Array.for_each (fun s i => preprocessObject s (u32 i)) sim
                           (int_range (Z.of_nat k))
            = Some (set_sphereObjects sim
                      (map (preprocessed (worldBounds sim))
                           (take k (sphereObjects sim))
                       ++ drop k (sphereObjects sim)))).
  { induction k as [| k IH]; intros Hle.
    - cbn. rewrite drop_0. destruct sim; reflexivity.
    - rewrite int_range_succ, for_each_app, IH by lia.
      cbn [mbind option_bind Array.for_each].
      rewrite u32_small by lia. rewrite preprocessObject_value.
      cbn [sphereObjects set_sphereObjects worldBounds].
      destruct (lookup_lt_is_Some_2 (sphereObjects sim) k) as [obj Hobj]; [lia |].
      assert (Hload : Array.load (map (preprocessed (worldBounds sim))
                                      (take k (sphereObjects sim))
                                  ++ drop k (sphereObjects sim)) (Z.of_nat k)
                      = Some obj).
      { apply Array_load_Some. split; [lia |]. rewrite Nat2Z.id.
        rewrite lookup_app_r by (rewrite length_map, length_take; lia).
        rewrite length_map, length_take, lookup_drop.
        replace (k + (k - k `min` length (sphereObjects sim)))%nat with k by lia.
        exact Hobj. }
      rewrite Hload. cbn [mbind option_bind].
      rewrite Array_store_in_range
        by (rewrite length_app, length_map, length_take, length_drop; lia).
      cbn [mbind option_bind]. f_equal. unfold set_sphereObjects. f_equal.
      rewrite Nat2Z.id.
      rewrite (take_S_r _ _ _ Hobj), map_app. cbn [map].
      rewrite <- app_assoc. cbn [app].
      rewrite insert_app_r_alt by (rewrite length_map, length_take; lia).
      rewrite length_map, length_take.
      replace (k - k `min` length (sphereObjects sim))%nat with 0%nat by lia.
      rewrite (drop_S _ _ _ Hobj). reflexivity. }
  rewrite Hk by lia. f_equal. unfold preprocess_world. f_equal.
  rewrite firstn_all, drop_all, app_nil_r. reflexivity.
Qed.

(** *** What an epoch computes, world by world *)

Lemma pairs_as_tests (w : Z) (l1 l2 : list Z) :
  flat_map (fun offset => map (fun other => mkTestIndex w offset other) l2) l1
  = map (fun ij => mkTestIndex w (fst ij) (snd ij))
        (flat_map (fun i => map (fun j => (i, j)) l2) l1).
Proof.
  induction l1 as [| a l1 IH]; [reflexivity |].
  cbn [flat_map]. rewrite map_app, map_map, IH. reflexivity.
Qed.

Lemma compareObjAABBs_objects (s s' : SimpleSim) (i j : Z) :
  sphereObjects s = sphereObjects s' ->
  compareObjAABBs s i j = compareObjAABBs s' i j.
Proof. intros H. unfold compareObjAABBs. rewrite H. reflexivity. Qed.

Lemma narrowPhase_objects (use_atomic : bool) (s s' : SimpleSim) (i j : Z) :
  narrowPhase MADRONA_GPU_MODE use_atomic s i j = Some s' ->
  sphereObjects s' = sphereObjects s.
Proof.
  intros H. apply narrowPhase_effect in H as (a & b & _ & _ & _ & ->).
  reflexivity.
Qed.

Lemma preprocess_world_ok (sim : SimpleSim) :
  sim_ok sim -> sim_ok (preprocess_world sim).
Proof.
  intros [Ho Hc Hr Hcs]. constructor;
    cbn [preprocess_world set_sphereObjects sphereObjects numSphereObjects
         numContacts contacts]; try assumption.
  rewrite length_map. exact Ho.
Qed.

(** The doubly nested loop of [UnifiedSystem::run] records a contact for
    every ordered pair whose boxes overlap, in the order of the loop: the
    contacts it records do not change the boxes it compares. *)
Lemma unified_pairs_loop (sim1 : SimpleSim) (w : Z) (L : list (Z * Z)) :
  Forall (fun ij => 0 <= fst ij < 2 ^ 32 /\ 0 <= snd ij < 2 ^ 32 /\
                    is_Some (compareObjAABBs sim1 (fst ij) (snd ij))) L ->
  forall s, sphereObjects s = sphereObjects sim1 ->
    Array.for_each (unified_pair MADRONA_GPU_MODE) s L
    = record_contacts MADRONA_GPU_MODE s
        (List.filter (test_hits sim1)
                     (map (fun ij => mkTestIndex w (fst ij) (snd ij)) L)).
Proof.
  induction 1 as [| [i j] L (Hi & Hj & [ov Hov]) _ IH]; intros s Hs;
    [reflexivity |].
  cbn [fst snd] in *. cbn [map List.filter Array.for_each fst snd].
  unfold test_hits at 1. cbn [test_a test_b]. rewrite Hov.
  change (unified_pair MADRONA_GPU_MODE s (i, j))
    with (overlap ← compareObjAABBs s (u32 i) (u32 j);
          if overlap : bool
          then narrowPhase MADRONA_GPU_MODE false s (u32 i) (u32 j)
          else Some s).
  rewrite !u32_small by lia.
  rewrite (compareObjAABBs_objects s sim1) by exact Hs. rewrite Hov.
  cbn [mbind option_bind]. destruct ov.
  - unfold record_contacts. cbn [Array.for_each test_a test_b].
    rewrite <- narrowPhase_use_atomic_irrelevant.
    destruct (narrowPhase MADRONA_GPU_MODE true s i j) as [s' |] eqn:Hn;
      cbn [mbind option_bind]; [| reflexivity].
    apply IH. rewrite (narrowPhase_objects _ _ _ _ _ Hn). exact Hs.
  - apply IH. exact Hs.
Qed.

(** [UnifiedSystem::run] on a world ready for an epoch stores what
    [world_epoch] computes for it. *)
Lemma unified_world (mgr : SimManager) (w : Z) (sim : SimpleSim) :
  Array.load (sims mgr) w = Some sim -> unified_ready sim ->
  UnifiedSystem_run MADRONA_GPU_MODE mgr w
  = (s' ← world_epoch MADRONA_GPU_MODE w sim;
     ss ← Array.store (sims mgr) w s';
     Some (set_sims mgr ss)).
Proof.
  intros Hload (Hok & Hz & Hn & Hroom).
  unfold UnifiedSystem_run. rewrite Hload. cbn [mbind option_bind].
  rewrite to_int_small by lia.
  rewrite unified_preprocess_loop by (try apply (ok_objects _ Hok); lia).
  cbn [mbind option_bind].
  rewrite (unified_pairs_loop (preprocess_world sim) w).
  - unfold world_epoch. cbv zeta. unfold world_tests. rewrite pairs_as_tests.
    destruct (record_contacts _ _ _) as [s2 |]; cbn [mbind option_bind];
      [| reflexivity].
    destruct (processContacts s2) as [s3 |]; reflexivity.
  - apply Forall_forall. intros [i j] Hij. cbn [fst snd].
    apply list_elem_of_In, in_flat_map in Hij as (i' & Hi & Hij).
    apply in_map_iff in Hij as (j' & Heq & Hj). injection Heq as -> ->.
    apply list_elem_of_In, int_range_elem in Hi, Hj.
    split; [lia |]. split; [lia |].
    apply (compareObjAABBs_returns (preprocess_world sim));
      [apply preprocess_world_ok; exact Hok | exact Hi | exact Hj].
  - reflexivity.
Qed.

(** A System whose invocation [w] replaces world [w] by a function of that
    world alone: after its invocations [l], each once and in any order,
    the worlds of [l] hold their results and the others are untouched. *)
Lemma per_world_values (run : SimManager -> Z -> option SimManager)
    (f : Z -> SimpleSim -> option SimpleSim) (P : SimpleSim -> Prop) :
  (forall mgr w sim,
      Array.load (sims mgr) w = Some sim -> P sim ->
      run mgr w = (s' ← f w sim;
                   ss ← Array.store (sims mgr) w s';
                   Some (set_sims mgr ss))) ->
  (forall mgr w, Array.load (sims mgr) w = None -> run mgr w = None) ->
  forall l mgr mgr',
    NoDup l ->
    (forall k s, Z.of_nat k ∈ l -> sims mgr !! k = Some s -> P s) ->
    Array.for_each run mgr l = Some mgr' ->
    length (sims mgr') = length (sims mgr) /\
    forall (k : nat) s0, sims mgr !! k = Some s0 ->
      if decide (Z.of_nat k ∈ l)
      then exists s', f (Z.of_nat k) s0 = Some s' /\ sims mgr' !! k = Some s'
      else sims mgr' !! k = Some s0.
Proof.
  intros Hone Hnone. induction l as [| x l IH]; intros mgr mgr' Hnd HP Hrun.
  - injection Hrun as <-. split; [reflexivity |]. intros k s0 Hk.
    destruct (decide (Z.of_nat k ∈ [])) as [Hin |]; [inversion Hin | exact Hk].
  - apply NoDup_cons in Hnd as [Hx Hnd]. cbn [Array.for_each] in Hrun.
    destruct (run mgr x) as [mgr1 |] eqn:Hrun1; [| discriminate].
    destruct (Array.load (sims mgr) x) as [sim |] eqn:Hload;
      [| rewrite (Hnone _ _ Hload) in Hrun1; discriminate].
    pose proof Hload as Hload'. apply Array_load_Some in Hload' as [Hx0 Hsim].
    assert (HPsim : P sim).
    { apply (HP (Z.to_nat x)); [rewrite Z2Nat.id by lia; left | exact Hsim]. }
    rewrite (Hone _ _ _ Hload HPsim) in Hrun1.
    apply bind_Some in Hrun1 as (s' & Hf & Hrun1).
    apply bind_Some in Hrun1 as (ss & Hst & Hrun1).
    apply Array_store_Some in Hst as [Hr ->]. injection Hrun1 as <-.
    cbn [mbind option_bind] in Hrun.
    destruct (IH (set_sims mgr (<[Z.to_nat x := s']> (sims mgr))) mgr' Hnd)
      as [Hlen Hval]; [| exact Hrun |].
    { intros k s Hk Hs. cbn [sims set_sims] in Hs.
      rewrite list_lookup_insert_ne in Hs
        by (intros E; apply Hx; rewrite <- E, Z2Nat.id in Hk by lia; exact Hk).
      apply (HP k); [right; exact Hk | exact Hs]. }
    cbn [sims set_sims] in Hlen, Hval. rewrite length_insert in Hlen.
    split; [exact Hlen |]. intros k s0 Hk.
    destruct (decide (k = Z.to_nat x)) as [-> | Hne].
    + rewrite Hsim in Hk. injection Hk as <-.
      specialize (Hval (Z.to_nat x) s').
      rewrite list_lookup_insert_eq in Hval by lia.
      specialize (Hval eq_refl).
      rewrite Z2Nat.id in * by lia.
      destruct (decide (x ∈ l)) as [Hin | _]; [contradiction |].
      destruct (decide (x ∈ x :: l)) as [_ | Hn]; [| exfalso; apply Hn; left].
      exists s'. split; assumption.
    + specialize (Hval k s0).
      rewrite list_lookup_insert_ne in Hval by congruence.
      specialize (Hval Hk).
      destruct (decide (Z.of_nat k ∈ l)) as [Hin | Hnin].
      * destruct (decide (Z.of_nat k ∈ x :: l)) as [_ | Hn];
          [exact Hval | exfalso; apply Hn; right; exact Hin].
      * destruct (decide (Z.of_nat k ∈ x :: l)) as [Hin' | _]; [| exact Hval].
        exfalso. apply elem_of_cons in Hin' as [E | Hin']; [| contradiction].
        apply Hne. rewrite <- E. lia.
Qed.

(** The narrowphase, its invocations in the order [l] over slots that
    hold the tests [ts]: every world gets the contacts of its own tests,
    in the order of [ts]. *)
Lemma narrowphase_values (l : list Z) :
  forall (ts : list TestIndex) (mgr mgr' : SimManager),
    Forall2 (fun i t => Array.load (candidatePairs mgr) i = Some (pair_of t))
            l ts ->
    Array.for_each (NarrowphaseSystem_run MADRONA_GPU_MODE) mgr l = Some mgr' ->
    length (sims mgr') = length (sims mgr) /\
    forall (k : nat) s, sims mgr !! k = Some s ->
      exists s',
        record_contacts MADRONA_GPU_MODE s
          (filter (fun t => test_world t = Z.of_nat k) ts) = Some s' /\
        sims mgr' !! k = Some s'.
Proof.
  induction l as [| i l IH]; intros ts mgr mgr' HF Hrun.
  - inversion HF; subst. injection Hrun as <-. split; [reflexivity |].
    intros k s Hk. exists s. split; [reflexivity | exact Hk].
  - inversion HF as [| i' t l' ts' Hc HF']; subst.
    cbn [Array.for_each] in Hrun. apply bind_Some in Hrun as (m1 & H1 & Hrun).
    unfold NarrowphaseSystem_run in H1. rewrite Hc in H1.
    cbn [mbind option_bind] in H1. unfold log_access in H1.
    cbn [sims pair_of pair_world pair_a pair_b] in H1.
    apply bind_Some in H1 as (sim & Hsim & H1).
    apply bind_Some in H1 as (sim' & Hnp & H1).
    apply bind_Some in H1 as (ss & Hst & H1).
    apply Array_store_Some in Hst as [Hr ->]. injection H1 as <-.
    apply Array_load_Some in Hsim as [Hw0 Hsim].
    match type of Hrun with
    | Array.for_each _ ?m _ = _ =>
        destruct (IH ts' m mgr' HF' Hrun) as [Hlen Hval]
    end.
    cbn [sims set_sims] in Hlen, Hval.
    rewrite length_insert in Hlen. split; [exact Hlen |].
    intros k s Hk. rewrite filter_cons.
    destruct (decide (test_world t = Z.of_nat k)) as [E | Hne].
    + rewrite E, Nat2Z.id in Hsim, Hval. rewrite Hsim in Hk. injection Hk as <-.
      destruct (Hval k sim') as (s' & Hrec & Hs');
        [apply list_lookup_insert_eq; apply lookup_lt_Some in Hsim; exact Hsim |].
      exists s'. split; [| exact Hs'].
      unfold record_contacts in *. cbn [Array.for_each].
      rewrite Hnp. cbn [mbind option_bind]. exact Hrec.
    + apply (Hval k s). rewrite list_lookup_insert_ne by lia. exact Hk.
Qed.

(** The offsets a filter keeps, in index order, against the entries they
    load. *)
Lemma hits_in_order {A} (all : list A) (P : Z -> Prop)
    `{!forall x, Decision (P x)} (Q : A -> bool) :
  (forall off t, Array.load all off = Some t -> (P off <-> Q t = true)) ->
  forall tests rest, all = tests ++ rest ->
    Forall2 (fun off t => Array.load all off = Some t)
            (filter P (int_range (Z.of_nat (length tests))))
            (List.filter Q tests).
Proof.
  intros HPQ. induction tests as [| x tests IH] using rev_ind; intros rest E.
  - constructor.
  - rewrite length_app. cbn [length].
    replace (Z.of_nat (length tests + 1)) with (Z.of_nat (S (length tests)))
      by lia.
    rewrite int_range_succ, filter_app, List.filter_app.
    apply Forall2_app.
    + apply (IH ([x] ++ rest)). rewrite E, <- app_assoc. reflexivity.
    + assert (Hx : Array.load all (Z.of_nat (length tests)) = Some x).
      { apply Array_load_Some. split; [lia |]. rewrite Nat2Z.id, E.
        rewrite <- app_assoc. rewrite lookup_app_r by lia.
        replace (length tests - length tests)%nat with 0%nat by lia.
        reflexivity. }
      pose proof (HPQ _ _ Hx) as Hiff. cbn [List.filter].
      rewrite filter_cons, filter_nil.
      destruct (decide (P (Z.of_nat (length tests)))) as [Hp | Hp],
               (Q x) eqn:Hq.
      * constructor; [exact Hx | constructor].
      * apply Hiff in Hp. discriminate.
      * exfalso. apply Hp, Hiff. reflexivity.
      * constructor.
Qed.

Lemma filter_all {A} (P : A -> Prop) `{!forall x, Decision (P x)} (l : list A) :
  Forall P l -> filter P l = l.
Proof.
  induction 1 as [| x l Hx _ IH]; [reflexivity |].
  rewrite filter_cons_True by exact Hx. rewrite IH. reflexivity.
Qed.

Lemma filter_none {A} (P : A -> Prop) `{!forall x, Decision (P x)} (l : list A) :
  Forall (fun x => ~ P x) l -> filter P l = [].
Proof.
  induction 1 as [| x l Hx _ IH]; [reflexivity |].
  rewrite filter_cons_False by exact Hx. exact IH.
Qed.

(** The tests of one world, picked out of the table. *)
Lemma test_table_world (ss : list SimpleSim) :
  forall (k : Z) (w : nat) (s : SimpleSim),
    ss !! w = Some s ->
    filter (fun t => test_world t = k + Z.of_nat w) (test_table k ss)
    = world_tests (k + Z.of_nat w) (numSphereObjects s).
Proof.
  induction ss as [| s0 ss IH]; intros k w s Hs; [discriminate |].
  cbn [test_table]. rewrite filter_app. destruct w as [| w].
  - injection Hs as ->. rewrite Z.add_0_r.
    rewrite filter_all, filter_none; [apply app_nil_r | |].
    + apply Forall_forall. intros t Ht.
      apply test_table_elem in Ht as (i & sim & _ & Hw & _). lia.
    + apply Forall_forall. intros t Ht.
      apply world_tests_elem in Ht as (Hw & _). exact Hw.
  - cbn [lookup list_lookup] in Hs.
    rewrite filter_none.
    + cbn [app]. replace (k + Z.of_nat (S w)) with (k + 1 + Z.of_nat w) by lia.
      apply IH. exact Hs.
    + apply Forall_forall. intros t Ht.
      apply world_tests_elem in Ht as (Hw & _). lia.
Qed.

Lemma filter_world_hits (Q h : TestIndex -> bool) (w : Z) (tests : list TestIndex) :
  (forall t, test_world t = w -> Q t = h t) ->
  filter (fun t => test_world t = w) (List.filter Q tests)
  = List.filter h (filter (fun t => test_world t = w) tests).
Proof.
  intros HQ. induction tests as [| t tests IH]; [reflexivity |].
  cbn [List.filter]. rewrite (filter_cons _ t tests).
  destruct (decide (test_world t = w)) as [E | Hne].
  - cbn [List.filter]. rewrite <- (HQ t E).
    destruct (Q t); [| exact IH].
    rewrite filter_cons_True by exact E. rewrite IH. reflexivity.
  - destruct (Q t); [| exact IH].
    rewrite filter_cons_False by exact Hne. exact IH.
Qed.

Lemma NarrowphaseSystem_run_solver (l : list Z) (mgr mgr' : SimManager) :
  Array.for_each (NarrowphaseSystem_run MADRONA_GPU_MODE) mgr l = Some mgr' ->
  solver_numInvocations mgr' = solver_numInvocations mgr.
Proof.
  apply (for_each_preserves _
           (fun a b => solver_numInvocations b = solver_numInvocations a)).
  - reflexivity.
  - intros a b c H1 H2. congruence.
  - intros m i m' H. unfold NarrowphaseSystem_run in H.
    apply bind_Some in H as (c & _ & H).
    apply bind_Some in H as (sim & _ & H).
    apply bind_Some in H as (sim' & _ & H).
    apply bind_Some in H as (ss & _ & H). injection H as <-. reflexivity.
Qed.

(** The preprocess System on a manager ready for an epoch. *)
Lemma preprocess_system_phase (mgr : SimManager) (pre : Z -> list Z) :
  mgr_ready mgr -> dispatch_order pre ->
  exists m1,
    run_system PreprocessSystem_run preprocess_numInvocations pre mgr = Some m1 /\
    Forall2 world_kept (sims mgr) (sims m1) /\
    same_tables mgr m1 /\ candidatePairs m1 = candidatePairs mgr /\
    narrow_numInvocations m1 = 0 /\
    sims m1 = map preprocess_world (sims mgr).
Proof.
  intros Hready Hpre.
  pose proof Hready as [Hworlds Hsph Htst Hpairs Hnpre Hnbroad Hnsolve Hnuni
                          Hsmall Hnarrow0].
  pose proof (world_kept_refl (sims mgr) Hworlds) as HF0.
  assert (Hz0 : Forall (fun s => numContacts s = 0) (sims mgr)).
  { eapply Forall_impl; [exact Hworlds |]. intros s (_ & Hz & _). exact Hz. }
  unfold run_system.
  destruct (preprocess_phase (sims mgr) (pre (preprocess_numInvocations mgr)) mgr
              HF0 Hz0 Hsph)
    as (m1 & Hrun1 & HF1 & Hz1 & Ht1 & Hcp1).
  { rewrite Hnpre. apply dispatch_in_range. exact Hpre. }
  exists m1. split; [exact Hrun1 |]. split; [exact HF1 |].
  split; [exact Ht1 |]. split; [exact Hcp1 |]. split.
  - destruct (preprocess_resets_narrow _ _ _ Hrun1) as (_ & Hin & Hnin).
    destruct (decide (0 ∈ pre (preprocess_numInvocations mgr))) as [H0 | H0].
    + apply Hin, list_elem_of_In, H0.
    + rewrite Hnin by (intros Hx; apply H0, list_elem_of_In, Hx).
      apply Hnarrow0.
      rewrite (Hpre _), int_range_elem, Hnpre in H0.
      apply nil_length_inv. lia.
  - apply (preprocess_result mgr m1 _ Hready (Hpre _) Hrun1).
Qed.

(** The worlds after an epoch of the four Systems, the broadphase and the
    narrowphase in index order. *)
Lemma split_epoch_values (mgr ms : SimManager) (pre solve : Z -> list Z) :
  mgr_ready mgr -> dispatch_order pre -> dispatch_order solve ->
  split_epoch MADRONA_GPU_MODE pre int_range int_range solve mgr = Some ms ->
  length (sims ms) = length (sims mgr) /\
  forall (k : nat) s0, sims mgr !! k = Some s0 ->
    exists s', world_epoch MADRONA_GPU_MODE (Z.of_nat k) s0 = Some s' /\
               sims ms !! k = Some s'.
Proof.
  intros Hready Hpre Hsolve Hrun.
  destruct (preprocess_system_phase mgr pre Hready Hpre)
    as (m1 & H1 & HF1 & Ht1 & Hcp1 & Hn1 & Hs1).
  unfold split_epoch in Hrun. rewrite H1 in Hrun.
  cbn [mbind option_bind] in Hrun.
  apply bind_Some in Hrun as (m2 & H2 & Hrun).
  apply bind_Some in Hrun as (m3 & H3 & H4).
  unfold run_system in H2, H3, H4.
  pose proof Hready as [Hworlds Hsph Htst Hpairs Hnpre Hnbroad Hnsolve Hnuni
                          Hsmall Hnarrow0].
  destruct Ht1 as (T1 & T2 & T3 & T4 & T5 & T6 & T7).
  destruct (broadphase_phase (sims mgr) (int_range (broad_numInvocations m1))
              m1 HF1)
    as (m2' & H2' & Hs2 & Ht2 & Hhits); try assumption.
  { congruence. }
  { rewrite T2, Hnbroad, T6. apply int_range_bounds. }
  { rewrite int_range_length, T2, Hnbroad, T7, Hpairs. lia. }
  { rewrite int_range_length, T2, Hnbroad. lia. }
  rewrite H2 in H2'. injection H2' as <-.
  cbv zeta in Hhits. destruct Hhits as [Hn2 Hslots].
  set (hits := filter (overlapping m1) (int_range (broad_numInvocations m1))) in *.
  set (Q := fun t => match Array.load (sims m1) (test_world t) with
                     | Some sim => test_hits sim t
                     | None => false
                     end).
  assert (Hord : Forall2 (fun off t => Array.load (testIndices m1) off = Some t)
                         hits (List.filter Q (testIndices m1))).
  { unfold hits. rewrite T2, Hnbroad, <- T6.
    apply (hits_in_order (testIndices m1) (overlapping m1) Q) with (rest := []);
      [| rewrite app_nil_r; reflexivity].
    intros off t Ht. unfold overlapping, is_hit, broad_test, Q, test_hits.
    rewrite Ht. cbn [mbind option_bind].
    destruct (Array.load (sims m1) (test_world t)) as [sim |];
      cbn [mbind option_bind]; [| split; discriminate].
    destruct (compareObjAABBs sim _ _) as [[] |]; cbn [mbind option_bind];
      split; auto; discriminate. }
  assert (Hpairs2 :
            Forall2 (fun i t => Array.load (candidatePairs m2) i
                                = Some (pair_of t))
                    (int_range (narrow_numInvocations m2))
                    (List.filter Q (testIndices m1))).
  { rewrite Hn2. apply Forall2_same_length_lookup_2.
    - rewrite int_range_length, Nat2Z.id. apply (Forall2_length _ _ _ Hord).
    - intros i x t Hx Ht.
      pose proof (lookup_lt_Some _ _ _ Hx) as Hlt.
      rewrite int_range_length, Nat2Z.id in Hlt.
      rewrite int_range_lookup in Hx by lia. injection Hx as <-.
      destruct (lookup_lt_is_Some_2 hits i) as [off Hoff]; [lia |].
      destruct (Hslots i off Hoff) as (test & Htest & Hp).
      pose proof (Forall2_lookup_lr _ _ _ _ _ _ Hord Hoff Ht) as Heq.
      cbn beta in Heq. rewrite Htest in Heq. injection Heq as ->. exact Hp. }
  destruct (narrowphase_values _ _ m2 m3 Hpairs2 H3) as [Hlen3 Hval3].
  destruct (per_world_values SolverSystem_run
              (fun _ sim => s ← processContacts sim;
                            Some (set_numContacts s (atomic_store 0)))
              (fun _ => True))
    with (l := solve (solver_numInvocations m3)) (mgr := m3) (mgr' := ms)
    as [Hlen4 Hval4].
  { intros m w sim Hload _. unfold SolverSystem_run. rewrite Hload.
    cbn [mbind option_bind]. destruct (processContacts sim); reflexivity. }
  { intros m w Hload. unfold SolverSystem_run. rewrite Hload. reflexivity. }
  { apply dispatch_NoDup. exact Hsolve. }
  { auto. }
  { exact H4. }
  assert (Hlen : length (sims ms) = length (sims mgr)).
  { rewrite Hlen4, Hlen3, Hs2, Hs1, length_map. reflexivity. }
  split; [exact Hlen |]. intros k s0 Hk.
  assert (Hk1 : sims m1 !! k = Some (preprocess_world s0)).
  { rewrite Hs1. change (map ?f ?x) with (f <$> x).
    rewrite list_lookup_fmap, Hk. reflexivity. }
  destruct (Hval3 k (preprocess_world s0)) as (s3 & Hrec & Hk3);
    [rewrite Hs2; exact Hk1 |].
  specialize (Hval4 k s3 Hk3).
  destruct (decide (Z.of_nat k ∈ solve (solver_numInvocations m3)))
    as [_ | Hn].
  2: { exfalso. apply Hn. rewrite (Hsolve _), int_range_elem.
       rewrite (NarrowphaseSystem_run_solver _ _ _ H3).
       destruct Ht2 as (_ & _ & -> & _). rewrite T3, Hnsolve.
       apply lookup_lt_Some in Hk. lia. }
  destruct Hval4 as (s4 & Hf & Hk4). exists s4. split; [| exact Hk4].
  rewrite (filter_world_hits Q (test_hits (preprocess_world s0)) (Z.of_nat k))
    in Hrec.
  2: { intros t E. unfold Q. rewrite E.
       replace (Array.load (sims m1) (Z.of_nat k))
         with (Some (preprocess_world s0)); [reflexivity |].
       symmetry. apply Array_load_Some. rewrite Nat2Z.id.
       split; [lia | exact Hk1]. }
  rewrite T6, Htst in Hrec.
  pose proof (test_table_world (sims mgr) 0 k s0 Hk) as Hw.
  change (0 + Z.of_nat k) with (Z.of_nat k) in Hw. rewrite Hw in Hrec.
  unfold world_epoch. cbv zeta. rewrite Hrec. cbn [mbind option_bind].
  exact Hf.
Qed.

(** The worlds after an epoch of the unified System. *)
Lemma unified_epoch_values (mgr mu : SimManager) (order : Z -> list Z) :
  mgr_ready mgr -> dispatch_order order ->
  unified_epoch MADRONA_GPU_MODE order mgr = Some mu ->
  length (sims mu) = length (sims mgr) /\
  forall (k : nat) s0, sims mgr !! k = Some s0 ->
    exists s', world_epoch MADRONA_GPU_MODE (Z.of_nat k) s0 = Some s' /\
               sims mu !! k = Some s'.
Proof.
  intros Hready Hord Hrun. unfold unified_epoch, run_system in Hrun.
  destruct (per_world_values (UnifiedSystem_run MADRONA_GPU_MODE)
              (world_epoch MADRONA_GPU_MODE) unified_ready)
    with (l := order (unified_numInvocations mgr)) (mgr := mgr) (mgr' := mu)
    as [Hlen Hval].
  { intros m w sim Hload Hr. apply unified_world; assumption. }
  { intros m w Hload. unfold UnifiedSystem_run. rewrite Hload. reflexivity. }
  { apply dispatch_NoDup. exact Hord. }
  { intros k s _ Hs. pose proof (mr_worlds _ Hready) as Hw.
    rewrite Forall_forall in Hw. apply Hw.
    eapply list_elem_of_lookup_2; exact Hs. }
  { exact Hrun. }
  split; [exact Hlen |]. intros k s0 Hk. specialize (Hval k s0 Hk).
  destruct (decide (Z.of_nat k ∈ order (unified_numInvocations mgr)))
    as [_ | Hn]; [exact Hval |].
  exfalso. apply Hn. rewrite (Hord _), int_range_elem.
  rewrite (mr_unified _ Hready). apply lookup_lt_Some in Hk. lia.
Qed.

(** X19. The preprocess System gives the same worlds whatever the order of
    its invocations: every object of every world has its translation
    clamped to the bounds of its world and its box rebuilt from the eight
    transformed corners, nothing else of a world changes, the count of
    the narrowphase is reset to 0 and [candidatePairs] is untouched. *)
Theorem preprocess_any_order (mgr : SimManager) (pre : Z -> list Z)
    (Hready : mgr_ready mgr) (Hpre : dispatch_order pre) :
  exists mgr',
    run_system PreprocessSystem_run preprocess_numInvocations pre mgr
    = Some mgr' /\
    sims mgr' = map preprocess_world (sims mgr) /\
    narrow_numInvocations mgr' = 0 /\
    candidatePairs mgr' = candidatePairs mgr.
Proof.
  destruct (preprocess_system_phase mgr pre Hready Hpre)
    as (m1 & H1 & _ & _ & Hcp & Hn & Hs).
  exists m1. split; [exact H1 |]. split; [exact Hs |].
  split; [exact Hn | exact Hcp].
Qed.

(** X20. The two task graphs of [taskgraphSetup] compute the same worlds.
    On a manager ready for an epoch, the graph of four Systems (preprocess
    and solver in any order, broadphase and narrowphase in index order)
    and the graph of the unified System (in any order) both finish, and
    leave every world [k] as the one [world_epoch] computes from it alone:
    objects preprocessed, a contact per ordered pair with overlapping
    boxes in order of the pairs, contacts resolved, count reset. *)
Theorem split_and_unified_epochs_agree (mgr : SimManager)
    (pre solve uni : Z -> list Z)
    (Hready : mgr_ready mgr) (Hpre : dispatch_order pre)
    (Hsolve : dispatch_order solve) (Huni : dispatch_order uni) :
  exists ms mu,
    split_epoch MADRONA_GPU_MODE pre int_range int_range solve mgr = Some ms /\
    unified_epoch MADRONA_GPU_MODE uni mgr = Some mu /\
    sims ms = sims mu /\
    forall (k : nat) s0, sims mgr !! k = Some s0 ->
      exists s', world_epoch MADRONA_GPU_MODE (Z.of_nat k) s0 = Some s' /\
                 sims mu !! k = Some s'.
Proof.
  assert (Hidx : dispatch_order int_range) by (intros n; reflexivity).
  destruct (split_epoch_returns mgr pre int_range int_range solve)
    as (ms & Hs & _ & _); try assumption.
  destruct (unified_epoch_returns mgr uni) as (mu & Hu & _ & _);
    try assumption.
  destruct (split_epoch_values mgr ms pre solve Hready Hpre Hsolve Hs)
    as [Hl1 Hv1].
  destruct (unified_epoch_values mgr mu uni Hready Huni Hu) as [Hl2 Hv2].
  exists ms, mu. split; [exact Hs |]. split; [exact Hu |].
  split; [| exact Hv2].
  apply list_eq. intros k. destruct (sims mgr !! k) as [s0 |] eqn:Hk.
  - destruct (Hv1 k s0 Hk) as (s1 & E1 & ->).
    destruct (Hv2 k s0 Hk) as (s2 & E2 & ->). congruence.
  - apply lookup_ge_None in Hk.
    rewrite !lookup_ge_None_2 by lia. reflexivity.
Qed.

End Epochs.

Lemma sample_mgr_ready : mgr_ready sample_mgr.
Proof.
  destruct (SimManager_ctor_builds (FO := prim_float_ops) [sample_env] 1)
    as (mgr & Hctor & Hready & _).
  - reflexivity.
  - lia.
  - constructor; [| constructor]. vm_compute. repeat split; discriminate.
  - vm_compute. reflexivity.
  - unfold sample_mgr. rewrite Hctor. exact Hready.
Qed.

Lemma int_range_dispatch : dispatch_order int_range.
Proof. intros n. reflexivity. Qed.

Lemma SimManager_ctor_ready_witness :
  exists mgr,
    SimManager_ctor (FO := prim_float_ops) [sample_env] 1 0 = Some mgr /\
    mgr_ready mgr /\ broad_numInvocations mgr = 4.
Proof.
  destruct (SimManager_ctor_ready (FO := prim_float_ops) [sample_env] 1
              eq_refl ltac:(lia)
              ltac:(constructor; [| constructor];
                    vm_compute; repeat split; discriminate)
              ltac:(vm_compute; reflexivity))
    as (mgr & H1 & H2 & _ & H3 & _).
  exists mgr. split; [exact H1 |]. split; [exact H2 | exact H3].
Defined.

Lemma split_epoch_runs_witness :
  exists mgr',
    split_epoch false int_range int_range int_range int_range sample_mgr
      = Some mgr' /\
    mgr_ready mgr'.
Proof.
  destruct (split_epoch_runs (FO := prim_float_ops) false sample_mgr
              int_range int_range int_range int_range
              sample_mgr_ready int_range_dispatch int_range_dispatch
              int_range_dispatch int_range_dispatch)
    as (mgr' & H1 & H2 & _).
  exists mgr'. split; assumption.
Defined.

Lemma unified_epoch_runs_witness :
  exists mgr',
    unified_epoch false int_range sample_mgr = Some mgr' /\ mgr_ready mgr'.
Proof.
  destruct (unified_epoch_runs (FO := prim_float_ops) false sample_mgr
              int_range sample_mgr_ready int_range_dispatch)
    as (mgr' & H1 & H2 & _).
  exists mgr'. split; assumption.
Defined.

Lemma reverse_dispatch : dispatch_order (fun n => rev (int_range n)).
Proof. intros n. symmetry. apply Permutation_rev. Qed.

Lemma preprocess_any_order_witness :
  exists mgr',
    run_system PreprocessSystem_run preprocess_numInvocations
               (fun n => rev (int_range n)) sample_mgr = Some mgr' /\
    sims mgr' = map preprocess_world (sims sample_mgr).
Proof.
  destruct (preprocess_any_order (FO := prim_float_ops) sample_mgr
              (fun n => rev (int_range n)) sample_mgr_ready reverse_dispatch)
    as (mgr' & H1 & H2 & _).
  exists mgr'. split; assumption.
Defined.

Lemma split_and_unified_epochs_agree_witness :
  exists ms mu,
    split_epoch false (fun n => rev (int_range n)) int_range int_range
                int_range sample_mgr = Some ms /\
    unified_epoch false (fun n => rev (int_range n)) sample_mgr = Some mu /\
    sims ms = sims mu.
Proof.
  destruct (split_and_unified_epochs_agree (FO := prim_float_ops) false
              sample_mgr (fun n => rev (int_range n)) int_range
              (fun n => rev (int_range n))
              sample_mgr_ready reverse_dispatch int_range_dispatch
              reverse_dispatch)
    as (ms & mu & H1 & H2 & H3 & _).
  exists ms, mu. split; [exact H1 |]. split; assumption.
Defined.

(** ** simple.cpp: the solver *)

Section SolverFacts.
Context {FO : FloatOps} {FE : FloatExact FO}.

Add Ring float_is_ring_solver : (@float_ring FO FE).

Lemma sum_translations_insert (l : list SphereObject) :
  forall (i : nat) (o o' : SphereObject),
    l !! i = Some o ->
    Vector3_add (sum_translations (<[i := o']> l)) (translation o)
    = Vector3_add (sum_translations l) (translation o').
Proof.
  induction l as [| x l IH]; intros i o o' Hi; [discriminate |].
  destruct i as [| i]; cbn [insert list_insert sum_translations fold_right].
  - injection Hi as ->.
    destruct (translation o), (translation o'),
             (fold_right (fun o acc => Vector3_add (translation o) acc)
                         Vector3_zero l).
    unfold Vector3_add. cbn. f_equal; ring.
  - specialize (IH i o o' Hi). unfold sum_translations in IH.
    destruct (translation x) as [x0 x1 x2], (translation o) as [a0 a1 a2],
             (translation o') as [b0 b1 b2],
             (fold_right (fun o acc => Vector3_add (translation o) acc)
                         Vector3_zero l) as [s0 s1 s2],
             (fold_right (fun o acc => Vector3_add (translation o) acc)
                         Vector3_zero (<[i := o']> l)) as [t0 t1 t2].
    unfold Vector3_add in *. cbn in *. injection IH as E0 E1 E2.
    f_equal.
    + transitivity (fadd x0 (fadd t0 a0)); [ring |]. rewrite E0. ring.
    + transitivity (fadd x1 (fadd t1 a1)); [ring |]. rewrite E1. ring.
    + transitivity (fadd x2 (fadd t2 a2)); [ring |]. rewrite E2. ring.
Qed.

Lemma Vector3_add_cancel (s s' t t' n : Vector3) :
  Vector3_add s' t = Vector3_add s (Vector3_sub t n) ->
  forall s'', Vector3_add s'' t' = Vector3_add s' (Vector3_add t' n) ->
              s'' = s.
Proof.
  destruct s as [s0 s1 s2], s' as [p0 p1 p2], t as [a0 a1 a2],
           t' as [b0 b1 b2], n as [n0 n1 n2].
  unfold Vector3_add, Vector3_sub. cbn. intros E1 [q0 q1 q2]. cbn. intros E2.
  injection E1 as E10 E11 E12. injection E2 as E20 E21 E22.
  f_equal.
  - transitivity (fsub (fadd q0 b0) b0); [ring |]. rewrite E20.
    transitivity (fadd (fsub (fadd p0 a0) a0) n0); [ring |]. rewrite E10. ring.
  - transitivity (fsub (fadd q1 b1) b1); [ring |]. rewrite E21.
    transitivity (fadd (fsub (fadd p1 a1) a1) n1); [ring |]. rewrite E11. ring.
  - transitivity (fsub (fadd q2 b2) b2); [ring |]. rewrite E22.
    transitivity (fadd (fsub (fadd p2 a2) a2) n2); [ring |]. rewrite E12. ring.
Qed.

(** One contact moves its two objects by opposite steps and changes
    nothing else. *)
Lemma processContact_conserves (sim sim' : SimpleSim) (i : Z) :
  processContact sim i = Some sim' ->
  sum_translations (sphereObjects sim') = sum_translations (sphereObjects sim) /\
  map rotation (sphereObjects sim') = map rotation (sphereObjects sim) /\
  map aabb (sphereObjects sim') = map aabb (sphereObjects sim) /\
  contacts sim' = contacts sim /\ numContacts sim' = numContacts sim /\
  worldBounds sim' = worldBounds sim.
Proof.
  unfold processContact. intros H.
  apply bind_Some in H as (c & _ & H).
  apply bind_Some in H as (a & Ha & H).
  apply bind_Some in H as (b0 & _ & H).
  apply bind_Some in H as (objs & Hs1 & H).
  apply bind_Some in H as (b & Hb & H).
  apply bind_Some in H as (objs' & Hs2 & H). injection H as <-.
  apply Array_store_Some in Hs1 as [_ ->].
  apply Array_store_Some in Hs2 as [_ ->].
  apply Array_load_Some in Ha as [_ Ha]. apply Array_load_Some in Hb as [_ Hb].
  cbn [sphereObjects set_sphereObjects contacts numContacts worldBounds].
  split; [| split; [| split]]; [| | | auto].
  - pose proof (sum_translations_insert _ _ _
                  (mkSphereObject (Vector3_sub (translation a) (normal c))
                                  (rotation a) (aabb a)) Ha) as E1.
    pose proof (sum_translations_insert _ _ _
                  (mkSphereObject (Vector3_add (translation b) (normal c))
                                  (rotation b) (aabb b)) Hb) as E2.
    exact (Vector3_add_cancel _ _ _ _ _ E1 _ E2).
  - change (map ?f ?x) with (f <$> x).
    rewrite list_fmap_insert, list_insert_id
      by (rewrite list_lookup_fmap, Hb; reflexivity).
    rewrite list_fmap_insert. apply list_insert_id.
    rewrite list_lookup_fmap, Ha. reflexivity.
  - change (map ?f ?x) with (f <$> x).
    rewrite list_fmap_insert, list_insert_id
      by (rewrite list_lookup_fmap, Hb; reflexivity).
    rewrite list_fmap_insert. apply list_insert_id.
    rewrite list_lookup_fmap, Ha. reflexivity.
Qed.

(** X26. In exact arithmetic, [processContacts] conserves the sum of the
    translations of the objects of a world: each contact moves one object
    by the normal and the other by its opposite (and an object in contact
    with itself not at all).  It changes no rotation and no bounding box,
    so the boxes are those of before the move until the next
    [preprocessObject]; it leaves the contacts and their count as they
    are. *)
Theorem processContacts_conserves_sum (sim : SimpleSim) (Hok : sim_ok sim) :
  exists sim',
    processContacts sim = Some sim' /\
    sum_translations (sphereObjects sim')
    = sum_translations (sphereObjects sim) /\
    map rotation (sphereObjects sim') = map rotation (sphereObjects sim) /\
    map aabb (sphereObjects sim') = map aabb (sphereObjects sim) /\
    contacts sim' = contacts sim /\ numContacts sim' = numContacts sim /\
    worldBounds sim' = worldBounds sim.
Proof.
  destruct (processContacts_returns sim Hok) as (sim' & Hrun & _ & _).
  exists sim'. split; [exact Hrun |].
  unfold processContacts in Hrun. revert Hrun.
  apply (for_each_preserves processContact
           (fun s s' =>
              sum_translations (sphereObjects s')
              = sum_translations (sphereObjects s) /\
              map rotation (sphereObjects s') = map rotation (sphereObjects s) /\
              map aabb (sphereObjects s') = map aabb (sphereObjects s) /\
              contacts s' = contacts s /\ numContacts s' = numContacts s /\
              worldBounds s' = worldBounds s)).
  - auto 10.
  - intros a b c (A1 & A2 & A3 & A4 & A5 & A6) (B1 & B2 & B3 & B4 & B5 & B6).
    repeat split; congruence.
  - intros s i s'. apply processContact_conserves.
Qed.

End SolverFacts.

Lemma sample_exact_sim_ok : sim_ok sample_exact_sim.
Proof.
  constructor; cbn; try lia.
  intros i c Hi Hc.
  assert (Hcase : i = 0 \/ i = 1) by lia.
  destruct Hcase as [-> | ->]; cbn in Hc; injection Hc as <-;
    split; cbn; lia.
Qed.

Lemma processContacts_conserves_sum_witness :
  exists sim',
    processContacts sample_exact_sim = Some sim' /\
    sum_translations (sphereObjects sim')
    = sum_translations (sphereObjects sample_exact_sim).
Proof.
  destruct (processContacts_conserves_sum (FE := exact_int_exact)
              sample_exact_sim sample_exact_sim_ok) as (sim' & H1 & H2 & _).
  exists sim'. split; assumption.
Defined.

(** ** physics_assets.cpp *)

Section CellFacts.
Import PhysicsLoader.
Context {A : Type}.
Implicit Types (mem pool : Cells A) (p : ArrayPtr A).

Lemma cells_Some mem (off n : Z) (l : Cells A) :
  cells mem off n = Some l <->
  0 <= off /\ 0 <= n /\ off + n <= Z.of_nat (length mem) /\
  l = take (Z.to_nat n) (drop (Z.to_nat off) mem).
Proof.
  unfold cells.
  destruct (Z.leb_spec 0 off), (Z.leb_spec 0 n),
           (Z.leb_spec (off + n) (Z.of_nat (length mem)));
    cbn [andb]; split; intros Hx; try discriminate; try lia.
  - injection Hx as <-. auto.
  - destruct Hx as (_ & _ & _ & ->). reflexivity.
Qed.

Lemma cells_length mem (off n : Z) (l : Cells A) :
  cells mem off n = Some l -> length l = Z.to_nat n.
Proof.
  intros H. apply cells_Some in H as (Ho & Hn & Hr & ->).
  rewrite length_take, length_drop. lia.
Qed.

Lemma cells_ext mem mem' (o k : Z) :
  length mem' = length mem ->
  (forall j, (Z.to_nat o <= j < Z.to_nat o + Z.to_nat k)%nat ->
             mem' !! j = mem !! j) ->
  cells mem' o k = cells mem o k.
Proof.
  intros Hlen Hsame. unfold cells. rewrite Hlen.
  destruct ((0 <=? o) && (0 <=? k) && (o + k <=? Z.of_nat (length mem)));
    [| reflexivity].
  f_equal. apply list_eq. intros i.
  destruct (decide (i < Z.to_nat k)%nat) as [Hi | Hi].
  - rewrite !lookup_take_lt by exact Hi. rewrite !lookup_drop.
    apply Hsame. lia.
  - rewrite !lookup_take_ge by lia. reflexivity.
Qed.

Lemma write_cells_Some mem (off : Z) (src mem' : Cells A) :
  write_cells mem off src = Some mem' <->
  0 <= off /\ off + Z.of_nat (length src) <= Z.of_nat (length mem) /\
  mem' = take (Z.to_nat off) mem ++ src
         ++ drop (Z.to_nat off + length src) mem.
Proof.
  unfold write_cells.
  destruct (Z.leb_spec 0 off),
           (Z.leb_spec (off + Z.of_nat (length src)) (Z.of_nat (length mem)));
    cbn [andb]; split; intros Hx; try discriminate; try lia.
  - injection Hx as <-. auto.
  - destruct Hx as (_ & _ & ->). reflexivity.
Qed.

Lemma write_cells_spec mem (off : Z) (src mem' : Cells A) :
  write_cells mem off src = Some mem' ->
  length mem' = length mem /\
  (forall i, (i < length src)%nat ->
             mem' !! (Z.to_nat off + i)%nat = src !! i) /\
  (forall j, (j < Z.to_nat off)%nat \/ (Z.to_nat off + length src <= j)%nat ->
             mem' !! j = mem !! j) /\
  cells mem' off (Z.of_nat (length src)) = Some src.
Proof.
  intros H. apply write_cells_Some in H as (Ho & Hr & ->).
  assert (Hlen : length (take (Z.to_nat off) mem ++ src
                         ++ drop (Z.to_nat off + length src) mem)
                 = length mem).
  { rewrite !length_app, length_take, length_drop. lia. }
  assert (Hin : forall i, (i < length src)%nat ->
            (take (Z.to_nat off) mem ++ src
             ++ drop (Z.to_nat off + length src) mem)
              !! (Z.to_nat off + i)%nat = src !! i).
  { intros i Hi. rewrite lookup_app_r by (rewrite length_take; lia).
    rewrite length_take.
    replace (Z.to_nat off + i - Z.to_nat off `min` length mem)%nat with i
      by lia.
    apply lookup_app_l. exact Hi. }
  split; [exact Hlen |]. split; [exact Hin |]. split.
  - intros j [Hj | Hj].
    + rewrite lookup_app_l by (rewrite length_take; lia).
      apply lookup_take_lt. exact Hj.
    + rewrite lookup_app_r by (rewrite length_take; lia).
      rewrite lookup_app_r by (rewrite length_take; lia).
      rewrite length_take, lookup_drop. f_equal. lia.
  - apply cells_Some. split; [lia |]. split; [lia |].
    split; [rewrite Hlen; lia |].
    apply list_eq. intros i. rewrite Nat2Z.id.
    destruct (decide (i < length src)%nat) as [Hi | Hi].
    + rewrite lookup_take_lt by exact Hi. rewrite lookup_drop.
      symmetry. apply Hin. exact Hi.
    + rewrite lookup_take_ge by lia. apply lookup_ge_None. lia.
Qed.

Lemma deref_length pool p (n : Z) (l : Cells A) :
  deref pool p n = Some l -> 0 <= n /\ length l = Z.to_nat n.
Proof.
  destruct p as [elems | off]; cbn [deref]; intros Hx.
  - destruct (Z.leb_spec 0 n), (Z.leb_spec n (Z.of_nat (length elems)));
      cbn [andb] in Hx; try discriminate.
    injection Hx as <-. split; [lia |]. rewrite length_map, length_take. lia.
  - pose proof (cells_length _ _ _ _ Hx).
    apply cells_Some in Hx as (_ & Hn & _). auto.
Qed.

(** A copy that is defined stays within the pool. *)
Lemma memcpy_pool_room pool (off : Z) p (n : Z) (pool' : Cells A) :
  memcpy_pool pool off p n = Some pool' ->
  0 <= off /\ 0 <= n /\ off + n <= Z.of_nat (length pool) /\
  length pool' = length pool.
Proof.
  unfold memcpy_pool. intros H. apply bind_Some in H as (src & Hsrc & H).
  apply deref_length in Hsrc as [Hn Hlen].
  assert (Hw : write_cells pool off src = Some pool').
  { destruct p; [exact H |].
    destruct (_ || _); [exact H | discriminate]. }
  pose proof (write_cells_spec _ _ _ _ Hw) as (Hl & _).
  apply write_cells_Some in Hw as (Ho & Hr & _).
  split; [exact Ho |]. split; [exact Hn |]. split; [lia | exact Hl].
Qed.

(** A copy from memory of the caller into the free part of a pool. *)
Lemma memcpy_pool_caller pool (count : Z) p (n : Z) :
  caller_array p n -> 0 <= count ->
  count + n <= Z.of_nat (length pool) ->
  exists pool',
    memcpy_pool pool count p n = Some pool' /\
    length pool' = length pool /\
    cells pool' count n = deref pool p n /\
    is_Some (deref pool p n) /\
    forall o k, 0 <= o -> 0 <= k -> o + k <= count ->
                cells pool' o k = cells pool o k.
Proof.
  intros Hp Hc Hroom. destruct p as [elems | off]; [| contradiction].
  cbn [caller_array] in Hp. unfold memcpy_pool. cbn [deref].
  destruct (Z.leb_spec 0 n), (Z.leb_spec n (Z.of_nat (length elems)));
    try lia.
  cbn [andb mbind option_bind].
  set (src := map Some (take (Z.to_nat n) elems)).
  assert (Hlen : length src = Z.to_nat n).
  { unfold src. rewrite length_map, length_take. lia. }
  destruct (write_cells pool count src) as [pool' |] eqn:Hw.
  2: { exfalso. unfold write_cells in Hw.
       destruct (Z.leb_spec 0 count),
                (Z.leb_spec (count + Z.of_nat (length src))
                            (Z.of_nat (length pool)));
         cbn [andb] in Hw; try discriminate; lia. }
  exists pool'. split; [reflexivity |].
  pose proof (write_cells_spec _ _ _ _ Hw) as (Hl & _ & Hout & Hcells).
  split; [exact Hl |]. split.
  - rewrite <- Hcells. f_equal. lia.
  - split; [eexists; reflexivity |].
    intros o k Ho Hk Hok. apply cells_ext; [exact Hl |].
    intros j Hj. apply Hout. left. lia.
Qed.

End CellFacts.

Section LoaderFacts.
Import PhysicsLoader.
Context {FO : FloatOps}.
Context {RigidBodyMetadata PolygonData EdgeData HalfEdge OtherPrimitive : Type}.
Variable NDEBUG : bool.
Variable CountT_bits : Z.

Local Abbreviation Impl :=
  (@Impl FO RigidBodyMetadata PolygonData EdgeData HalfEdge OtherPrimitive).
Local Abbreviation CollisionPrimitive :=
  (@CollisionPrimitive FO PolygonData EdgeData HalfEdge OtherPrimitive).
Local Abbreviation HalfEdgeMesh :=
  (@HalfEdgeMesh FO PolygonData EdgeData HalfEdge).

Implicit Types (impl : Impl) (prim : CollisionPrimitive) (m : HalfEdgeMesh).

Lemma is_CountT_between (lo v hi : Z) :
  is_CountT CountT_bits lo = true -> is_CountT CountT_bits hi = true ->
  lo <= v <= hi -> is_CountT CountT_bits v = true.
Proof.
  unfold is_CountT. intros Hlo Hhi Hv.
  apply andb_true_iff in Hlo as [Hlo _]. apply andb_true_iff in Hhi as [_ Hhi].
  apply andb_true_iff. split; [apply Z.leb_le | apply Z.ltb_lt]; lia.
Qed.

Lemma is_CountT_zero (hi : Z) :
  is_CountT CountT_bits hi = true -> 0 <= hi -> is_CountT CountT_bits 0 = true.
Proof.
  unfold is_CountT. intros Hhi H0.
  apply andb_true_iff in Hhi as [_ Hhi]. apply Z.ltb_lt in Hhi.
  apply andb_true_iff. split; [apply Z.leb_le | apply Z.ltb_lt]; [| lia].
  pose proof (Z.pow_nonneg 2 (CountT_bits - 1)). lia.
Qed.

Lemma extends_refl impl : extends impl impl.
Proof. constructor; auto with lia. Qed.

Lemma extends_trans impl1 impl2 impl3 :
  extends impl1 impl2 -> extends impl2 impl3 -> extends impl1 impl3.
Proof.
  intros [A1 A2 A3 A4 A5 A6 (Ap & Ap' & Ap'') (Ae & Ae' & Ae'')
            (Ah & Ah' & Ah'') (Av & Av' & Av'')]
         [B1 B2 B3 B4 B5 B6 (Bp & Bp' & Bp'') (Be & Be' & Be'')
            (Bh & Bh' & Bh'') (Bv & Bv' & Bv'')].
  constructor; try congruence.
  - split; [congruence |]. split; [lia |]. intros o k Ho Hk Hok.
    rewrite Bp'' by lia. apply Ap''; lia.
  - split; [congruence |]. split; [lia |]. intros o k Ho Hk Hok.
    rewrite Be'' by lia. apply Ae''; lia.
  - split; [congruence |]. split; [lia |]. intros o k Ho Hk Hok.
    rewrite Bh'' by lia. apply Ah''; lia.
  - split; [congruence |]. split; [lia |]. intros o k Ho Hk Hok.
    rewrite Bv'' by lia. apply Av''; lia.
Qed.

Lemma pooled_array_extends {A} (pool pool' : list (option A))
    (count count' : Z) (p : ArrayPtr A) (n : Z) :
  count <= count' ->
  (forall o k, 0 <= o -> 0 <= k -> o + k <= count ->
               cells pool' o k = cells pool o k) ->
  pooled_array count p n ->
  pooled_array count' p n /\ deref pool' p n = deref pool p n.
Proof.
  intros Hc Hcells Hp. destruct p as [elems | off]; [contradiction |].
  cbn [pooled_array deref] in *. destruct Hp as (Ho & Hn & Hon).
  split; [lia |]. apply Hcells; assumption.
Qed.

(** A mesh in the pools reads the same after the loader was extended. *)
Lemma extends_mesh impl impl' m :
  extends impl impl' -> pooled_mesh impl m ->
  pooled_mesh impl' m /\ read_mesh impl' m = read_mesh impl m.
Proof.
  intros [_ _ _ _ _ _ (_ & Hp & Hp') (_ & He & He') (_ & Hh & Hh')
            (_ & Hv & Hv')] (Mp & Me & Mh & Mv).
  destruct (pooled_array_extends _ _ _ _ _ _ Hp Hp' Mp) as [Mp' Ep].
  destruct (pooled_array_extends _ _ _ _ _ _ He He' Me) as [Me' Ee].
  destruct (pooled_array_extends _ _ _ _ _ _ Hh Hh' Mh) as [Mh' Eh].
  destruct (pooled_array_extends _ _ _ _ _ _ Hv Hv' Mv) as [Mv' Ev].
  split; [repeat split; assumption |].
  unfold read_mesh. rewrite Ep, Ee, Eh, Ev. reflexivity.
Qed.

Lemma deref_caller {A} (pool pool' : list (option A)) (p : ArrayPtr A) (n : Z) :
  caller_array p n -> deref pool' p n = deref pool p n.
Proof. destruct p; [reflexivity | contradiction]. Qed.

Lemma read_caller_mesh impl impl' m :
  caller_mesh m -> read_mesh impl' m = read_mesh impl m.
Proof.
  intros (Mp & Me & Mh & Mv). unfold read_mesh.
  rewrite (deref_caller (polygonDatas impl) (polygonDatas impl') _ _ Mp).
  rewrite (deref_caller (edgeDatas impl) (edgeDatas impl') _ _ Me).
  rewrite (deref_caller (halfEdges impl) (halfEdges impl') _ _ Mh).
  rewrite (deref_caller (vertices impl) (vertices impl') _ _ Mv).
  reflexivity.
Qed.

Lemma loaded_as_extends impl impl' prim prim' :
  extends impl impl' -> caller_prim prim ->
  loaded_as impl prim prim' -> loaded_as impl' prim prim'.
Proof.
  intros Hex Hc. destruct prim as [m | o], prim' as [m' | o'];
    cbn [loaded_as caller_prim] in *; try tauto.
  intros (Hp & Hs & Hr).
  destruct (extends_mesh _ _ _ Hex Hp) as [Hp' Hr'].
  split; [exact Hp' |]. rewrite Hr'. split; [exact Hs |].
  rewrite Hr. apply read_caller_mesh. exact Hc.
Qed.

Lemma pool_append_caller {A} (pool : list (option A)) (count : Z)
    (p : ArrayPtr A) (n : Z) :
  caller_array p n -> 0 <= count ->
  count + n <= Z.of_nat (length pool) ->
  is_CountT CountT_bits (Z.of_nat (length pool)) = true ->
  exists pool',
    pool_append CountT_bits pool count p n
    = Some (pool', PoolAt count, count + n) /\
    0 <= n /\
    length pool' = length pool /\
    cells pool' count n = deref pool p n /\
    is_Some (deref pool p n) /\
    forall o k, 0 <= o -> 0 <= k -> o + k <= count ->
                cells pool' o k = cells pool o k.
Proof.
  intros Hp Hc Hroom Hfit.
  assert (Hn : 0 <= n) by (destruct p; cbn in Hp; [lia | contradiction]).
  destruct (memcpy_pool_caller pool count p n Hp Hc Hroom)
    as (pool' & Hcopy & Hlen & Hcells & Hsome & Hlow).
  exists pool'. unfold pool_append. rewrite Hcopy. cbn [mbind option_bind].
  rewrite (is_CountT_between 0 (count + n) (Z.of_nat (length pool)));
    [auto 10 | | exact Hfit | lia].
  apply (is_CountT_zero _ Hfit). lia.
Qed.

Lemma total_cons (count : HalfEdgeMesh -> Z) prim
    (prims : list CollisionPrimitive) :
  total count (prim :: prims)
  = match prim with
    | Hull m => count m + total count prims
    | NotHull _ => total count prims
    end.
Proof. destruct prim; reflexivity. Qed.

Lemma total_nonneg (count : HalfEdgeMesh -> Z)
    (prims : list CollisionPrimitive) :
  (forall m, In (Hull m) prims -> 0 <= count m) -> 0 <= total count prims.
Proof.
  induction prims as [| prim prims IH]; intros H; [cbn; lia |].
  rewrite total_cons. destruct prim as [m | o].
  - pose proof (H m (or_introl eq_refl)).
    pose proof (IH (fun m' Hm' => H m' (or_intror Hm'))). lia.
  - apply IH. intros m' Hm'. apply H. right. exact Hm'.
Qed.

Lemma load_hull_caller impl prim :
  loader_ok CountT_bits impl -> caller_prim prim ->
  polygonCount impl + total mPolygonCount [prim]
    <= Z.of_nat (length (polygonDatas impl)) ->
  edgeCount impl + total mEdgeCount [prim]
    <= Z.of_nat (length (edgeDatas impl)) ->
  halfEdgeCount impl + total mHalfEdgeCount [prim]
    <= Z.of_nat (length (halfEdges impl)) ->
  vertexCount impl + total mVertexCount [prim]
    <= Z.of_nat (length (vertices impl)) ->
  exists impl' prim',
    load_hull CountT_bits impl prim = Some (impl', prim') /\
    extends impl impl' /\ loader_ok CountT_bits impl' /\
    loaded_as impl' prim prim' /\
    polygonCount impl' = polygonCount impl + total mPolygonCount [prim] /\
    edgeCount impl' = edgeCount impl + total mEdgeCount [prim] /\
    halfEdgeCount impl' = halfEdgeCount impl + total mHalfEdgeCount [prim] /\
    vertexCount impl' = vertexCount impl + total mVertexCount [prim].
Proof.
  intros Hok Hc Rp Re Rh Rv. destruct prim as [m | o].
  2: { exists impl, (NotHull o). cbn [total fold_right].
       rewrite !Z.add_0_r. split; [reflexivity |].
       split; [apply extends_refl |]. split; [exact Hok |].
       split; [reflexivity | auto]. }
  cbn [total fold_right] in *. rewrite !Z.add_0_r in *.
  destruct Hc as (Cp & Ce & Ch & Cv).
  pose proof Hok as [Kc Km Kmd Kbb Kpr Kp Ke Kh Kv Fp Fe Fh Fv].
  destruct (pool_append_caller (polygonDatas impl) (polygonCount impl)
              _ _ Cp ltac:(lia) Rp Fp)
    as (pd & Ap & Np & Lp & Dp & Sp & Wp).
  destruct (pool_append_caller (edgeDatas impl) (edgeCount impl)
              _ _ Ce ltac:(lia) Re Fe)
    as (ed & Ae & Ne & Le & De & Se & We).
  destruct (pool_append_caller (halfEdges impl) (halfEdgeCount impl)
              _ _ Ch ltac:(lia) Rh Fh)
    as (he & Ah & Nh & Lh & Dh & Sh & Wh).
  destruct (pool_append_caller (vertices impl) (vertexCount impl)
              _ _ Cv ltac:(lia) Rv Fv)
    as (vs & Av & Nv & Lv & Dv & Sv & Wv).
  unfold load_hull. rewrite Ap, Ae, Ah, Av. cbn [mbind option_bind].
  eexists _, _. split; [reflexivity |].
  split; [| split; [| split]].
  - constructor; cbn [metadatas aabbs primitives curLoadedObjs maxObjs
                      storageType polygonDatas polygonCount edgeDatas edgeCount
                      halfEdges halfEdgeCount vertices vertexCount];
      try reflexivity; (split; [assumption |]); (split; [lia | assumption]).
  - constructor; cbn [metadatas aabbs primitives curLoadedObjs maxObjs
                      storageType polygonDatas polygonCount edgeDatas edgeCount
                      halfEdges halfEdgeCount vertices vertexCount];
      rewrite ?Lp, ?Le, ?Lh, ?Lv; try assumption; lia.
  - cbn [loaded_as]. split; [| split].
    + unfold pooled_mesh.
      cbn [pooled_array mPolygons mPolygonCount mEdges mEdgeCount mHalfEdges
           mHalfEdgeCount mVertices mVertexCount polygonCount edgeCount
           halfEdgeCount vertexCount].
      repeat split; lia.
    + unfold read_mesh.
      cbn [deref mPolygons mPolygonCount mEdges mEdgeCount mHalfEdges
           mHalfEdgeCount mVertices mVertexCount polygonDatas edgeDatas
           halfEdges vertices].
      rewrite Dp, De, Dh, Dv.
      destruct Sp as [? ->], Se as [? ->], Sh as [? ->], Sv as [? ->].
      eexists. reflexivity.
    + unfold read_mesh.
      cbn [deref mPolygons mPolygonCount mEdges mEdgeCount mHalfEdges
           mHalfEdgeCount mVertices mVertexCount polygonDatas edgeDatas
           halfEdges vertices].
      rewrite Dp, De, Dh, Dv.
      rewrite (deref_caller (polygonDatas impl) pd _ _ Cp).
      rewrite (deref_caller (edgeDatas impl) ed _ _ Ce).
      rewrite (deref_caller (halfEdges impl) he _ _ Ch).
      rewrite (deref_caller (vertices impl) vs _ _ Cv).
      reflexivity.
  - cbn [polygonCount edgeCount halfEdgeCount vertexCount]. auto.
Qed.

Lemma caller_counts (count : HalfEdgeMesh -> Z)
    (prims : list CollisionPrimitive) :
  (forall m, caller_mesh m -> 0 <= count m) ->
  Forall caller_prim prims -> 0 <= total count prims.
Proof.
  intros Hc HF. apply total_nonneg. intros m Hm.
  rewrite Forall_forall in HF. apply Hc.
  apply (HF (Hull m)). apply list_elem_of_In. exact Hm.
Qed.

Lemma caller_array_nonneg {A} (p : ArrayPtr A) (n : Z) :
  caller_array p n -> 0 <= n.
Proof. destruct p; cbn; [lia | contradiction]. Qed.

(** The loop of [loadObjects] over primitives of the caller that fit the
    pools. *)
Lemma load_hulls_caller (prims : list CollisionPrimitive) :
  forall impl,
    loader_ok CountT_bits impl -> Forall caller_prim prims ->
    polygonCount impl + total mPolygonCount prims
      <= Z.of_nat (length (polygonDatas impl)) ->
    edgeCount impl + total mEdgeCount prims
      <= Z.of_nat (length (edgeDatas impl)) ->
    halfEdgeCount impl + total mHalfEdgeCount prims
      <= Z.of_nat (length (halfEdges impl)) ->
    vertexCount impl + total mVertexCount prims
      <= Z.of_nat (length (vertices impl)) ->
    exists impl' prims',
      load_hulls CountT_bits impl prims = Some (impl', prims') /\
      extends impl impl' /\ loader_ok CountT_bits impl' /\
      Forall2 (loaded_as impl') prims prims' /\
      polygonCount impl' = polygonCount impl + total mPolygonCount prims /\
      edgeCount impl' = edgeCount impl + total mEdgeCount prims /\
      halfEdgeCount impl' = halfEdgeCount impl + total mHalfEdgeCount prims /\
      vertexCount impl' = vertexCount impl + total mVertexCount prims.
Proof.
  induction prims as [| prim prims IH]; intros impl Hok HF Rp Re Rh Rv.
  - exists impl, []. cbn [total fold_right]. rewrite !Z.add_0_r.
    split; [reflexivity |]. split; [apply extends_refl |].
    split; [exact Hok |]. split; [constructor | auto].
  - apply Forall_cons in HF as [Hc HF].
    assert (Tp : 0 <= total mPolygonCount prims).
    { apply caller_counts; [| exact HF].
      intros m (C & _). exact (caller_array_nonneg _ _ C). }
    assert (Te : 0 <= total mEdgeCount prims).
    { apply caller_counts; [| exact HF].
      intros m (_ & C & _). exact (caller_array_nonneg _ _ C). }
    assert (Th : 0 <= total mHalfEdgeCount prims).
    { apply caller_counts; [| exact HF].
      intros m (_ & _ & C & _). exact (caller_array_nonneg _ _ C). }
    assert (Tv : 0 <= total mVertexCount prims).
    { apply caller_counts; [| exact HF].
      intros m (_ & _ & _ & C). exact (caller_array_nonneg _ _ C). }
    rewrite (total_cons mPolygonCount) in Rp.
    rewrite (total_cons mEdgeCount) in Re.
    rewrite (total_cons mHalfEdgeCount) in Rh.
    rewrite (total_cons mVertexCount) in Rv.
    destruct (load_hull_caller impl prim Hok Hc)
      as (impl1 & prim' & H1 & X1 & Ok1 & L1 & Cp & Ce & Ch & Cv);
      try (destruct prim; cbn [total fold_right]; lia).
    pose proof X1 as [_ _ _ _ _ _ (Lp & _) (Le & _) (Lh & _) (Lv & _)].
    destruct (IH impl1 Ok1 HF)
      as (impl2 & prims' & H2 & X2 & Ok2 & L2 & Dp & De & Dh & Dv);
      try (rewrite ?Lp, ?Le, ?Lh, ?Lv, ?Cp, ?Ce, ?Ch, ?Cv;
           destruct prim; cbn [total fold_right]; lia).
    exists impl2, (prim' :: prims'). cbn [load_hulls].
    rewrite H1. cbn [mbind option_bind]. rewrite H2. cbn [mbind option_bind].
    split; [reflexivity |]. split; [eapply extends_trans; eassumption |].
    split; [exact Ok2 |]. split.
    + constructor; [| exact L2].
      eapply loaded_as_extends; eassumption.
    + rewrite (total_cons mPolygonCount), (total_cons mEdgeCount),
              (total_cons mHalfEdgeCount), (total_cons mVertexCount).
      rewrite Dp, De, Dh, Dv, Cp, Ce, Ch, Cv.
      destruct prim; cbn [total fold_right]; repeat split; lia.
Qed.

Lemma memcpy_from_spec {A} (dst : list (option A)) (off : Z) (src : list A)
    (n : Z) :
  n = Z.of_nat (length src) -> 0 <= off ->
  off + n <= Z.of_nat (length dst) ->
  exists dst',
    memcpy_from dst off src n = Some dst' /\
    length dst' = length dst /\
    (forall (i : nat) x, src !! i = Some x ->
                         dst' !! (Z.to_nat off + i)%nat = Some (Some x)) /\
    (forall j, (j < Z.to_nat off)%nat -> dst' !! j = dst !! j).
Proof.
  intros Hn Ho Hroom. unfold memcpy_from, memcpy_pool. cbn [deref].
  destruct (Z.leb_spec 0 n), (Z.leb_spec n (Z.of_nat (length src))); try lia.
  cbn [andb mbind option_bind].
  replace (Z.to_nat n) with (length src) by lia. rewrite firstn_all.
  destruct (write_cells dst off (map Some src)) as [dst' |] eqn:Hw.
  2: { exfalso. unfold write_cells in Hw. rewrite length_map in Hw.
       destruct (Z.leb_spec 0 off),
                (Z.leb_spec (off + Z.of_nat (length src))
                            (Z.of_nat (length dst)));
         cbn [andb] in Hw; try discriminate; lia. }
  exists dst'. split; [reflexivity |].
  pose proof (write_cells_spec _ _ _ _ Hw) as (Hl & Hin & Hout & _).
  split; [exact Hl |]. split.
  - intros i x Hx. rewrite Hin
      by (rewrite length_map; apply lookup_lt_Some in Hx; exact Hx).
    change (map Some src) with (Some <$> src).
    rewrite list_lookup_fmap, Hx. reflexivity.
  - intros j Hj. apply Hout. left. exact Hj.
Qed.

(** X22. A loader within its limits reads back what [loadObjects] is given.
    When the objects fit ([curLoadedObjs + num_objs <= maxObjs]) and the
    arrays of the hulls fit what is left of the four pools, the call
    returns the old [curLoadedObjs] and adds [num_objs] to it; the
    metadata, boxes and primitives are at the returned offset in the
    order given; every hull there points into the pools and its arrays
    read as the arrays of the caller did; objects loaded before and any
    mesh already in the pools read as before; and the loader is again
    within its limits. *)
Theorem loadObjects_reads_back impl (metadatas_in : list RigidBodyMetadata)
    (aabbs_in : list AABB) (prims : list CollisionPrimitive) (num_objs : Z)
    (Hok : loader_ok CountT_bits impl)
    (Hn : num_objs = Z.of_nat (length prims))
    (Hmd : length metadatas_in = length prims)
    (Hbb : length aabbs_in = length prims)
    (Hint : num_objs < 2 ^ 31)
    (Hroom : curLoadedObjs impl + num_objs <= maxObjs impl)
    (Hcaller : Forall caller_prim prims)
    (Rp : polygonCount impl + total mPolygonCount prims
          <= Z.of_nat (length (polygonDatas impl)))
    (Re : edgeCount impl + total mEdgeCount prims
          <= Z.of_nat (length (edgeDatas impl)))
    (Rh : halfEdgeCount impl + total mHalfEdgeCount prims
          <= Z.of_nat (length (halfEdges impl)))
    (Rv : vertexCount impl + total mVertexCount prims
          <= Z.of_nat (length (vertices impl))) :
  exists impl',
    loadObjects_CPU NDEBUG CountT_bits impl metadatas_in aabbs_in prims num_objs
    = Ok (impl', curLoadedObjs impl) /\
    loader_ok CountT_bits impl' /\
    curLoadedObjs impl' = curLoadedObjs impl + num_objs /\
    maxObjs impl' = maxObjs impl /\
    (forall (i : nat) x, metadatas_in !! i = Some x ->
       metadatas impl' !! (Z.to_nat (curLoadedObjs impl) + i)%nat
       = Some (Some x)) /\
    (forall (i : nat) x, aabbs_in !! i = Some x ->
       aabbs impl' !! (Z.to_nat (curLoadedObjs impl) + i)%nat
       = Some (Some x)) /\
    (forall (i : nat) prim, prims !! i = Some prim ->
       exists prim',
         primitives impl' !! (Z.to_nat (curLoadedObjs impl) + i)%nat
         = Some (Some prim') /\
         loaded_as impl' prim prim') /\
    (forall j, (j < Z.to_nat (curLoadedObjs impl))%nat ->
       metadatas impl' !! j = metadatas impl !! j /\
       aabbs impl' !! j = aabbs impl !! j /\
       primitives impl' !! j = primitives impl !! j) /\
    (forall m, pooled_mesh impl m ->
       pooled_mesh impl' m /\ read_mesh impl' m = read_mesh impl m).
Proof.
  pose proof Hok as [Kc Km Kmd Kbb Kpr Kp Ke Kh Kv Fp Fe Fh Fv].
  destruct (load_hulls_caller prims impl Hok Hcaller Rp Re Rh Rv)
    as (impl1 & prims' & Hloop & Hex & Ok1 & Hloaded & Cp & Ce & Ch & Cv).
  pose proof Hex as [Emd Ebb Epr Ecur Emax Est (Lp & _) (Le & _) (Lh & _)
                         (Lv & _)].
  pose proof Ok1 as [Kc1 Km1 Kmd1 Kbb1 Kpr1 Kp1 Ke1 Kh1 Kv1 Fp1 Fe1 Fh1 Fv1].
  destruct (memcpy_from_spec (metadatas impl1) (curLoadedObjs impl)
              metadatas_in num_objs)
    as (md & Hmdc & Lmd & Imd & Omd); [lia | lia | rewrite Emd; lia |].
  destruct (memcpy_from_spec (aabbs impl1) (curLoadedObjs impl)
              aabbs_in num_objs)
    as (bb & Hbbc & Lbb & Ibb & Obb); [lia | lia | rewrite Ebb; lia |].
  pose proof (Forall2_length _ _ _ Hloaded) as Hlen'.
  destruct (write_cells (primitives impl1) (curLoadedObjs impl)
              (map Some prims')) as [pr |] eqn:Hpr.
  2: { exfalso. unfold write_cells in Hpr. rewrite length_map, Epr in Hpr.
       destruct (Z.leb_spec 0 (curLoadedObjs impl)),
                (Z.leb_spec (curLoadedObjs impl + Z.of_nat (length prims'))
                            (Z.of_nat (length (primitives impl))));
         cbn [andb] in Hpr; try discriminate; lia. }
  pose proof (write_cells_spec _ _ _ _ Hpr) as (Lpr & Ipr & Opr & _).
  eexists. split.
  { unfold loadObjects_CPU.
    rewrite (is_CountT_between 0 (curLoadedObjs impl + num_objs) (maxObjs impl));
      [| apply (is_CountT_zero _ Km); lia | exact Km | lia].
    cbn [negb].
    rewrite (proj2 (Z.leb_le _ _) Hroom). cbn [negb]. rewrite andb_false_r.
    destruct (Z.leb_spec 0 num_objs),
             (Z.leb_spec num_objs (Z.of_nat (length prims))); try lia.
    cbn [andb defined mbind Outcome_mbind Outcome_bind].
    destruct (Z.leb_spec (2 ^ 31) num_objs); [lia |].
    replace (Z.to_nat num_objs) with (length prims) by lia.
    rewrite firstn_all, Hloop.
    cbn [defined mbind Outcome_mbind Outcome_bind].
    rewrite Hmdc. cbn [defined mbind Outcome_mbind Outcome_bind].
    rewrite Hbbc. cbn [defined mbind Outcome_mbind Outcome_bind].
    rewrite Hpr. cbn [defined mbind Outcome_mbind Outcome_bind].
    reflexivity. }
  cbn [metadatas aabbs primitives curLoadedObjs maxObjs].
  split; [| split; [reflexivity | split; [exact Emax |]]].
  { constructor; cbn [metadatas aabbs primitives curLoadedObjs maxObjs
                      storageType polygonDatas polygonCount edgeDatas edgeCount
                      halfEdges halfEdgeCount vertices vertexCount];
      rewrite ?Lmd, ?Lbb, ?Lpr; try assumption. lia. }
  split; [exact Imd |]. split; [exact Ibb |]. split; [| split].
  - intros i prim Hi.
    destruct (Forall2_lookup_l _ _ _ _ _ Hloaded Hi) as (prim' & Hi' & Hl).
    exists prim'. split; [| exact Hl].
    rewrite Ipr by (rewrite length_map; apply lookup_lt_Some in Hi'; exact Hi').
    change (map Some prims') with (Some <$> prims').
    rewrite list_lookup_fmap, Hi'. reflexivity.
  - intros j Hj. rewrite Omd, Obb, Opr by auto.
    rewrite Emd, Ebb, Epr. auto.
  - intros m Hm. exact (extends_mesh _ _ _ Hex Hm).
Qed.

Lemma pool_append_room {A} (pool pool' : list (option A)) (count count' : Z)
    (p q : ArrayPtr A) (n : Z) :
  pool_append CountT_bits pool count p n = Some (pool', q, count') ->
  count' = count + n /\ count + n <= Z.of_nat (length pool) /\
  length pool' = length pool.
Proof.
  unfold pool_append. intros H. apply bind_Some in H as (pl & Hcopy & H).
  destruct (is_CountT CountT_bits (count + n)); [| discriminate].
  injection H as <- _ <-.
  apply memcpy_pool_room in Hcopy as (_ & _ & Hr & Hl). auto.
Qed.

(** What the loop of [loadObjects] does to the counts when it is defined,
    whatever the pointers of the hulls: no count passes the end of its
    pool. *)
Lemma load_hulls_within (prims : list CollisionPrimitive) :
  forall impl impl' prims',
    load_hulls CountT_bits impl prims = Some (impl', prims') ->
    metadatas impl' = metadatas impl /\
    (length (polygonDatas impl') = length (polygonDatas impl) /\
     polygonCount impl' = polygonCount impl + total mPolygonCount prims /\
     (polygonCount impl <= Z.of_nat (length (polygonDatas impl)) ->
      polygonCount impl' <= Z.of_nat (length (polygonDatas impl)))) /\
    (length (edgeDatas impl') = length (edgeDatas impl) /\
     edgeCount impl' = edgeCount impl + total mEdgeCount prims /\
     (edgeCount impl <= Z.of_nat (length (edgeDatas impl)) ->
      edgeCount impl' <= Z.of_nat (length (edgeDatas impl)))) /\
    (length (halfEdges impl') = length (halfEdges impl) /\
     halfEdgeCount impl' = halfEdgeCount impl + total mHalfEdgeCount prims /\
     (halfEdgeCount impl <= Z.of_nat (length (halfEdges impl)) ->
      halfEdgeCount impl' <= Z.of_nat (length (halfEdges impl)))) /\
    (length (vertices impl') = length (vertices impl) /\
     vertexCount impl' = vertexCount impl + total mVertexCount prims /\
     (vertexCount impl <= Z.of_nat (length (vertices impl)) ->
      vertexCount impl' <= Z.of_nat (length (vertices impl)))).
Proof.
  induction prims as [| prim prims IH]; intros impl impl' prims' H.
  - injection H as <- _. cbn [total fold_right]. rewrite !Z.add_0_r. auto 20.
  - cbn [load_hulls] in H.
    apply bind_Some in H as ([impl1 prim1] & H1 & H).
    apply bind_Some in H as ([impl2 rest] & H2 & H). injection H as <- _.
    destruct (IH _ _ _ H2)
      as (Emd & (Lp & Cp & Bp) & (Le & Ce & Be) & (Lh & Ch & Bh)
          & (Lv & Cv & Bv)).
    rewrite (total_cons mPolygonCount), (total_cons mEdgeCount),
            (total_cons mHalfEdgeCount), (total_cons mVertexCount).
    destruct prim as [m | o]; cbn [load_hull] in H1.
    + apply bind_Some in H1 as ([[pd qp] cp] & Ap & H1).
      apply bind_Some in H1 as ([[ed qe] ce] & Ae & H1).
      apply bind_Some in H1 as ([[he qh] ch] & Ah & H1).
      apply bind_Some in H1 as ([[vs qv] cv] & Av & H1).
      injection H1 as <- _.
      apply pool_append_room in Ap as (-> & Rp & Lp1).
      apply pool_append_room in Ae as (-> & Re & Le1).
      apply pool_append_room in Ah as (-> & Rh & Lh1).
      apply pool_append_room in Av as (-> & Rv & Lv1).
      cbn [metadatas polygonDatas polygonCount edgeDatas edgeCount
           halfEdges halfEdgeCount vertices vertexCount] in *.
      rewrite Lp1 in *. rewrite Le1 in *. rewrite Lh1 in *. rewrite Lv1 in *.
      split; [exact Emd |].
      repeat split; try assumption; try lia; intros _; auto.
    + injection H1 as <- _. auto 20.
Qed.

(** X23. [loadObjects] checks the number of objects only.  Nothing compares
    the number of polygons, edges, half edges or vertices with the size of
    the pool they are copied to: when the arrays of the hulls among the
    objects are larger than what is left of one of the four pools, the
    copy runs past the end of the pool, which is undefined behaviour,
    although [curLoadedObjs + num_objs <= maxObjs] holds. *)
Theorem loadObjects_pool_overflow impl (metadatas_in : list RigidBodyMetadata)
    (aabbs_in : list AABB) (prims : list CollisionPrimitive) (num_objs : Z)
    (Hok : loader_ok CountT_bits impl)
    (Hn : 0 <= num_objs <= Z.of_nat (length prims))
    (Hroom : curLoadedObjs impl + num_objs <= maxObjs impl)
    (Hover :
       Z.of_nat (length (polygonDatas impl))
       < polygonCount impl
         + total mPolygonCount (take (Z.to_nat num_objs) prims) \/
       Z.of_nat (length (edgeDatas impl))
       < edgeCount impl + total mEdgeCount (take (Z.to_nat num_objs) prims) \/
       Z.of_nat (length (halfEdges impl))
       < halfEdgeCount impl
         + total mHalfEdgeCount (take (Z.to_nat num_objs) prims) \/
       Z.of_nat (length (vertices impl))
       < vertexCount impl
         + total mVertexCount (take (Z.to_nat num_objs) prims)) :
  loadObjects_CPU NDEBUG CountT_bits impl metadatas_in aabbs_in prims num_objs
  = Undefined.
Proof.
  pose proof Hok as [Kc Km Kmd Kbb Kpr Kp Ke Kh Kv Fp Fe Fh Fv].
  unfold loadObjects_CPU.
  rewrite (is_CountT_between 0 (curLoadedObjs impl + num_objs) (maxObjs impl));
    [| apply (is_CountT_zero _ Km); lia | exact Km | lia].
  cbn [negb].
  rewrite (proj2 (Z.leb_le _ _) Hroom). cbn [negb]. rewrite andb_false_r.
  destruct (Z.leb_spec 0 num_objs),
           (Z.leb_spec num_objs (Z.of_nat (length prims))); try lia.
  cbn [andb defined mbind Outcome_mbind Outcome_bind].
  destruct (2 ^ 31 <=? num_objs); [reflexivity |].
  destruct (load_hulls CountT_bits impl (take (Z.to_nat num_objs) prims))
    as [[impl1 prims1] |] eqn:Hloop; [exfalso | reflexivity].
  destruct (load_hulls_within _ _ _ _ Hloop)
    as (_ & (_ & Cp & Bp) & (_ & Ce & Be) & (_ & Ch & Bh) & (_ & Cv & Bv)).
  specialize (Bp ltac:(lia)). specialize (Be ltac:(lia)).
  specialize (Bh ltac:(lia)). specialize (Bv ltac:(lia)).
  lia.
Qed.

(** X24. More objects than [maxObjs].  When [curLoadedObjs + num_objs]
    exceeds [maxObjs] (and is a value of [CountT]), a build with [assert]
    stops at the assertion before anything is copied; a build with
    [NDEBUG] has no check, and on a loader whose [metadatas] holds
    [maxObjs] elements the call never returns normally: the copy of the
    metadata runs past the end of the array. *)
Theorem loadObjects_beyond_maxObjs impl
    (metadatas_in : list RigidBodyMetadata) (aabbs_in : list AABB)
    (prims : list CollisionPrimitive) (num_objs : Z)
    (Hcount : is_CountT CountT_bits (curLoadedObjs impl + num_objs) = true)
    (Hbeyond : maxObjs impl < curLoadedObjs impl + num_objs)
    (Hexact : Z.of_nat (length (metadatas impl)) = maxObjs impl) :
  if NDEBUG
  then forall r,
      loadObjects_CPU NDEBUG CountT_bits impl metadatas_in aabbs_in prims
                      num_objs <> Ok r
  else loadObjects_CPU NDEBUG CountT_bits impl metadatas_in aabbs_in prims
                       num_objs = Fatal.
Proof.
  unfold loadObjects_CPU. rewrite Hcount. cbn [negb].
  rewrite (proj2 (Z.leb_gt _ _) Hbeyond). cbn [negb].
  destruct NDEBUG; cbn [negb andb]; [| reflexivity].
  intros r H.
  apply Outcome_bind_Ok in H as (prims0 & _ & H).
  destruct (2 ^ 31 <=? num_objs); [discriminate |].
  apply Outcome_bind_Ok in H as ([impl1 prims1] & Hloop & H).
  apply Outcome_bind_Ok in H as (md & Hmd & _).
  destruct (load_hulls CountT_bits impl prims0) as [[i1 p1] |] eqn:Hl;
    [| discriminate].
  injection Hloop as -> ->.
  destruct (load_hulls_within _ _ _ _ Hl) as (Emd & _).
  destruct (memcpy_from (metadatas impl1) (curLoadedObjs impl) metadatas_in
              num_objs) as [md' |] eqn:Hc; [| discriminate].
  apply memcpy_pool_room in Hc as (_ & _ & Hr & _).
  rewrite Emd in Hr. lia.
Qed.

Lemma malloc_elements {A} (sizeof_A max_objects per_object : Z) :
  0 < sizeof_A -> 0 <= max_objects -> 0 < per_object ->
  sizeof_A * max_objects * per_object < 2 ^ 64 ->
  Z.of_nat (length (malloc (A := A) sizeof_A
                           (u64 (u64 (sizeof_A * max_objects) * per_object))))
  = per_object * max_objects.
Proof.
  intros Hs Hm Hp Hfit. unfold malloc. rewrite length_replicate.
  assert (H1 : 0 <= sizeof_A * max_objects < 2 ^ 64) by nia.
  unfold u64. rewrite (Z.mod_small (sizeof_A * max_objects)) by exact H1.
  rewrite Z.mod_small by nia.
  replace (sizeof_A * max_objects * per_object)
    with (per_object * max_objects * sizeof_A) by ring.
  rewrite Z.div_mul by lia. nia.
Qed.

Lemma malloc_objects {A} (sizeof_A max_objects : Z) :
  0 < sizeof_A -> 0 <= max_objects ->
  sizeof_A * max_objects * 100 < 2 ^ 64 ->
  Z.of_nat (length (malloc (A := A) sizeof_A (u64 (sizeof_A * max_objects))))
  = max_objects.
Proof.
  intros Hs Hm Hfit. unfold malloc. rewrite length_replicate.
  unfold u64. rewrite Z.mod_small by nia.
  rewrite Z.mul_comm, Z.div_mul by lia. lia.
Qed.

(** X21. [Impl::init] gives a loader within its limits.  For
    [max_objects >= 0], when no byte count wraps in [size_t] and
    [100 * max_objects] is a value of [CountT], the three arrays of
    objects hold [max_objects] elements and each of the four pools holds
    [100 * max_objects]: the 100 polygons, edges, half edges and vertices
    per object are a budget for all the objects together. *)
Theorem init_capacities (s_metadata s_primitive s_polygon s_edge s_half_edge : Z)
    (storage_type : StorageType) (max_objects : Z)
    (Hmax : 0 <= max_objects)
    (Hsizes :
       Forall (fun s => 0 < s /\ s * max_objects * 100 < 2 ^ 64)
              [s_metadata; s_primitive; s_polygon; s_edge; s_half_edge;
               sizeof_Vector3; sizeof_AABB])
    (Hfit : is_CountT CountT_bits (100 * max_objects) = true) :
  let impl : Impl :=
    init s_metadata s_primitive s_polygon s_edge s_half_edge
         storage_type max_objects in
  loader_ok CountT_bits impl /\
  curLoadedObjs impl = 0 /\ maxObjs impl = max_objects /\
  Z.of_nat (length (metadatas impl)) = max_objects /\
  Z.of_nat (length (aabbs impl)) = max_objects /\
  Z.of_nat (length (primitives impl)) = max_objects /\
  Z.of_nat (length (polygonDatas impl)) = 100 * max_objects /\
  Z.of_nat (length (edgeDatas impl)) = 100 * max_objects /\
  Z.of_nat (length (halfEdges impl)) = 100 * max_objects /\
  Z.of_nat (length (vertices impl)) = 100 * max_objects.
Proof.
  cbv zeta.
  repeat (apply Forall_cons in Hsizes as [[? ?] Hsizes]).
  unfold init. cbv zeta.
  cbn [metadatas aabbs primitives curLoadedObjs maxObjs storageType
       polygonDatas polygonCount edgeDatas edgeCount halfEdges halfEdgeCount
       vertices vertexCount].
  pose proof (malloc_objects (A := RigidBodyMetadata) s_metadata max_objects)
    as L1.
  pose proof (malloc_objects (A := AABB) sizeof_AABB max_objects) as L2.
  pose proof (malloc_objects (A := CollisionPrimitive) s_primitive max_objects)
    as L3.
  pose proof (malloc_elements (A := PolygonData) s_polygon max_objects 100)
    as L4.
  pose proof (malloc_elements (A := EdgeData) s_edge max_objects 100) as L5.
  pose proof (malloc_elements (A := HalfEdge) s_half_edge max_objects 100)
    as L6.
  pose proof (malloc_elements (A := Vector3) sizeof_Vector3 max_objects 100)
    as L7.
  specialize (L1 ltac:(assumption) Hmax ltac:(assumption)).
  specialize (L2 ltac:(assumption) Hmax ltac:(assumption)).
  specialize (L3 ltac:(assumption) Hmax ltac:(assumption)).
  specialize (L4 ltac:(assumption) Hmax ltac:(lia) ltac:(assumption)).
  specialize (L5 ltac:(assumption) Hmax ltac:(lia) ltac:(assumption)).
  specialize (L6 ltac:(assumption) Hmax ltac:(lia) ltac:(assumption)).
  specialize (L7 ltac:(assumption) Hmax ltac:(lia) ltac:(assumption)).
  assert (Hzero : is_CountT CountT_bits 0 = true)
    by (apply (is_CountT_zero _ Hfit); lia).
  split; [| auto 10].
  constructor;
    cbn [metadatas aabbs primitives curLoadedObjs maxObjs storageType
         polygonDatas polygonCount edgeDatas edgeCount halfEdges halfEdgeCount
         vertices vertexCount];
    rewrite ?L1, ?L2, ?L3, ?L4, ?L5, ?L6, ?L7; try lia; try exact Hfit.
  apply (is_CountT_between 0 _ (100 * max_objects)); [assumption .. | lia].
Qed.

End LoaderFacts.

Lemma sample_loader_ok : PhysicsLoader.loader_ok 32 sample_loader.
Proof.
  constructor; vm_compute; try reflexivity;
    try (split; intro; discriminate); intro; discriminate.
Qed.

Lemma init_capacities_witness :
  PhysicsLoader.loader_ok 32 sample_loader /\
  Z.of_nat (length (PhysicsLoader.polygonDatas sample_loader)) = 200.
Proof.
  destruct (init_capacities (FO := prim_float_ops)
              (RigidBodyMetadata := Z) (PolygonData := Z) (EdgeData := Z)
              (HalfEdge := Z) (OtherPrimitive := Z)
              32 8 64 4 4 4 PhysicsLoader.CPU 2
              ltac:(lia)
              ltac:(repeat constructor; vm_compute; reflexivity)
              eq_refl)
    as (H1 & _ & _ & _ & _ & _ & H2 & _).
  split; [exact H1 | exact H2].
Defined.

Lemma loadObjects_reads_back_witness :
  exists impl',
    PhysicsLoader.loadObjects_CPU false 32 sample_loader
      [10; 11] [AABB_invalid; AABB_invalid] sample_prims 2
    = Ok (impl', 0) /\
    PhysicsLoader.curLoadedObjs impl' = 2 /\
    PhysicsLoader.loader_ok 32 impl'.
Proof.
  destruct (loadObjects_reads_back (FO := prim_float_ops) false 32
              sample_loader [10; 11] [AABB_invalid; AABB_invalid]
              sample_prims 2 sample_loader_ok eq_refl eq_refl eq_refl
              ltac:(lia) ltac:(vm_compute; intro; discriminate)
              ltac:(repeat constructor; vm_compute; intro; discriminate)
              ltac:(vm_compute; intro; discriminate)
              ltac:(vm_compute; intro; discriminate)
              ltac:(vm_compute; intro; discriminate)
              ltac:(vm_compute; intro; discriminate))
    as (impl' & H1 & H2 & H3 & _).
  exists impl'. split; [exact H1 |]. split; [exact H3 | exact H2].
Defined.

Lemma loadObjects_pool_overflow_witness :
  PhysicsLoader.loadObjects_CPU false 32 sample_loader
    [10] [AABB_invalid] [sample_large_hull] 1
  = Undefined.
Proof.
  apply (loadObjects_pool_overflow (FO := prim_float_ops) false 32
           sample_loader [10] [AABB_invalid] [sample_large_hull] 1
           sample_loader_ok).
  - vm_compute. split; intro; discriminate.
  - vm_compute. intro; discriminate.
  - left. vm_compute. reflexivity.
Defined.

Lemma loadObjects_beyond_maxObjs_witness :
  PhysicsLoader.loadObjects_CPU false 32 sample_loader
    [10; 11; 12] [AABB_invalid; AABB_invalid; AABB_invalid]
    [PhysicsLoader.NotHull 1; PhysicsLoader.NotHull 2; PhysicsLoader.NotHull 3]
    3
  = Fatal.
Proof.
  exact (loadObjects_beyond_maxObjs (FO := prim_float_ops) false 32
           sample_loader [10; 11; 12]
           [AABB_invalid; AABB_invalid; AABB_invalid]
           [PhysicsLoader.NotHull 1; PhysicsLoader.NotHull 2;
            PhysicsLoader.NotHull 3] 3
           eq_refl ltac:(vm_compute; reflexivity) eq_refl).
Defined.
